(** * Weight-balanced B+-tree with bulk updates and the Pareto queue on top of it

    A shallow embedding of [datastructures/BTree.hpp] (the sequential tree
    with per-slot Pareto minima), of the numeric helpers of the parallel
    tree, and of the pieces of [ParetoQueue] that the verified properties
    are about.

    Conventions of the embedding.
    - Machine integers are mathematical integers ([Z]) with the wrap-around
      of their C++ type written out: [size_type] is 64-bit unsigned,
      [width_type] and [level_type] are 16-bit unsigned, [int] is 32-bit
      two's complement.
    - A leaf is its [slotuse] together with its key array; an inner node is
      its level together with the [slotuse] first slots.  Nodes are owned
      values: a parent slot holds its child.
    - Code that can go wrong (null root, an index past an array) runs in a
      state-and-error monad and reports what went wrong. *)

From Stdlib Require Import ZArith Lia Bool List SpecFloat.
From stdpp Require Import base option list sorting.

Local Open Scope Z_scope.

(** ** Machine arithmetic *)

Definition wrap_unsigned (bits x : Z) : Z := x mod 2 ^ bits.

Definition wrap_signed (bits x : Z) : Z :=
  (x + 2 ^ (bits - 1)) mod 2 ^ bits - 2 ^ (bits - 1).

Definition to_size_type : Z -> Z := wrap_unsigned 64.
Definition to_width_type : Z -> Z := wrap_unsigned 16.
Definition to_level_type : Z -> Z := wrap_unsigned 16.
Definition to_unsigned_int : Z -> Z := wrap_unsigned 32.
Definition to_int : Z -> Z := wrap_signed 32.
Definition to_signed_long : Z -> Z := wrap_signed 64.

Definition b2z (c : bool) : Z := if c then 1 else 0.

(** [#define BTREE_MAX(a,b) ((a) < (b) ? (b) : (a))] *)
Definition BTREE_MAX (a b : Z) : Z := if a <? b then b else a.

(** ** Errors and results

    What the C++ leaves undefined is reported as an error. *)
Inductive error :=
  | NullRoot              (* a member of the absent root is read *)
  | KeyIndexOutOfRange    (* slotkey[i] past the key array of a leaf *)
  | SlotIndexOutOfRange   (* slot[i] past the used slots of an inner node *)
  | LeafIndexOutOfRange   (* leaves[i] past the list of fresh leaves *)
  | UpdateIndexOutOfRange (* updates[i] outside the batch *)
  | DeltaIndexOutOfRange  (* weightdelta[i] past the reserved storage *)
  | LevelIndexOutOfRange  (* subtree_updates_per_level[level] past the vector *)
  | EmptyRange            (* std::min_element of an empty range is read *)
  | NotALeaf              (* a node is used as the other kind *)
  | AssertionFailed       (* a BTREE_ASSERT or assert does not hold *)
  | DivisionByZero        (* an integer is divided by zero *)
  | ConversionOutOfRange  (* a double that the integer type cannot hold *)
  | OutOfFuel.

Inductive result (A : Type) :=
  | Ok (a : A)
  | Err (e : error).
Arguments Ok {A} a.
Arguments Err {A} e.

Definition result_bind {A B} (r : result A) (f : A -> result B) : result B :=
  match r with
  | Ok a => f a
  | Err e => Err e
  end.

#[global] Instance result_ret : MRet result := fun A a => Ok a.
#[global] Instance result_mbind : MBind result := fun A B f r => result_bind r f.

Definition of_option {A} (e : error) (o : option A) : result A :=
  match o with
  | Some a => Ok a
  | None => Err e
  end.

(** Arrays: a read or a write past the end is an error. *)
Definition array_get {A} (e : error) (arr : list A) (i : nat) : result A :=
  of_option e (arr !! i).

Definition array_set {A} (e : error) (arr : list A) (i : nat) (x : A)
  : result (list A) :=
  if (i <? length arr)%nat then Ok (<[i := x]> arr) else Err e.

(** An index held in a signed or unsigned machine integer. *)
Definition array_get_Z {A} (e : error) (arr : list A) (i : Z) : result A :=
  if i <? 0 then Err e else array_get e arr (Z.to_nat i).

(** ** Double precision

    [double] is IEEE 754 binary64 and is computed with the Standard
    Library's specification of the format: products and quotients round to
    the nearest double, ties to even.  [log] is the C library's function;
    the source does not define it, so the embedding takes it as a
    parameter. *)
Definition double : Type := spec_float.

Class libm := { log : double -> double }.

(** Conversion of an integer, as in [(double) n]. *)
Definition double_of_Z (x : Z) : double := binary_normalize 53 1024 x 0 false.

Definition double_mul : double -> double -> double := SFmul 53 1024.
Definition double_div : double -> double -> double := SFdiv 53 1024.

(** [ceil]: the least integer that is not below a finite double. *)
Definition ceil (x : double) : option Z :=
  match x with
  | S754_zero _ => Some 0
  | S754_finite s m e =>
      let m := if s then Z.neg m else Z.pos m in
      Some (if 0 <=? e then m * 2 ^ e else - ((- m) / 2 ^ (- e)))
  | S754_infinity _ | S754_nan => None
  end.

(** Conversion of [ceil]'s value to [level_type]: defined when the value
    is within the range of the type. *)
Definition level_type_of_ceil (x : double) : result Z :=
  match ceil x with
  | Some v => if (0 <=? v) && (v <? 2 ^ 16) then Ok v
              else Err ConversionOutOfRange
  | None => Err ConversionOutOfRange
  end.

(** ** Traits: the two parameters of the tree *)

Class btree_traits := {
  leafparameter_k : Z;
  branchingparameter_b : Z
}.

(** [btree_default_traits]: both parameters are raised to at least 8. *)
Definition btree_default_traits (LEAF_PARAMETER_K BRANCHING_PARAMETER_B : Z)
  : btree_traits :=
  {| leafparameter_k := to_unsigned_int (BTREE_MAX 8 LEAF_PARAMETER_K);
     branchingparameter_b := to_unsigned_int (BTREE_MAX 8 BRANCHING_PARAMETER_B) |}.

Section Constants.
Context `{traits : btree_traits} `{lm : libm}.

Definition leafslotmax : Z := to_width_type leafparameter_k.
Definition leafslotmin : Z := to_width_type (leafparameter_k / 4).
Definition designated_leafsize : Z :=
  to_width_type ((leafslotmax + leafslotmin) / 2).
Definition innerslotmax : Z :=
  to_width_type (to_unsigned_int (branchingparameter_b * 4)).
Definition innerslotmin : Z := to_width_type (branchingparameter_b / 4).

(** [ipow(int base, int exp)]: square-and-multiply; [result] is a
    [size_type], [base] and [exp] are [int].  The loop runs once per bit
    of [exp], so 32 rounds exhaust every positive [int]. *)
Fixpoint ipow_loop (rounds : nat) (result base exp : Z) : Z :=
  match rounds with
  | O => result
  | S rounds' =>
      if 0 <? exp then
        let result' :=
          if negb (Z.land exp 1 =? 0) then to_size_type (result * base)
          else result in
        ipow_loop rounds' result' (to_int (base * base)) (Z.shiftr exp 1)
      else result
  end.

Definition ipow (base exp : Z) : Z :=
  ipow_loop 32 1 (to_int base) (to_int exp).

Definition minweight (level : Z) : Z :=
  to_size_type (ipow branchingparameter_b level * leafparameter_k) / 4.

Definition maxweight (level : Z) : Z :=
  to_size_type (ipow branchingparameter_b level * leafparameter_k).

(** Sequential tree: the midpoint of the child level's weight bounds,
    rounded to a multiple of [designated_leafsize]. *)
Definition designated_subtreesize (level : Z) : Z :=
  let num_to_round :=
    to_size_type (maxweight (to_level_type (level - 1))
                  + minweight (to_level_type (level - 1))) / 2 in
  let remaining := num_to_round mod designated_leafsize in
  if remaining =? 0 then num_to_round
  else
    let diff_in_single_tree_case := remaining in
    let diff_in_extra_tree_case := to_size_type (designated_leafsize - remaining) in
    to_size_type (num_to_round - remaining
                  + designated_leafsize
                    * b2z (diff_in_extra_tree_case <=? diff_in_single_tree_case)).

(** Sequential tree: number of subtrees of designated size [subtreesize]
    that hold [n] keys. *)
Definition num_subtrees (n subtreesize : Z) : Z :=
  let num_subtrees := n / subtreesize in
  let remaining := n mod subtreesize in
  let diff_in_single_tree_case := remaining in
  let diff_in_extra_tree_case := to_size_type (subtreesize - remaining) in
  let num_subtrees :=
    to_size_type (num_subtrees
                  + b2z (diff_in_extra_tree_case <=? diff_in_single_tree_case)) in
  to_size_type (num_subtrees + b2z ((0 <? n) && (num_subtrees =? 0))).

(** Sequential tree:
    [ceil( log((8.0*n)/(5.0*traits::leafparameter_k))
           / log(traits::branchingparameter_b) )], in double precision. *)
Definition num_optimal_levels (n : Z) : result Z :=
  if n <=? designated_leafsize then Ok 0
  else
    level_type_of_ceil
      (double_div
         (log (double_div (double_mul (double_of_Z 8) (double_of_Z n))
                          (double_mul (double_of_Z 5)
                                      (double_of_Z leafparameter_k))))
         (log (double_of_Z branchingparameter_b))).

End Constants.

(** ** The numeric helpers of the parallel tree

    The parallel tree has functions of the same names that differ from the
    sequential ones. *)
Module Parallel.
Section Constants.
Context `{traits : btree_traits} `{lm : libm}.

Definition designated_subtreesize (level : Z) : Z :=
  to_size_type (maxweight (to_level_type (level - 1))
                + minweight (to_level_type (level - 1))) / 2.

Definition num_subtrees (n subtreesize : Z) : Z :=
  let num_subtrees := n / subtreesize in
  let remaining := n mod subtreesize in
  let diff_in_single_tree_case := remaining in
  let diff_in_extra_tree_case := to_size_type (subtreesize - remaining) in
  to_size_type (num_subtrees
                + b2z (diff_in_extra_tree_case <=? diff_in_single_tree_case)).

(** [ceil( log(2 * ((double) n)/traits::leafparameter_k)
           / log(traits::branchingparameter_b) )], less one when that level
    takes one subtree.  [num_subtrees] divides by the designated size. *)
Definition num_optimal_levels (n : Z) : result Z :=
  if n <=? leafslotmax then Ok 0
  else
    opt_levels ←
      level_type_of_ceil
        (double_div
           (log (double_div (double_mul (double_of_Z 2) (double_of_Z n))
                            (double_of_Z leafparameter_k)))
           (log (double_of_Z branchingparameter_b)));
    let subtreesize := designated_subtreesize opt_levels in
    if subtreesize =? 0 then Err DivisionByZero
    else
      Ok (to_level_type
            (opt_levels - b2z (num_subtrees n subtreesize =? 1))).

End Constants.
End Parallel.

Definition traits_8_8 : btree_traits := btree_default_traits 8 8.
Definition traits_10_8 : btree_traits := btree_default_traits 10 8.

(** ** Keys, comparison, operations *)

Class Compare (key_type : Type) := key_less : key_type -> key_type -> bool.

Section Keys.
Context {key_type : Type} `{Compare key_type}.

Definition key_lessequal (a b : key_type) : bool := negb (key_less b a).
Definition key_greaterequal (a b : key_type) : bool := negb (key_less a b).
Definition key_equal (a b : key_type) : bool :=
  negb (key_less a b) && negb (key_less b a).
End Keys.

Inductive OpType := INSERT | DELETE.

(** [enum OpType {INSERT=1, DELETE=-1}] *)
Definition OpType_value (t : OpType) : Z :=
  match t with
  | INSERT => 1
  | DELETE => -1
  end.

(** [enum OperationBatchType {INSERTS_ONLY=1, DELETES_ONLY=-1, INSERTS_AND_DELETES=2}] *)
Inductive OperationBatchType := INSERTS_ONLY | DELETES_ONLY | INSERTS_AND_DELETES.

Definition OperationBatchType_value (t : OperationBatchType) : Z :=
  match t with
  | INSERTS_ONLY => 1
  | DELETES_ONLY => -1
  | INSERTS_AND_DELETES => 2
  end.

Record Operation (data_type : Type) := mkOperation {
  type : OpType;
  data : data_type
}.
Arguments mkOperation {data_type} type data.
Arguments type {data_type} o.
Arguments data {data_type} o.

(** ** Weight delta of a batch (sequential tree)

    [weightdelta] is the reserved storage of the vector; the loop writes
    the exclusive prefix sum of the operation types into it. *)
Section WeightDelta.
Context {key_type : Type}.

(** The loop of [setOperationsAndComputeWeightDelta]; [rest] are the
    operations from index [i] on, [val] the running sum. *)
Fixpoint weightdelta_loop (rest : list (Operation key_type)) (i : nat)
    (val : Z) (weightdelta : list Z) : result (list Z) :=
  match rest with
  | [] => Ok weightdelta
  | op :: rest' =>
      let val' := to_signed_long (val + OpType_value (type op)) in
      weightdelta' ← array_set DeltaIndexOutOfRange weightdelta (S i) val';
      weightdelta_loop rest' (S i) val' weightdelta'
  end.

(** Returns the new weight-delta storage and the new size of the tree. *)
Definition setOperationsAndComputeWeightDelta_pure (size : Z)
    (weightdelta : list Z) (_updates : list (Operation key_type))
    (_batch_type : OperationBatchType) : result (list Z * Z) :=
  match _batch_type with
  | INSERTS_AND_DELETES =>
      weightdelta0 ← array_set DeltaIndexOutOfRange weightdelta 0%nat 0;
      weightdelta' ← weightdelta_loop _updates 0%nat 0 weightdelta0;
      last ← array_get DeltaIndexOutOfRange weightdelta' (length _updates);
      Ok (weightdelta', to_size_type (size + last))
  | _ =>
      Ok (weightdelta,
          to_size_type (size + Z.of_nat (length _updates)
                               * to_size_type (OperationBatchType_value _batch_type)))
  end.

Definition getWeightDelta_pure (weightdelta : list Z)
    (batch_type : OperationBatchType) (upd_begin upd_end : nat) : result Z :=
  match batch_type with
  | INSERTS_AND_DELETES =>
      e ← array_get DeltaIndexOutOfRange weightdelta upd_end;
      b ← array_get DeltaIndexOutOfRange weightdelta upd_begin;
      Ok (to_signed_long (e - b))
  | _ =>
      Ok (to_signed_long
            (to_size_type
               (to_size_type (Z.of_nat upd_end - Z.of_nat upd_begin)
                * to_size_type (OperationBatchType_value batch_type))))
  end.
End WeightDelta.

(** ** Weight delta of a batch (parallel tree)

    [PrefixSum] is the body handed to [tbb::parallel_scan]; the scan cuts
    the batch into consecutive blocks, runs the body without output on a
    block to learn its sum (pre-scan), joins the sums from the left, and
    runs the body with output (final scan) from the joined sum. *)
Module PrefixSum.
Section Body.
Context {key_type : Type}.

Definition step (t : OpType) : Z :=
  match t with
  | INSERT => 1
  | DELETE => -1
  end.

(** [operator()] on the block that starts at [i] and holds [block];
    [final] is [Tag::is_final_scan()].  Returns the new [sum] and [out]. *)
Fixpoint run (final : bool) (block : list (Operation key_type)) (i : nat)
    (temp : Z) (out : list Z) : result (Z * list Z) :=
  match block with
  | [] => Ok (temp, out)
  | op :: block' =>
      let temp' := to_signed_long (temp + step (type op)) in
      out' ← (if final then array_set DeltaIndexOutOfRange out (S i) temp'
              else Ok out);
      run final block' (S i) temp' out'
  end.

(** Pre-scan of every block with a fresh body ([sum = 0]), then
    [reverse_join] from the left and the final scan of the block. *)
Fixpoint scan_blocks (blocks : list (list (Operation key_type))) (i : nat)
    (left_sum : Z) (out : list Z) : result (Z * list Z) :=
  match blocks with
  | [] => Ok (left_sum, out)
  | block :: blocks' =>
      '(block_sum, _) ← run false block i 0 out;
      let joined := to_signed_long (left_sum + block_sum) in
      '(_, out') ← run true block i left_sum out;
      scan_blocks blocks' (i + length block)%nat joined out'
  end.

(** [setOperationsAndComputeWeightDelta] of the parallel tree, for the
    cut of the batch into [blocks] that the scheduler chose:
    [weightdelta.resize(n + 1); weightdelta[0] = 0;] and the scan. *)
Definition setOperationsAndComputeWeightDelta (size : Z) (weightdelta : list Z)
    (blocks : list (list (Operation key_type))) : result (list Z * Z) :=
  let n := length (concat blocks) in
  let weightdelta0 := <[0%nat := 0]> (resize (n + 1) 0 weightdelta) in
  '(sum, weightdelta') ← scan_blocks blocks 0%nat 0 weightdelta0;
  Ok (weightdelta', to_size_type (size + sum)).
End Body.
End PrefixSum.

(** ** Batch binary search

    [find_lower(int lo, int hi, key)]: the arguments and the midpoint are
    32-bit [int]s; [lo + hi] wraps around when it leaves the [int] range and
    [>> 1] is the arithmetic shift.  [updates_at] reads [updates[mid].data];
    the halving loop needs at most 32 rounds on a 32-bit range. *)
Section FindLower.
Context {key_type : Type} `{Compare key_type}.
Variable updates_at : Z -> result (Operation key_type).

Definition find_lower_mid (lo hi : Z) : Z := Z.shiftr (to_int (lo + hi)) 1.

Fixpoint find_lower_loop (rounds : nat) (lo hi : Z) (key : key_type) : result Z :=
  match rounds with
  | O => Err OutOfFuel
  | S rounds' =>
      if lo <? hi then
        let mid := find_lower_mid lo hi in
        op ← updates_at mid;
        if key_less key (data op) then find_lower_loop rounds' lo mid key
        else find_lower_loop rounds' (to_int (mid + 1)) hi key
      else Ok hi
  end.

Definition find_lower (lo hi : Z) (key : key_type) : result Z :=
  find_lower_loop 64 (to_int lo) (to_int hi) key.
End FindLower.

(** ** Leaves *)

Record leaf_node (key_type : Type) := mk_leaf_node {
  leaf_slotuse : nat;
  leaf_slotkey : list key_type
}.
Arguments mk_leaf_node {key_type} leaf_slotuse leaf_slotkey.
Arguments leaf_slotuse {key_type} l.
Arguments leaf_slotkey {key_type} l.

(** The keys a leaf holds: the first [slotuse] cells of its array. *)
Definition leaf_keys {key_type} (l : leaf_node key_type) : list key_type :=
  take (leaf_slotuse l) (leaf_slotkey l).

(** The operations [updates[upd_begin .. upd_end)]. *)
Definition batch_range {A} (updates : list A) (upd_begin upd_end : Z)
  : result (list A) :=
  if (0 <=? upd_begin) && (upd_begin <=? upd_end)
     && (upd_end <=? Z.of_nat (length updates))
  then Ok (take (Z.to_nat (upd_end - upd_begin)) (drop (Z.to_nat upd_begin) updates))
  else Err UpdateIndexOutOfRange.

(** ** Patching a leaf into the spare leaf

    The merge loop of [update_leaf_in_current_tree].  [in_] indexes the old
    leaf, [out] the result array; each [while] copies keys of the old leaf
    that are smaller than the key of the current operation. *)
Section LeafMerge.
Context {key_type : Type} `{Compare key_type}.

Record merge_cursor := mk_cursor {
  in_ : nat;
  out : nat;
  result_slotkey : list key_type
}.

(** [result->slotkey[out++] = leaf->slotkey[in++]] *)
Definition copy_one (leaf : leaf_node key_type) (c : merge_cursor)
  : result merge_cursor :=
  y ← array_get KeyIndexOutOfRange (leaf_slotkey leaf) (in_ c);
  arr ← array_set KeyIndexOutOfRange (result_slotkey c) (out c) y;
  Ok (mk_cursor (S (in_ c)) (S (out c)) arr).

(** [result->slotkey[out++] = x] *)
Definition put_one (x : key_type) (c : merge_cursor) : result merge_cursor :=
  arr ← array_set KeyIndexOutOfRange (result_slotkey c) (out c) x;
  Ok (mk_cursor (in_ c) (S (out c)) arr).

(** DELETE: [while (key_less(leaf->slotkey[in], x))], no bounds check in
    the loop test; the body starts with [BTREE_ASSERT(in < leaf->slotuse)],
    which is active when [debug] is set. *)
Fixpoint skip_to_delete (debug : bool) (rounds : nat) (leaf : leaf_node key_type)
    (x : key_type) (c : merge_cursor) : result merge_cursor :=
  match rounds with
  | O => Err OutOfFuel
  | S rounds' =>
      y ← array_get KeyIndexOutOfRange (leaf_slotkey leaf) (in_ c);
      if key_less y x then
        if debug && negb (in_ c <? leaf_slotuse leaf)%nat then Err AssertionFailed
        else
          c' ← copy_one leaf c;
          skip_to_delete debug rounds' leaf x c'
      else Ok c
  end.

(** INSERT: [while (in < leaf->slotuse && key_less(leaf->slotkey[in], x))]. *)
Fixpoint skip_to_insert (rounds : nat) (leaf : leaf_node key_type)
    (x : key_type) (c : merge_cursor) : result merge_cursor :=
  match rounds with
  | O => Err OutOfFuel
  | S rounds' =>
      if (in_ c <? leaf_slotuse leaf)%nat then
        y ← array_get KeyIndexOutOfRange (leaf_slotkey leaf) (in_ c);
        if key_less y x then
          c' ← copy_one leaf c;
          skip_to_insert rounds' leaf x c'
        else Ok c
      else Ok c
  end.

(** Rounds that outlast every run of a copy loop over [leaf]. *)
Definition leaf_rounds (leaf : leaf_node key_type) : nat :=
  S (length (leaf_slotkey leaf)).

Definition merge_step (debug : bool) (leaf : leaf_node key_type)
    (c : merge_cursor) (op : Operation key_type) : result merge_cursor :=
  match type op with
  | DELETE =>
      c' ← skip_to_delete debug (leaf_rounds leaf) leaf (data op) c;
      Ok (mk_cursor (S (in_ c')) (out c') (result_slotkey c'))
  | INSERT =>
      c' ← skip_to_insert (leaf_rounds leaf) leaf (data op) c;
      put_one (data op) c'
  end.

(** [for (i = upd.upd_begin; i != upd.upd_end; ++i)] with the loop body
    [step]. *)
Fixpoint for_each_op {S : Type} (step : S -> Operation key_type -> result S)
    (c : S) (ops : list (Operation key_type)) : result S :=
  match ops with
  | [] => Ok c
  | op :: ops' =>
      c' ← step c op;
      for_each_op step c' ops'
  end.

(** [memcpy(dst + out, src + in, n)] on key arrays. *)
Definition memcpy (dst : list key_type) (out : nat) (src : list key_type)
    (in_ n : nat) : result (list key_type) :=
  if ((out + n <=? length dst) && (in_ + n <=? length src))%nat
  then Ok (take out dst ++ take n (drop in_ src) ++ drop (out + n) dst)
  else Err KeyIndexOutOfRange.

(** The end of [update_leaf_in_current_tree]: the rest of the old leaf is
    copied behind the merged keys and [slotuse] is set. *)
Definition finish_merge (leaf : leaf_node key_type) (c : merge_cursor)
  : result (leaf_node key_type) :=
  if (leaf_slotuse leaf <? in_ c)%nat then Err KeyIndexOutOfRange
  else
    let n := (leaf_slotuse leaf - in_ c)%nat in
    arr ← memcpy (result_slotkey c) (out c) (leaf_slotkey leaf) (in_ c) n;
    Ok (mk_leaf_node (out c + leaf_slotuse leaf - in_ c)%nat arr).

(** The leaf that [update_leaf_in_current_tree] builds in the storage of
    the spare leaf [spare]. *)
Definition merge_into_spare (debug : bool) (spare leaf : leaf_node key_type)
    (ops : list (Operation key_type)) : result (leaf_node key_type) :=
  c ← for_each_op (merge_step debug leaf) (mk_cursor 0 0 (leaf_slotkey spare)) ops;
  finish_merge leaf c.
End LeafMerge.

(** The parallel tree skips to a DELETE target by equality:
    [while (!key_equal(leaf->slotkey[in], x))]. *)
Module ParallelLeaf.
Section LeafMerge.
Context {key_type : Type} `{Compare key_type}.

Fixpoint skip_to_delete (rounds : nat) (leaf : leaf_node key_type)
    (x : key_type) (c : merge_cursor) : result merge_cursor :=
  match rounds with
  | O => Err OutOfFuel
  | S rounds' =>
      y ← array_get KeyIndexOutOfRange (leaf_slotkey leaf) (in_ c);
      if negb (key_equal y x) then
        c' ← copy_one leaf c;
        skip_to_delete rounds' leaf x c'
      else Ok c
  end.

Definition merge_step (leaf : leaf_node key_type) (c : merge_cursor)
    (op : Operation key_type) : result merge_cursor :=
  match type op with
  | DELETE =>
      c' ← skip_to_delete (leaf_rounds leaf) leaf (data op) c;
      Ok (mk_cursor (S (in_ c')) (out c') (result_slotkey c'))
  | INSERT =>
      c' ← skip_to_insert (leaf_rounds leaf) leaf (data op) c;
      put_one (data op) c'
  end.

Definition merge_into_spare (spare leaf : leaf_node key_type)
    (ops : list (Operation key_type)) : result (leaf_node key_type) :=
  c ← for_each_op (merge_step leaf) (mk_cursor 0 0 (leaf_slotkey spare)) ops;
  finish_merge leaf c.
End LeafMerge.
End ParallelLeaf.

(** ** The merge of a leaf with a batch, on lists

    What the merge loops compute, stated on the list of the keys of the old
    leaf: [keys_below x] are the keys a copy loop passes before it stops at
    [x], [keys_from x] the keys it leaves. *)
Section MergeKeys.
Context {key_type : Type} `{Compare key_type}.

Fixpoint keys_below (x : key_type) (keys : list key_type) : list key_type :=
  match keys with
  | [] => []
  | y :: keys' => if key_less y x then y :: keys_below x keys' else []
  end.

Fixpoint keys_from (x : key_type) (keys : list key_type) : list key_type :=
  match keys with
  | [] => []
  | y :: keys' => if key_less y x then keys_from x keys' else keys
  end.

Fixpoint merge_keys (keys : list key_type) (ops : list (Operation key_type))
  : list key_type :=
  match ops with
  | [] => keys
  | op :: ops' =>
      match type op with
      | DELETE =>
          keys_below (data op) keys
          ++ merge_keys (tail (keys_from (data op) keys)) ops'
      | INSERT =>
          keys_below (data op) keys
          ++ data op :: merge_keys (keys_from (data op) keys) ops'
      end
  end.

(** The keys that a batch deletes and the keys that it inserts. *)
Definition delete_targets (ops : list (Operation key_type)) : list key_type :=
  omap (fun op => match type op with
                  | DELETE => Some (data op)
                  | INSERT => None
                  end) ops.

Definition insert_keys (ops : list (Operation key_type)) : list key_type :=
  omap (fun op => match type op with
                  | INSERT => Some (data op)
                  | DELETE => None
                  end) ops.

Definition key_lt (a b : key_type) : Prop := key_less a b = true.

(** The preconditions of a batch range for a set of keys: sorted by key,
    every DELETE targets a present key, no INSERT collides. *)
Definition valid_batch (keys : list key_type) (ops : list (Operation key_type))
  : Prop :=
  StronglySorted (fun o1 o2 => key_lt (data o1) (data o2)) ops
  /\ Forall (fun op => match type op with
                       | DELETE => data op ∈ keys
                       | INSERT => data op ∉ keys
                       end) ops.
End MergeKeys.

(** The comparison is a strict total order. *)
Class StrictTotalOrder (key_type : Type) `{Compare key_type} := {
  key_less_irrefl : forall a : key_type, key_less a a = false;
  key_less_trans : forall a b c : key_type,
    key_less a b = true -> key_less b c = true -> key_less a c = true;
  key_less_total : forall a b : key_type,
    key_less a b = false -> key_less b a = false -> a = b
}.

(** ** Labels and queue entries *)

(** Modelled from the spec: the class of the queue's labels is not among
    the sources.  A label, the minimum descriptor of an entry, carries the
    two weights that [BTreeSetOrderer] and [find_pareto_minima] read as
    [first_weight] and [second_weight]. *)
Record Label := mk_Label {
  first_weight : Z;
  second_weight : Z
}.

(** Modelled from the spec: a queue entry is a node with a label; the
    sources read its [node] and the two weights of its label. *)
Record NodeLabel := mk_NodeLabel {
  node_id : Z;
  label : Label
}.

Definition key_type := NodeLabel.
Definition min_key_type := Label.

(** The value-initialised key of a fresh node. *)
Definition default_key : key_type := mk_NodeLabel 0 (mk_Label 0 0).

(** [BTreeSetOrderer::operator()]: by first weight, then second weight,
    then node. *)
#[global] Instance BTreeSetOrderer : Compare key_type := fun i j =>
  if first_weight (label i) =? first_weight (label j) then
    if second_weight (label i) =? second_weight (label j) then
      node_id i <? node_id j
    else second_weight (label i) <? second_weight (label j)
  else first_weight (label i) <? first_weight (label j).

(** ** Nodes

    A leaf has level 0.  An inner node carries its level and its used
    slots; a slot owns its child. *)
Inductive node :=
  | Leaf (l : leaf_node key_type)
  | Inner (level : nat) (slot : list inner_node_data)
with inner_node_data :=
  | mk_slot (slotkey : key_type) (weight : Z) (childid : node)
            (minimum : min_key_type).

Definition slotkey (s : inner_node_data) : key_type :=
  match s with mk_slot k _ _ _ => k end.
Definition weight (s : inner_node_data) : Z :=
  match s with mk_slot _ w _ _ => w end.
Definition childid (s : inner_node_data) : node :=
  match s with mk_slot _ _ c _ => c end.
Definition minimum (s : inner_node_data) : min_key_type :=
  match s with mk_slot _ _ _ m => m end.

Definition set_slotkey (k : key_type) (s : inner_node_data) :=
  mk_slot k (weight s) (childid s) (minimum s).
Definition set_weight (w : Z) (s : inner_node_data) :=
  mk_slot (slotkey s) w (childid s) (minimum s).
Definition set_childid (c : node) (s : inner_node_data) :=
  mk_slot (slotkey s) (weight s) c (minimum s).
Definition set_minimum (m : min_key_type) (s : inner_node_data) :=
  mk_slot (slotkey s) (weight s) (childid s) m.

Definition node_level (n : node) : nat :=
  match n with
  | Leaf _ => 0%nat
  | Inner l _ => l
  end.

Definition slotuse (n : node) : nat :=
  match n with
  | Leaf l => leaf_slotuse l
  | Inner _ slots => length slots
  end.

Definition isleafnode (n : node) : bool := (node_level n =? 0)%nat.

(** [static_cast<leaf_node*>] and [static_cast<inner_node*>]; a cast to the
    wrong kind is an error. *)
Definition as_leaf (n : node) : result (leaf_node key_type) :=
  match n with
  | Leaf l => Ok l
  | Inner _ _ => Err NotALeaf
  end.

Definition as_inner (n : node) : result (list inner_node_data) :=
  match n with
  | Leaf _ => Err NotALeaf
  | Inner _ slots => Ok slots
  end.

(** The content of a slot whose fields have not been assigned yet. *)
Definition unassigned_slot : inner_node_data :=
  mk_slot default_key 0 (Leaf (mk_leaf_node 0 [])) (mk_Label 0 0).

(** All keys below a node, from left to right. *)
Fixpoint node_keys (n : node) : list key_type :=
  match n with
  | Leaf l => leaf_keys l
  | Inner _ slots =>
      (fix slots_keys (ss : list inner_node_data) : list key_type :=
         match ss with
         | [] => []
         | s :: ss' => node_keys (childid s) ++ slots_keys ss'
         end) slots
  end.

(** Number of nodes on the longest path down from [n]. *)
Fixpoint node_depth (n : node) : nat :=
  match n with
  | Leaf _ => 1%nat
  | Inner _ slots =>
      S ((fix slots_depth (ss : list inner_node_data) : nat :=
            match ss with
            | [] => 0%nat
            | s :: ss' => Nat.max (node_depth (childid s)) (slots_depth ss')
            end) slots)
  end.

(** ** Pareto minima

    [std::min_element(first, last, comp)]: the position of the first
    smallest element; the position [last] for an empty range. *)
Section MinElement.
Context {A : Type} (comp : A -> A -> bool).

Fixpoint min_element_from (best_pos : nat) (best : A) (pos : nat)
    (rest : list A) : nat :=
  match rest with
  | [] => best_pos
  | x :: rest' =>
      if comp x best then min_element_from pos x (S pos) rest'
      else min_element_from best_pos best (S pos) rest'
  end.

Definition min_element (range : list A) : nat :=
  match range with
  | [] => 0%nat
  | x :: rest => min_element_from 0%nat x 1%nat rest
  end.
End MinElement.

(** A key read as its minimum descriptor. *)
Definition to_min_key (k : key_type) : min_key_type := label k.

(** The comparisons handed to [std::min_element]: by second weight. *)
Definition less_by_second_weight (i j : key_type) : bool :=
  second_weight (label i) <? second_weight (label j).

Definition less_by_minimum (i j : inner_node_data) : bool :=
  second_weight (minimum i) <? second_weight (minimum j).

(** [set_min_element(slot, leaf)] *)
Definition set_min_element_leaf (s : inner_node_data) (n : leaf_node key_type)
  : result inner_node_data :=
  let pos := min_element less_by_second_weight (leaf_keys n) in
  k ← array_get KeyIndexOutOfRange (leaf_slotkey n) pos;
  Ok (set_minimum (to_min_key k) s).

(** [set_min_element(slot, inner)] *)
Definition set_min_element_inner (s : inner_node_data)
    (slots : list inner_node_data) : result inner_node_data :=
  let pos := min_element less_by_minimum slots in
  m ← array_get SlotIndexOutOfRange slots pos;
  Ok (set_minimum (minimum m) s).

(** The test of [find_pareto_minima] on a candidate against the running
    prefix minimum. *)
Definition improves (cand min : min_key_type) : bool :=
  (second_weight cand <? second_weight min)
  || ((first_weight cand =? first_weight min)
      && (second_weight cand =? second_weight min)).

(** The leaf loop: returns the emitted operations. *)
Fixpoint find_pareto_minima_leaf (keys : list key_type) (min : min_key_type)
  : list (Operation key_type) :=
  match keys with
  | [] => []
  | k :: keys' =>
      if improves (to_min_key k) min
      then mkOperation DELETE k :: find_pareto_minima_leaf keys' (to_min_key k)
      else find_pareto_minima_leaf keys' min
  end.

(** [find_pareto_minima(node, prefix_minima, minima)]: the operations
    appended to [minima]. *)
Fixpoint find_pareto_minima_node (n : node) (prefix_minima : min_key_type)
  : list (Operation key_type) :=
  match n with
  | Leaf l => find_pareto_minima_leaf (leaf_keys l) prefix_minima
  | Inner _ slots =>
      (fix inner_loop (ss : list inner_node_data) (min : min_key_type)
         : list (Operation key_type) :=
         match ss with
         | [] => []
         | s :: ss' =>
             if improves (minimum s) min
             then find_pareto_minima_node (childid s) min
                  ++ inner_loop ss' (minimum s)
             else inner_loop ss' min
         end) slots prefix_minima
  end.

(** ** The tree object *)

Record tree_stats := mk_tree_stats {
  itemcount : Z;
  stats_leaves : Z;
  innernodes : Z
}.

Record UpdateDescriptor := mk_UpdateDescriptor {
  rebalancing_needed : bool;
  upd_weight : Z;
  upd_begin : Z;
  upd_end : Z
}.

(** [subtree_updates_per_level] holds scratch arrays only; the tree object
    keeps how many of them there are. *)
Record btree := mk_btree {
  root : option node;
  spare_leaf : leaf_node key_type;
  stats : tree_stats;
  updates : list (Operation key_type);
  batch_type : OperationBatchType;
  leaves : list (leaf_node key_type);
  weightdelta : list Z;
  subtree_updates_per_level : nat
}.

(** Build flags: [NDEBUG] switches the assertions and the node counters
    off; [LARGE_ENOUGH_FOR_EVERYTHING] is the reserved size of
    [weightdelta]. *)
Class build_flags := {
  NDEBUG : bool;
  LARGE_ENOUGH_FOR_EVERYTHING : nat
}.

(** *** The monad of member functions: state and errors *)

Definition M (A : Type) : Type := btree -> result (A * btree).

#[global] Instance M_ret : MRet M := fun A a t => Ok (a, t).
#[global] Instance M_bind : MBind M := fun A B f m t =>
  match m t with
  | Ok (a, t') => f a t'
  | Err e => Err e
  end.

Definition get : M btree := fun t => Ok (t, t).
Definition gets {A} (f : btree -> A) : M A := fun t => Ok (f t, t).
Definition modify (f : btree -> btree) : M unit := fun t => Ok (tt, f t).
Definition fail {A} (e : error) : M A := fun _ => Err e.
Definition lift {A} (r : result A) : M A := fun t =>
  match r with
  | Ok a => Ok (a, t)
  | Err e => Err e
  end.

Definition set_root (r : option node) (t : btree) : btree :=
  mk_btree r (spare_leaf t) (stats t) (updates t) (batch_type t) (leaves t)
           (weightdelta t) (subtree_updates_per_level t).
Definition set_spare_leaf (l : leaf_node key_type) (t : btree) : btree :=
  mk_btree (root t) l (stats t) (updates t) (batch_type t) (leaves t)
           (weightdelta t) (subtree_updates_per_level t).
Definition set_stats (s : tree_stats) (t : btree) : btree :=
  mk_btree (root t) (spare_leaf t) s (updates t) (batch_type t) (leaves t)
           (weightdelta t) (subtree_updates_per_level t).
Definition set_batch (u : list (Operation key_type)) (b : OperationBatchType)
    (wd : list Z) (t : btree) : btree :=
  mk_btree (root t) (spare_leaf t) (stats t) u b (leaves t) wd
           (subtree_updates_per_level t).
Definition set_leaves (ls : list (leaf_node key_type)) (t : btree) : btree :=
  mk_btree (root t) (spare_leaf t) (stats t) (updates t) (batch_type t) ls
           (weightdelta t) (subtree_updates_per_level t).
Definition set_subtree_updates_per_level (n : nat) (t : btree) : btree :=
  mk_btree (root t) (spare_leaf t) (stats t) (updates t) (batch_type t)
           (leaves t) (weightdelta t) n.

Definition set_itemcount (n : Z) (s : tree_stats) : tree_stats :=
  mk_tree_stats n (stats_leaves s) (innernodes s).
Definition add_leaves (d : Z) (s : tree_stats) : tree_stats :=
  mk_tree_stats (itemcount s) (to_size_type (stats_leaves s + d)) (innernodes s).
Definition add_innernodes (d : Z) (s : tree_stats) : tree_stats :=
  mk_tree_stats (itemcount s) (stats_leaves s) (to_size_type (innernodes s + d)).

Section Tree.
Context `{traits : btree_traits} `{flags : build_flags} `{lm : libm}.

Definition gather_stats : bool := negb NDEBUG.

(** [BTREE_ASSERT(x)] *)
Definition BTREE_ASSERT (x : bool) : M unit :=
  if NDEBUG then mret tt else if x then mret tt else fail AssertionFailed.

(** A leaf fresh from the allocator: no key in use, a value-initialised
    array of [leafslotmax] cells. *)
Definition fresh_leaf : leaf_node key_type :=
  mk_leaf_node 0 (replicate (Z.to_nat leafslotmax) default_key).

(** The constructor: no root, a spare leaf, reserved weight-delta storage. *)
Definition new_btree : btree :=
  mk_btree None fresh_leaf (mk_tree_stats 0 0 0) [] INSERTS_ONLY []
           (replicate LARGE_ENOUGH_FOR_EVERYTHING 0) 0.

Definition allocate_leaf : M (leaf_node key_type) :=
  _ ← (if gather_stats then modify (fun t => set_stats (add_leaves 1 (stats t)) t)
       else mret tt);
  mret fresh_leaf.

Definition allocate_leaf_without_count : M (leaf_node key_type) :=
  mret fresh_leaf.

Definition allocate_inner (level : nat) : M node :=
  _ ← (if gather_stats
       then modify (fun t => set_stats (add_innernodes 1 (stats t)) t)
       else mret tt);
  mret (Inner level []).

Definition free_node (n : node) : M unit :=
  if isleafnode n then
    if gather_stats then modify (fun t => set_stats (add_leaves (-1) (stats t)) t)
    else mret tt
  else
    if gather_stats
    then modify (fun t => set_stats (add_innernodes (-1) (stats t)) t)
    else mret tt.

(** [clear_recursive]: frees the subtree bottom-up. *)
Fixpoint clear_recursive (n : node) : M unit :=
  match n with
  | Leaf _ => free_node n
  | Inner _ slots =>
      _ ← (fix clear_slots (ss : list inner_node_data) : M unit :=
             match ss with
             | [] => mret tt
             | s :: ss' =>
                 _ ← clear_recursive (childid s);
                 clear_slots ss'
             end) slots;
      free_node n
  end.

Definition clear : M unit :=
  r ← gets root;
  _ ← match r with
      | Some n =>
          _ ← clear_recursive n;
          modify (set_root None)
      | None => mret tt
      end;
  s ← gets stats;
  _ ← BTREE_ASSERT (innernodes s =? 0);
  BTREE_ASSERT (stats_leaves s =? 0).

Definition size : M Z := gets (fun t => itemcount (stats t)).
Definition empty : M bool := n ← size; mret (n =? 0).
Definition height : M nat :=
  r ← gets root;
  mret match r with
       | None => 0%nat
       | Some n => node_level n
       end.

(** The public [find_pareto_minima(prefix_minima, minima)]: it reads the
    level of the root node without testing the root pointer. *)
Definition find_pareto_minima (prefix_minima : min_key_type)
  : M (list (Operation key_type)) :=
  r ← gets root;
  match r with
  | None => fail NullRoot
  | Some n => mret (find_pareto_minima_node n prefix_minima)
  end.

Definition setOperationsAndComputeWeightDelta
    (_updates : list (Operation key_type)) (_batch_type : OperationBatchType)
  : M Z :=
  t ← get;
  '(wd, new_size) ← lift (setOperationsAndComputeWeightDelta_pure
                            (itemcount (stats t)) (weightdelta t)
                            _updates _batch_type);
  _ ← modify (set_batch _updates _batch_type wd);
  mret new_size.

Definition getWeightDelta (upd_begin upd_end : Z) : M Z :=
  t ← get;
  if (upd_begin <? 0) || (upd_end <? 0) then fail DeltaIndexOutOfRange
  else lift (getWeightDelta_pure (weightdelta t) (batch_type t)
                                 (Z.to_nat upd_begin) (Z.to_nat upd_end)).

(** [update_router]: the router is overwritten unless it already equals
    the new router. *)
Definition update_router (router new_router : key_type) : key_type :=
  if negb (key_equal router new_router) then new_router else router.

(** The loop of [allocate_new_leaves]: [leaves.push_back(allocate_leaf())]. *)
Fixpoint push_fresh_leaves (count : nat) : M unit :=
  match count with
  | O => mret tt
  | S count' =>
      l ← allocate_leaf;
      _ ← modify (fun t => set_leaves (leaves t ++ [l]) t);
      push_fresh_leaves count'
  end.

Definition allocate_new_leaves (n : Z) : M unit :=
  let leaf_count := num_subtrees n designated_leafsize in
  _ ← modify (set_leaves []);
  push_fresh_leaves (Z.to_nat leaf_count).

(** [create_subtree_from_leaves]: returns the number of subtrees and the
    slot as the function leaves it.  Recursion is on the level. *)
Fixpoint create_subtree_from_leaves (slot : inner_node_data)
    (reuse_outnode : bool) (level : nat) (rank_begin rank_end : Z)
  : M (Z * inner_node_data) :=
  _ ← BTREE_ASSERT (0 <? to_size_type (rank_end - rank_begin));
  match level with
  | O =>
      ls ← gets leaves;
      result ← lift (array_get_Z LeafIndexOutOfRange ls
                       (rank_begin / designated_leafsize));
      let slotuse := to_width_type (rank_end - rank_begin) in
      _ ← BTREE_ASSERT (slotuse =? Z.of_nat (leaf_slotuse result));
      slot1 ← lift (set_min_element_leaf slot result);
      k ← lift (array_get_Z KeyIndexOutOfRange (leaf_slotkey result) (slotuse - 1));
      let slot2 := set_slotkey (update_router (slotkey slot1) k) slot1 in
      mret (1, set_childid (Leaf result) slot2)
  | S level' =>
      let n := to_size_type (rank_end - rank_begin) in
      let designated_treesize := designated_subtreesize (Z.of_nat level) in
      let subtrees := to_width_type (num_subtrees n designated_treesize) in
      result ← (if reuse_outnode then mret (childid slot) else allocate_inner level);
      old_slots ← lift (as_inner result);
      let old_slotuse := if reuse_outnode then Z.of_nat (length old_slots) else 0 in
      let new_slotuse := to_width_type (subtrees + old_slotuse) in
      _ ← BTREE_ASSERT (new_slotuse <=? innerslotmax);
      new_slots ←
        (fix fill (count : nat) (i rank : Z) (acc : list inner_node_data)
           : M (list inner_node_data) :=
           match count with
           | O => mret acc
           | S count' =>
               if innerslotmax <=? i then fail SlotIndexOutOfRange
               else
                 let weight :=
                   if negb (i =? new_slotuse - 1) then designated_treesize
                   else to_size_type (rank_end - rank) in
                 '(_, s) ← create_subtree_from_leaves
                             (set_weight weight unassigned_slot) false level'
                             rank (to_size_type (rank + weight));
                 fill count' (i + 1) (to_size_type (rank + weight)) (acc ++ [s])
           end) (Z.to_nat (new_slotuse - old_slotuse)) old_slotuse rank_begin
                (take (Z.to_nat old_slotuse) old_slots);
      slot1 ← lift (set_min_element_inner slot new_slots);
      last ← lift (array_get_Z SlotIndexOutOfRange new_slots (new_slotuse - 1));
      let slot2 := set_slotkey (update_router (slotkey slot1) (slotkey last)) slot1 in
      mret (subtrees, set_childid (Inner (node_level result) new_slots) slot2)
  end.

(** *** Streaming a leaf into the fresh leaves

    [result] of the source is [leaves[leaf_number]] throughout. *)
Record write_cursor := mk_write_cursor {
  w_in : nat;
  w_out : nat;
  w_leaf_number : nat
}.

Definition hasNextLeaf (leaf_count : Z) : M bool :=
  ls ← gets leaves;
  mret (to_size_type (leaf_count + 1) <? Z.of_nat (length ls)).

(** [leaves[i]] *)
Definition leaves_at (i : nat) : M (leaf_node key_type) :=
  ls ← gets leaves;
  lift (array_get LeafIndexOutOfRange ls i).

Definition set_leaves_at (i : nat) (l : leaf_node key_type) : M unit :=
  ls ← gets leaves;
  ls' ← lift (array_set LeafIndexOutOfRange ls i l);
  modify (set_leaves ls').

(** [result->slotkey[out++] = x] *)
Definition write_key (x : key_type) (c : write_cursor) : M write_cursor :=
  result ← leaves_at (w_leaf_number c);
  arr ← lift (array_set KeyIndexOutOfRange (leaf_slotkey result) (w_out c) x);
  _ ← set_leaves_at (w_leaf_number c) (mk_leaf_node (leaf_slotuse result) arr);
  mret (mk_write_cursor (w_in c) (S (w_out c)) (w_leaf_number c)).

(** [result->slotuse = n] *)
Definition write_slotuse (n : nat) (c : write_cursor) : M unit :=
  result ← leaves_at (w_leaf_number c);
  set_leaves_at (w_leaf_number c) (mk_leaf_node n (leaf_slotkey result)).

(** [if (out == designated_leafsize && hasNextLeaf(leaf_number) && more)
       { result->slotuse = designated_leafsize;
         result = leaves[++leaf_number]; out = 0; }] *)
Definition next_leaf_if_full (more : bool) (c : write_cursor) : M write_cursor :=
  has_next ← hasNextLeaf (Z.of_nat (w_leaf_number c));
  if (Z.of_nat (w_out c) =? designated_leafsize) && has_next && more then
    _ ← write_slotuse (Z.to_nat designated_leafsize) c;
    _ ← leaves_at (S (w_leaf_number c));
    mret (mk_write_cursor (w_in c) 0 (S (w_leaf_number c)))
  else mret c.

(** [result->slotkey[out++] = leaf->slotkey[in++]] and the switch to the
    next fresh leaf. *)
Definition stream_one (leaf : leaf_node key_type) (c : write_cursor)
  : M write_cursor :=
  y ← lift (array_get KeyIndexOutOfRange (leaf_slotkey leaf) (w_in c));
  c1 ← write_key y c;
  next_leaf_if_full true (mk_write_cursor (S (w_in c1)) (w_out c1) (w_leaf_number c1)).

Fixpoint stream_to_delete (rounds : nat) (leaf : leaf_node key_type)
    (x : key_type) (c : write_cursor) : M write_cursor :=
  match rounds with
  | O => fail OutOfFuel
  | S rounds' =>
      y ← lift (array_get KeyIndexOutOfRange (leaf_slotkey leaf) (w_in c));
      if key_less y x then
        _ ← BTREE_ASSERT (w_in c <? leaf_slotuse leaf)%nat;
        c' ← stream_one leaf c;
        stream_to_delete rounds' leaf x c'
      else mret c
  end.

Fixpoint stream_to_insert (rounds : nat) (leaf : leaf_node key_type)
    (x : key_type) (c : write_cursor) : M write_cursor :=
  match rounds with
  | O => fail OutOfFuel
  | S rounds' =>
      if (w_in c <? leaf_slotuse leaf)%nat then
        y ← lift (array_get KeyIndexOutOfRange (leaf_slotkey leaf) (w_in c));
        if key_less y x then
          c' ← stream_one leaf c;
          stream_to_insert rounds' leaf x c'
        else mret c
      else mret c
  end.

Definition stream_step (leaf : leaf_node key_type) (c : write_cursor)
    (op : Operation key_type) : M write_cursor :=
  match type op with
  | DELETE =>
      c' ← stream_to_delete (leaf_rounds leaf) leaf (data op) c;
      mret (mk_write_cursor (S (w_in c')) (w_out c') (w_leaf_number c'))
  | INSERT =>
      c' ← stream_to_insert (leaf_rounds leaf) leaf (data op) c;
      c'' ← write_key (data op) c';
      next_leaf_if_full true c''
  end.

Fixpoint stream_loop (leaf : leaf_node key_type) (c : write_cursor)
    (ops : list (Operation key_type)) : M write_cursor :=
  match ops with
  | [] => mret c
  | op :: ops' =>
      c' ← stream_step leaf c op;
      stream_loop leaf c' ops'
  end.

(** The closing loop [while (in < leaf->slotuse)]; the switch to the next
    fresh leaf also asks for [in < leaf->slotuse]. *)
Fixpoint stream_rest (rounds : nat) (leaf : leaf_node key_type)
    (c : write_cursor) : M write_cursor :=
  match rounds with
  | O => fail OutOfFuel
  | S rounds' =>
      if (w_in c <? leaf_slotuse leaf)%nat then
        y ← lift (array_get KeyIndexOutOfRange (leaf_slotkey leaf) (w_in c));
        c1 ← write_key y c;
        let c2 := mk_write_cursor (S (w_in c1)) (w_out c1) (w_leaf_number c1) in
        c3 ← next_leaf_if_full (w_in c2 <? leaf_slotuse leaf)%nat c2;
        stream_rest rounds' leaf c3
      else mret c
  end.

(** The first fresh leaf and the offset in it for a key of rank [rank]. *)
Definition first_leaf_position (rank : Z) (leaves_size : Z) : Z * Z :=
  let leaf_number := rank / designated_leafsize in
  let offset_in_leaf := to_width_type (rank mod designated_leafsize) in
  if leaves_size <=? leaf_number then
    let leaf_number := to_size_type (leaves_size - 1) in
    (leaf_number, to_width_type (to_size_type (rank - leaf_number * designated_leafsize)))
  else (leaf_number, offset_in_leaf).

Definition write_updated_leaf_to_new_tree (n : node) (rank : Z)
    (upd : UpdateDescriptor) : M unit :=
  ls ← gets leaves;
  let '(leaf_number, offset_in_leaf) :=
    first_leaf_position rank (Z.of_nat (length ls)) in
  _ ← lift (array_get_Z LeafIndexOutOfRange ls leaf_number);
  leaf ← lift (as_leaf n);
  us ← gets updates;
  ops ← lift (batch_range us (upd_begin upd) (upd_end upd));
  let c := mk_write_cursor 0 (Z.to_nat offset_in_leaf) (Z.to_nat leaf_number) in
  c' ← stream_loop leaf c ops;
  c'' ← stream_rest (leaf_rounds leaf) leaf c';
  write_slotuse (w_out c'') c''.

Definition update_leaf_in_current_tree (slot : inner_node_data)
    (upd : UpdateDescriptor) : M inner_node_data :=
  t ← get;
  leaf ← lift (as_leaf (childid slot));
  ops ← lift (batch_range (updates t) (upd_begin upd) (upd_end upd));
  result ← lift (merge_into_spare (negb NDEBUG) (spare_leaf t) leaf ops);
  slot1 ← lift (set_min_element_leaf slot result);
  k ← lift (array_get_Z KeyIndexOutOfRange (leaf_slotkey result)
              (Z.of_nat (leaf_slotuse result) - 1));
  let slot2 := set_slotkey (update_router (slotkey slot1) k) slot1 in
  _ ← modify (set_spare_leaf leaf);
  mret (set_childid (Leaf result) slot2).

Definition hasUpdates (update : UpdateDescriptor) : bool :=
  negb (upd_begin update =? upd_end update).

(** [scheduleSubTreeUpdate]: the descriptor written to [subtree_updates[i]]. *)
Definition scheduleSubTreeUpdate (weight minweight maxweight : Z)
    (subupd_begin subupd_end : Z) : M UpdateDescriptor :=
  delta ← getWeightDelta subupd_begin subupd_end;
  let w := to_size_type (weight + delta) in
  mret (mk_UpdateDescriptor ((w <? minweight) || (maxweight <? w)) w
                            subupd_begin subupd_end).

(** [find_lower] on the running batch; the [int] it returns is stored in a
    [size_type]. *)
Definition find_lower_in_batch (lo hi : Z) (key : key_type) : M Z :=
  us ← gets updates;
  r ← lift (find_lower (array_get_Z UpdateIndexOutOfRange us) lo hi key);
  mret (to_size_type r).

(** The loop that hands the update range of a node to all its subtrees
    but the last. *)
Fixpoint distribute (slots : list inner_node_data) (min_weight max_weight : Z)
    (subupd_begin upd_end_ : Z) (acc : list UpdateDescriptor)
  : M (list UpdateDescriptor * Z) :=
  match slots with
  | [] => mret (acc, subupd_begin)
  | s :: slots' =>
      subupd_end ← find_lower_in_batch subupd_begin upd_end_ (slotkey s);
      d ← scheduleSubTreeUpdate (weight s) min_weight max_weight
                                subupd_begin subupd_end;
      distribute slots' min_weight max_weight subupd_end upd_end_ (acc ++ [d])
  end.

(** [scheduleSubTreeUpdate] for every slot of [inner]. *)
Definition schedule_all (slots : list inner_node_data) (level : nat)
    (upd : UpdateDescriptor) : M (list UpdateDescriptor) :=
  let min_weight := minweight (to_level_type (Z.of_nat level - 1)) in
  let max_weight := maxweight (to_level_type (Z.of_nat level - 1)) in
  let last := to_width_type (Z.of_nat (length slots) - 1) in
  if Z.of_nat (length slots) <=? last then fail SlotIndexOutOfRange
  else
    '(ds, subupd_begin) ← distribute (take (Z.to_nat last) slots)
                            min_weight max_weight (upd_begin upd) (upd_end upd) [];
    last_slot ← lift (array_get_Z SlotIndexOutOfRange slots last);
    d ← scheduleSubTreeUpdate (weight last_slot) min_weight max_weight
                              subupd_begin (upd_end upd);
    mret (ds ++ [d]).

Section UpdateLoops.
(** The recursive call of [update] on a subtree. *)
Variable update_rec :
  inner_node_data -> Z -> UpdateDescriptor -> bool -> M inner_node_data.

(** [updateSubTreesInRange] on the slots [begin .. end) of a node, given
    with their descriptors; returns these slots as the loop leaves them. *)
Fixpoint updateSubTreesInRange (range : list (inner_node_data * UpdateDescriptor))
    (subtree_rank : Z) (rewrite_subtree : bool) : M (list inner_node_data) :=
  match range with
  | [] => mret []
  | (s, d) :: range' =>
      s' ← (if upd_weight d =? 0 then
              _ ← clear_recursive (childid s);
              mret s
            else if rewrite_subtree || hasUpdates d then
              s1 ← update_rec s subtree_rank d rewrite_subtree;
              mret (set_weight (upd_weight d) s1)
            else mret s);
      rest ← updateSubTreesInRange range'
               (to_size_type (subtree_rank + upd_weight d)) rewrite_subtree;
      mret (s' :: rest)
  end.

(** The scan for a run of subtrees to rebalance: from the descriptors at
    [in_] on, returns the end of the run, its weight and whether it is
    open. *)
Fixpoint scan_run (rest : list UpdateDescriptor) (in_ : nat)
    (weight_of_defective_range : Z) (openrebalancing_region : bool)
    (designated_treesize : Z) : nat * Z * bool :=
  match rest with
  | [] => (in_, weight_of_defective_range, openrebalancing_region)
  | d :: rest' =>
      if rebalancing_needed d
         || (openrebalancing_region
             && negb (weight_of_defective_range =? 0)
             && (weight_of_defective_range <? designated_treesize))
      then scan_run rest' (S in_)
                    (to_size_type (weight_of_defective_range + upd_weight d))
                    true designated_treesize
      else (in_, weight_of_defective_range, openrebalancing_region)
  end.

Fixpoint clear_range (range : list inner_node_data) : M unit :=
  match range with
  | [] => mret tt
  | s :: range' =>
      _ ← clear_recursive (childid s);
      clear_range range'
  end.

(** The rebalancing loop [while (in < inner->slotuse)] of [update];
    [result] is the node under construction, [in_] the current slot of
    [inner].  Every round moves [in_] forward. *)
Fixpoint rebalance_loop (rounds : nat) (inner_level : nat)
    (slots : list inner_node_data) (subtree_updates : list UpdateDescriptor)
    (designated_treesize : Z) (in_ : nat) (result : node) : M node :=
  match rounds with
  | O => fail OutOfFuel
  | S rounds' =>
      if (in_ <? length slots)%nat then
        let rebalancing_range_start := in_ in
        let '(in', weight_of_defective_range, openrebalancing_region) :=
          scan_run (drop in_ subtree_updates) in_ 0 false designated_treesize in
        let range := take (in' - rebalancing_range_start)
                          (drop rebalancing_range_start slots) in
        if openrebalancing_region then
          if weight_of_defective_range =? 0 then
            _ ← clear_range range;
            rebalance_loop rounds' inner_level slots subtree_updates
                           designated_treesize in' result
          else
            _ ← allocate_new_leaves weight_of_defective_range;
            _ ← updateSubTreesInRange
                  (zip range (drop rebalancing_range_start subtree_updates)) 0 true;
            '(_, fake_slot) ← create_subtree_from_leaves
                                (set_childid result unassigned_slot) true
                                (node_level result) 0 weight_of_defective_range;
            rebalance_loop rounds' inner_level slots subtree_updates
                           designated_treesize in' (childid fake_slot)
        else
          s ← lift (array_get SlotIndexOutOfRange slots in_);
          d ← lift (array_get SlotIndexOutOfRange subtree_updates in_);
          result_slots ← lift (as_inner result);
          if innerslotmax <=? Z.of_nat (length result_slots)
          then fail SlotIndexOutOfRange
          else
            let s1 := set_weight (upd_weight d) s in
            s2 ← (if hasUpdates d
                  then update_rec s1 (to_size_type (-1)) d false
                  else mret s1);
            rebalance_loop rounds' inner_level slots subtree_updates
                           designated_treesize (S in_)
                           (Inner (node_level result) (result_slots ++ [s2]))
      else mret result
  end.
End UpdateLoops.

(** [update(slot, rank, upd, rewrite_subtree)]: returns the slot as the
    function leaves it.  [depth] bounds the depth of the recursion. *)
Fixpoint update (depth : nat) (slot : inner_node_data) (rank : Z)
    (upd : UpdateDescriptor) (rewrite_subtree : bool) : M inner_node_data :=
  match depth with
  | O => fail OutOfFuel
  | S depth' =>
      slot' ←
        (if isleafnode (childid slot) then
           if rewrite_subtree then
             _ ← write_updated_leaf_to_new_tree (childid slot) rank upd;
             mret slot
           else update_leaf_in_current_tree slot upd
         else
           slots ← lift (as_inner (childid slot));
           let inner_level := node_level (childid slot) in
           levels ← gets subtree_updates_per_level;
           if (levels <=? inner_level)%nat then fail LevelIndexOutOfRange
           else
             subtree_updates ← schedule_all slots inner_level upd;
             let rebalancing := existsb rebalancing_needed subtree_updates in
             if negb rebalancing || rewrite_subtree then
               slots' ← updateSubTreesInRange (update depth')
                          (zip slots subtree_updates) rank rewrite_subtree;
               slot1 ← lift (set_min_element_inner slot slots');
               last ← lift (array_get_Z SlotIndexOutOfRange slots'
                              (Z.of_nat (length slots') - 1));
               mret (set_childid (Inner inner_level slots')
                       (set_slotkey (update_router (slotkey slot1) (slotkey last))
                                    slot1))
             else
               let designated_treesize :=
                 designated_subtreesize (Z.of_nat inner_level) in
               result0 ← allocate_inner inner_level;
               result ← rebalance_loop (update depth') (S (length slots))
                          inner_level slots subtree_updates designated_treesize
                          0 result0;
               result_slots ← lift (as_inner result);
               slot1 ← lift (set_min_element_inner slot result_slots);
               last ← lift (array_get_Z SlotIndexOutOfRange result_slots
                              (Z.of_nat (length result_slots) - 1));
               _ ← free_node (childid slot);
               mret (set_childid result
                       (set_slotkey (update_router (slotkey slot1) (slotkey last))
                                    slot1)));
      _ ← (if rewrite_subtree then free_node (childid slot') else mret tt);
      mret slot'
  end.

(** Whether [apply_updates] rebuilds the tree from the root: the value of
    [rebuild_needed], computed from the target level, the level of the
    root and [size()], which holds the new item count by then. *)
Definition rebuild_needed (level : Z) (root_level : Z) (size : Z) : bool :=
  ((level <? root_level) && (size <? minweight root_level))
  || (maxweight root_level <? size).

(** The two ways [apply_updates] goes on for a tree that stays non-empty:
    a rebuild from the root (fresh leaves for all keys, the old tree
    streamed into them, all inner levels built anew) and an update in
    place. *)
Definition rebuild_root (root_node : node) (level new_size n_updates : Z)
  : M unit :=
  _ ← modify (fun t =>
         set_subtree_updates_per_level
           (subtree_updates_per_level t
            + Z.to_nat (level - Z.of_nat (node_level root_node) + 1))%nat t);
  _ ← allocate_new_leaves new_size;
  fake_slot ← update (S (node_depth root_node))
                 (set_childid root_node unassigned_slot) 0
                 (mk_UpdateDescriptor true new_size 0 n_updates) true;
  '(_, fake_slot') ← create_subtree_from_leaves fake_slot false
                       (Z.to_nat level) 0 new_size;
  modify (set_root (Some (childid fake_slot'))).

Definition update_root_in_place (root_node : node) (new_size n_updates : Z)
  : M unit :=
  fake_slot ← update (S (node_depth root_node))
                 (set_childid root_node unassigned_slot) 0
                 (mk_UpdateDescriptor false new_size 0 n_updates) false;
  modify (set_root (Some (childid fake_slot))).

Definition apply_updates (_updates : list (Operation key_type))
    (_batch_type : OperationBatchType) : M unit :=
  new_size ← setOperationsAndComputeWeightDelta _updates _batch_type;
  _ ← modify (fun t => set_stats (set_itemcount new_size (stats t)) t);
  if new_size =? 0 then clear
  else
    r ← gets root;
    root_node ← match r with
                | Some n => mret n
                | None => l ← allocate_leaf; mret (Leaf l)
                end;
    _ ← modify (set_root (Some root_node));
    level ← lift (num_optimal_levels new_size);
    sz ← size;
    let rebuild := rebuild_needed level (Z.of_nat (node_level root_node)) sz in
    let upd := mk_UpdateDescriptor rebuild new_size 0 (Z.of_nat (length _updates)) in
    _ ← (if rebuild then
           _ ← modify (fun t =>
                  set_subtree_updates_per_level
                    (subtree_updates_per_level t
                     + Z.to_nat (level - Z.of_nat (node_level root_node) + 1))%nat t);
           allocate_new_leaves new_size
         else mret tt);
    let fake_slot := set_childid root_node unassigned_slot in
    fake_slot1 ← update (S (node_depth root_node)) fake_slot 0 upd rebuild;
    fake_slot2 ← (if rebuild then
                    '(_, s) ← create_subtree_from_leaves fake_slot1 false
                                (Z.to_nat level) 0 new_size;
                    mret s
                  else mret fake_slot1);
    modify (set_root (Some (childid fake_slot2))).

End Tree.

(** ** Verification of the tree invariants ([verify], [verify_node]) *)
Section Verify.
Context `{traits : btree_traits} `{flags : build_flags}.

(** [assert(x)] of <assert.h> *)
Definition assert (x : bool) : result unit :=
  if NDEBUG then Ok tt else if x then Ok tt else Err AssertionFailed.

(** [assert(key_lessequal(key[slot], key[slot + 1]))] for every
    [slot < slotuse - 1]. *)
Fixpoint assert_ascending (keys : list key_type) : result unit :=
  match keys with
  | k1 :: ((k2 :: _) as keys') =>
      _ ← assert (key_lessequal k1 k2);
      assert_ascending keys'
  | _ => Ok tt
  end.

(** [verify_node(n, &minkey, &maxkey, vstats)]: returns the smallest and
    the largest key below [n] and the updated statistics.  [is_root] is
    the value of [n == root]. *)
Fixpoint verify_node (is_root : bool) (n : node) (vstats : tree_stats)
  : result (key_type * key_type * tree_stats) :=
  match n with
  | Leaf leaf =>
      _ ← assert_ascending (leaf_keys leaf);
      _ ← assert (is_root || (minweight 0 <=? Z.of_nat (leaf_slotuse leaf)));
      _ ← assert (Z.of_nat (leaf_slotuse leaf) <=? maxweight 0);
      minkey ← array_get KeyIndexOutOfRange (leaf_slotkey leaf) 0;
      maxkey ← array_get_Z KeyIndexOutOfRange (leaf_slotkey leaf)
                 (Z.of_nat (leaf_slotuse leaf) - 1);
      Ok (minkey, maxkey,
          mk_tree_stats (to_size_type (itemcount vstats + Z.of_nat (leaf_slotuse leaf)))
                        (to_size_type (stats_leaves vstats + 1))
                        (innernodes vstats))
  | Inner level slots =>
      let vstats1 := add_innernodes 1 vstats in
      _ ← assert_ascending (map slotkey slots);
      '(minkey, vstats2) ←
        (fix verify_slots (ss : list inner_node_data) (slot : Z)
             (previous : key_type) (minkey : key_type) (vstats : tree_stats)
           : result (key_type * tree_stats) :=
           match ss with
           | [] => Ok (minkey, vstats)
           | s :: ss' =>
               _ ← assert (Z.of_nat (node_level (childid s)) + 1 =? Z.of_nat level);
               _ ← assert (is_root
                           || (minweight (to_level_type (Z.of_nat level - 1))
                               <=? weight s));
               _ ← assert (weight s <=? maxweight (to_level_type (Z.of_nat level - 1)));
               let itemcount0 := itemcount vstats in
               '(subminkey, submaxkey, vstats') ←
                 verify_node false (childid s) vstats;
               _ ← assert (weight s =? to_size_type (itemcount vstats' - itemcount0));
               _ ← (if slot =? 0 then Ok tt
                    else assert (key_greaterequal subminkey previous));
               _ ← assert (key_equal (slotkey s) submaxkey);
               verify_slots ss' (slot + 1) (slotkey s)
                            (if slot =? 0 then subminkey else minkey) vstats'
           end) slots 0 default_key default_key vstats1;
      last ← array_get_Z SlotIndexOutOfRange slots (Z.of_nat (length slots) - 1);
      Ok (minkey, slotkey last, vstats2)
  end.

Definition verify (t : btree) : result unit :=
  match root t with
  | Some n =>
      '(_, _, vstats) ← verify_node true n (mk_tree_stats 0 0 0);
      _ ← assert (itemcount vstats =? itemcount (stats t));
      _ ← assert (stats_leaves vstats =? stats_leaves (stats t));
      assert (innernodes vstats =? innernodes (stats t))
  | None => Ok tt
  end.
End Verify.

(** ** The Pareto queue

    [min_label] is the prefix minimum that [findParetoMinima] starts from:
    the smallest first weight and the largest second weight of the weight
    type, whose limits are parameters here. *)
Class weight_limits := {
  weight_min : Z;
  weight_max : Z
}.

Definition min_label `{weight_limits} : key_type :=
  mk_NodeLabel 0 (mk_Label weight_min weight_max).

(** Unsigned 32-bit weights. *)
Definition unsigned_int_weights : weight_limits :=
  {| weight_min := 0; weight_max := 2 ^ 32 - 1 |}.

(** ** The binary searches of the parallel tree

    [find_lower(begin, end, key)] on the running batch and
    [find_index_of_lower_key(leaf, key)] on the keys of a leaf run the same
    loop; [key_at] reads the array that is searched.  [lo] and [hi] are
    [int], [mid] is a [size_type]. *)
Module ParallelTree.
Section Search.
Context {key_type : Type} `{Compare key_type}.
Variable key_at : Z -> result key_type.

Definition search_mid (lo hi : Z) : Z :=
  to_size_type (Z.shiftr (to_int (lo + hi)) 1).

(** [while (lo < hi)]: returns [hi] as the loop leaves it. *)
Fixpoint search_loop (rounds : nat) (lo hi : Z) (key : key_type) : result Z :=
  match rounds with
  | O => Err OutOfFuel
  | S rounds' =>
      if lo <? hi then
        let mid := search_mid lo hi in
        k ← key_at mid;
        if key_less key k
        then search_loop rounds' lo (to_int (to_size_type (mid - 1))) key
        else search_loop rounds' (to_int (to_size_type (mid + 1))) hi key
      else Ok hi
  end.

(** [hi += (hi < 0 || key_lessequal(array[hi], key)); return hi;] *)
Definition search_end (hi : Z) (key : key_type) : result Z :=
  if hi <? 0 then Ok (to_int (hi + 1))
  else
    k ← key_at hi;
    Ok (to_int (hi + b2z (key_lessequal k key))).

Definition search (lo hi : Z) (key : key_type) : result Z :=
  hi' ← search_loop 64 lo hi key;
  search_end hi' key.
End Search.

Section Functions.
Context {key_type : Type} `{Compare key_type}.

(** [updates[i].data] *)
Definition update_key_at (updates : list (Operation key_type)) (i : Z)
  : result key_type :=
  op ← array_get_Z UpdateIndexOutOfRange updates i;
  Ok (data op).

Definition find_lower (updates : list (Operation key_type))
    (begin end_ : Z) (key : key_type) : result Z :=
  search (update_key_at updates)
         (to_int begin) (to_int (to_size_type (end_ - 1))) key.

Definition find_index_of_lower_key (leaf : leaf_node key_type)
    (key : key_type) : result Z :=
  search (array_get_Z KeyIndexOutOfRange (leaf_slotkey leaf))
         0 (to_int (Z.of_nat (leaf_slotuse leaf) - 1)) key.
End Functions.
End ParallelTree.


(** ** The fresh leaves of the parallel tree

    [TreeRootCreationTask::allocate_new_leaves(n)]: the leaves are
    allocated with their [slotuse] set, the last leaf taking the rest of
    the [n] keys.  Returns the leaf list and the statistics. *)
Module TreeRootCreationTask.
Section Leaves.
Context `{traits : btree_traits} `{flags : build_flags}.

Definition allocate_new_leaves (n : Z) (st : tree_stats)
  : list (leaf_node key_type) * tree_stats :=
  let leaf_count := Parallel.num_subtrees n designated_leafsize in
  let last_leaf := to_size_type (leaf_count - 1) in
  (map (fun i : nat =>
          let slotuse :=
            if Z.of_nat i =? last_leaf
            then to_width_type (to_size_type (n - last_leaf * designated_leafsize))
            else designated_leafsize in
          mk_leaf_node (Z.to_nat slotuse) (leaf_slotkey fresh_leaf))
       (seq 0 (Z.to_nat leaf_count)),
   if gather_stats then add_leaves leaf_count st else st).
End Leaves.
End TreeRootCreationTask.

(** ** Building the parallel tree over the fresh leaves

    [TreeCreationTask::execute].  The child tasks of a node write disjoint
    slots and the node waits for all of them, so the task tree is the
    recursion that it spawns, taken slot by slot.  The node counters are
    left out.  [BTREE_ASSERT] of the parallel tree is an [assert] under
    [BTREE_DEBUG]. *)
Module TreeCreationTask.
Section Execute.
Context `{traits : btree_traits} `{flags : build_flags}.
Variable BTREE_DEBUG : bool.

Definition BTREE_ASSERT (x : bool) : result unit :=
  if BTREE_DEBUG then assert x else Ok tt.

Fixpoint execute (out_node : option node) (old_slotuse : Z) (reuse_node : bool)
    (level : nat) (rank_begin rank_end : Z) (leaves : list (leaf_node key_type))
  : result (key_type * node) :=
  match level with
  | O =>
      if designated_leafsize =? 0 then Err DivisionByZero
      else
        result ← array_get_Z LeafIndexOutOfRange leaves
                   (rank_begin / designated_leafsize);
        _ ← BTREE_ASSERT (to_size_type (rank_end - rank_begin)
                          =? Z.of_nat (leaf_slotuse result));
        router ← array_get_Z KeyIndexOutOfRange (leaf_slotkey result)
                   (Z.of_nat (leaf_slotuse result) - 1);
        Ok (router, Leaf result)
  | S level' =>
      let designated_treesize := Parallel.designated_subtreesize (Z.of_nat level) in
      if designated_treesize =? 0 then Err DivisionByZero
      else
        let subtrees :=
          to_width_type
            (Parallel.num_subtrees (to_size_type (rank_end - rank_begin))
                                   designated_treesize) in
        old_slots ← (if reuse_node
                     then match out_node with
                          | Some n => as_inner n
                          | None => Err NullRoot
                          end
                     else Ok []);
        let new_slotuse := to_width_type (subtrees + old_slotuse) in
        _ ← BTREE_ASSERT (new_slotuse <=? innerslotmax);
        new_slots ←
          (fix fill (count : nat) (i rank : Z) (acc : list inner_node_data)
             : result (list inner_node_data) :=
             match count with
             | O => Ok acc
             | S count' =>
                 if innerslotmax <=? i then Err SlotIndexOutOfRange
                 else
                   let weight :=
                     if negb (i =? new_slotuse - 1) then designated_treesize
                     else to_size_type (rank_end - rank) in
                   '(router, child) ← execute None 0 false level' rank
                                        (to_size_type (rank + weight)) leaves;
                   fill count' (i + 1) (to_size_type (rank + weight))
                        (acc ++ [set_childid child
                                   (set_weight weight
                                      (set_slotkey router unassigned_slot))])
             end) (Z.to_nat (new_slotuse - old_slotuse)) old_slotuse rank_begin
                  (take (Z.to_nat old_slotuse) old_slots);
        last ← array_get_Z SlotIndexOutOfRange new_slots (new_slotuse - 1);
        Ok (slotkey last, Inner level new_slots)
  end.

End Execute.
End TreeCreationTask.


(** ** The tasks of the Pareto queue

    [ParallelBTreeParetoQueue::findParetoMinima] and
    [FindParetMinTask::execute]: above the level
    [PARETO_FIND_RECURSION_END_LEVEL] a node is split into one task per
    slot whose minimum improves on the running prefix minimum; below it the
    subtree is scanned by [find_pareto_minima].  Every task appends to the
    buffer of the thread that runs it; the model gives the operations that
    the tasks schedule for deletion in the order of the tree. *)
Module ParetoQueue.

Inductive task_result (A : Type) :=
  | Done (a : A)
  | NoRoot                 (* [root->level] of an absent root *)
  | WrongNodeKind          (* a leaf is cast to an inner node *)
  | PopFromEmptyTaskList.  (* [tasks.pop_front()] on an empty task list *)
Arguments Done {A} a.
Arguments NoRoot {A}.
Arguments WrongNodeKind {A}.
Arguments PopFromEmptyTaskList {A}.

Definition task_bind {A B} (r : task_result A) (f : A -> task_result B)
  : task_result B :=
  match r with
  | Done a => f a
  | NoRoot => NoRoot
  | WrongNodeKind => WrongNodeKind
  | PopFromEmptyTaskList => PopFromEmptyTaskList
  end.

Section Tasks.
Variable PARETO_FIND_RECURSION_END_LEVEL : nat.

(** [findParetoMinAndDistribute]: the deletions that the scan of the
    subtree schedules. *)
Definition findParetoMinAndDistribute (in_node : node)
    (prefix_minima : min_key_type) : list (Operation key_type) :=
  find_pareto_minima_node in_node prefix_minima.

(** [FindParetMinTask::execute]: the deletions scheduled by the task and
    the tasks below it. *)
Fixpoint FindParetMinTask (in_node : node) (prefix_minima : min_key_type)
  : task_result (list (Operation key_type)) :=
  if (node_level in_node <? PARETO_FIND_RECURSION_END_LEVEL)%nat then
    Done (findParetoMinAndDistribute in_node prefix_minima)
  else
    match in_node with
    | Leaf _ => WrongNodeKind
    | Inner _ slots =>
        task_bind
          ((fix spawn_tasks (ss : list inner_node_data) (min : min_key_type)
              : task_result (nat * list (Operation key_type)) :=
              match ss with
              | [] => Done (0%nat, [])
              | s :: ss' =>
                  if improves (minimum s) min then
                    task_bind (FindParetMinTask (childid s) min) (fun ops =>
                    task_bind (spawn_tasks ss' (minimum s)) (fun '(task_count, rest) =>
                    Done (S task_count, ops ++ rest)))
                  else spawn_tasks ss' min
              end) slots prefix_minima)
          (fun '(task_count, ops) =>
             if (task_count =? 0)%nat then PopFromEmptyTaskList else Done ops)
    end.

(** The loop of [findParetoMinima] over the slots of the root. *)
Fixpoint root_tasks (ss : list inner_node_data) (min : min_key_type)
  : task_result (list (Operation key_type)) :=
  match ss with
  | [] => Done []
  | s :: ss' =>
      if improves (minimum s) min then
        task_bind (FindParetMinTask (childid s) min) (fun ops =>
        task_bind (root_tasks ss' (minimum s)) (fun rest =>
        Done (ops ++ rest)))
      else root_tasks ss' min
  end.

Definition findParetoMinima `{weight_limits} (t : btree)
  : task_result (list (Operation key_type)) :=
  match root t with
  | None => NoRoot
  | Some root_node =>
      if (node_level root_node <? PARETO_FIND_RECURSION_END_LEVEL)%nat then
        Done (findParetoMinAndDistribute root_node (to_min_key min_label))
      else
        match root_node with
        | Leaf _ => WrongNodeKind
        | Inner _ slots => root_tasks slots (to_min_key min_label)
        end
  end.
End Tasks.
End ParetoQueue.


(** * Vocabulary of the properties

    Predicates, measures and example data that the statements below use. *)

(** The value [designated_subtreesize] rounds: the midpoint of the weight
    bounds of the child level. *)
Definition weight_midpoint `{btree_traits} (level : Z) : Z :=
  (maxweight (level - 1) + minweight (level - 1)) / 2.

(** The exact ceiling of a logarithm: the least [L] with
    [num <= den * base^L], for [num, den > 0] and [base > 1].  [pw] runs
    through [den * base^L]. *)
Fixpoint ceil_log_loop (rounds : nat) (base num pw L : Z) : Z :=
  match rounds with
  | O => L
  | S rounds' =>
      if num <=? pw then L
      else ceil_log_loop rounds' base num (pw * base) (L + 1)
  end.

Definition ceil_log (base num den : Z) : Z :=
  ceil_log_loop (Z.to_nat (Z.log2 num) + 2) base num den 0.

(** The level that the spec's formula gives: the exact ceiling of the
    logarithm of [8 n / (5 k)], less one when the number of subtrees on that
    level is 1. *)
Definition spec_target_level `{btree_traits} (n : Z) : Z :=
  if n <=? designated_leafsize then 0
  else
    let L := ceil_log branchingparameter_b (8 * n) (5 * leafparameter_k) in
    L - b2z (num_subtrees n (designated_subtreesize L) =? 1).

(** The logarithm of the examples: the values of the GNU C library's [log]
    on x86-64 at the arguments that the examples below reach.  Any other
    argument is answered with a NaN. *)
Definition dbl (m : positive) (e : Z) : double := S754_finite false m e.

Definition glibc_log_table : list (double * double) :=
  [(dbl 0x13333333333333 (-52), dbl 0x17565011e49675 (-55)); (* log 1.2 *)
   (dbl 0x1999999999999a (-52), dbl 0x1e148a1a2726cf (-54)); (* log 1.6 *)
   (dbl 0x10000000000000 (-51), dbl 0x162e42fefa39ef (-53)); (* log 2 *)
   (dbl 0x1199999999999a (-51), dbl 0x193b0aee21c2c9 (-53)); (* log 2.2 *)
   (dbl 0x10000000000000 (-49), dbl 0x10a2b23f3bab73 (-51)); (* log 8 *)
   (dbl 0x10000000000000 (-48), dbl 0x162e42fefa39ef (-51)); (* log 16 *)
   (dbl 0x14000000000000 (-48), dbl 0x17f7427b73e391 (-51)); (* log 20 *)
   (dbl 0x10000000000000 (-31), dbl 0x1d1cb7eea86c0a (-49))] (* log 2097152 *).

Definition glibc_log : libm :=
  {| log := fun x =>
       match find (fun p => SFeqb x (fst p)) glibc_log_table with
       | Some p => snd p
       | None => S754_nan
       end |}.

(** The two builds: with assertions and node counters, and with [NDEBUG]. *)
Definition debug_flags : build_flags :=
  {| NDEBUG := false; LARGE_ENOUGH_FOR_EVERYTHING := 64 |}.
Definition release_flags : build_flags :=
  {| NDEBUG := true; LARGE_ENOUGH_FOR_EVERYTHING := 64 |}.

(** [hoare P m Q E]: from a state in [P], [m] either returns a value and a
    state in [Q] or stops with an error in [E]. *)
Definition hoare {A} (P : btree -> Prop) (m : M A) (Q : A -> btree -> Prop)
    (E : error -> Prop) : Prop :=
  forall t, P t ->
    match m t with
    | Ok (a, t') => Q a t'
    | Err e => E e
    end.

(** The list of fresh leaves has [N] entries. *)
Definition leaves_count (N : nat) (t : btree) : Prop := length (leaves t) = N.

(** Every error but an index outside the list of fresh leaves. *)
Definition no_leaf_index_error (e : error) : Prop := e <> LeafIndexOutOfRange.

(** The write cursor points at one of the [N] fresh leaves. *)
Definition cursor_in_leaves (N : nat) (c : write_cursor) (t : btree) : Prop :=
  leaves_count N t /\ (w_leaf_number c < N)%nat.

(** A batch of [2^30 + 2] insertions, given by its accessor: operation [i]
    inserts the entry of node [i] with weights [(i, 0)]. *)
Definition large_batch_at (i : Z) : result (Operation key_type) :=
  if (0 <=? i) && (i <? 2 ^ 30 + 2)
  then Ok (mkOperation INSERT (mk_NodeLabel i (mk_Label i 0)))
  else Err UpdateIndexOutOfRange.

Section BatchSums.
Context {key_type : Type}.
Implicit Types (ops : list (Operation key_type)) (wd : list Z).

(** The sum of the operation types: [+1] per INSERT, [-1] per DELETE. *)
Fixpoint delta_sum ops : Z :=
  match ops with
  | [] => 0
  | op :: ops' => OpType_value (type op) + delta_sum ops'
  end.

(** The numbers of INSERT and of DELETE operations. *)
Fixpoint count_inserts ops : Z :=
  match ops with
  | [] => 0
  | op :: ops' =>
      match type op with
      | INSERT => 1 + count_inserts ops'
      | DELETE => count_inserts ops'
      end
  end.

Fixpoint count_deletes ops : Z :=
  match ops with
  | [] => 0
  | op :: ops' =>
      match type op with
      | INSERT => count_deletes ops'
      | DELETE => 1 + count_deletes ops'
      end
  end.

(** The operations [i .. j) of a batch. *)
Definition ops_between {A} (i j : nat) (l : list A) : list A :=
  take (j - i) (drop i l).

(** [wd[0] = 0] and [wd[i+1] = wd[i] + 1] for an INSERT, [wd[i] - 1] for a
    DELETE at position [i]. *)
Definition is_weight_delta_array wd ops : Prop :=
  wd !! 0%nat = Some 0
  /\ forall (i : nat) op, ops !! i = Some op ->
       exists v, wd !! i = Some v
                 /\ wd !! S i = Some (v + match type op with
                                           | INSERT => 1
                                           | DELETE => -1
                                           end).
End BatchSums.

(** A mixed batch of three operations on a tree of 5 keys, with storage
    for 8 sums. *)
Definition three_ops : list (Operation Z) :=
  [mkOperation INSERT 1; mkOperation DELETE 2; mkOperation INSERT 3].

Section MergeCursor.
Context {key_type : Type} `{Compare key_type}.

(** The cursor after the keys [W] have been written to the array [R0] and
    [i] keys of the old leaf have been read. *)
Definition cursor_of (R0 : list key_type) (i : nat) (W : list key_type)
  : merge_cursor :=
  mk_cursor i (length W) (W ++ drop (length W) R0).

(** What one round of a merge loop does to the cursor, in terms of the
    keys still to read. *)
Definition step_refines (leaf : leaf_node key_type) (R0 : list key_type)
    (step : merge_cursor -> Operation key_type -> result merge_cursor) : Prop :=
  forall (i : nat) W op ops,
    (i <= leaf_slotuse leaf)%nat ->
    StronglySorted key_lt (drop i (leaf_keys leaf)) ->
    valid_batch (drop i (leaf_keys leaf)) (op :: ops) ->
    (length (W ++ merge_keys (drop i (leaf_keys leaf)) (op :: ops))
     <= length R0)%nat ->
    exists (i' : nat) W',
      step (cursor_of R0 i W) op = Ok (cursor_of R0 i' W')
      /\ (i' <= leaf_slotuse leaf)%nat
      /\ W' ++ merge_keys (drop i' (leaf_keys leaf)) ops
         = W ++ merge_keys (drop i (leaf_keys leaf)) (op :: ops)
      /\ StronglySorted key_lt (drop i' (leaf_keys leaf))
      /\ valid_batch (drop i' (leaf_keys leaf)) ops.
End MergeCursor.

(** The comparison by a measure [f]. *)
Definition less_by {A : Type} (f : A -> Z) (x y : A) : bool := f x <? f y.

(** ** Induction on nodes *)
Section NodeInduction.
Variable P : node -> Prop.
Hypothesis P_leaf : forall l, P (Leaf l).
Hypothesis P_inner : forall level slots,
  Forall (fun s => P (childid s)) slots -> P (Inner level slots).

Fixpoint node_induction (n : node) : P n :=
  match n with
  | Leaf l => P_leaf l
  | Inner level slots =>
      P_inner level slots
        ((fix slots_induction (ss : list inner_node_data)
            : Forall (fun s => P (childid s)) ss :=
            match ss with
            | [] => @List.Forall_nil _ (fun s => P (childid s))
            | s :: ss' =>
                @List.Forall_cons _ (fun s => P (childid s)) s ss'
                  (node_induction (childid s)) (slots_induction ss')
            end) slots)
  end.
End NodeInduction.

(** Nodes below and including [n] that [free_node] counts as leaves, and
    those it counts as inner nodes. *)
Fixpoint count_nodes (leaflike : bool) (n : node) : Z :=
  b2z (eqb (isleafnode n) leaflike)
  + match n with
    | Leaf _ => 0
    | Inner _ slots =>
        (fix count_slots (ss : list inner_node_data) : Z :=
           match ss with
           | [] => 0
           | s :: ss' => count_nodes leaflike (childid s) + count_slots ss'
           end) slots
    end.

(** The statistics after [nl] leaves and [ni] inner nodes were freed. *)
Definition release (nl ni : Z) (s : tree_stats) : tree_stats :=
  mk_tree_stats (itemcount s) (to_size_type (stats_leaves s - nl))
                (to_size_type (innernodes s - ni)).

(** The node counters are values of [size_type]. *)
Definition stats_in_range (s : tree_stats) : Prop :=
  0 <= stats_leaves s < 2 ^ 64 /\ 0 <= innernodes s < 2 ^ 64.

Section TreeStates.
Context `{traits : btree_traits} `{flags : build_flags} `{lm : libm}.

(** The tree object after [nl] leaves and [ni] inner nodes were freed. *)
Definition after_release (nl ni : Z) (t : btree) : btree :=
  if gather_stats then set_stats (release nl ni (stats t)) t else t.

(** The node counters agree with the tree. *)
Definition counters_agree (t : btree) (n : node) : Prop :=
  stats_leaves (stats t) = count_nodes true n
  /\ innernodes (stats t) = count_nodes false n.

(** The root that [apply_updates] works on: the root of the tree, or a
    fresh leaf where the tree has none. *)
Definition ensure_root : M node :=
  r ← gets root;
  root_node ← match r with
              | Some n => mret n
              | None => l ← allocate_leaf; mret (Leaf l)
              end;
  _ ← modify (set_root (Some root_node));
  mret root_node.
End TreeStates.

(** The keys of a tree, from left to right. *)
Definition tree_keys (t : btree) : list key_type :=
  match root t with
  | Some n => node_keys n
  | None => []
  end.



(** The running minimum [*min] when the leaf loop of [find_pareto_minima]
    leaves. *)
Fixpoint scan_min (keys : list key_type) (min : min_key_type) : min_key_type :=
  match keys with
  | [] => min
  | k :: keys' =>
      if improves (to_min_key k) min then scan_min keys' (to_min_key k)
      else scan_min keys' min
  end.


(** [m] is the minimum descriptor of the keys [keys]: the label of one of
    them, with the least second weight, and the least first weight among
    the labels of that second weight. *)
Definition is_subtree_min (m : min_key_type) (keys : list key_type) : Prop :=
  Exists (fun k => to_min_key k = m) keys
  /\ Forall (fun k => second_weight m <= second_weight (label k)
                      /\ (second_weight (label k) = second_weight m ->
                          first_weight m <= first_weight (label k))) keys.

(** Every slot carries the minimum descriptor of its subtree. *)
Fixpoint minima_ok (n : node) : Prop :=
  match n with
  | Leaf _ => True
  | Inner _ slots =>
      (fix slots_ok (ss : list inner_node_data) : Prop :=
         match ss with
         | [] => True
         | s :: ss' =>
             is_subtree_min (minimum s) (node_keys (childid s))
             /\ minima_ok (childid s) /\ slots_ok ss'
         end) slots
  end.



(** ** Example trees and batches *)

(** A leaf with the entries of nodes 1, 2, 3 in a tree with [k = b = 8];
    the batch deletes the entry of node 2 and inserts one for node 4. *)
Definition entry (n first second : Z) : key_type :=
  mk_NodeLabel n (mk_Label first second).

Definition patch_leaf : leaf_node key_type :=
  mk_leaf_node 3 ([entry 1 1 9; entry 2 2 8; entry 3 3 7]
                  ++ replicate 5 default_key).

Definition patch_ops : list (Operation key_type) :=
  [mkOperation DELETE (entry 2 2 8); mkOperation INSERT (entry 4 4 6)].

Definition patch_tree : btree :=
  set_batch patch_ops INSERTS_AND_DELETES [0; -1; 0]
            (@new_btree traits_8_8 debug_flags).

Definition patch_slot : inner_node_data :=
  mk_slot (entry 3 3 7) 3 (Leaf patch_leaf) (mk_Label 3 7).

Definition patch_upd : UpdateDescriptor := mk_UpdateDescriptor false 3 0 2.

(** A tree with [k = b = 8] whose root is the leaf [patch_leaf]; the batch
    deletes its three entries. *)
Definition single_leaf_tree : btree :=
  mk_btree (Some (Leaf patch_leaf)) (@fresh_leaf traits_8_8)
           (mk_tree_stats 3 1 0) [] INSERTS_ONLY [] (replicate 64%nat 0) 0.

Definition delete_all_ops : list (Operation key_type) :=
  [mkOperation DELETE (entry 1 1 9); mkOperation DELETE (entry 2 2 8);
   mkOperation DELETE (entry 3 3 7)].

(** The empty tree with [k = b = 8] and a batch of ten insertions: the
    fresh root leaf cannot hold ten keys, so the tree is rebuilt. *)
Definition entries (first count : nat) : list key_type :=
  map (fun i => entry (Z.of_nat i) (Z.of_nat i) (100 - Z.of_nat i))
      (seq first count).

Definition ten_inserts : list (Operation key_type) :=
  map (mkOperation INSERT) (entries 1 10).

(** The batch that deletes the four largest of the ten keys. *)
Definition four_deletes : list (Operation key_type) :=
  map (mkOperation DELETE) (entries 7 4).

(** Ten entries in a tree with [k = b = 8]: [apply_updates] builds a root
    of level 1 over two leaves of five keys.  The entries of nodes 1, 2, 4,
    9 and 10 are the Pareto minima. *)
Definition frontier_inserts : list (Operation key_type) :=
  map (mkOperation INSERT)
      [entry 1 1 9; entry 2 2 7; entry 3 3 8; entry 4 4 3; entry 5 5 6;
       entry 6 6 5; entry 7 7 4; entry 8 8 10; entry 9 9 2; entry 10 10 1].

Definition frontier_tree : btree :=
  Eval vm_compute in
    match @apply_updates traits_8_8 debug_flags glibc_log frontier_inserts INSERTS_ONLY
            (@new_btree traits_8_8 debug_flags) with
    | Ok (_, t) => t
    | Err _ => @new_btree traits_8_8 debug_flags
    end.

Definition frontier_root : node :=
  Eval vm_compute in
    match root frontier_tree with
    | Some n => n
    | None => Leaf (@fresh_leaf traits_8_8)
    end.


(** The keys at the positions [lo .. hi) split at [r]: none before [r] is
    above [key], all from [r] on are. *)
Definition partitioned {key_type} `{Compare key_type} (keys : list key_type)
    (key : key_type) (lo r hi : Z) : Prop :=
  lo <= r <= hi
  /\ (forall (i : Z) k, lo <= i < r -> keys !! Z.to_nat i = Some k ->
        key_less key k = false)
  /\ (forall (i : Z) k, r <= i < hi -> keys !! Z.to_nat i = Some k ->
        key_less key k = true).

(** The keys are in ascending order, equal keys allowed. *)
Definition ascending {key_type} `{Compare key_type} (keys : list key_type)
  : Prop :=
  forall (i j : nat) ki kj,
    (i <= j)%nat -> keys !! i = Some ki -> keys !! j = Some kj ->
    key_less kj ki = false.

(** The number of keys that a list of leaves holds. *)
Definition slotuse_sum {key_type} (ls : list (leaf_node key_type)) : Z :=
  fold_right (fun l acc => Z.of_nat (leaf_slotuse l) + acc) 0 ls.


(** The slots of the root of [frontier_tree]. *)
Definition frontier_slots : list inner_node_data :=
  Eval vm_compute in
    match frontier_root with
    | Inner _ slots => slots
    | Leaf _ => []
    end.


(** The number of keys below a node. *)
Definition node_weight (n : node) : Z := Z.of_nat (length (node_keys n)).

(** What [verify_node] asserts about levels and weights: the children of
    an inner node are one level below it, a leaf holds between one key and
    the cells of its array, a weight is the number of keys below the slot
    (as a [size_type]) and within the bounds of the level; the lower bound
    is not asked of the root leaf and of the slots of the root. *)
Fixpoint verified `{btree_traits} (is_root : bool) (n : node) : Prop :=
  match n with
  | Leaf l =>
      (1 <= leaf_slotuse l <= length (leaf_slotkey l))%nat
      /\ (is_root = true \/ minweight 0 <= Z.of_nat (leaf_slotuse l))
      /\ Z.of_nat (leaf_slotuse l) <= maxweight 0
  | Inner level slots =>
      (fix slots_verified (ss : list inner_node_data) : Prop :=
         match ss with
         | [] => True
         | s :: ss' =>
             (node_level (childid s) + 1 = level)%nat
             /\ (is_root = true
                 \/ minweight (to_level_type (Z.of_nat level - 1)) <= weight s)
             /\ weight s <= maxweight (to_level_type (Z.of_nat level - 1))
             /\ weight s = to_size_type (node_weight (childid s))
             /\ verified false (childid s)
             /\ slots_verified ss'
         end) slots
  end.


(** [a] does not come after [b] in the order of the keys. *)
Definition not_after {key_type} `{Compare key_type} (a b : key_type) : Prop :=
  key_less b a = false.

(** Every router key of the tree is the largest key below its slot. *)
Fixpoint routed (n : node) : Prop :=
  match n with
  | Leaf _ => True
  | Inner _ slots =>
      (fix slots_routed (ss : list inner_node_data) : Prop :=
         match ss with
         | [] => True
         | s :: ss' =>
             slotkey s ∈ node_keys (childid s)
             /\ Forall (fun k => not_after k (slotkey s)) (node_keys (childid s))
             /\ routed (childid s)
             /\ slots_routed ss'
         end) slots
  end.


(** [keeps I m]: a run of [m] from a state in [I] that returns ends in a
    state in [I]. *)
Definition keeps {A} (I : btree -> Prop) (m : M A) : Prop :=
  hoare I m (fun _ => I) (fun _ => True).

(** The state that [apply_updates] fixes in its first two steps and that
    the update of the tree works under: the new item count and the batch. *)
Definition batch_state (new_size : Z) (ups : list (Operation key_type))
    (bt : OperationBatchType) (wd : list Z) (t : btree) : Prop :=
  itemcount (stats t) = new_size /\ updates t = ups /\ batch_type t = bt
  /\ weightdelta t = wd.


(** The descriptors hand on a range of the batch piece by piece: the first
    begins at [b], each begins where the one before it ends, the last ends
    at [e]. *)
Fixpoint chained (b : Z) (ds : list UpdateDescriptor) (e : Z) : Prop :=
  match ds with
  | [] => b = e
  | d :: ds' => upd_begin d = b /\ chained (upd_end d) ds' e
  end.

(** What [scheduleSubTreeUpdate] writes for the slot [s]: the new weight
    is the weight of the slot plus the weight delta of the range of the
    descriptor, and rebalancing is asked for where that weight is outside
    the bounds. *)
Definition scheduled (t : btree) (min_weight max_weight : Z)
    (s : inner_node_data) (d : UpdateDescriptor) : Prop :=
  exists delta,
    getWeightDelta (upd_begin d) (upd_end d) t = Ok (delta, t)
    /\ upd_weight d = to_size_type (weight s + delta)
    /\ rebalancing_needed d
       = (upd_weight d <? min_weight) || (max_weight <? upd_weight d).

(** The prefix sums of a mixed batch are in the reserved storage: one
    entry more than the batch has operations. *)
Definition delta_stored (t : btree) : Prop :=
  batch_type t = INSERTS_AND_DELETES ->
  (length (updates t) < length (weightdelta t))%nat.

(** The sum of a list of weights. *)
Definition weight_sum (ws : list Z) : Z := fold_right Z.add 0 ws.


(** [in_rounds r]: the result [r] is not the one of a loop that ran out of
    the rounds it was given. *)
Definition in_rounds {A} (r : result A) : Prop := r <> Err OutOfFuel.

(** [bounded m Q]: from every state, [m] returns a value in [Q] or stops
    with an error of the code; none of its loops runs out of rounds. *)
Definition bounded {A} (m : M A) (Q : A -> Prop) : Prop :=
  forall t,
    match m t with
    | Ok (a, _) => Q a
    | Err e => e <> OutOfFuel
    end.


(** * Properties *)

(** ** Machine arithmetic *)

Lemma wrap_unsigned_small bits x :
  0 <= x < 2 ^ bits -> wrap_unsigned bits x = x.
Proof. intros Hx. unfold wrap_unsigned. apply Z.mod_small. exact Hx. Qed.

Lemma wrap_unsigned_range bits x :
  0 <= bits -> 0 <= wrap_unsigned bits x < 2 ^ bits.
Proof.
  intros Hb. unfold wrap_unsigned. apply Z.mod_pos_bound.
  apply Z.pow_pos_nonneg; lia.
Qed.

Lemma to_size_type_small x : 0 <= x < 2 ^ 64 -> to_size_type x = x.
Proof. apply wrap_unsigned_small. Qed.

Lemma to_size_type_range x : 0 <= to_size_type x < 2 ^ 64.
Proof. apply wrap_unsigned_range. lia. Qed.

Lemma to_level_type_small x : 0 <= x < 2 ^ 16 -> to_level_type x = x.
Proof. apply wrap_unsigned_small. Qed.

Lemma to_width_type_small x : 0 <= x < 2 ^ 16 -> to_width_type x = x.
Proof. apply wrap_unsigned_small. Qed.

Lemma to_width_type_range x : 0 <= to_width_type x < 2 ^ 16.
Proof. apply wrap_unsigned_range. lia. Qed.

Lemma wrap_signed_small bits x :
  0 < bits -> - 2 ^ (bits - 1) <= x < 2 ^ (bits - 1) -> wrap_signed bits x = x.
Proof.
  intros Hb Hx. unfold wrap_signed.
  assert (H2 : 2 ^ bits = 2 * 2 ^ (bits - 1)).
  { rewrite <- Z.pow_succ_r by lia. f_equal. lia. }
  rewrite Z.mod_small by lia. lia.
Qed.

Lemma to_signed_long_small x : - 2 ^ 63 <= x < 2 ^ 63 -> to_signed_long x = x.
Proof. intros Hx. apply wrap_signed_small; [lia | exact Hx]. Qed.

Lemma to_int_small x : - 2 ^ 31 <= x < 2 ^ 31 -> to_int x = x.
Proof. intros Hx. apply wrap_signed_small; [lia | exact Hx]. Qed.

Lemma maxweight_range `{btree_traits} level : 0 <= maxweight level < 2 ^ 64.
Proof. apply to_size_type_range. Qed.

Lemma minweight_range `{btree_traits} level : 0 <= minweight level < 2 ^ 62.
Proof.
  unfold minweight.
  pose proof (to_size_type_range (ipow branchingparameter_b level * leafparameter_k)) as Hr.
  split.
  - apply Z.div_pos; lia.
  - apply Z.div_lt_upper_bound; lia.
Qed.

(** ** Rounding to the designated leaf size *)

Lemma rounding_cases (m d : Z) :
  0 < d -> 0 <= m ->
  let r := if m mod d =? 0 then m
           else m - m mod d + d * b2z (d - m mod d <=? m mod d) in
  (d | r)
  /\ (r = d * (m / d) \/ r = d * (m / d) + d)
  /\ (forall q, (d | q) -> Z.abs (r - m) <= Z.abs (q - m))
  /\ (forall q, (d | q) -> Z.abs (q - m) = Z.abs (r - m) -> q <= r).
Proof.
  intros Hd Hm.
  pose proof (Z.div_mod m d ltac:(lia)) as Hdm.
  pose proof (Z.mod_pos_bound m d Hd) as Hmod.
  set (a := m / d) in *. set (c := m mod d) in *.
  assert (Hq : forall q, (d | q) -> q <= d * a \/ d * a + d <= q).
  { intros q [z ->]. destruct (Z_le_gt_dec z a); [left | right]; nia. }
  cbv zeta. destruct (Z.eqb_spec c 0) as [Hc | Hc].
  - assert (m = d * a) by lia.
    repeat split.
    + exists a. lia.
    + left. lia.
    + intros q _. lia.
    + intros q Hq' Habs. lia.
  - destruct (Z.leb_spec (d - c) c) as [Hup | Hdown]; cbn [b2z].
    + repeat split.
      * exists (a + 1). lia.
      * right. lia.
      * intros q Hq'. destruct (Hq q Hq'); lia.
      * intros q Hq' Habs. destruct (Hq q Hq'); lia.
    + repeat split.
      * exists a. lia.
      * left. lia.
      * intros q Hq'. destruct (Hq q Hq'); lia.
      * intros q Hq' Habs. destruct (Hq q Hq'); lia.
Qed.

Lemma designated_subtreesize_unfold `{btree_traits} (level : Z) :
  1 <= level < 2 ^ 16 ->
  0 < designated_leafsize ->
  maxweight (level - 1) + minweight (level - 1) < 2 ^ 64 ->
  designated_subtreesize level =
    let m := weight_midpoint level in
    let d := designated_leafsize in
    if m mod d =? 0 then m
    else m - m mod d + d * b2z (d - m mod d <=? m mod d).
Proof.
  intros Hl Hd Hsum.
  pose proof (maxweight_range (level - 1)) as Hmax.
  pose proof (minweight_range (level - 1)) as Hmin.
  unfold designated_subtreesize, weight_midpoint.
  rewrite (to_level_type_small (level - 1)) by lia.
  rewrite (to_size_type_small (maxweight (level - 1) + minweight (level - 1))) by lia.
  cbv zeta.
  set (m := (maxweight (level - 1) + minweight (level - 1)) / 2).
  assert (Hm : 0 <= m < 2 ^ 63).
  { unfold m. split; [apply Z.div_pos; lia | apply Z.div_lt_upper_bound; lia]. }
  pose proof (Z.mod_pos_bound m designated_leafsize Hd) as Hmod.
  pose proof (Z.mod_le m designated_leafsize ltac:(lia) Hd) as Hle.
  assert (Hdl : designated_leafsize < 2 ^ 16).
  { unfold designated_leafsize. apply to_width_type_range. }
  destruct (m mod designated_leafsize =? 0); [reflexivity |].
  rewrite (to_size_type_small (designated_leafsize - m mod designated_leafsize)) by lia.
  apply to_size_type_small.
  destruct (designated_leafsize - m mod designated_leafsize <=? m mod designated_leafsize);
    cbn [b2z]; lia.
Qed.

(** In the sequential tree, [designated_subtreesize] of a level is the
    midpoint of the weight bounds of the child level rounded to a multiple
    of [designated_leafsize]: it is the multiple just below or just above
    the midpoint, whichever is closer, and the upper one on a tie.  In the
    parallel tree, [designated_subtreesize] is the midpoint itself. *)
Lemma designated_subtreesize_rounds `{btree_traits} (level : Z) :
  1 <= level < 2 ^ 16 ->
  0 < designated_leafsize ->
  maxweight (level - 1) + minweight (level - 1) < 2 ^ 64 ->
  let m := weight_midpoint level in
  let d := designated_leafsize in
  let r := designated_subtreesize level in
  ((d | r)
   /\ (r = d * (m / d) \/ r = d * (m / d) + d)
   /\ (forall q, (d | q) -> Z.abs (r - m) <= Z.abs (q - m))
   /\ (forall q, (d | q) -> Z.abs (q - m) = Z.abs (r - m) -> q <= r))
  /\ Parallel.designated_subtreesize level = m.
Proof.
  intros Hl Hd Hsum. cbv zeta. split.
  - rewrite designated_subtreesize_unfold by assumption.
    apply rounding_cases; [exact Hd |].
    unfold weight_midpoint. apply Z.div_pos; [| lia].
    pose proof (maxweight_range (level - 1)).
    pose proof (minweight_range (level - 1)). lia.
  - unfold Parallel.designated_subtreesize, weight_midpoint.
    pose proof (maxweight_range (level - 1)) as Hmax.
    pose proof (minweight_range (level - 1)) as Hmin.
    rewrite (to_level_type_small (level - 1)) by lia.
    rewrite to_size_type_small by lia. reflexivity.
Qed.

(** C7.  With [k = 10] and [b = 8] the midpoint for level 2 is 50 and the
    designated leaf size is 6.  The sequential tree rounds to 48.  The
    parallel tree keeps 50, which is no multiple of 6, and its tree over
    fresh leaves goes wrong: for 100 keys it takes level 2 and 17 leaves,
    16 of six keys and one of four; the first child of the root covers the
    ranks from 0 to 50, and the last leaf range of that child, from 42 to
    50, meets the leaf of the ranks from 42 to 48.  With [BTREE_DEBUG] the
    assertion on its size fails.  Without, the tree is built with 96 of the
    hundred keys under it. *)
Theorem designated_subtreesize_parallel_not_rounded :
  @designated_leafsize traits_10_8 = 6
  /\ @weight_midpoint traits_10_8 2 = 50
  /\ @designated_subtreesize traits_10_8 2 = 48
  /\ @Parallel.designated_subtreesize traits_10_8 2 = 50
  /\ ~ (@designated_leafsize traits_10_8
        | @Parallel.designated_subtreesize traits_10_8 2)
  /\ @Parallel.num_optimal_levels traits_10_8 glibc_log 100 = Ok 2
  /\ let leaves :=
       fst (@TreeRootCreationTask.allocate_new_leaves traits_10_8 debug_flags
              100 (mk_tree_stats 0 0 0)) in
     map leaf_slotuse leaves = replicate 16 6%nat ++ [4%nat]
     /\ @TreeCreationTask.execute traits_10_8 debug_flags true None 0 false
          0 42 50 leaves = Err AssertionFailed
     /\ @TreeCreationTask.execute traits_10_8 debug_flags true None 0 false
          2 0 100 leaves = Err AssertionFailed
     /\ exists router root,
          @TreeCreationTask.execute traits_10_8 debug_flags false None 0 false
            2 0 100 leaves = Ok (router, root)
          /\ length (node_keys root) = 96%nat.
Proof.
  split; [vm_compute; reflexivity |].
  split; [vm_compute; reflexivity |].
  split; [vm_compute; reflexivity |].
  split; [vm_compute; reflexivity |].
  split.
  { replace (@designated_leafsize traits_10_8) with 6 by (vm_compute; reflexivity).
    replace (@Parallel.designated_subtreesize traits_10_8 2) with 50
      by (vm_compute; reflexivity).
    intros [z Hz]. lia. }
  split; [vm_compute; reflexivity |].
  cbv zeta.
  split; [vm_compute; reflexivity |].
  split; [vm_compute; reflexivity |].
  split; [vm_compute; reflexivity |].
  destruct (@TreeCreationTask.execute traits_10_8 debug_flags false None 0 false
              2 0 100 _) as [[router root] | e] eqn:Hrun;
    [| vm_compute in Hrun; discriminate Hrun].
  exists router, root. split; [reflexivity |].
  vm_compute in Hrun. injection Hrun as _ <-. vm_compute. reflexivity.
Qed.

(** ** Number of subtrees *)

Lemma num_subtrees_unfold (n s : Z) :
  0 <= n < 2 ^ 64 -> 0 < s < 2 ^ 64 ->
  num_subtrees n s =
    let q := n / s + b2z (s - n mod s <=? n mod s) in
    q + b2z ((0 <? n) && (q =? 0)).
Proof.
  intros Hn Hs.
  pose proof (Z.mod_pos_bound n s ltac:(lia)) as Hmod.
  assert (Hdiv : 0 <= n / s <= n).
  { split; [apply Z.div_pos; lia |].
    apply Z.div_le_upper_bound; [lia |]. nia. }
  assert (Hq : 0 <= n / s + b2z (s - n mod s <=? n mod s) < 2 ^ 64).
  { destruct (Z.leb_spec (s - n mod s) (n mod s)) as [Hup | Hdown]; cbn [b2z]; [| lia].
    assert (2 <= s) by lia.
    assert (n / s <= n / 2).
    { apply Z.div_le_lower_bound; [lia |].
      pose proof (Z.mul_div_le n s ltac:(lia)). nia. }
    assert (n / 2 < 2 ^ 63) by (apply Z.div_lt_upper_bound; lia).
    lia. }
  unfold num_subtrees. cbv zeta.
  rewrite (to_size_type_small (s - n mod s)) by lia.
  rewrite (to_size_type_small (n / s + _)) by lia.
  apply to_size_type_small.
  destruct (0 <? n); cbn [andb b2z]; [| lia].
  destruct (Z.eqb_spec (n / s + b2z (s - n mod s <=? n mod s)) 0); cbn [b2z]; lia.
Qed.

Lemma parallel_num_subtrees_unfold (n s : Z) :
  0 <= n < 2 ^ 64 -> 0 < s < 2 ^ 64 ->
  Parallel.num_subtrees n s = n / s + b2z (s - n mod s <=? n mod s).
Proof.
  intros Hn Hs.
  pose proof (Z.mod_pos_bound n s ltac:(lia)) as Hmod.
  assert (Hdiv : 0 <= n / s <= n).
  { split; [apply Z.div_pos; lia |].
    apply Z.div_le_upper_bound; [lia |]. nia. }
  unfold Parallel.num_subtrees. cbv zeta.
  rewrite (to_size_type_small (s - n mod s)) by lia.
  apply to_size_type_small.
  destruct (Z.leb_spec (s - n mod s) (n mod s)) as [Hup | Hdown]; cbn [b2z]; [| lia].
  assert (2 <= s) by lia.
  assert (n / s <= n / 2).
  { apply Z.div_le_lower_bound; [lia |].
    pose proof (Z.mul_div_le n s ltac:(lia)). nia. }
  assert (n / 2 < 2 ^ 63) by (apply Z.div_lt_upper_bound; lia).
  lia.
Qed.

Lemma num_subtrees_positive (n s : Z) :
  0 < n < 2 ^ 64 -> 0 < s < 2 ^ 64 -> 1 <= num_subtrees n s.
Proof.
  intros Hn Hs. rewrite num_subtrees_unfold by lia. cbv zeta.
  assert (0 <= n / s) by (apply Z.div_pos; lia).
  set (q := n / s + b2z (s - n mod s <=? n mod s)).
  assert (0 <= q).
  { unfold q. destruct (s - n mod s <=? n mod s); cbn [b2z]; lia. }
  destruct (Z.ltb_spec 0 n); [| lia].
  destruct (Z.eqb_spec q 0); cbn [andb b2z]; lia.
Qed.

Lemma num_subtrees_small_remainder (n s : Z) :
  0 < n < 2 ^ 64 -> 0 < s < 2 ^ 64 -> n < s - n ->
  Parallel.num_subtrees n s = 0 /\ num_subtrees n s = 1.
Proof.
  intros Hn Hs Hsmall.
  rewrite num_subtrees_unfold, parallel_num_subtrees_unfold by lia. cbv zeta.
  rewrite (Z.div_small n s), (Z.mod_small n s) by lia.
  destruct (Z.leb_spec (s - n) n); [lia |]. cbn [b2z].
  destruct (Z.ltb_spec 0 n); [| lia]. split; reflexivity.
Qed.

(** ** Reasoning about member functions

    [hoare P m Q E]: from a state in [P], [m] either returns a value and a
    state in [Q] or stops with an error in [E]. *)
Lemma hoare_ret {A} (a : A) (Q : A -> btree -> Prop) E :
  hoare (Q a) (mret a) Q E.
Proof. intros t Ht. exact Ht. Qed.

Lemma hoare_bind {A B} (P : btree -> Prop) (Q : A -> btree -> Prop)
    (R : B -> btree -> Prop) E (m : M A) (f : A -> M B) :
  hoare P m Q E -> (forall a, hoare (Q a) (f a) R E) -> hoare P (m ≫= f) R E.
Proof.
  intros Hm Hf t Ht. specialize (Hm t Ht).
  unfold mbind, M_bind. destruct (m t) as [[a t'] | e]; [| exact Hm].
  apply (Hf a t' Hm).
Qed.

Lemma hoare_weaken {A} (P P' : btree -> Prop) (Q Q' : A -> btree -> Prop)
    E (m : M A) :
  hoare P' m Q' E -> (forall t, P t -> P' t) ->
  (forall a t, Q' a t -> Q a t) -> hoare P m Q E.
Proof.
  intros Hm HP HQ t Ht. specialize (Hm t (HP t Ht)).
  destruct (m t) as [[a t'] | e]; [apply HQ |]; exact Hm.
Qed.

Lemma hoare_gets {A} (f : btree -> A) (Q : A -> btree -> Prop) E :
  hoare (fun t => Q (f t) t) (gets f) Q E.
Proof. intros t Ht. exact Ht. Qed.

Lemma hoare_modify (f : btree -> btree) (Q : unit -> btree -> Prop) E :
  hoare (fun t => Q tt (f t)) (modify f) Q E.
Proof. intros t Ht. exact Ht. Qed.

Lemma hoare_lift {A} (r : result A) (P : btree -> Prop) (Q : A -> btree -> Prop)
    (E : error -> Prop) :
  (forall a, r = Ok a -> forall t, P t -> Q a t) ->
  (forall e, r = Err e -> E e) ->
  hoare P (lift r) Q E.
Proof.
  intros Hok Herr t Ht. unfold lift. destruct r as [a | e].
  - apply (Hok a eq_refl t Ht).
  - apply (Herr e eq_refl).
Qed.

Lemma hoare_fail {A} (e : error) (P : btree -> Prop) (Q : A -> btree -> Prop)
    (E : error -> Prop) :
  E e -> hoare P (fail e) Q E.
Proof. intros He t _. exact He. Qed.

Lemma hoare_pre {A} (P : btree -> Prop) (Q : A -> btree -> Prop) E (m : M A) :
  (forall t, P t -> hoare (fun t' => t' = t) m Q E) -> hoare P m Q E.
Proof. intros H t Ht. apply (H t Ht t eq_refl). Qed.

Lemma array_get_error {A} e (arr : list A) i e' :
  array_get e arr i = Err e' -> e' = e.
Proof.
  unfold array_get, of_option. destruct (arr !! i); congruence.
Qed.

Lemma array_set_error {A} e (arr : list A) i x e' :
  array_set e arr i x = Err e' -> e' = e.
Proof.
  unfold array_set. destruct (i <? length arr)%nat; congruence.
Qed.

Lemma array_get_Z_error {A} e (arr : list A) i e' :
  array_get_Z e arr i = Err e' -> e' = e.
Proof.
  unfold array_get_Z. destruct (i <? 0); [congruence | apply array_get_error].
Qed.

Lemma array_get_lt {A} e (arr : list A) i :
  (i < length arr)%nat -> exists x, array_get e arr i = Ok x /\ arr !! i = Some x.
Proof.
  intros Hi. destruct (lookup_lt_is_Some_2 arr i Hi) as [x Hx].
  exists x. unfold array_get. rewrite Hx. split; reflexivity.
Qed.

Lemma array_set_length {A} e (arr arr' : list A) i x :
  array_set e arr i x = Ok arr' -> length arr' = length arr.
Proof.
  unfold array_set. destruct (i <? length arr)%nat; [| discriminate].
  intros [= <-]. apply length_insert.
Qed.

Lemma hoare_pure {A} (phi : Prop) (P : btree -> Prop) (Q : A -> btree -> Prop)
    E (m : M A) :
  (phi -> hoare P m Q E) -> hoare (fun t => P t /\ phi) m Q E.
Proof. intros H t [Ht Hphi]. apply (H Hphi t Ht). Qed.

Lemma hoare_gets_bind {A B} (f : btree -> A) (k : A -> M B)
    (P : btree -> Prop) (Q : B -> btree -> Prop) E :
  (forall a, hoare (fun t => P t /\ a = f t) (k a) Q E) ->
  hoare P (gets f ≫= k) Q E.
Proof.
  intros H t Ht. unfold mbind, M_bind, gets. apply (H (f t) t).
  split; [exact Ht | reflexivity].
Qed.

(** ** Indexing of the fresh leaves *)
Section LeafIndexing.
Context `{traits : btree_traits} `{flags : build_flags} `{lm : libm}.

Lemma BTREE_ASSERT_safe (x : bool) P :
  hoare P (BTREE_ASSERT x) (fun _ t => P t) no_leaf_index_error.
Proof.
  intros t Ht. unfold BTREE_ASSERT.
  destruct NDEBUG; [exact Ht |]. destruct x; [exact Ht | discriminate].
Qed.

Lemma allocate_leaf_count N E :
  hoare (leaves_count N) allocate_leaf (fun _ t => leaves_count N t)
        E.
Proof.
  intros t Ht. unfold allocate_leaf, mbind, M_bind.
  destruct gather_stats; exact Ht.
Qed.

Lemma push_fresh_leaves_count (count N : nat) E :
  hoare (leaves_count N) (push_fresh_leaves count)
        (fun _ t => leaves_count (N + count) t) E.
Proof.
  revert N. induction count as [| count IH]; intros N.
  - eapply hoare_weaken; [apply hoare_ret | | intros ? ? Hp; exact Hp].
    intros t Ht. unfold leaves_count in *. lia.
  - cbn [push_fresh_leaves].
    eapply hoare_bind; [apply allocate_leaf_count | intros l].
    eapply hoare_bind.
    + eapply hoare_weaken; [apply hoare_modify | | intros ? ? Hp; exact Hp].
      intros t Ht. instantiate (1 := fun _ t => leaves_count (S N) t).
      unfold leaves_count in *. cbn. rewrite length_app. cbn. lia.
    + intros ?; cbv beta. eapply hoare_weaken; [apply (IH (S N)) | auto |].
      intros ? t Ht. unfold leaves_count in *. lia.
Qed.

Lemma allocate_new_leaves_count (n : Z) P E :
  hoare P (allocate_new_leaves n)
        (fun _ t => leaves_count (Z.to_nat (num_subtrees n designated_leafsize)) t)
        E.
Proof.
  unfold allocate_new_leaves.
  eapply hoare_bind.
  - eapply hoare_weaken; [apply hoare_modify | | intros ? ? Hp; exact Hp].
    intros t _. instantiate (1 := fun _ t => leaves_count 0 t). reflexivity.
  - intros ?; cbv beta. apply (push_fresh_leaves_count _ 0 E).
Qed.

Lemma leaves_at_safe N i :
  (i < N)%nat ->
  hoare (leaves_count N) (leaves_at i) (fun _ t => leaves_count N t)
        no_leaf_index_error.
Proof.
  intros Hi t Ht. unfold leaves_at, mbind, M_bind, gets, lift.
  unfold leaves_count in Ht.
  destruct (array_get_lt LeafIndexOutOfRange (leaves t) i ltac:(lia)) as (l & -> & _).
  exact Ht.
Qed.

Lemma set_leaves_at_safe N i l :
  (i < N)%nat ->
  hoare (leaves_count N) (set_leaves_at i l) (fun _ t => leaves_count N t)
        no_leaf_index_error.
Proof.
  intros Hi t Ht. unfold set_leaves_at, mbind, M_bind, gets, lift, modify.
  unfold leaves_count in *. unfold array_set.
  destruct (Nat.ltb_spec i (length (leaves t))); [| lia].
  cbn. rewrite length_insert. exact Ht.
Qed.

Lemma lift_safe {A} (r : result A) P :
  (forall e, r = Err e -> e <> LeafIndexOutOfRange) ->
  hoare P (lift r) (fun _ t => P t) no_leaf_index_error.
Proof.
  intros Hr. apply hoare_lift; [auto |]. exact Hr.
Qed.

Lemma key_read_safe (arr : list key_type) i P :
  hoare P (lift (array_get KeyIndexOutOfRange arr i)) (fun _ t => P t)
        no_leaf_index_error.
Proof.
  apply lift_safe. intros e He. apply array_get_error in He. subst e. discriminate.
Qed.

Lemma key_write_safe (arr : list key_type) i x P :
  hoare P (lift (array_set KeyIndexOutOfRange arr i x)) (fun _ t => P t)
        no_leaf_index_error.
Proof.
  apply lift_safe. intros e He. apply array_set_error in He. subst e. discriminate.
Qed.

Lemma write_key_safe N x c :
  (w_leaf_number c < N)%nat ->
  hoare (leaves_count N) (write_key x c)
        (fun c' t => leaves_count N t /\ w_leaf_number c' = w_leaf_number c)
        no_leaf_index_error.
Proof.
  intros Hc. unfold write_key.
  eapply hoare_bind; [apply leaves_at_safe; exact Hc | intros result].
  eapply hoare_bind; [apply key_write_safe | intros arr].
  eapply hoare_bind; [apply set_leaves_at_safe; exact Hc | intros ?; cbv beta].
  eapply hoare_weaken; [apply hoare_ret | | intros ? ? Hp; exact Hp].
  intros t Ht. split; [exact Ht | reflexivity].
Qed.

Lemma write_slotuse_safe N n c :
  (w_leaf_number c < N)%nat ->
  hoare (leaves_count N) (write_slotuse n c) (fun _ t => leaves_count N t)
        no_leaf_index_error.
Proof.
  intros Hc. unfold write_slotuse.
  eapply hoare_bind; [apply leaves_at_safe; exact Hc | intros result].
  apply set_leaves_at_safe. exact Hc.
Qed.

Lemma hasNextLeaf_spec N (leaf_count : Z) :
  hoare (leaves_count N) (hasNextLeaf leaf_count)
        (fun b t => leaves_count N t
                    /\ b = (to_size_type (leaf_count + 1) <? Z.of_nat N))
        no_leaf_index_error.
Proof.
  intros t Ht. unfold hasNextLeaf, mbind, M_bind, gets. cbn.
  unfold leaves_count in *. rewrite Ht. split; reflexivity.
Qed.

Lemma next_leaf_if_full_safe N more c :
  Z.of_nat N < 2 ^ 64 ->
  (w_leaf_number c < N)%nat ->
  hoare (leaves_count N) (next_leaf_if_full more c)
        (fun c' t => leaves_count N t /\ (w_leaf_number c' < N)%nat)
        no_leaf_index_error.
Proof.
  intros HN Hc. unfold next_leaf_if_full.
  eapply hoare_bind; [apply hasNextLeaf_spec | intros has_next].
  apply hoare_pure. intros ->.
  rewrite to_size_type_small by lia.
  destruct ((Z.of_nat (w_out c) =? designated_leafsize)
            && (Z.of_nat (w_leaf_number c) + 1 <? Z.of_nat N) && more) eqn:Hcond.
  - apply andb_prop in Hcond as [Hcond _]. apply andb_prop in Hcond as [_ Hnext].
    apply Z.ltb_lt in Hnext.
    eapply hoare_bind; [apply write_slotuse_safe; exact Hc | intros ?; cbv beta].
    eapply hoare_bind; [apply leaves_at_safe; lia | intros ?; cbv beta].
    eapply hoare_weaken; [apply hoare_ret | | intros ? ? Hp; exact Hp].
    intros t Ht. split; [exact Ht | cbn; lia].
  - eapply hoare_weaken; [apply hoare_ret | | intros ? ? Hp; exact Hp].
    intros t Ht. split; [exact Ht | exact Hc].
Qed.

Lemma stream_one_safe N leaf c :
  Z.of_nat N < 2 ^ 64 ->
  (w_leaf_number c < N)%nat ->
  hoare (leaves_count N) (stream_one leaf c)
        (fun c' t => leaves_count N t /\ (w_leaf_number c' < N)%nat)
        no_leaf_index_error.
Proof.
  intros HN Hc. unfold stream_one.
  eapply hoare_bind; [apply key_read_safe | intros y].
  eapply hoare_bind; [apply write_key_safe; exact Hc | intros c1].
  apply hoare_pure. intros Hc1.
  apply next_leaf_if_full_safe; [exact HN | cbn; lia].
Qed.

Lemma stream_to_delete_safe N rounds leaf x c :
  Z.of_nat N < 2 ^ 64 ->
  (w_leaf_number c < N)%nat ->
  hoare (leaves_count N) (stream_to_delete rounds leaf x c)
        (fun c' t => leaves_count N t /\ (w_leaf_number c' < N)%nat)
        no_leaf_index_error.
Proof.
  intros HN. revert c. induction rounds as [| rounds IH]; intros c Hc.
  - apply hoare_fail. discriminate.
  - cbn [stream_to_delete].
    eapply hoare_bind; [apply key_read_safe | intros y].
    destruct (key_less y x).
    + eapply hoare_bind; [apply BTREE_ASSERT_safe | intros ?; cbv beta].
      eapply hoare_bind; [apply stream_one_safe; assumption | intros c'].
      apply hoare_pure. intros Hc'. apply IH. exact Hc'.
    + eapply hoare_weaken; [apply hoare_ret | | intros ? ? Hp; exact Hp].
      intros t Ht. split; assumption.
Qed.

Lemma stream_to_insert_safe N rounds leaf x c :
  Z.of_nat N < 2 ^ 64 ->
  (w_leaf_number c < N)%nat ->
  hoare (leaves_count N) (stream_to_insert rounds leaf x c)
        (fun c' t => leaves_count N t /\ (w_leaf_number c' < N)%nat)
        no_leaf_index_error.
Proof.
  intros HN. revert c. induction rounds as [| rounds IH]; intros c Hc.
  - apply hoare_fail. discriminate.
  - cbn [stream_to_insert].
    assert (Hret : hoare (leaves_count N) (mret c)
                     (fun c' t => leaves_count N t /\ (w_leaf_number c' < N)%nat)
                     no_leaf_index_error).
    { eapply hoare_weaken; [apply hoare_ret | | intros ? ? Hp; exact Hp].
      intros t Ht. split; assumption. }
    destruct (w_in c <? leaf_slotuse leaf)%nat; [| exact Hret].
    eapply hoare_bind; [apply key_read_safe | intros y].
    destruct (key_less y x); [| exact Hret].
    eapply hoare_bind; [apply stream_one_safe; assumption | intros c'].
    apply hoare_pure. intros Hc'. apply IH. exact Hc'.
Qed.

Lemma stream_step_safe N leaf c op :
  Z.of_nat N < 2 ^ 64 ->
  (w_leaf_number c < N)%nat ->
  hoare (leaves_count N) (stream_step leaf c op)
        (fun c' t => leaves_count N t /\ (w_leaf_number c' < N)%nat)
        no_leaf_index_error.
Proof.
  intros HN Hc. unfold stream_step. destruct (type op).
  - eapply hoare_bind; [apply stream_to_insert_safe; assumption | intros c'].
    apply hoare_pure. intros Hc'.
    eapply hoare_bind; [apply write_key_safe; exact Hc' | intros c''].
    apply hoare_pure. intros Hc''.
    apply next_leaf_if_full_safe; [exact HN | lia].
  - eapply hoare_bind; [apply stream_to_delete_safe; assumption | intros c'].
    apply hoare_pure. intros Hc'.
    eapply hoare_weaken; [apply hoare_ret | | intros ? ? Hp; exact Hp].
    intros t Ht. split; [exact Ht | exact Hc'].
Qed.

Lemma stream_loop_safe N leaf ops c :
  Z.of_nat N < 2 ^ 64 ->
  (w_leaf_number c < N)%nat ->
  hoare (leaves_count N) (stream_loop leaf c ops)
        (fun c' t => leaves_count N t /\ (w_leaf_number c' < N)%nat)
        no_leaf_index_error.
Proof.
  intros HN. revert c. induction ops as [| op ops IH]; intros c Hc.
  - eapply hoare_weaken; [apply hoare_ret | | intros ? ? Hp; exact Hp].
    intros t Ht. split; assumption.
  - cbn [stream_loop].
    eapply hoare_bind; [apply stream_step_safe; assumption | intros c'].
    apply hoare_pure. intros Hc'. apply IH. exact Hc'.
Qed.

Lemma stream_rest_safe N rounds leaf c :
  Z.of_nat N < 2 ^ 64 ->
  (w_leaf_number c < N)%nat ->
  hoare (leaves_count N) (stream_rest rounds leaf c)
        (fun c' t => leaves_count N t /\ (w_leaf_number c' < N)%nat)
        no_leaf_index_error.
Proof.
  intros HN. revert c. induction rounds as [| rounds IH]; intros c Hc.
  - apply hoare_fail. discriminate.
  - cbn [stream_rest].
    destruct (w_in c <? leaf_slotuse leaf)%nat.
    + eapply hoare_bind; [apply key_read_safe | intros y].
      eapply hoare_bind; [apply write_key_safe; exact Hc | intros c1].
      apply hoare_pure. intros Hc1.
      eapply hoare_bind;
        [apply next_leaf_if_full_safe; [exact HN | cbn; lia] | intros c3].
      apply hoare_pure. intros Hc3. apply IH. exact Hc3.
    + eapply hoare_weaken; [apply hoare_ret | | intros ? ? Hp; exact Hp].
      intros t Ht. split; assumption.
Qed.

(** The first leaf a rewritten leaf is streamed to exists as soon as there
    is one fresh leaf. *)
Lemma first_leaf_position_in_range (rank : Z) (N : nat) :
  0 < designated_leafsize -> 0 <= rank -> (0 < N)%nat -> Z.of_nat N < 2 ^ 64 ->
  0 <= fst (first_leaf_position rank (Z.of_nat N)) < Z.of_nat N.
Proof.
  intros Hd Hrank HN Hsize. unfold first_leaf_position.
  assert (0 <= rank / designated_leafsize) by (apply Z.div_pos; lia).
  destruct (Z.leb_spec (Z.of_nat N) (rank / designated_leafsize)); cbn [fst].
  - rewrite to_size_type_small by lia. lia.
  - lia.
Qed.

Lemma write_updated_leaf_to_new_tree_safe (N : nat) (n : node) (rank : Z)
    (upd : UpdateDescriptor) :
  0 < designated_leafsize -> 0 <= rank -> (0 < N)%nat -> Z.of_nat N < 2 ^ 64 ->
  hoare (leaves_count N) (write_updated_leaf_to_new_tree n rank upd)
        (fun _ t => leaves_count N t) no_leaf_index_error.
Proof.
  intros Hd Hrank HN Hsize. unfold write_updated_leaf_to_new_tree.
  apply hoare_gets_bind. intros ls.
  eapply hoare_weaken with (P' := fun t => leaves_count N t /\ length ls = N);
    [| intros t [Ht ->]; split; [exact Ht | exact Ht] | intros ? ? Hp; exact Hp].
  apply hoare_pure. intros Hls.
  pose proof (first_leaf_position_in_range rank N Hd Hrank HN Hsize) as Hpos.
  rewrite Hls.
  destruct (first_leaf_position rank (Z.of_nat N)) as [leaf_number offset_in_leaf].
  cbn [fst] in Hpos.
  eapply hoare_bind.
  { apply lift_safe. intros e He. unfold array_get_Z in He.
    destruct (Z.ltb_spec leaf_number 0); [lia |].
    destruct (array_get_lt LeafIndexOutOfRange ls (Z.to_nat leaf_number)
                ltac:(lia)) as (l & Hl & _).
    congruence. }
  intros ?; cbv beta.
  eapply hoare_bind.
  { apply lift_safe. intros e He. destruct n; cbn in He; congruence. }
  intros leaf.
  apply hoare_gets_bind. intros us.
  eapply hoare_weaken with (P' := leaves_count N);
    [| intros t [Ht _]; exact Ht | intros ? ? Hp; exact Hp].
  eapply hoare_bind.
  { apply lift_safe. intros e He. unfold batch_range in He.
    destruct (_ && _); congruence. }
  intros ops.
  eapply hoare_bind; [apply stream_loop_safe; [exact Hsize | cbn; lia] | intros c'].
  apply hoare_pure. intros Hc'.
  eapply hoare_bind; [apply stream_rest_safe; assumption | intros c''].
  apply hoare_pure. intros Hc''.
  apply write_slotuse_safe. exact Hc''.
Qed.

(** C10.  The sequential [num_subtrees] of a positive count is at least 1,
    also where the remainder rule alone (the [num_subtrees] of the parallel
    tree) gives 0 because the count is closer to 0 than to the subtree size.
    So [allocate_new_leaves] of a positive count always succeeds with at
    least one fresh leaf, and [write_updated_leaf_to_new_tree] then never
    indexes [leaves] outside the list, whatever the leaf, the rank and the
    update range are, and leaves the list at its length. *)
Theorem num_subtrees_at_least_one (n s : Z) (t : btree) :
  0 < n < 2 ^ 64 -> 0 < s < 2 ^ 64 -> 0 < designated_leafsize ->
  1 <= num_subtrees n s
  /\ (n < s - n -> Parallel.num_subtrees n s = 0 /\ num_subtrees n s = 1)
  /\ exists t',
       allocate_new_leaves n t = Ok (tt, t')
       /\ (1 <= length (leaves t'))%nat
       /\ forall (leaf : node) (rank : Z) (upd : UpdateDescriptor),
            0 <= rank ->
            match write_updated_leaf_to_new_tree leaf rank upd t' with
            | Ok (_, t'') => length (leaves t'') = length (leaves t')
            | Err e => e <> LeafIndexOutOfRange
            end.
Proof.
  intros Hn Hs Hd. split; [apply num_subtrees_positive; assumption |].
  split; [apply num_subtrees_small_remainder; assumption |].
  assert (Hdl : designated_leafsize < 2 ^ 64).
  { pose proof (to_width_type_range ((leafslotmax + leafslotmin) / 2)).
    unfold designated_leafsize. lia. }
  assert (Hpos : 1 <= num_subtrees n designated_leafsize).
  { apply num_subtrees_positive; lia. }
  assert (Hlt : num_subtrees n designated_leafsize < 2 ^ 64).
  { unfold num_subtrees. apply to_size_type_range. }
  pose proof (allocate_new_leaves_count n (fun _ => True) (fun _ => False) t I)
    as Halloc.
  destruct (allocate_new_leaves n t) as [[[] t'] | e]; [| contradiction].
  exists t'. split; [reflexivity |].
  unfold leaves_count in Halloc.
  assert (Hlen1 : (0 < length (leaves t'))%nat) by lia.
  assert (Hlen2 : Z.of_nat (length (leaves t')) < 2 ^ 64) by lia.
  split; [lia |].
  intros leaf rank upd Hrank.
  pose proof (write_updated_leaf_to_new_tree_safe (length (leaves t')) leaf rank upd
                Hd Hrank Hlen1 Hlen2 t' eq_refl) as Hsafe.
  destruct (write_updated_leaf_to_new_tree leaf rank upd t') as [[[] t''] | e].
  - exact Hsafe.
  - exact Hsafe.
Qed.
End LeafIndexing.

(** One key in a rebuilt range of a tree with [k = 8]: the remainder rule
    gives no leaf, the sequential tree allocates one. *)
Lemma num_subtrees_at_least_one_witness :
  1 <= num_subtrees 1 5
  /\ (1 < 5 - 1 -> Parallel.num_subtrees 1 5 = 0 /\ num_subtrees 1 5 = 1)
  /\ exists t',
       @allocate_new_leaves traits_8_8 debug_flags 1
         (@new_btree traits_8_8 debug_flags) = Ok (tt, t')
       /\ (1 <= length (leaves t'))%nat
       /\ forall (leaf : node) (rank : Z) (upd : UpdateDescriptor),
            0 <= rank ->
            match @write_updated_leaf_to_new_tree traits_8_8 debug_flags
                    leaf rank upd t' with
            | Ok (_, t'') => length (leaves t'') = length (leaves t')
            | Err e => e <> LeafIndexOutOfRange
            end.
Proof.
  apply (@num_subtrees_at_least_one traits_8_8 debug_flags 1 5
           (@new_btree traits_8_8 debug_flags)).
  - lia.
  - lia.
  - vm_compute. reflexivity.
Defined.


(** ** The target level *)

Lemma ceil_log_loop_spec (base num den : Z) :
  2 <= base -> 1 <= den ->
  forall (rounds : nat) (pw L : Z),
    0 <= L -> pw = den * base ^ L ->
    (forall L', 0 <= L' < L -> den * base ^ L' < num) ->
    (exists j, 0 <= j < Z.of_nat rounds /\ num <= pw * base ^ j) ->
    let r := ceil_log_loop rounds base num pw L in
    L <= r /\ num <= den * base ^ r
    /\ (forall L', 0 <= L' < r -> den * base ^ L' < num).
Proof.
  intros Hbase Hden. induction rounds as [| rounds IH]; intros pw L HL Hpw Hbelow Hex.
  - destruct Hex as (j & Hj & _). lia.
  - cbn [ceil_log_loop]. destruct (Z.leb_spec num pw) as [Hle | Hgt].
    + cbv zeta. split; [lia |]. split; [lia | exact Hbelow].
    + destruct Hex as (j & Hj & Hnum).
      assert (Hj0 : j <> 0).
      { intros ->. rewrite Z.pow_0_r in Hnum. lia. }
      specialize (IH (pw * base) (L + 1) ltac:(lia)).
      assert (Hpw' : pw * base = den * base ^ (L + 1)).
      { rewrite Z.pow_add_r by lia. rewrite Z.pow_1_r. lia. }
      specialize (IH Hpw').
      assert (Hbelow' : forall L', 0 <= L' < L + 1 -> den * base ^ L' < num).
      { intros L' HL'. destruct (Z.eq_dec L' L) as [-> | Hne].
        - lia.
        - apply Hbelow. lia. }
      specialize (IH Hbelow').
      assert (Hex' : exists j', 0 <= j' < Z.of_nat rounds
                                /\ num <= pw * base * base ^ j').
      { exists (j - 1). split; [lia |].
        replace (pw * base * base ^ (j - 1)) with (pw * base ^ j); [exact Hnum |].
        replace j with (1 + (j - 1)) at 1 by lia.
        rewrite Z.pow_add_r by lia. rewrite Z.pow_1_r. lia. }
      specialize (IH Hex'). cbv zeta in IH. cbv zeta.
      destruct IH as (H1 & H2 & H3). split; [lia |]. split; assumption.
Qed.

(** [ceil_log base num den] is the least level [L] with
    [num <= den * base ^ L], i.e. the ceiling of the logarithm of
    [num / den] to the base [base] when [num > den]. *)
Lemma ceil_log_spec (base num den : Z) :
  2 <= base -> 1 <= den -> 1 <= num ->
  let r := ceil_log base num den in
  0 <= r <= Z.log2 num + 1
  /\ num <= den * base ^ r
  /\ (forall L', 0 <= L' < r -> den * base ^ L' < num).
Proof.
  intros Hbase Hden Hnum. unfold ceil_log.
  pose proof (Z.log2_nonneg num) as Hlog.
  assert (Hbig : num <= den * base ^ (Z.log2 num + 1)).
  { pose proof (Z.log2_spec num ltac:(lia)) as [_ Hup].
    replace (Z.succ (Z.log2 num)) with (Z.log2 num + 1) in Hup by lia.
    assert (2 ^ (Z.log2 num + 1) <= base ^ (Z.log2 num + 1)).
    { apply Z.pow_le_mono_l. lia. }
    assert (0 < base ^ (Z.log2 num + 1)) by (apply Z.pow_pos_nonneg; lia).
    nia. }
  pose proof (ceil_log_loop_spec base num den Hbase Hden
                (Z.to_nat (Z.log2 num) + 2) den 0 ltac:(lia)) as Hspec.
  rewrite Z.pow_0_r, Z.mul_1_r in Hspec. specialize (Hspec eq_refl).
  specialize (Hspec ltac:(intros; lia)).
  assert (Hex : exists j, 0 <= j < Z.of_nat (Z.to_nat (Z.log2 num) + 2)
                          /\ num <= den * base ^ j).
  { exists (Z.log2 num + 1). split; [lia | exact Hbig]. }
  specialize (Hspec Hex). cbv zeta in Hspec. cbv zeta.
  destruct Hspec as (H1 & H2 & H3).
  split; [| split; assumption]. split; [lia |].
  destruct (Z_le_gt_dec (ceil_log_loop (Z.to_nat (Z.log2 num) + 2) base num den 0)
                        (Z.log2 num + 1)) as [Hle | Hgt]; [exact Hle |].
  specialize (H3 (Z.log2 num + 1) ltac:(lia)). lia.
Qed.

(** C4.  With [k = b = 8] and 10485760 keys the quotient [8 n / (5 k)] is
    [8 ^ 7]: the exact ceiling of its logarithm is 7, and level 7 takes 8
    subtrees, so the formula gives 7.  The sequential tree computes 8 (the
    quotient of the two double-precision logarithms is above 7) and keeps
    it, although level 8 takes a single subtree; the parallel tree, which
    has the reduction, gives 7 for as many keys as make its quotient
    [8 ^ 7].  With 6 keys the sequential tree takes level 1, with a single
    subtree, where the formula gives 0. *)
Theorem num_optimal_levels_keeps_single_subtree :
  @num_optimal_levels traits_8_8 glibc_log 10485760 = Ok 8
  /\ @spec_target_level traits_8_8 10485760 = 7
  /\ @num_subtrees 10485760 (@designated_subtreesize traits_8_8 8) = 1
  /\ @Parallel.num_optimal_levels traits_8_8 glibc_log 8388608 = Ok 7
  /\ @num_optimal_levels traits_8_8 glibc_log 6 = Ok 1
  /\ @spec_target_level traits_8_8 6 = 0.
Proof.
  repeat split; vm_compute; reflexivity.
Qed.

(** ** The midpoint of the batch binary search *)

(** Without overflow the midpoint lies in the searched range. *)
Lemma find_lower_mid_in_range (lo hi : Z) :
  0 <= lo -> lo < hi -> lo + hi < 2 ^ 31 ->
  find_lower_mid lo hi = (lo + hi) / 2 /\ lo <= find_lower_mid lo hi < hi.
Proof.
  intros Hlo Hlt Hsum. unfold find_lower_mid.
  rewrite to_int_small by lia. rewrite Z.shiftr_div_pow2 by lia.
  change (2 ^ 1) with 2.
  pose proof (Z.div_mod (lo + hi) 2 ltac:(lia)).
  pose proof (Z.mod_pos_bound (lo + hi) 2 ltac:(lia)).
  split; [reflexivity | lia].
Qed.

(** C8 (the code misses it).  On the update range [[2^30, 2^30 + 2)] of a
    batch of [2^30 + 2] operations the sum [lo + hi] leaves the [int] range:
    the midpoint comes out as [1 - 2^30], below the batch, and the search
    reads [updates] there instead of returning a partition index.  The
    range itself and the overflow-safe midpoint [lo + (hi - lo) / 2] are
    inside the batch. *)
Theorem find_lower_midpoint_overflows (key : key_type) :
  let lo := 2 ^ 30 in
  let hi := 2 ^ 30 + 2 in
  to_int lo = lo /\ to_int hi = hi
  /\ find_lower_mid lo hi = 1 - 2 ^ 30
  /\ lo <= lo + (hi - lo) / 2 < hi
  /\ find_lower large_batch_at lo hi key = Err UpdateIndexOutOfRange.
Proof.
  cbv zeta. repeat split; try (vm_compute; congruence).
Qed.

(** ** Weight delta of a batch *)
Section WeightDeltaProperties.
Context {key_type : Type}.
Implicit Types (ops rest : list (Operation key_type)) (wd : list Z).

Lemma delta_sum_counts ops : delta_sum ops = count_inserts ops - count_deletes ops.
Proof.
  induction ops as [| op ops IH]; cbn; [reflexivity |].
  destruct (type op); cbn; lia.
Qed.

Lemma delta_sum_app ops1 ops2 :
  delta_sum (ops1 ++ ops2) = delta_sum ops1 + delta_sum ops2.
Proof. induction ops1 as [| op ops1 IH]; cbn; lia. Qed.

Lemma delta_sum_bound ops : Z.abs (delta_sum ops) <= Z.of_nat (length ops).
Proof.
  induction ops as [| op ops IH]; cbn [delta_sum length]; [lia |].
  destruct (type op); cbn [OpType_value]; lia.
Qed.

Lemma delta_sum_take_S ops i op :
  ops !! i = Some op ->
  delta_sum (take (S i) ops) = delta_sum (take i ops) + OpType_value (type op).
Proof.
  intros Hop. rewrite (take_S_r ops i op Hop), delta_sum_app. cbn. lia.
Qed.

Lemma delta_sum_between ops (i j : nat) :
  (i <= j)%nat ->
  delta_sum (take j ops) - delta_sum (take i ops) = delta_sum (ops_between i j ops).
Proof.
  intros Hij. unfold ops_between.
  replace j with (i + (j - i))%nat at 1 by lia.
  rewrite <- take_take_drop, delta_sum_app. lia.
Qed.

Lemma delta_sum_pure ops (sign : Z) :
  Forall (fun op => OpType_value (type op) = sign) ops ->
  delta_sum ops = Z.of_nat (length ops) * sign.
Proof.
  induction 1 as [| op ops Hop _ IH]; cbn [delta_sum length]; [lia |].
  rewrite Hop, IH. lia.
Qed.

(** The loop writes the running sum of every prefix of [rest] behind
    position [i] and leaves the cells up to [i] alone. *)
Lemma weightdelta_loop_spec rest :
  forall (i : nat) (val : Z) wd,
    (i + length rest < length wd)%nat ->
    Z.abs val + Z.of_nat (length rest) < 2 ^ 63 ->
    exists wd',
      weightdelta_loop rest i val wd = Ok wd'
      /\ length wd' = length wd
      /\ (forall j, (j <= i)%nat -> wd' !! j = wd !! j)
      /\ (forall j, (1 <= j <= length rest)%nat ->
            wd' !! (i + j)%nat = Some (val + delta_sum (take j rest))).
Proof.
  induction rest as [| op rest IH]; intros i val wd Hlen Hval.
  - exists wd. cbn. split; [reflexivity |]. split; [reflexivity |].
    split; [reflexivity | intros j Hj; lia].
  - cbn [weightdelta_loop length] in *.
    assert (Hstep : Z.abs (val + OpType_value (type op)) <= Z.abs val + 1).
    { destruct (type op); cbn; lia. }
    rewrite to_signed_long_small by lia.
    unfold array_set. destruct (Nat.ltb_spec (S i) (length wd)); [| lia].
    cbn [mbind result_mbind result_bind].
    destruct (IH (S i) (val + OpType_value (type op))
                 (<[S i := val + OpType_value (type op)]> wd))
      as (wd' & Hrun & Hlen' & Hkeep & Hsum).
    { rewrite length_insert. lia. }
    { lia. }
    exists wd'. split; [exact Hrun |].
    rewrite length_insert in Hlen'. split; [exact Hlen' |]. split.
    + intros j Hj. rewrite Hkeep by lia. apply list_lookup_insert_ne. lia.
    + intros j Hj. destruct j as [| j]; [lia |].
      destruct j as [| j].
      * replace (i + 1)%nat with (S i) by lia. rewrite Hkeep by lia.
        rewrite list_lookup_insert_eq by lia. cbn [firstn delta_sum].
        rewrite take_0. cbn [delta_sum]. f_equal. lia.
      * replace (i + S (S j))%nat with (S i + S j)%nat by lia.
        rewrite Hsum by lia. cbn [firstn delta_sum]. f_equal. lia.
Qed.

(** After [setOperationsAndComputeWeightDelta] on a mixed batch, cell [j]
    holds the sum of the first [j] operation types. *)
Lemma setOperationsAndComputeWeightDelta_mixed (size : Z) wd ops :
  (length ops < length wd)%nat -> Z.of_nat (length ops) < 2 ^ 63 ->
  exists wd',
    setOperationsAndComputeWeightDelta_pure size wd ops INSERTS_AND_DELETES
      = Ok (wd', to_size_type (size + delta_sum ops))
    /\ length wd' = length wd
    /\ forall j, (j <= length ops)%nat -> wd' !! j = Some (delta_sum (take j ops)).
Proof.
  intros Hlen Hn. unfold setOperationsAndComputeWeightDelta_pure.
  unfold array_set at 1. destruct (Nat.ltb_spec 0 (length wd)); [| lia].
  cbn [mbind result_mbind result_bind].
  destruct (weightdelta_loop_spec ops 0 0 (<[0%nat := 0]> wd))
    as (wd' & Hrun & Hlen' & Hkeep & Hsum).
  { rewrite length_insert. lia. }
  { lia. }
  rewrite Hrun. cbn [mbind result_mbind result_bind].
  assert (Hall : forall j, (j <= length ops)%nat ->
                           wd' !! j = Some (delta_sum (take j ops))).
  { intros j Hj. destruct j as [| j].
    - rewrite Hkeep by lia. rewrite list_lookup_insert_eq by lia.
      rewrite take_0. reflexivity.
    - specialize (Hsum (S j) ltac:(lia)). cbn [Nat.add] in Hsum.
      exact Hsum. }
  exists wd'. rewrite length_insert in Hlen'.
  split; [| split; [exact Hlen' | exact Hall]].
  unfold array_get. rewrite (Hall (length ops)) by lia.
  cbn [of_option mbind result_mbind result_bind].
  rewrite firstn_all. reflexivity.
Qed.

Lemma getWeightDelta_mixed wd ops (i j : nat) :
  (i <= j <= length ops)%nat -> Z.of_nat (length ops) < 2 ^ 62 ->
  (forall j, (j <= length ops)%nat -> wd !! j = Some (delta_sum (take j ops))) ->
  getWeightDelta_pure wd INSERTS_AND_DELETES i j
    = Ok (delta_sum (ops_between i j ops)).
Proof.
  intros Hij Hn Hwd. unfold getWeightDelta_pure, array_get.
  rewrite (Hwd j), (Hwd i) by lia. cbn.
  rewrite delta_sum_between by lia.
  pose proof (delta_sum_bound (ops_between i j ops)) as Hb.
  assert (length (ops_between i j ops) <= length ops)%nat.
  { unfold ops_between. rewrite length_take, length_drop. lia. }
  rewrite to_signed_long_small by lia. reflexivity.
Qed.

Lemma getWeightDelta_closed_form wd (batch_type : OperationBatchType) (i j : nat) :
  batch_type <> INSERTS_AND_DELETES ->
  (i <= j)%nat -> Z.of_nat j < 2 ^ 63 ->
  getWeightDelta_pure wd batch_type i j
    = Ok ((Z.of_nat j - Z.of_nat i) * OperationBatchType_value batch_type).
Proof.
  intros Hbt Hij Hj. unfold getWeightDelta_pure.
  rewrite (to_size_type_small (Z.of_nat j - Z.of_nat i)) by lia.
  destruct batch_type; [| | congruence]; cbn [OperationBatchType_value]; f_equal.
  - rewrite (to_size_type_small 1) by lia.
    rewrite to_size_type_small by lia. rewrite to_signed_long_small by lia. lia.
  - set (d := Z.of_nat j - Z.of_nat i).
    assert (Hd : 0 <= d < 2 ^ 63) by lia.
    change (to_size_type (-1)) with (2 ^ 64 - 1).
    unfold to_signed_long, wrap_signed, to_size_type, wrap_unsigned.
    replace (d * (2 ^ 64 - 1)) with (- d + d * 2 ^ 64) by lia.
    rewrite Z.mod_add by lia.
    destruct (Z.eq_dec d 0) as [-> | Hd0]; [reflexivity |].
    rewrite (Z.mod_opp_l_nz d (2 ^ 64)) by (rewrite ?Z.mod_small; lia).
    rewrite (Z.mod_small d (2 ^ 64)) by lia.
    change (64 - 1) with 63.
    replace (2 ^ 64 - d + 2 ^ 63) with ((2 ^ 63 - d) + 1 * 2 ^ 64) by lia.
    rewrite Z.mod_add by lia. rewrite Z.mod_small by lia. lia.
Qed.
End WeightDeltaProperties.

Section PrefixSumProperties.
Context {key_type : Type}.
Implicit Types (ops block : list (Operation key_type)) (out : list Z).

Lemma PrefixSum_step_value (t : OpType) : PrefixSum.step t = OpType_value t.
Proof. destruct t; reflexivity. Qed.

(** One run of the body over a block: the sum advances by the sum of the
    block; a final scan writes the running sums behind position [i], a
    pre-scan writes nothing. *)
Lemma PrefixSum_run_spec (final : bool) block :
  forall (i : nat) (temp : Z) out,
    (i + length block < length out)%nat ->
    Z.abs temp + Z.of_nat (length block) < 2 ^ 63 ->
    exists out',
      PrefixSum.run final block i temp out = Ok (temp + delta_sum block, out')
      /\ length out' = length out
      /\ (final = false -> out' = out)
      /\ (forall j, (j <= i)%nat -> out' !! j = out !! j)
      /\ (final = true ->
          forall j, (1 <= j <= length block)%nat ->
            out' !! (i + j)%nat = Some (temp + delta_sum (take j block))).
Proof.
  induction block as [| op block IH]; intros i temp out Hlen Htemp.
  - exists out. cbn [PrefixSum.run delta_sum]. rewrite Z.add_0_r.
    split; [reflexivity |]. split; [reflexivity |]. split; [reflexivity |].
    split; [reflexivity |]. intros _ j Hj. cbn in Hj. lia.
  - cbn [PrefixSum.run length delta_sum] in *.
    rewrite PrefixSum_step_value.
    assert (Hstep : Z.abs (temp + OpType_value (type op)) <= Z.abs temp + 1).
    { destruct (type op); cbn; lia. }
    rewrite to_signed_long_small by lia.
    set (temp' := temp + OpType_value (type op)) in *.
    destruct final.
    + unfold array_set. destruct (Nat.ltb_spec (S i) (length out)); [| lia].
      cbn [mbind result_mbind result_bind].
      destruct (IH (S i) temp' (<[S i := temp']> out))
        as (out' & Hrun & Hlen' & _ & Hkeep & Hsum).
      { rewrite length_insert. lia. }
      { lia. }
      exists out'. rewrite length_insert in Hlen'.
      replace (temp + (OpType_value (type op) + delta_sum block))
        with (temp' + delta_sum block) by (unfold temp'; lia).
      split; [exact Hrun |]. split; [exact Hlen' |].
      split; [discriminate |]. split.
      * intros j Hj. rewrite Hkeep by lia. apply list_lookup_insert_ne. lia.
      * intros _ j Hj. destruct j as [| [| j]]; [lia | |].
        -- replace (i + 1)%nat with (S i) by lia. rewrite Hkeep by lia.
           rewrite list_lookup_insert_eq by lia. cbn [firstn delta_sum].
           rewrite take_0. cbn [delta_sum]. f_equal. unfold temp'. lia.
        -- replace (i + S (S j))%nat with (S i + S j)%nat by lia.
           rewrite (Hsum eq_refl) by lia. cbn [firstn delta_sum].
           f_equal. unfold temp'. lia.
    + cbn [mbind result_mbind result_bind].
      destruct (IH (S i) temp' out) as (out' & Hrun & Hlen' & Hsame & Hkeep & _).
      { lia. }
      { lia. }
      exists out'.
      replace (temp + (OpType_value (type op) + delta_sum block))
        with (temp' + delta_sum block) by (unfold temp'; lia).
      split; [exact Hrun |]. split; [exact Hlen' |].
      split; [exact Hsame |]. split; [| discriminate].
      intros j Hj. rewrite (Hsame eq_refl). reflexivity.
Qed.

(** The scan over any cut of the batch into blocks writes the same sums as
    one pass over the whole batch. *)
Lemma PrefixSum_scan_blocks_spec (blocks : list (list (Operation key_type))) :
  forall (i : nat) (left_sum : Z) out,
    (i + length (concat blocks) < length out)%nat ->
    Z.abs left_sum + Z.of_nat (length (concat blocks)) < 2 ^ 63 ->
    exists out',
      PrefixSum.scan_blocks blocks i left_sum out
        = Ok (left_sum + delta_sum (concat blocks), out')
      /\ length out' = length out
      /\ (forall j, (j <= i)%nat -> out' !! j = out !! j)
      /\ (forall j, (1 <= j <= length (concat blocks))%nat ->
            out' !! (i + j)%nat
              = Some (left_sum + delta_sum (take j (concat blocks)))).
Proof.
  induction blocks as [| block blocks IH]; intros i left_sum out Hlen Hsum.
  - exists out. cbn. rewrite Z.add_0_r.
    split; [reflexivity |]. split; [reflexivity |]. split; [reflexivity |].
    intros j Hj. lia.
  - cbn [concat PrefixSum.scan_blocks] in *. rewrite length_app in *.
    pose proof (delta_sum_bound block) as Hb.
    destruct (PrefixSum_run_spec false block i 0 out ltac:(lia) ltac:(lia))
      as (out0 & Hpre & _ & _ & _ & _).
    rewrite Hpre. cbn [mbind result_mbind result_bind].
    destruct (PrefixSum_run_spec true block i left_sum out ltac:(lia) ltac:(lia))
      as (out1 & Hfinal & Hlen1 & _ & Hkeep1 & Hsum1).
    rewrite Hfinal. cbn [mbind result_mbind result_bind].
    rewrite Z.add_0_l.
    rewrite to_signed_long_small by lia.
    destruct (IH (i + length block)%nat (left_sum + delta_sum block) out1)
      as (out' & Hrun & Hlen' & Hkeep & Hsum').
    { lia. }
    { lia. }
    exists out'. rewrite delta_sum_app.
    split; [rewrite Hrun; f_equal; f_equal; lia |].
    split; [lia |]. split.
    + intros j Hj. rewrite Hkeep by lia. apply Hkeep1. lia.
    + intros j Hj. destruct (Nat.le_gt_cases j (length block)) as [Hle | Hgt].
      * rewrite Hkeep by lia. rewrite (Hsum1 eq_refl) by lia.
        rewrite take_app_le by lia. reflexivity.
      * replace (i + j)%nat with (i + length block + (j - length block))%nat by lia.
        rewrite Hsum' by lia. rewrite take_app_ge by lia.
        rewrite delta_sum_app. f_equal. lia.
Qed.

Lemma PrefixSum_setOperationsAndComputeWeightDelta_spec (size : Z)
    (weightdelta : list Z) (blocks : list (list (Operation key_type))) :
  Z.of_nat (length (concat blocks)) < 2 ^ 63 ->
  exists wd',
    PrefixSum.setOperationsAndComputeWeightDelta size weightdelta blocks
      = Ok (wd', to_size_type (size + delta_sum (concat blocks)))
    /\ forall j, (j <= length (concat blocks))%nat ->
         wd' !! j = Some (delta_sum (take j (concat blocks))).
Proof.
  intros Hn. unfold PrefixSum.setOperationsAndComputeWeightDelta.
  set (n := length (concat blocks)) in *.
  destruct (PrefixSum_scan_blocks_spec blocks 0 0
              (<[0%nat := 0]> (resize (n + 1) 0 weightdelta)))
    as (wd' & Hrun & Hlen & Hkeep & Hsum).
  { rewrite length_insert, length_resize. fold n. lia. }
  { fold n. lia. }
  rewrite Hrun. cbn [mbind result_mbind result_bind].
  exists wd'. split; [reflexivity |].
  intros j Hj. destruct j as [| j].
  - rewrite Hkeep by lia. rewrite list_lookup_insert_eq; [rewrite take_0; reflexivity |].
    rewrite length_resize. lia.
  - assert (Hj' : (1 <= S j <= length (concat blocks))%nat) by (fold n; lia).
    specialize (Hsum (S j) Hj'). cbn [Nat.add] in Hsum. exact Hsum.
Qed.
End PrefixSumProperties.

Section WeightDeltaContract.
Context {key_type : Type}.
Implicit Types (ops : list (Operation key_type)) (wd : list Z).

Lemma prefix_sums_weight_delta_array wd ops :
  (forall j, (j <= length ops)%nat -> wd !! j = Some (delta_sum (take j ops))) ->
  is_weight_delta_array wd ops.
Proof.
  intros Hwd. split.
  - rewrite (Hwd 0%nat) by lia. rewrite take_0. reflexivity.
  - intros i op Hop. pose proof (lookup_lt_Some _ _ _ Hop) as Hi.
    exists (delta_sum (take i ops)). split; [apply Hwd; lia |].
    rewrite (Hwd (S i)) by lia. rewrite (delta_sum_take_S ops i op Hop).
    destruct (type op); reflexivity.
Qed.

(** C3.  For a mixed batch the sequential tree fills the weight-delta array
    with [wd[0] = 0], [wd[i+1] = wd[i] +/- 1], and [getWeightDelta] of a
    range [[i, j)] returns [wd[j] - wd[i]], the number of inserts less the
    number of deletes in the range.  For a batch of inserts only or of
    deletes only the array is left as it is and [getWeightDelta] returns
    [(j - i) * sign], again the number of inserts less the number of
    deletes.  The scan of the parallel tree produces the same array for
    every cut of the batch into blocks. *)
Theorem weight_delta_contract (size : Z) wd ops :
  (length ops < length wd)%nat -> Z.of_nat (length ops) < 2 ^ 62 ->
  (exists wd',
     setOperationsAndComputeWeightDelta_pure size wd ops INSERTS_AND_DELETES
       = Ok (wd', to_size_type (size + (count_inserts ops - count_deletes ops)))
     /\ is_weight_delta_array wd' ops
     /\ forall i j : nat, (i <= j <= length ops)%nat ->
          exists vi vj,
            wd' !! i = Some vi /\ wd' !! j = Some vj
            /\ getWeightDelta_pure wd' INSERTS_AND_DELETES i j = Ok (vj - vi)
            /\ vj - vi = count_inserts (ops_between i j ops)
                         - count_deletes (ops_between i j ops))
  /\ (forall batch_type : OperationBatchType,
        batch_type <> INSERTS_AND_DELETES ->
        Forall (fun op => OpType_value (type op)
                          = OperationBatchType_value batch_type) ops ->
        (exists new_size,
           setOperationsAndComputeWeightDelta_pure size wd ops batch_type
             = Ok (wd, new_size))
        /\ forall i j : nat, (i <= j <= length ops)%nat ->
             getWeightDelta_pure wd batch_type i j
               = Ok ((Z.of_nat j - Z.of_nat i) * OperationBatchType_value batch_type)
             /\ (Z.of_nat j - Z.of_nat i) * OperationBatchType_value batch_type
                = count_inserts (ops_between i j ops)
                  - count_deletes (ops_between i j ops))
  /\ (forall (blocks : list (list (Operation key_type))) wd0,
        concat blocks = ops ->
        exists wd',
          PrefixSum.setOperationsAndComputeWeightDelta size wd0 blocks
            = Ok (wd', to_size_type (size + (count_inserts ops - count_deletes ops)))
          /\ is_weight_delta_array wd' ops).
Proof.
  intros Hlen Hn. split; [| split].
  - destruct (setOperationsAndComputeWeightDelta_mixed size wd ops Hlen ltac:(lia))
      as (wd' & Hrun & _ & Hwd).
    exists wd'. rewrite <- delta_sum_counts. split; [exact Hrun |].
    split; [apply prefix_sums_weight_delta_array; exact Hwd |].
    intros i j Hij.
    exists (delta_sum (take i ops)), (delta_sum (take j ops)).
    split; [apply Hwd; lia |]. split; [apply Hwd; lia |].
    rewrite (getWeightDelta_mixed wd' ops i j Hij Hn Hwd).
    rewrite delta_sum_between by lia. rewrite delta_sum_counts.
    split; reflexivity.
  - intros batch_type Hbt Hpure. split.
    + unfold setOperationsAndComputeWeightDelta_pure.
      destruct batch_type; [eexists; reflexivity | eexists; reflexivity | congruence].
    + intros i j Hij.
      rewrite getWeightDelta_closed_form by (try assumption; lia).
      split; [reflexivity |].
      rewrite <- delta_sum_counts.
      assert (Hsub : Forall (fun op => OpType_value (type op)
                                       = OperationBatchType_value batch_type)
                            (ops_between i j ops)).
      { unfold ops_between. apply Forall_take, Forall_drop. exact Hpure. }
      rewrite (delta_sum_pure _ _ Hsub).
      unfold ops_between. rewrite length_take, length_drop. f_equal. lia.
  - intros blocks wd0 Hblocks. subst ops.
    destruct (PrefixSum_setOperationsAndComputeWeightDelta_spec size wd0 blocks
                ltac:(lia)) as (wd' & Hrun & Hwd).
    exists wd'. rewrite <- delta_sum_counts. split; [exact Hrun |].
    apply prefix_sums_weight_delta_array. exact Hwd.
Qed.
End WeightDeltaContract.

Lemma weight_delta_contract_witness :
  exists wd',
    setOperationsAndComputeWeightDelta_pure 5 (replicate 8 0) three_ops
        INSERTS_AND_DELETES
      = Ok (wd', to_size_type (5 + (count_inserts three_ops - count_deletes three_ops)))
    /\ is_weight_delta_array wd' three_ops
    /\ forall i j : nat, (i <= j <= length three_ops)%nat ->
         exists vi vj,
           wd' !! i = Some vi /\ wd' !! j = Some vj
           /\ getWeightDelta_pure wd' INSERTS_AND_DELETES i j = Ok (vj - vi)
           /\ vj - vi = count_inserts (ops_between i j three_ops)
                        - count_deletes (ops_between i j three_ops).
Proof.
  apply (weight_delta_contract 5 (replicate 8 0) three_ops).
  - cbn. lia.
  - cbn. lia.
Defined.

(** ** Merging a batch range into a leaf *)
Section MergeKeysProperties.
Context {key_type : Type} `{StrictTotalOrder key_type}.
Implicit Types (x y : key_type) (keys : list key_type)
  (ops : list (Operation key_type)).

Lemma key_less_asym x y : key_less x y = true -> key_less y x = false.
Proof.
  intros Hxy. destruct (key_less y x) eqn:Hyx; [| reflexivity].
  pose proof (key_less_trans x y x Hxy Hyx) as Hxx.
  rewrite key_less_irrefl in Hxx. discriminate.
Qed.

Lemma key_equal_refl x : key_equal x x = true.
Proof. unfold key_equal. rewrite key_less_irrefl. reflexivity. Qed.

Lemma key_equal_eq x y : key_equal x y = true -> x = y.
Proof.
  unfold key_equal. intros Heq. apply andb_prop in Heq as [H1 H2].
  apply key_less_total; [destruct (key_less x y) | destruct (key_less y x)];
    (reflexivity || discriminate).
Qed.

#[local] Instance key_lt_trans : Transitive (@key_lt key_type _).
Proof. intros a b c. unfold key_lt. apply key_less_trans. Qed.

Lemma keys_below_from x keys : keys = keys_below x keys ++ keys_from x keys.
Proof.
  induction keys as [| y keys IH]; cbn; [reflexivity |].
  destruct (key_less y x); [cbn; f_equal; exact IH | reflexivity].
Qed.

Lemma keys_below_less x keys : Forall (fun y => key_lt y x) (keys_below x keys).
Proof.
  induction keys as [| y keys IH]; cbn; [constructor |].
  destruct (key_less y x) eqn:Hy; constructor; assumption.
Qed.

Lemma keys_from_head x keys y rest :
  keys_from x keys = y :: rest -> key_less y x = false.
Proof.
  induction keys as [| z keys IH]; cbn; [discriminate |].
  destruct (key_less z x) eqn:Hz; [exact IH |].
  intros [= <- _]. exact Hz.
Qed.

Lemma keys_from_sorted x keys :
  StronglySorted key_lt keys -> StronglySorted key_lt (keys_from x keys).
Proof.
  intros Hs. rewrite (keys_below_from x keys) in Hs.
  apply StronglySorted_app_1_r in Hs. exact Hs.
Qed.

Lemma keys_from_not_less x keys :
  StronglySorted key_lt keys ->
  Forall (fun y => key_less y x = false) (keys_from x keys).
Proof.
  intros Hs. apply (keys_from_sorted x) in Hs.
  destruct (keys_from x keys) as [| y rest] eqn:Hfrom; [constructor |].
  pose proof (keys_from_head x keys y rest Hfrom) as Hy.
  apply StronglySorted_cons in Hs as [Hrest _].
  constructor; [exact Hy |].
  eapply Forall_impl; [exact Hrest |]. intros z Hz. cbn in Hz.
  destruct (key_less z x) eqn:Hzx; [| reflexivity].
  rewrite (key_less_trans y z x Hz Hzx) in Hy. discriminate.
Qed.

Lemma keys_from_present x keys :
  StronglySorted key_lt keys -> x ∈ keys ->
  exists rest, keys_from x keys = x :: rest /\ Forall (key_lt x) rest.
Proof.
  intros Hs Hin.
  pose proof (keys_from_sorted x keys Hs) as Hsf.
  pose proof (keys_below_less x keys) as Hbelow.
  rewrite (keys_below_from x keys) in Hin.
  apply elem_of_app in Hin as [Hin | Hin].
  { rewrite Forall_forall in Hbelow. specialize (Hbelow x Hin).
    unfold key_lt in Hbelow. rewrite key_less_irrefl in Hbelow. discriminate. }
  destruct (keys_from x keys) as [| y rest] eqn:Hfrom; [inversion Hin |].
  pose proof (keys_from_head x keys y rest Hfrom) as Hy.
  apply StronglySorted_cons in Hsf as [Hrest _].
  apply elem_of_cons in Hin as [-> | Hin].
  - exists rest. split; [reflexivity | exact Hrest].
  - rewrite Forall_forall in Hrest. specialize (Hrest x Hin).
    unfold key_lt in Hrest. rewrite Hrest in Hy. discriminate.
Qed.

Lemma keys_from_absent x keys :
  StronglySorted key_lt keys -> x ∉ keys -> Forall (key_lt x) (keys_from x keys).
Proof.
  intros Hs Hnin. pose proof (keys_from_not_less x keys Hs) as Hnl.
  rewrite Forall_forall in *. intros y Hy. specialize (Hnl y Hy).
  unfold key_lt. destruct (key_less x y) eqn:Hxy; [reflexivity |].
  pose proof (key_less_total x y Hxy Hnl) as ->.
  exfalso. apply Hnin. rewrite (keys_below_from y keys).
  apply elem_of_app. right. exact Hy.
Qed.

Lemma elem_of_delete_targets y ops :
  y ∈ delete_targets ops <-> exists op, op ∈ ops /\ type op = DELETE /\ data op = y.
Proof.
  unfold delete_targets. rewrite list_elem_of_omap. split.
  - intros (op & Hop & Hy). exists op. destruct (type op); [discriminate |].
    injection Hy as <-. auto.
  - intros (op & Hop & Ht & <-). exists op. rewrite Ht. auto.
Qed.

Lemma elem_of_insert_keys y ops :
  y ∈ insert_keys ops <-> exists op, op ∈ ops /\ type op = INSERT /\ data op = y.
Proof.
  unfold insert_keys. rewrite list_elem_of_omap. split.
  - intros (op & Hop & Hy). exists op. destruct (type op); [| discriminate].
    injection Hy as <-. auto.
  - intros (op & Hop & Ht & <-). exists op. rewrite Ht. auto.
Qed.

Lemma delete_targets_cons op ops :
  delete_targets (op :: ops) =
    match type op with
    | DELETE => data op :: delete_targets ops
    | INSERT => delete_targets ops
    end.
Proof. unfold delete_targets. cbn. destruct (type op); reflexivity. Qed.

Lemma insert_keys_cons op ops :
  insert_keys (op :: ops) =
    match type op with
    | INSERT => data op :: insert_keys ops
    | DELETE => insert_keys ops
    end.
Proof. unfold insert_keys. cbn. destruct (type op); reflexivity. Qed.

(** The keys of the operations behind the first one are larger than its
    key. *)
Lemma later_keys_larger x ops y :
  Forall (fun o => key_lt x (data o)) ops ->
  y ∈ delete_targets ops \/ y ∈ insert_keys ops -> key_lt x y.
Proof.
  intros Hall Hy. rewrite Forall_forall in Hall.
  destruct Hy as [Hy | Hy];
    [apply elem_of_delete_targets in Hy | apply elem_of_insert_keys in Hy];
    destruct Hy as (op & Hop & _ & <-); apply Hall; exact Hop.
Qed.

Lemma valid_batch_rest keys keys' x ops :
  Forall (fun o => key_lt x (data o)) ops ->
  (forall y, y ∈ keys' -> y ∈ keys) ->
  (forall y, y ∈ keys -> key_lt x y -> y ∈ keys') ->
  valid_batch keys ops -> valid_batch keys' ops.
Proof.
  intros Hlater Hsub Hsup [Hsorted Hall]. split; [exact Hsorted |].
  rewrite Forall_forall in *. intros op Hop.
  specialize (Hall op Hop). specialize (Hlater op Hop). cbn in Hlater.
  destruct (type op).
  - intros Hin. apply Hall, Hsub, Hin.
  - apply Hsup; assumption.
Qed.

Theorem merge_keys_spec ops : forall keys,
  StronglySorted key_lt keys -> valid_batch keys ops ->
  StronglySorted key_lt (merge_keys keys ops)
  /\ forall y, y ∈ merge_keys keys ops
               <-> (y ∈ keys /\ y ∉ delete_targets ops) \/ y ∈ insert_keys ops.
Proof.
  induction ops as [| op ops IH]; intros keys Hs Hvalid.
  - cbn. split; [exact Hs |]. intros y. split.
    + intros Hy. left. split; [exact Hy | apply not_elem_of_nil].
    + intros [[Hy _] | Hy]; [exact Hy | inversion Hy].
  - pose proof Hvalid as [Hsorted Hall].
    apply StronglySorted_cons in Hsorted as [Hlater Hsorted].
    apply Forall_cons in Hall as [Hop Hall].
    set (x := data op) in *.
    pose proof (keys_below_from x keys) as Hsplit.
    pose proof (keys_below_less x keys) as Hbelow. rewrite Forall_forall in Hbelow.
    assert (Hs' := Hs). rewrite Hsplit in Hs'.
    apply StronglySorted_app in Hs' as (Hcross & HsA & HsB).
    assert (Hkeys : forall y, y ∈ keys
                              <-> y ∈ keys_below x keys \/ y ∈ keys_from x keys).
    { intros y. rewrite Hsplit at 1. apply elem_of_app. }
    cbn [merge_keys]. rewrite delete_targets_cons, insert_keys_cons. fold x.
    destruct (type op) eqn:Htype.
    + (* INSERT *)
      pose proof (keys_from_absent x keys Hs Hop) as Hfrom.
      rewrite Forall_forall in Hfrom.
      destruct (IH (keys_from x keys) HsB) as [IHs IHm].
      { apply (valid_batch_rest keys _ x); [exact Hlater | | | split; assumption].
        - intros y Hy. rewrite Hsplit. apply elem_of_app. right. exact Hy.
        - intros y Hy Hxy. rewrite Hsplit in Hy.
          apply elem_of_app in Hy as [Hy | Hy]; [| exact Hy].
          specialize (Hbelow y Hy). unfold key_lt in *.
          rewrite (key_less_asym _ _ Hbelow) in Hxy. discriminate. }
      assert (Hmerged : forall m, m ∈ merge_keys (keys_from x keys) ops -> key_lt x m).
      { intros m Hm. apply IHm in Hm as [[Hm _] | Hm]; [apply Hfrom; exact Hm |].
        apply (later_keys_larger x ops); auto. }
      split.
      * apply StronglySorted_app_2; [| exact HsA |].
        -- intros a m Ha Hm. specialize (Hbelow a Ha).
           apply elem_of_cons in Hm as [-> | Hm]; [exact Hbelow |].
           etransitivity; [exact Hbelow | apply Hmerged; exact Hm].
        -- apply StronglySorted_cons. split; [| exact IHs].
           apply Forall_forall. exact Hmerged.
      * intros y. rewrite elem_of_app, !elem_of_cons, IHm, Hkeys. split.
        -- intros [Hy | [-> | [[Hy Hnd] | Hy]]].
           ++ left. split; [left; exact Hy |]. intros Hd.
              specialize (Hbelow y Hy).
              pose proof (later_keys_larger x ops y Hlater (or_introl Hd)) as Hxy.
              unfold key_lt in *. rewrite (key_less_asym _ _ Hbelow) in Hxy.
              discriminate.
           ++ right. left. reflexivity.
           ++ left. split; [right; exact Hy | exact Hnd].
           ++ right. right. exact Hy.
        -- intros [[[Hy | Hy] Hnd] | [-> | Hy]].
           ++ left. exact Hy.
           ++ right. right. left. split; assumption.
           ++ right. left. reflexivity.
           ++ right. right. right. exact Hy.
    + (* DELETE *)
      destruct (keys_from_present x keys Hs Hop) as (rest & Hfrom & Hrest).
      rewrite Hfrom in *. cbn [tail].
      rewrite Forall_forall in Hrest.
      setoid_rewrite elem_of_cons in Hkeys.
      apply StronglySorted_cons in HsB as [_ HsB].
      destruct (IH rest HsB) as [IHs IHm].
      { apply (valid_batch_rest keys _ x); [exact Hlater | | | split; assumption].
        - intros y Hy. rewrite Hsplit. apply elem_of_app. right. right. exact Hy.
        - intros y Hy Hxy. rewrite Hsplit in Hy.
          apply elem_of_app in Hy as [Hy | Hy].
          + specialize (Hbelow y Hy). unfold key_lt in *.
            rewrite (key_less_asym _ _ Hbelow) in Hxy. discriminate.
          + apply elem_of_cons in Hy as [-> | Hy]; [| exact Hy].
            unfold key_lt in Hxy. rewrite key_less_irrefl in Hxy. discriminate. }
      assert (Hmerged : forall m, m ∈ merge_keys rest ops -> key_lt x m).
      { intros m Hm. apply IHm in Hm as [[Hm _] | Hm]; [apply Hrest; exact Hm |].
        apply (later_keys_larger x ops); auto. }
      split.
      * apply StronglySorted_app_2; [| exact HsA | exact IHs].
        intros a m Ha Hm. etransitivity; [apply Hbelow; exact Ha |].
        apply Hmerged. exact Hm.
      * intros y. rewrite elem_of_app, IHm, Hkeys, not_elem_of_cons.
        split.
        -- intros [Hy | [[Hy Hnd] | Hy]].
           ++ left. specialize (Hbelow y Hy). split; [left; exact Hy |]. split.
              ** intros ->. unfold key_lt in Hbelow.
                 rewrite key_less_irrefl in Hbelow. discriminate.
              ** intros Hd.
                 pose proof (later_keys_larger x ops y Hlater (or_introl Hd)) as Hxy.
                 unfold key_lt in *. rewrite (key_less_asym _ _ Hbelow) in Hxy.
                 discriminate.
           ++ left. split; [right; right; exact Hy |]. split; [| exact Hnd].
              intros ->. specialize (Hrest x Hy). unfold key_lt in Hrest.
              rewrite key_less_irrefl in Hrest. discriminate.
           ++ right. exact Hy.
        -- intros [[[Hy | [-> | Hy]] [Hne Hnd]] | Hy].
           ++ left. exact Hy.
           ++ congruence.
           ++ right. left. split; assumption.
           ++ right. right. exact Hy.
Qed.

Lemma keys_below_from_length x keys :
  length keys = (length (keys_below x keys) + length (keys_from x keys))%nat.
Proof. rewrite (keys_below_from x keys) at 1. apply length_app. Qed.

(** The merged leaf has one key more per INSERT and one less per DELETE. *)
Lemma merge_keys_length ops : forall keys,
  StronglySorted key_lt keys -> valid_batch keys ops ->
  Z.of_nat (length (merge_keys keys ops)) = Z.of_nat (length keys) + delta_sum ops.
Proof.
  induction ops as [| op ops IH]; intros keys Hs Hvalid.
  - cbn. lia.
  - pose proof Hvalid as [Hsorted Hall].
    apply StronglySorted_cons in Hsorted as [Hlater Hsorted].
    apply Forall_cons in Hall as [Hop Hall].
    set (x := data op) in *.
    pose proof (keys_below_from x keys) as Hsplit.
    pose proof (keys_below_from_length x keys) as Hlen.
    pose proof (keys_below_less x keys) as Hbelow. rewrite Forall_forall in Hbelow.
    assert (Hs' := Hs). rewrite Hsplit in Hs'.
    apply StronglySorted_app in Hs' as (Hcross & HsA & HsB).
    cbn [merge_keys delta_sum]. fold x. destruct (type op) eqn:Htype.
    + rewrite length_app. cbn [length]. rewrite Nat2Z.inj_add, Nat2Z.inj_succ.
      rewrite (IH (keys_from x keys) HsB); [cbn [OpType_value]; lia |].
      apply (valid_batch_rest keys _ x); [exact Hlater | | | split; assumption].
      * intros y Hy. rewrite Hsplit. apply elem_of_app. right. exact Hy.
      * intros y Hy Hxy. rewrite Hsplit in Hy.
        apply elem_of_app in Hy as [Hy | Hy]; [| exact Hy].
        specialize (Hbelow y Hy). unfold key_lt in *.
        rewrite (key_less_asym _ _ Hbelow) in Hxy. discriminate.
    + destruct (keys_from_present x keys Hs Hop) as (rest & Hfrom & Hrest).
      rewrite Hfrom in *. cbn [tail]. cbn [length] in Hlen.
      apply StronglySorted_cons in HsB as [_ HsB].
      rewrite length_app, Nat2Z.inj_add.
      rewrite (IH rest HsB); [cbn [OpType_value]; lia |].
      apply (valid_batch_rest keys _ x); [exact Hlater | | | split; assumption].
      * intros y Hy. rewrite Hsplit. apply elem_of_app. right. right. exact Hy.
      * intros y Hy Hxy. rewrite Hsplit in Hy.
        apply elem_of_app in Hy as [Hy | Hy].
        -- specialize (Hbelow y Hy). unfold key_lt in *.
           rewrite (key_less_asym _ _ Hbelow) in Hxy. discriminate.
        -- apply elem_of_cons in Hy as [-> | Hy]; [| exact Hy].
           unfold key_lt in Hxy. rewrite key_less_irrefl in Hxy. discriminate.
Qed.
End MergeKeysProperties.

(** ** The merge loops compute [merge_keys] *)
Section LeafMergeRefinement.
Context {key_type : Type} `{StrictTotalOrder key_type}.
Variable leaf : leaf_node key_type.
Variable R0 : list key_type.
Hypothesis leaf_fits : (leaf_slotuse leaf <= length (leaf_slotkey leaf))%nat.

Lemma in_cursor_of i W : in_ (cursor_of R0 i W) = i.
Proof. reflexivity. Qed.

Lemma leaf_keys_length : length (leaf_keys leaf) = leaf_slotuse leaf.
Proof. unfold leaf_keys. rewrite length_take. lia. Qed.

Lemma leaf_key_at (i : nat) y rest :
  drop i (leaf_keys leaf) = y :: rest ->
  leaf_slotkey leaf !! i = Some y
  /\ (i < leaf_slotuse leaf)%nat
  /\ drop (S i) (leaf_keys leaf) = rest.
Proof.
  intros Hdrop.
  assert (Hy : leaf_keys leaf !! i = Some y).
  { rewrite <- (Nat.add_0_r i), <- lookup_drop, Hdrop. reflexivity. }
  pose proof (lookup_lt_Some _ _ _ Hy) as Hi. rewrite leaf_keys_length in Hi.
  split; [| split; [exact Hi |]].
  - unfold leaf_keys in Hy. rewrite lookup_take_lt in Hy by lia. exact Hy.
  - rewrite (drop_S _ _ _ Hy) in Hdrop. congruence.
Qed.

Lemma leaf_no_key_at (i : nat) :
  (leaf_slotuse leaf <= i)%nat -> drop i (leaf_keys leaf) = [].
Proof. intros Hi. apply drop_ge. rewrite leaf_keys_length. exact Hi. Qed.

Lemma write_behind (W : list key_type) y :
  (length W < length R0)%nat ->
  array_set KeyIndexOutOfRange (W ++ drop (length W) R0) (length W) y
    = Ok ((W ++ [y]) ++ drop (length (W ++ [y])) R0).
Proof.
  intros Hlen. unfold array_set.
  rewrite length_app, length_drop.
  destruct (Nat.ltb_spec (length W) (length W + (length R0 - length W))); [| lia].
  f_equal. rewrite insert_app_r_alt by lia. rewrite Nat.sub_diag.
  destruct (lookup_lt_is_Some_2 R0 (length W) Hlen) as [z Hz].
  rewrite (drop_S _ _ _ Hz). cbn. rewrite <- app_assoc. cbn.
  rewrite length_app. cbn. rewrite Nat.add_1_r. reflexivity.
Qed.

Lemma copy_one_spec (i : nat) W y rest :
  drop i (leaf_keys leaf) = y :: rest -> (length W < length R0)%nat ->
  copy_one leaf (cursor_of R0 i W) = Ok (cursor_of R0 (S i) (W ++ [y])).
Proof.
  intros Hdrop Hlen. destruct (leaf_key_at i y rest Hdrop) as (Hy & _ & _).
  unfold copy_one, cursor_of. cbn [in_ out result_slotkey].
  unfold array_get. rewrite Hy. cbn [of_option mbind result_mbind result_bind].
  rewrite write_behind by exact Hlen. cbn [mbind result_mbind result_bind].
  rewrite length_app. cbn [length]. rewrite Nat.add_1_r. reflexivity.
Qed.

Lemma put_one_spec (i : nat) W x :
  (length W < length R0)%nat ->
  put_one x (cursor_of R0 i W) = Ok (cursor_of R0 i (W ++ [x])).
Proof.
  intros Hlen. unfold put_one, cursor_of. cbn [in_ out result_slotkey].
  rewrite write_behind by exact Hlen. cbn [mbind result_mbind result_bind].
  rewrite length_app. cbn [length]. rewrite Nat.add_1_r. reflexivity.
Qed.

(** The INSERT loop copies the keys [a] below [x] and stops in front of
    the rest [b]. *)
Lemma skip_to_insert_spec x (a : list key_type) :
  forall (rounds i : nat) W b,
    drop i (leaf_keys leaf) = a ++ b ->
    Forall (fun y => key_lt y x) a ->
    match b with
    | y :: _ => key_less y x = false
    | [] => True
    end ->
    (length W + length a <= length R0)%nat ->
    (length a < rounds)%nat ->
    skip_to_insert rounds leaf x (cursor_of R0 i W)
      = Ok (cursor_of R0 (i + length a) (W ++ a)).
Proof.
  induction a as [| y a IH]; intros rounds i W b Hdrop Hless Hstop Hcap Hrounds.
  - destruct rounds as [| rounds]; [cbn in Hrounds; lia |].
    cbn [skip_to_insert length]. rewrite Nat.add_0_r, app_nil_r.
    rewrite !in_cursor_of.
    destruct (Nat.ltb_spec i (leaf_slotuse leaf)) as [Hi | Hi]; [| reflexivity].
    destruct b as [| y b].
    { cbn in Hdrop. pose proof (f_equal length Hdrop) as Hl.
      rewrite length_drop, leaf_keys_length in Hl. cbn in Hl. lia. }
    destruct (leaf_key_at i y b Hdrop) as (Hy & _ & _).
    unfold array_get. rewrite Hy. cbn [of_option mbind result_mbind result_bind].
    rewrite Hstop. reflexivity.
  - destruct rounds as [| rounds]; [cbn in Hrounds; lia |].
    cbn [skip_to_insert]. cbn [app] in Hdrop.
    destruct (leaf_key_at i y (a ++ b) Hdrop) as (Hy & Hi & Hdrop').
    rewrite !in_cursor_of.
    destruct (Nat.ltb_spec i (leaf_slotuse leaf)); [| lia].
    unfold array_get. rewrite Hy. cbn [of_option mbind result_mbind result_bind].
    apply Forall_cons in Hless as [Hyx Hless]. unfold key_lt in Hyx. rewrite Hyx.
    cbn [length] in Hcap, Hrounds.
    rewrite (copy_one_spec i W y (a ++ b) Hdrop) by lia.
    cbn [mbind result_mbind result_bind].
    rewrite (IH rounds (S i) (W ++ [y]) b Hdrop' Hless Hstop).
    + cbn [length]. rewrite <- app_assoc. cbn [app].
      replace (S i + length a)%nat with (i + S (length a))%nat by lia.
      reflexivity.
    + rewrite length_app. cbn [length]. lia.
    + lia.
Qed.

(** The DELETE loop of the sequential tree copies the keys [a] below the
    target [x] and stops at [x]; the assertion of the debug build holds on
    the way. *)
Lemma skip_to_delete_spec (debug : bool) x (a : list key_type) :
  forall (rounds i : nat) W b,
    drop i (leaf_keys leaf) = a ++ x :: b ->
    Forall (fun y => key_lt y x) a ->
    (length W + length a <= length R0)%nat ->
    (length a < rounds)%nat ->
    skip_to_delete debug rounds leaf x (cursor_of R0 i W)
      = Ok (cursor_of R0 (i + length a) (W ++ a)).
Proof.
  induction a as [| y a IH]; intros rounds i W b Hdrop Hless Hcap Hrounds.
  - destruct rounds as [| rounds]; [cbn in Hrounds; lia |].
    cbn [skip_to_delete length]. rewrite Nat.add_0_r, app_nil_r.
    cbn [app] in Hdrop. destruct (leaf_key_at i x b Hdrop) as (Hx & _ & _).
    rewrite !in_cursor_of.
    unfold array_get. rewrite Hx. cbn [of_option mbind result_mbind result_bind].
    rewrite key_less_irrefl. reflexivity.
  - destruct rounds as [| rounds]; [cbn in Hrounds; lia |].
    cbn [skip_to_delete]. cbn [app] in Hdrop.
    destruct (leaf_key_at i y (a ++ x :: b) Hdrop) as (Hy & Hi & Hdrop').
    rewrite !in_cursor_of.
    unfold array_get. rewrite Hy. cbn [of_option mbind result_mbind result_bind].
    apply Forall_cons in Hless as [Hyx Hless]. unfold key_lt in Hyx. rewrite Hyx.
    destruct (Nat.ltb_spec i (leaf_slotuse leaf)); [| lia].
    rewrite andb_false_r.
    cbn [length] in Hcap, Hrounds.
    rewrite (copy_one_spec i W y (a ++ x :: b) Hdrop) by lia.
    cbn [mbind result_mbind result_bind].
    rewrite (IH rounds (S i) (W ++ [y]) b Hdrop' Hless).
    + cbn [length]. rewrite <- app_assoc. cbn [app].
      replace (S i + length a)%nat with (i + S (length a))%nat by lia.
      reflexivity.
    + rewrite length_app. cbn [length]. lia.
    + lia.
Qed.

(** The DELETE loop of the parallel tree stops at the same place. *)
Lemma parallel_skip_to_delete_spec x (a : list key_type) :
  forall (rounds i : nat) W b,
    drop i (leaf_keys leaf) = a ++ x :: b ->
    Forall (fun y => key_lt y x) a ->
    (length W + length a <= length R0)%nat ->
    (length a < rounds)%nat ->
    ParallelLeaf.skip_to_delete rounds leaf x (cursor_of R0 i W)
      = Ok (cursor_of R0 (i + length a) (W ++ a)).
Proof.
  induction a as [| y a IH]; intros rounds i W b Hdrop Hless Hcap Hrounds.
  - destruct rounds as [| rounds]; [cbn in Hrounds; lia |].
    cbn [ParallelLeaf.skip_to_delete length]. rewrite Nat.add_0_r, app_nil_r.
    cbn [app] in Hdrop. destruct (leaf_key_at i x b Hdrop) as (Hx & _ & _).
    rewrite !in_cursor_of.
    unfold array_get. rewrite Hx. cbn [of_option mbind result_mbind result_bind].
    rewrite key_equal_refl. reflexivity.
  - destruct rounds as [| rounds]; [cbn in Hrounds; lia |].
    cbn [ParallelLeaf.skip_to_delete]. cbn [app] in Hdrop.
    destruct (leaf_key_at i y (a ++ x :: b) Hdrop) as (Hy & Hi & Hdrop').
    rewrite !in_cursor_of.
    unfold array_get. rewrite Hy. cbn [of_option mbind result_mbind result_bind].
    apply Forall_cons in Hless as [Hyx Hless]. unfold key_lt in Hyx.
    unfold key_equal. rewrite Hyx. cbn [negb andb].
    cbn [length] in Hcap, Hrounds.
    rewrite (copy_one_spec i W y (a ++ x :: b) Hdrop) by lia.
    cbn [mbind result_mbind result_bind].
    rewrite (IH rounds (S i) (W ++ [y]) b Hdrop' Hless).
    + cbn [length]. rewrite <- app_assoc. cbn [app].
      replace (S i + length a)%nat with (i + S (length a))%nat by lia.
      reflexivity.
    + rewrite length_app. cbn [length]. lia.
    + lia.
Qed.
End LeafMergeRefinement.

Section ValidBatchSteps.
Context {key_type : Type} `{StrictTotalOrder key_type}.
Implicit Types (keys : list key_type) (ops : list (Operation key_type)).

Lemma valid_batch_insert_step keys op ops :
  StronglySorted key_lt keys -> valid_batch keys (op :: ops) ->
  type op = INSERT ->
  valid_batch (keys_from (data op) keys) ops.
Proof.
  intros Hs [Hsorted Hall] Htype.
  apply StronglySorted_cons in Hsorted as [Hlater Hsorted].
  apply Forall_cons in Hall as [Hop Hall].
  pose proof (keys_below_from (data op) keys) as Hsplit.
  pose proof (keys_below_less (data op) keys) as Hbelow.
  rewrite Forall_forall in Hbelow.
  apply (valid_batch_rest keys _ (data op)); [exact Hlater | | | split; assumption].
  - intros y Hy. rewrite Hsplit. apply elem_of_app. right. exact Hy.
  - intros y Hy Hxy. rewrite Hsplit in Hy.
    apply elem_of_app in Hy as [Hy | Hy]; [| exact Hy].
    specialize (Hbelow y Hy). unfold key_lt in *.
    rewrite (key_less_asym _ _ Hbelow) in Hxy. discriminate.
Qed.

Lemma valid_batch_delete_step keys op ops :
  StronglySorted key_lt keys -> valid_batch keys (op :: ops) ->
  type op = DELETE ->
  exists rest,
    keys_from (data op) keys = data op :: rest
    /\ valid_batch rest ops.
Proof.
  intros Hs [Hsorted Hall] Htype.
  apply StronglySorted_cons in Hsorted as [Hlater Hsorted].
  apply Forall_cons in Hall as [Hop Hall]. rewrite Htype in Hop.
  pose proof (keys_below_from (data op) keys) as Hsplit.
  pose proof (keys_below_less (data op) keys) as Hbelow.
  rewrite Forall_forall in Hbelow.
  destruct (keys_from_present (data op) keys Hs Hop) as (rest & Hfrom & Hrest).
  exists rest. split; [exact Hfrom |]. rewrite Hfrom in Hsplit.
  apply (valid_batch_rest keys _ (data op)); [exact Hlater | | | split; assumption].
  - intros y Hy. rewrite Hsplit. apply elem_of_app. right. right. exact Hy.
  - intros y Hy Hxy. rewrite Hsplit in Hy.
    apply elem_of_app in Hy as [Hy | Hy].
    + specialize (Hbelow y Hy). unfold key_lt in *.
      rewrite (key_less_asym _ _ Hbelow) in Hxy. discriminate.
    + apply elem_of_cons in Hy as [-> | Hy]; [| exact Hy].
      unfold key_lt in Hxy. rewrite key_less_irrefl in Hxy. discriminate.
Qed.
End ValidBatchSteps.

Section LeafMergeLoop.
Context {key_type : Type} `{StrictTotalOrder key_type}.
Variable leaf : leaf_node key_type.
Variable R0 : list key_type.
Hypothesis leaf_fits : (leaf_slotuse leaf <= length (leaf_slotkey leaf))%nat.

Lemma keys_below_rounds x (i : nat) :
  (length (keys_below x (drop i (leaf_keys leaf))) < leaf_rounds leaf)%nat.
Proof.
  pose proof (keys_below_from_length x (drop i (leaf_keys leaf))) as Hlen.
  rewrite length_drop, (leaf_keys_length leaf leaf_fits) in Hlen.
  unfold leaf_rounds. lia.
Qed.

Lemma drop_behind (i : nat) (a b : list key_type) (l : list key_type) :
  drop i l = a ++ b -> drop (i + length a) l = b.
Proof.
  intros Hdrop. rewrite <- drop_drop, Hdrop. apply drop_app_length.
Qed.

(** The INSERT branch is the same in both trees. *)
Lemma insert_step_refines (i : nat) W op ops :
  type op = INSERT ->
  (i <= leaf_slotuse leaf)%nat ->
  StronglySorted key_lt (drop i (leaf_keys leaf)) ->
  valid_batch (drop i (leaf_keys leaf)) (op :: ops) ->
  (length (W ++ merge_keys (drop i (leaf_keys leaf)) (op :: ops))
   <= length R0)%nat ->
  exists (i' : nat) W',
    (c' ← skip_to_insert (leaf_rounds leaf) leaf (data op) (cursor_of R0 i W);
     put_one (data op) c') = Ok (cursor_of R0 i' W')
    /\ (i' <= leaf_slotuse leaf)%nat
    /\ W' ++ merge_keys (drop i' (leaf_keys leaf)) ops
       = W ++ merge_keys (drop i (leaf_keys leaf)) (op :: ops)
    /\ StronglySorted key_lt (drop i' (leaf_keys leaf))
    /\ valid_batch (drop i' (leaf_keys leaf)) ops.
Proof.
  intros Htype Hi Hs Hvalid Hcap.
  set (x := data op) in *. set (K := drop i (leaf_keys leaf)) in *.
  pose proof (keys_below_from x K) as Hsplit.
  pose proof (keys_below_from_length x K) as Hlen.
  assert (HK : length K = (leaf_slotuse leaf - i)%nat).
  { unfold K. rewrite length_drop, (leaf_keys_length leaf leaf_fits). reflexivity. }
  cbn [merge_keys] in Hcap |- *. rewrite Htype in Hcap |- *. fold x in Hcap |- *.
  rewrite !length_app in Hcap. cbn [length] in Hcap.
  pose proof (drop_behind i _ _ _ Hsplit) as Hdrop'. fold K in Hdrop'.
  exists (i + length (keys_below x K))%nat, ((W ++ keys_below x K) ++ [x]).
  rewrite (skip_to_insert_spec leaf R0 leaf_fits x (keys_below x K)
             (leaf_rounds leaf) i W (keys_from x K) Hsplit).
  - cbn [mbind result_mbind result_bind].
    rewrite (put_one_spec leaf R0 leaf_fits) by (rewrite length_app; lia).
    split; [reflexivity |]. split; [lia |]. rewrite Hdrop'.
    split; [rewrite <- !app_assoc; reflexivity |].
    split; [apply keys_from_sorted; exact Hs |].
    apply valid_batch_insert_step; assumption.
  - apply keys_below_less.
  - destruct (keys_from x K) as [| y rest] eqn:Hfrom; [exact I |].
    apply (keys_from_head x K y rest Hfrom).
  - lia.
  - apply keys_below_rounds.
Qed.

Lemma delete_step_decompose (i : nat) op ops :
  type op = DELETE ->
  StronglySorted key_lt (drop i (leaf_keys leaf)) ->
  valid_batch (drop i (leaf_keys leaf)) (op :: ops) ->
  exists rest,
    drop i (leaf_keys leaf)
      = keys_below (data op) (drop i (leaf_keys leaf)) ++ data op :: rest
    /\ keys_from (data op) (drop i (leaf_keys leaf)) = data op :: rest
    /\ drop (S (i + length (keys_below (data op) (drop i (leaf_keys leaf)))))
            (leaf_keys leaf) = rest
    /\ StronglySorted key_lt rest
    /\ valid_batch rest ops.
Proof.
  intros Htype Hs Hvalid.
  set (x := data op) in *. set (K := drop i (leaf_keys leaf)) in *.
  destruct (valid_batch_delete_step K op ops Hs Hvalid Htype)
    as (rest & Hfrom & Hvalid').
  fold x in Hfrom. pose proof (keys_below_from x K) as Hsplit.
  rewrite Hfrom in Hsplit. exists rest.
  split; [exact Hsplit |]. split; [exact Hfrom |].
  pose proof (keys_from_sorted x K Hs) as Hsf. rewrite Hfrom in Hsf.
  apply StronglySorted_cons in Hsf as [_ Hsf].
  split; [| split; assumption].
  pose proof (drop_behind i _ _ _ Hsplit) as Hdrop'. fold K in Hdrop'.
  replace (S (i + length (keys_below x K)))
    with ((i + length (keys_below x K)) + 1)%nat by lia.
  rewrite <- drop_drop, Hdrop'. reflexivity.
Qed.

Lemma merge_step_refines (debug : bool) : step_refines leaf R0 (merge_step debug leaf).
Proof.
  intros i W op ops Hi Hs Hvalid Hcap. unfold merge_step.
  destruct (type op) eqn:Htype.
  - apply insert_step_refines; assumption.
  - destruct (delete_step_decompose i op ops Htype Hs Hvalid)
      as (rest & Hsplit & Hfrom & Hdrop' & Hs' & Hvalid').
    set (x := data op) in *. set (K := drop i (leaf_keys leaf)) in *.
    assert (HK : length K = (leaf_slotuse leaf - i)%nat).
    { unfold K. rewrite length_drop, (leaf_keys_length leaf leaf_fits). reflexivity. }
    pose proof (f_equal length Hsplit) as Hlen.
    rewrite length_app in Hlen. cbn [length] in Hlen.
    cbn [merge_keys] in Hcap |- *. rewrite Htype in Hcap |- *. fold x in Hcap |- *.
    rewrite Hfrom in Hcap |- *. cbn [tail] in Hcap |- *.
    rewrite !length_app in Hcap.
    exists (S (i + length (keys_below x K))), (W ++ keys_below x K).
    rewrite (skip_to_delete_spec leaf R0 leaf_fits debug x (keys_below x K)
               (leaf_rounds leaf) i W rest Hsplit).
    + cbn [mbind result_mbind result_bind].
      split; [reflexivity |]. split; [lia |]. rewrite Hdrop'.
      split; [rewrite <- app_assoc; reflexivity |]. split; assumption.
    + apply keys_below_less.
    + lia.
    + apply keys_below_rounds.
Qed.

Lemma parallel_merge_step_refines : step_refines leaf R0 (ParallelLeaf.merge_step leaf).
Proof.
  intros i W op ops Hi Hs Hvalid Hcap. unfold ParallelLeaf.merge_step.
  destruct (type op) eqn:Htype.
  - apply insert_step_refines; assumption.
  - destruct (delete_step_decompose i op ops Htype Hs Hvalid)
      as (rest & Hsplit & Hfrom & Hdrop' & Hs' & Hvalid').
    set (x := data op) in *. set (K := drop i (leaf_keys leaf)) in *.
    assert (HK : length K = (leaf_slotuse leaf - i)%nat).
    { unfold K. rewrite length_drop, (leaf_keys_length leaf leaf_fits). reflexivity. }
    pose proof (f_equal length Hsplit) as Hlen.
    rewrite length_app in Hlen. cbn [length] in Hlen.
    cbn [merge_keys] in Hcap |- *. rewrite Htype in Hcap |- *. fold x in Hcap |- *.
    rewrite Hfrom in Hcap |- *. cbn [tail] in Hcap |- *.
    rewrite !length_app in Hcap.
    exists (S (i + length (keys_below x K))), (W ++ keys_below x K).
    rewrite (parallel_skip_to_delete_spec leaf R0 leaf_fits x (keys_below x K)
               (leaf_rounds leaf) i W rest Hsplit).
    + cbn [mbind result_mbind result_bind].
      split; [reflexivity |]. split; [lia |]. rewrite Hdrop'.
      split; [rewrite <- app_assoc; reflexivity |]. split; assumption.
    + apply keys_below_less.
    + lia.
    + apply keys_below_rounds.
Qed.

(** A merge loop leaves the merged keys in the written part of the array
    and in the unread part of the old leaf. *)
Lemma for_each_op_refines step :
  step_refines leaf R0 step ->
  forall ops (i : nat) W,
    (i <= leaf_slotuse leaf)%nat ->
    StronglySorted key_lt (drop i (leaf_keys leaf)) ->
    valid_batch (drop i (leaf_keys leaf)) ops ->
    (length (W ++ merge_keys (drop i (leaf_keys leaf)) ops) <= length R0)%nat ->
    exists (i' : nat) W',
      for_each_op step (cursor_of R0 i W) ops = Ok (cursor_of R0 i' W')
      /\ (i' <= leaf_slotuse leaf)%nat
      /\ W' ++ drop i' (leaf_keys leaf)
         = W ++ merge_keys (drop i (leaf_keys leaf)) ops.
Proof.
  intros Hstep. induction ops as [| op ops IH]; intros i W Hi Hs Hvalid Hcap.
  - exists i, W. cbn. split; [reflexivity |]. split; [exact Hi | reflexivity].
  - destruct (Hstep i W op ops Hi Hs Hvalid Hcap)
      as (i1 & W1 & Hrun & Hi1 & Heq & Hs1 & Hvalid1).
    cbn [for_each_op]. rewrite Hrun. cbn [mbind result_mbind result_bind].
    rewrite <- Heq in Hcap.
    destruct (IH i1 W1 Hi1 Hs1 Hvalid1 Hcap) as (i' & W' & Hrun' & Hi' & Heq').
    exists i', W'. split; [exact Hrun' |]. split; [exact Hi' |].
    rewrite Heq'. exact Heq.
Qed.

(** The end of the merge: the result holds the written keys and the unread
    keys, and behind them the array is as it was. *)
Lemma finish_merge_spec (i : nat) W :
  (i <= leaf_slotuse leaf)%nat ->
  (length (W ++ drop i (leaf_keys leaf)) <= length R0)%nat ->
  exists result,
    finish_merge leaf (cursor_of R0 i W) = Ok result
    /\ leaf_keys result = W ++ drop i (leaf_keys leaf)
    /\ leaf_slotuse result = length (W ++ drop i (leaf_keys leaf))
    /\ length (leaf_slotkey result) = length R0
    /\ drop (leaf_slotuse result) (leaf_slotkey result)
       = drop (leaf_slotuse result) R0.
Proof.
  intros Hi Hcap. rewrite length_app, length_drop in Hcap.
  rewrite (leaf_keys_length leaf leaf_fits) in Hcap.
  unfold finish_merge, cursor_of. cbn [in_ out result_slotkey].
  destruct (Nat.ltb_spec (leaf_slotuse leaf) i); [lia |].
  unfold memcpy. rewrite length_app, length_drop.
  destruct (Nat.leb_spec (length W + (leaf_slotuse leaf - i))
                         (length W + (length R0 - length W))); [| lia].
  destruct (Nat.leb_spec (i + (leaf_slotuse leaf - i))
                         (length (leaf_slotkey leaf))); [| lia].
  cbn [andb mbind result_mbind result_bind].
  eexists. split; [reflexivity |].
  assert (Hrest : take (leaf_slotuse leaf - i) (drop i (leaf_slotkey leaf))
                  = drop i (leaf_keys leaf)).
  { unfold leaf_keys. rewrite take_drop_commute. f_equal. f_equal. lia. }
  assert (Hlen : length (drop i (leaf_keys leaf)) = (leaf_slotuse leaf - i)%nat).
  { rewrite length_drop, (leaf_keys_length leaf leaf_fits). reflexivity. }
  rewrite take_app_length, Hrest.
  rewrite drop_app_ge by lia. rewrite drop_drop.
  replace (length W + (length W + (leaf_slotuse leaf - i) - length W))%nat
    with (length W + (leaf_slotuse leaf - i))%nat by lia.
  unfold leaf_keys at 1. cbn [leaf_slotuse leaf_slotkey].
  assert (Huse : (length W + leaf_slotuse leaf - i)%nat
                 = length (W ++ drop i (leaf_keys leaf))).
  { rewrite length_app, Hlen. lia. }
  rewrite Huse. split; [| split; [reflexivity | split]].
  - rewrite app_assoc. apply take_app_length.
  - rewrite !length_app, Hlen, length_drop. lia.
  - rewrite app_assoc. rewrite drop_app_length.
    rewrite length_app, Hlen. reflexivity.
Qed.
End LeafMergeLoop.

Section MergeIntoSpare.
Context {key_type : Type} `{StrictTotalOrder key_type}.

(** [merge_into_spare], in both trees, builds the leaf of the merged keys
    in the front of the array of the spare leaf. *)
Lemma merge_into_spare_spec (debug : bool) (spare leaf : leaf_node key_type)
    (ops : list (Operation key_type)) :
  (leaf_slotuse leaf <= length (leaf_slotkey leaf))%nat ->
  StronglySorted key_lt (leaf_keys leaf) ->
  valid_batch (leaf_keys leaf) ops ->
  (length (merge_keys (leaf_keys leaf) ops) <= length (leaf_slotkey spare))%nat ->
  exists result,
    merge_into_spare debug spare leaf ops = Ok result
    /\ ParallelLeaf.merge_into_spare spare leaf ops = Ok result
    /\ leaf_keys result = merge_keys (leaf_keys leaf) ops
    /\ leaf_slotuse result = length (merge_keys (leaf_keys leaf) ops)
    /\ length (leaf_slotkey result) = length (leaf_slotkey spare)
    /\ drop (leaf_slotuse result) (leaf_slotkey result)
       = drop (leaf_slotuse result) (leaf_slotkey spare).
Proof.
  intros Hfits Hs Hvalid Hcap.
  set (R0 := leaf_slotkey spare) in *.
  assert (Hstart : mk_cursor 0 0 R0 = cursor_of R0 0 []) by reflexivity.
  destruct (for_each_op_refines leaf R0 (merge_step debug leaf)
              (merge_step_refines leaf R0 Hfits debug) ops 0 []
              ltac:(lia) Hs Hvalid Hcap) as (i & W & Hrun & Hi & Heq).
  destruct (for_each_op_refines leaf R0 (ParallelLeaf.merge_step leaf)
              (parallel_merge_step_refines leaf R0 Hfits) ops 0 []
              ltac:(lia) Hs Hvalid Hcap) as (i' & W' & Hrun' & Hi' & Heq').
  rewrite drop_0 in Heq, Heq'. cbn [app] in Heq, Heq'.
  assert (Hcap1 : (length (W ++ drop i (leaf_keys leaf)) <= length R0)%nat).
  { rewrite Heq. exact Hcap. }
  assert (Hcap2 : (length (W' ++ drop i' (leaf_keys leaf)) <= length R0)%nat).
  { rewrite Heq'. exact Hcap. }
  destruct (finish_merge_spec leaf R0 Hfits i W Hi Hcap1)
    as (result & Hfin & Hkeys & Huse & Hlen & Htail).
  destruct (finish_merge_spec leaf R0 Hfits i' W' Hi' Hcap2)
    as (result' & Hfin' & Hkeys' & Huse' & Hlen' & Htail').
  rewrite Heq' in Hkeys', Huse'. rewrite Heq in Hkeys, Huse.
  assert (Hsame : result' = result).
  { destruct result as [u arr], result' as [u' arr'].
    unfold leaf_keys in Hkeys, Hkeys'.
    cbn [leaf_slotuse leaf_slotkey] in Hkeys, Hkeys', Huse, Huse', Htail, Htail'.
    assert (Hu : u' = u) by congruence.
    rewrite Hu in *. f_equal.
    rewrite <- (take_drop u arr'), <- (take_drop u arr).
    rewrite Hkeys, Hkeys', Htail, Htail'. reflexivity. }
  subst result'.
  exists result. unfold merge_into_spare, ParallelLeaf.merge_into_spare.
  fold R0. rewrite Hstart, Hrun, Hrun'. cbn [mbind result_mbind result_bind].
  repeat (split; [assumption |]). assumption.
Qed.
End MergeIntoSpare.

(** [BTreeSetOrderer] is a strict total order on queue entries. *)
#[global] Instance BTreeSetOrderer_order : StrictTotalOrder key_type.
Proof.
  split.
  - intros a. unfold key_less, BTreeSetOrderer.
    rewrite !Z.eqb_refl. apply Z.ltb_irrefl.
  - intros a b c. unfold key_less, BTreeSetOrderer.
    repeat match goal with
           | |- context [?x =? ?y] => destruct (Z.eqb_spec x y)
           | |- context [?x <? ?y] => destruct (Z.ltb_spec x y)
           end; intros; try reflexivity; try discriminate; lia.
  - intros [na [fa sa]] [nb [fb sb]]. unfold key_less, BTreeSetOrderer.
    cbn [node_id label first_weight second_weight].
    repeat match goal with
           | |- context [?x =? ?y] => destruct (Z.eqb_spec x y)
           | |- context [?x <? ?y] => destruct (Z.ltb_spec x y)
           end; intros; try discriminate; subst; try lia.
    f_equal. lia.
Qed.

(** The position that [std::min_element] returns lies in a non-empty
    range. *)
Lemma min_element_from_lt {A} (comp : A -> A -> bool) (rest : list A) :
  forall (best_pos : nat) (best : A) (pos : nat),
    (best_pos < pos)%nat ->
    (min_element_from comp best_pos best pos rest < pos + length rest)%nat.
Proof.
  induction rest as [| x rest IH]; intros best_pos best pos Hlt; cbn; [lia |].
  destruct (comp x best).
  - specialize (IH pos x (S pos) ltac:(lia)). lia.
  - specialize (IH best_pos best (S pos) ltac:(lia)). lia.
Qed.

Lemma min_element_lt {A} (comp : A -> A -> bool) (range : list A) :
  range <> [] -> (min_element comp range < length range)%nat.
Proof.
  destruct range as [| x rest]; [congruence |]. intros _. cbn.
  pose proof (min_element_from_lt comp rest 0 x 1 ltac:(lia)). lia.
Qed.

Section PatchLeaf.
Context `{traits : btree_traits} `{flags : build_flags} `{lm : libm}.

(** C6.  A leaf patched in place with a batch range that meets the
    preconditions, whose result is not empty and fits a leaf array: the
    slot's new leaf holds, in strictly ascending order, exactly the keys of
    the old leaf that are no DELETE target together with the INSERT keys;
    it is built in the storage of the former spare leaf (same array, only
    the used cells overwritten), and the old leaf, untouched, is the new
    spare leaf.  The parallel tree's merge gives the same leaf. *)
Theorem update_leaf_in_current_tree_spec (t : btree) (slot : inner_node_data)
    (upd : UpdateDescriptor) (leaf : leaf_node key_type)
    (ops : list (Operation key_type)) :
  childid slot = Leaf leaf ->
  batch_range (updates t) (upd_begin upd) (upd_end upd) = Ok ops ->
  (leaf_slotuse leaf <= length (leaf_slotkey leaf))%nat ->
  StronglySorted key_lt (leaf_keys leaf) ->
  valid_batch (leaf_keys leaf) ops ->
  0 < Z.of_nat (length (leaf_keys leaf)) + delta_sum ops
    <= Z.of_nat (length (leaf_slotkey (spare_leaf t))) ->
  exists slot' t' result,
    update_leaf_in_current_tree slot upd t = Ok (slot', t')
    /\ childid slot' = Leaf result
    /\ StronglySorted key_lt (leaf_keys result)
    /\ (forall y, y ∈ leaf_keys result
                  <-> (y ∈ leaf_keys leaf /\ y ∉ delete_targets ops)
                      \/ y ∈ insert_keys ops)
    /\ spare_leaf t' = leaf
    /\ length (leaf_slotkey result) = length (leaf_slotkey (spare_leaf t))
    /\ drop (leaf_slotuse result) (leaf_slotkey result)
       = drop (leaf_slotuse result) (leaf_slotkey (spare_leaf t))
    /\ root t' = root t /\ stats t' = stats t /\ leaves t' = leaves t
    /\ ParallelLeaf.merge_into_spare (spare_leaf t) leaf ops = Ok result.
Proof.
  intros Hchild Hops Hfits Hs Hvalid Hsize.
  pose proof (merge_keys_length ops (leaf_keys leaf) Hs Hvalid) as Hlen.
  destruct (merge_into_spare_spec (negb NDEBUG) (spare_leaf t) leaf ops
              Hfits Hs Hvalid ltac:(lia))
    as (result & Hrun & Hpar & Hkeys & Huse & Harr & Htail).
  destruct (merge_keys_spec ops (leaf_keys leaf) Hs Hvalid) as [Hsorted Hmem].
  assert (Hne : leaf_keys result <> []).
  { rewrite Hkeys. intros Hnil. rewrite Hnil in Hlen. cbn in Hlen. lia. }
  assert (Hfits' : (leaf_slotuse result <= length (leaf_slotkey result))%nat) by lia.
  (* the minimum and the router are read inside the array *)
  assert (Hl : length (leaf_keys result) = leaf_slotuse result).
  { unfold leaf_keys. rewrite length_take. lia. }
  assert (Hpos' : (min_element less_by_second_weight (leaf_keys result)
                   < length (leaf_slotkey result))%nat).
  { eapply Nat.lt_le_trans; [apply min_element_lt; exact Hne |].
    rewrite Hl. exact Hfits'. }
  destruct (array_get_lt KeyIndexOutOfRange (leaf_slotkey result) _ Hpos')
    as (kmin & Hkmin & _).
  assert (Huse1 : (1 <= leaf_slotuse result)%nat).
  { rewrite Huse. lia. }
  assert (Hlast : (leaf_slotuse result - 1 < length (leaf_slotkey result))%nat)
    by lia.
  destruct (array_get_lt KeyIndexOutOfRange (leaf_slotkey result) _ Hlast)
    as (klast & Hklast & _).
  eexists _, _, result.
  unfold update_leaf_in_current_tree, mbind, M_bind, get, lift, modify, mret, M_ret.
  rewrite Hchild. cbn [as_leaf]. rewrite Hops, Hrun.
  unfold set_min_element_leaf. rewrite Hkmin.
  cbn [mbind result_mbind result_bind].
  unfold array_get_Z.
  destruct (Z.ltb_spec (Z.of_nat (leaf_slotuse result) - 1) 0); [lia |].
  replace (Z.to_nat (Z.of_nat (leaf_slotuse result) - 1))
    with (leaf_slotuse result - 1)%nat by lia.
  rewrite Hklast.
  split; [reflexivity |]. cbn.
  split; [reflexivity |]. rewrite Hkeys.
  split; [exact Hsorted |]. split; [exact Hmem |].
  repeat (split; [first [reflexivity | assumption] |]). exact Hpar.
Qed.
End PatchLeaf.

Lemma update_leaf_in_current_tree_spec_witness :
  exists slot' t' result,
    @update_leaf_in_current_tree debug_flags patch_slot patch_upd patch_tree
      = Ok (slot', t')
    /\ childid slot' = Leaf result
    /\ StronglySorted key_lt (leaf_keys result)
    /\ (forall y, y ∈ leaf_keys result
                  <-> (y ∈ leaf_keys patch_leaf /\ y ∉ delete_targets patch_ops)
                      \/ y ∈ insert_keys patch_ops)
    /\ spare_leaf t' = patch_leaf
    /\ length (leaf_slotkey result) = length (leaf_slotkey (spare_leaf patch_tree))
    /\ drop (leaf_slotuse result) (leaf_slotkey result)
       = drop (leaf_slotuse result) (leaf_slotkey (spare_leaf patch_tree))
    /\ root t' = root patch_tree /\ stats t' = stats patch_tree
    /\ leaves t' = leaves patch_tree
    /\ ParallelLeaf.merge_into_spare (spare_leaf patch_tree) patch_leaf patch_ops
       = Ok result.
Proof.
  apply (@update_leaf_in_current_tree_spec debug_flags patch_tree patch_slot
           patch_upd patch_leaf patch_ops).
  - reflexivity.
  - reflexivity.
  - vm_compute. lia.
  - repeat constructor.
  - split.
    + repeat constructor.
    + repeat constructor.
      intros Hin. cbn in Hin.
      repeat (apply elem_of_cons in Hin as [Hin | Hin]; [discriminate Hin |]).
      inversion Hin.
  - vm_compute. split; [reflexivity | discriminate].
Defined.

(** ** Clearing the tree *)

Lemma release_release nl ni nl' ni' s :
  release nl' ni' (release nl ni s) = release (nl + nl') (ni + ni') s.
Proof.
  unfold release. cbn [itemcount stats_leaves innernodes].
  unfold to_size_type, wrap_unsigned.
  rewrite !Zminus_mod_idemp_l. f_equal; f_equal; lia.
Qed.

Lemma release_in_range nl ni s : stats_in_range (release nl ni s).
Proof. split; apply to_size_type_range. Qed.

Lemma release_nothing s : stats_in_range s -> release 0 0 s = s.
Proof.
  intros [Hl Hi]. destruct s as [c l i]. unfold release.
  cbn [itemcount stats_leaves innernodes] in *.
  rewrite !Z.sub_0_r, !to_size_type_small by assumption. reflexivity.
Qed.

Section Clear.
Context `{traits : btree_traits} `{flags : build_flags} `{lm : libm}.

Lemma after_release_after_release nl ni nl' ni' t :
  after_release nl' ni' (after_release nl ni t)
  = after_release (nl + nl') (ni + ni') t.
Proof.
  unfold after_release. destruct gather_stats; [| reflexivity].
  destruct t. unfold set_stats. cbn. rewrite release_release. reflexivity.
Qed.

Lemma after_release_in_range nl ni t :
  stats_in_range (stats t) -> stats_in_range (stats (after_release nl ni t)).
Proof.
  intros Hr. unfold after_release. destruct gather_stats; [| exact Hr].
  destruct t. cbn. apply release_in_range.
Qed.

Lemma after_release_nothing t :
  stats_in_range (stats t) -> after_release 0 0 t = t.
Proof.
  intros Hr. unfold after_release. destruct gather_stats; [| reflexivity].
  rewrite release_nothing by exact Hr. destruct t. reflexivity.
Qed.

Lemma free_node_spec (n : node) (t : btree) :
  stats_in_range (stats t) ->
  free_node n t
  = Ok (tt, after_release (b2z (isleafnode n)) (b2z (negb (isleafnode n))) t).
Proof.
  intros [Hl Hi]. unfold free_node, after_release, modify, mret, M_ret.
  destruct (isleafnode n), gather_stats; cbn [b2z negb]; try reflexivity.
  - f_equal. f_equal. f_equal. unfold add_leaves, release.
    rewrite Z.sub_0_r, (to_size_type_small (innernodes (stats t))) by exact Hi.
    reflexivity.
  - f_equal. f_equal. f_equal. unfold add_innernodes, release.
    rewrite Z.sub_0_r, (to_size_type_small (stats_leaves (stats t))) by exact Hl.
    reflexivity.
Qed.

Lemma clear_recursive_spec (n : node) : forall t,
  stats_in_range (stats t) ->
  clear_recursive n t
  = Ok (tt, after_release (count_nodes true n) (count_nodes false n) t).
Proof.
  induction n as [l | level slots IH] using node_induction; intros t Hr.
  - cbn [clear_recursive count_nodes]. rewrite free_node_spec by exact Hr.
    cbn. rewrite !Z.add_0_r. reflexivity.
  - cbn [clear_recursive count_nodes].
    unfold mbind at 1, M_bind at 1.
    set (clear_slots := fix clear_slots (ss : list inner_node_data) : M unit :=
           match ss with
           | [] => mret tt
           | s :: ss' => _ ← clear_recursive (childid s); clear_slots ss'
           end).
    set (count_slots := fun leaflike =>
           fix count_slots (ss : list inner_node_data) : Z :=
             match ss with
             | [] => 0
             | s :: ss' => count_nodes leaflike (childid s) + count_slots ss'
             end).
    assert (Hslots : forall t', stats_in_range (stats t') ->
              clear_slots slots t'
              = Ok (tt, after_release (count_slots true slots)
                                      (count_slots false slots) t')).
    { clear Hr t. induction IH as [| s ss Hs _ IHss]; intros t' Hr'.
      - cbn. rewrite after_release_nothing by exact Hr'. reflexivity.
      - cbn [clear_slots count_slots]. unfold mbind, M_bind.
        rewrite (Hs t' Hr').
        rewrite IHss by (apply after_release_in_range; exact Hr').
        rewrite after_release_after_release. reflexivity. }
    rewrite (Hslots t Hr).
    rewrite free_node_spec by (apply after_release_in_range; exact Hr).
    rewrite after_release_after_release. f_equal. f_equal.
    fold (count_slots true slots). fold (count_slots false slots).
    f_equal; destruct (isleafnode (Inner level slots)); cbn [eqb negb b2z]; lia.
Qed.

Lemma clear_spec (t : btree) (n : node) :
  root t = Some n ->
  stats_in_range (stats t) ->
  (NDEBUG = false -> counters_agree t n) ->
  clear t
  = Ok (tt, set_root None
              (after_release (count_nodes true n) (count_nodes false n) t)).
Proof.
  intros Hroot Hr Hagree.
  unfold clear, mbind, M_bind, gets. rewrite Hroot.
  rewrite (clear_recursive_spec n t Hr).
  unfold modify, BTREE_ASSERT, mret, M_ret, after_release, gather_stats.
  destruct NDEBUG eqn:Hdebug; cbn [negb]; [reflexivity |].
  destruct (Hagree eq_refl) as [Hl Hi].
  destruct t as [r sp st us bt ls wd lv]. cbn in *.
  rewrite Hl, Hi, !Z.sub_diag. reflexivity.
Qed.
(** What [apply_updates] does for a batch that empties the tree. *)
Lemma apply_updates_emptying (t : btree) (n : node)
    (ups : list (Operation key_type)) (bt : OperationBatchType) (wd : list Z) :
  root t = Some n ->
  stats_in_range (stats t) ->
  (NDEBUG = false -> counters_agree t n) ->
  setOperationsAndComputeWeightDelta_pure
    (itemcount (stats t)) (weightdelta t) ups bt = Ok (wd, 0) ->
  apply_updates ups bt t
  = Ok (tt, set_root None
              (after_release (count_nodes true n) (count_nodes false n)
                 (set_stats (set_itemcount 0 (stats t)) (set_batch ups bt wd t)))).
Proof.
  intros Hroot Hr Hagree Hwd.
  unfold apply_updates, setOperationsAndComputeWeightDelta.
  unfold mbind at 1, M_bind at 1. unfold mbind at 1, M_bind at 1.
  unfold get at 1. unfold mbind at 1, M_bind at 1. unfold lift at 1.
  rewrite Hwd. cbn [result_bind mbind result_mbind].
  unfold mbind at 1, M_bind at 1. unfold modify at 1.
  unfold mret at 1, M_ret at 1.
  unfold mbind at 1, M_bind at 1. unfold modify at 1.
  change (0 =? 0) with true. cbv iota.
  apply clear_spec.
  - destruct t; exact Hroot.
  - destruct t; exact Hr.
  - intros Hd. destruct t; exact (Hagree Hd).
Qed.

(** C9: a direct [clear()] on a non-empty tree succeeds, frees every node
    (the root is absent afterwards and, where the counters are kept, both
    node counters are zero) and leaves the item counter alone: [size()]
    still returns the item count from before the call and [empty()] returns
    false.  [apply_updates] with a batch that brings the item count to zero
    writes the new count first and clears then: afterwards the root is
    absent, [size()] returns 0 and [empty()] returns true. *)
Theorem clear_keeps_itemcount (t : btree) (n : node) :
  root t = Some n ->
  itemcount (stats t) <> 0 ->
  stats_in_range (stats t) ->
  (NDEBUG = false -> counters_agree t n) ->
  (exists t',
      clear t = Ok (tt, t')
      /\ root t' = None
      /\ (gather_stats = true ->
          stats_leaves (stats t') = 0 /\ innernodes (stats t') = 0)
      /\ size t' = Ok (itemcount (stats t), t')
      /\ empty t' = Ok (false, t'))
  /\ (forall ups bt wd,
        setOperationsAndComputeWeightDelta_pure
          (itemcount (stats t)) (weightdelta t) ups bt = Ok (wd, 0) ->
        exists t',
          apply_updates ups bt t = Ok (tt, t')
          /\ root t' = None
          /\ size t' = Ok (0, t')
          /\ empty t' = Ok (true, t')).
Proof.
  intros Hroot Hcount Hr Hagree. split.
  - eexists. split; [apply (clear_spec t n Hroot Hr Hagree) |].
    split; [reflexivity |]. split; [| split].
    + intros Hg. unfold gather_stats in Hg.
      destruct NDEBUG eqn:Hd; [discriminate Hg |].
      destruct (Hagree eq_refl) as [Hl Hi].
      unfold after_release, gather_stats. rewrite Hd. cbn.
      rewrite Hl, Hi, !Z.sub_diag. split; reflexivity.
    + unfold size, gets, after_release.
      destruct gather_stats; destruct t; reflexivity.
    + unfold empty, size, gets, mbind, M_bind, mret, M_ret, after_release.
      apply Z.eqb_neq in Hcount.
      destruct gather_stats; destruct t; cbn in *; rewrite Hcount; reflexivity.
  - intros ups bt wd Hwd. eexists.
    split; [apply (apply_updates_emptying t n ups bt wd Hroot Hr Hagree Hwd) |].
    split; [reflexivity |]. split.
    + unfold size, gets, after_release.
      destruct gather_stats; destruct t; reflexivity.
    + unfold empty, size, gets, mbind, M_bind, mret, M_ret, after_release.
      destruct gather_stats; destruct t; reflexivity.
Qed.
End Clear.

Lemma clear_keeps_itemcount_witness :
  (exists t',
      @clear debug_flags single_leaf_tree = Ok (tt, t')
      /\ root t' = None
      /\ (@gather_stats debug_flags = true ->
          stats_leaves (stats t') = 0 /\ innernodes (stats t') = 0)
      /\ size t' = Ok (3, t')
      /\ empty t' = Ok (false, t'))
  /\ (exists t',
        @apply_updates traits_8_8 debug_flags glibc_log delete_all_ops INSERTS_AND_DELETES
          single_leaf_tree = Ok (tt, t')
        /\ root t' = None
        /\ size t' = Ok (0, t')
        /\ empty t' = Ok (true, t')).
Proof.
  assert (H : root single_leaf_tree = Some (Leaf patch_leaf)) by reflexivity.
  assert (Hc : itemcount (stats single_leaf_tree) <> 0) by (vm_compute; discriminate).
  assert (Hr : stats_in_range (stats single_leaf_tree)) by (vm_compute; intuition discriminate).
  assert (Ha : @NDEBUG debug_flags = false ->
               counters_agree single_leaf_tree (Leaf patch_leaf))
    by (intros _; vm_compute; split; reflexivity).
  destruct (@clear_keeps_itemcount traits_8_8 debug_flags glibc_log single_leaf_tree
              (Leaf patch_leaf) H Hc Hr Ha) as [Hclear Hupd].
  split; [exact Hclear |].
  apply (Hupd delete_all_ops INSERTS_AND_DELETES
              ([0; -1; -2; -3] ++ replicate 60%nat 0)).
  vm_compute. reflexivity.
Defined.

(** ** The decision to rebuild from the root *)
Section RootRebuild.
Context `{traits : btree_traits} `{flags : build_flags} `{lm : libm}.

Lemma ensure_root_total (t : btree) :
  exists root_node t', ensure_root t = Ok (root_node, t').
Proof.
  unfold ensure_root, mbind, M_bind, gets, allocate_leaf, modify, mret, M_ret.
  destruct (root t); [eauto |].
  unfold mbind, M_bind, modify, mret, M_ret.
  destruct gather_stats; eauto.
Qed.

Lemma M_bind_run {A B} (m : M A) (f : A -> M B) (t : btree) :
  (m ≫= f) t = match m t with
                | Ok (a, t') => f a t'
                | Err e => Err e
                end.
Proof.
  unfold mbind, M_bind. destruct (m t) as [[a t'] | e]; reflexivity.
Qed.

Lemma rebuild_needed_iff (level root_level size : Z) :
  rebuild_needed level root_level size = true
  <-> (level < root_level /\ size < minweight root_level)
      \/ size > maxweight root_level.
Proof.
  unfold rebuild_needed.
  rewrite orb_true_iff, andb_true_iff, !Z.ltb_lt. lia.
Qed.

(** The two branches of [apply_updates] for a new item count that is not
    zero. *)
Lemma apply_updates_branches (t : btree)
    (ups : list (Operation key_type)) (bt : OperationBatchType)
    (wd : list Z) (new_size level : Z) :
  setOperationsAndComputeWeightDelta_pure
    (itemcount (stats t)) (weightdelta t) ups bt = Ok (wd, new_size) ->
  new_size <> 0 ->
  num_optimal_levels new_size = Ok level ->
  exists root_node t',
    ensure_root (set_stats (set_itemcount new_size (stats t))
                           (set_batch ups bt wd t)) = Ok (root_node, t')
    /\ size t' = Ok (new_size, t')
    /\ let root_level := Z.of_nat (node_level root_node) in
       let condition :=
         (level < root_level /\ new_size < minweight root_level)
         \/ new_size > maxweight root_level in
       (condition ->
        apply_updates ups bt t
        = rebuild_root root_node level new_size (Z.of_nat (length ups)) t')
       /\ (~ condition ->
           apply_updates ups bt t
           = update_root_in_place root_node new_size (Z.of_nat (length ups)) t').
Proof.
  intros Hwd Hsize Hlevel.
  set (t1 := set_stats (set_itemcount new_size (stats t)) (set_batch ups bt wd t)).
  destruct (ensure_root_total t1) as (root_node & t' & Hroot).
  exists root_node, t'. split; [exact Hroot |].
  assert (Hcount : itemcount (stats t') = new_size).
  { revert Hroot. unfold ensure_root, mbind, M_bind, gets, allocate_leaf, modify,
      mret, M_ret.
    destruct (root t1).
    - intros [= <- <-]. destruct t; reflexivity.
    - unfold mbind, M_bind, modify, mret, M_ret.
      destruct gather_stats; intros [= <- <-]; destruct t; reflexivity. }
  split; [unfold size, gets; rewrite Hcount; reflexivity |].
  cbv zeta.
  assert (Hrun : apply_updates ups bt t
    = (if rebuild_needed level
            (Z.of_nat (node_level root_node)) new_size
       then rebuild_root root_node level new_size
              (Z.of_nat (length ups)) t'
       else update_root_in_place root_node new_size (Z.of_nat (length ups)) t')).
  { unfold apply_updates. rewrite M_bind_run.
    assert (Hset : setOperationsAndComputeWeightDelta ups bt t
                   = Ok (new_size, set_batch ups bt wd t)).
    { unfold setOperationsAndComputeWeightDelta. rewrite M_bind_run.
      unfold get at 1. rewrite M_bind_run. unfold lift at 1. rewrite Hwd.
      cbn [mbind result_mbind result_bind]. rewrite M_bind_run. reflexivity. }
    rewrite Hset. rewrite M_bind_run. unfold modify at 1. fold t1.
    rewrite (proj2 (Z.eqb_neq _ _) Hsize).
    revert Hroot. unfold ensure_root. rewrite !(M_bind_run (gets root)).
    unfold gets at 1 2.
    change (set_stats (set_itemcount new_size (stats (set_batch ups bt wd t)))
                      (set_batch ups bt wd t)) with t1.
    set (pick := match root t1 with Some n => mret n | None => _ end).
    rewrite !(M_bind_run pick).
    destruct (pick t1) as [[rn t2] | e]; [| discriminate].
    rewrite !(M_bind_run (modify _)). unfold modify at 1 2.
    intros [= <- <-].
    rewrite (M_bind_run (lift _)). unfold lift at 1. rewrite Hlevel.
    cbn [result_bind mbind result_mbind].
    rewrite (M_bind_run size). unfold size at 1, gets at 1. rewrite Hcount.
    destruct (rebuild_needed _ _ _).
    - unfold rebuild_root. rewrite !M_bind_run. unfold modify at 1 3.
      rewrite !M_bind_run.
      destruct (allocate_new_leaves _ _) as [[[] t3] | e]; [| reflexivity].
      rewrite !M_bind_run.
      destruct (update _ _ _ _ _ _) as [[fs t4] | e]; [| reflexivity].
      rewrite !M_bind_run.
      destruct (create_subtree_from_leaves _ _ _ _ _ _) as [[[x fs2] t5] | e];
        reflexivity.
    - unfold update_root_in_place. rewrite !M_bind_run.
      unfold mret at 1, M_ret at 1. rewrite !M_bind_run.
      destruct (update _ _ _ _ _ _) as [[fs t4] | e]; [| reflexivity].
      rewrite !M_bind_run. reflexivity. }
  split; intros Hcond.
  - apply rebuild_needed_iff in Hcond. rewrite Hrun, Hcond. reflexivity.
  - rewrite Hrun.
    destruct (rebuild_needed _ _ _) eqn:Hb; [| reflexivity].
    apply rebuild_needed_iff in Hb. contradiction.
Qed.
End RootRebuild.

(** ** The weight bounds after a batch of deletions *)

(** C2: a tree with [k = b = 8] is filled with ten keys and verifies; a
    valid batch then deletes the four largest keys.  [apply_updates]
    completes, and the second leaf, which is not the root, is left with
    one key, below [minweight(0) = 2]: the rebalancing pass of [update]
    joins a defective subtree with the subtrees that follow it only, and
    the last subtree has none.  [verify] fails its assertion on that
    leaf. *)
Theorem last_leaf_underflows :
  exists t1 t2 s0 s1 l1,
    valid_batch (tree_keys (@new_btree traits_8_8 debug_flags)) ten_inserts
    /\ @apply_updates traits_8_8 debug_flags glibc_log ten_inserts INSERTS_ONLY
         (@new_btree traits_8_8 debug_flags) = Ok (tt, t1)
    /\ @verify traits_8_8 debug_flags t1 = Ok tt
    /\ valid_batch (tree_keys t1) four_deletes
    /\ @apply_updates traits_8_8 debug_flags glibc_log four_deletes DELETES_ONLY t1
       = Ok (tt, t2)
    /\ root t2 = Some (Inner 1 [s0; s1])
    /\ childid s1 = Leaf l1
    /\ weight s1 = 1
    /\ leaf_slotuse l1 = 1%nat
    /\ @minweight traits_8_8 0 = 2
    /\ @verify traits_8_8 debug_flags t2 = Err AssertionFailed.
Proof.
  do 5 eexists.
  split.
  { split.
    - vm_compute. repeat constructor.
    - repeat constructor; apply not_elem_of_nil. }
  split; [vm_compute; reflexivity |].
  split; [vm_compute; reflexivity |].
  split.
  { split.
    - vm_compute. repeat constructor.
    - vm_compute. repeat constructor. }
  split; [vm_compute; reflexivity |].
  split; [cbn [root]; reflexivity |].
  split; [reflexivity |].
  split; [reflexivity |].
  split; [reflexivity |].
  split; vm_compute; reflexivity.
Qed.

(** ** Pareto minima

    Minimum descriptors are equal when both weights are. *)
Lemma label_eq (a b : min_key_type) :
  first_weight a = first_weight b -> second_weight a = second_weight b -> a = b.
Proof. destruct a, b. cbn. intros -> ->. reflexivity. Qed.




(** [BTreeSetOrderer] orders by first weight, then second weight, then
    node. *)
Lemma key_lt_lex (a b : key_type) :
  key_lt a b ->
  first_weight (label a) < first_weight (label b)
  \/ (first_weight (label a) = first_weight (label b)
      /\ second_weight (label a) < second_weight (label b))
  \/ (label a = label b /\ node_id a < node_id b).
Proof.
  unfold key_lt, key_less, BTreeSetOrderer.
  destruct (Z.eqb_spec (first_weight (label a)) (first_weight (label b)))
    as [Hf | Hf];
    [destruct (Z.eqb_spec (second_weight (label a)) (second_weight (label b)))
       as [Hs | Hs] |];
    rewrite Z.ltb_lt; intros H.
  - right. right. split; [apply label_eq; assumption | exact H].
  - right. left. split; assumption.
  - left. exact H.
Qed.

Lemma key_lt_first (a b : key_type) :
  key_lt a b -> first_weight (label a) <= first_weight (label b).
Proof.
  intros H. destruct (key_lt_lex a b H) as [Hf | [[Hf _] | [Hl _]]];
    [lia | lia | rewrite Hl; lia].
Qed.




(** *** The leaf loop *)




Lemma scan_min_app keys1 keys2 min :
  scan_min (keys1 ++ keys2) min = scan_min keys2 (scan_min keys1 min).
Proof.
  revert min. induction keys1 as [| k keys1 IH]; intros min; [reflexivity |].
  cbn [app scan_min].
  destruct (improves (to_min_key k) min); rewrite IH; reflexivity.
Qed.





(** *** The descent through inner nodes *)


(** *** What the leaf loop emits *)







Section ParetoQueue.
Context `{limits : weight_limits}.

End ParetoQueue.

Lemma frontier_tree_built :
  @apply_updates traits_8_8 debug_flags glibc_log frontier_inserts INSERTS_ONLY
    (@new_btree traits_8_8 debug_flags) = Ok (tt, frontier_tree)
  /\ root frontier_tree = Some frontier_root
  /\ node_level frontier_root = 1%nat
  /\ @verify traits_8_8 debug_flags frontier_tree = Ok tt.
Proof. repeat split; vm_compute; reflexivity. Qed.

Lemma frontier_tree_minima :
  find_pareto_minima (to_min_key (@min_label unsigned_int_weights)) frontier_tree
  = Ok (map (mkOperation DELETE)
            [entry 1 1 9; entry 2 2 7; entry 4 4 3; entry 9 9 2; entry 10 10 1],
        frontier_tree).
Proof. vm_compute. reflexivity. Qed.



(** *** The minimum descriptors that [set_min_element] stores

    [std::min_element] with a comparison by a measure [f] returns the
    position of the first element of least measure. *)
Section MinElementSplit.
Context {A : Type} (f : A -> Z).

Lemma min_element_from_split (rest : list A) : forall pre best mid,
  Forall (fun x => f best < f x) pre ->
  Forall (fun x => f best <= f x) mid ->
  exists pre' x post',
    pre ++ best :: mid ++ rest = pre' ++ x :: post'
    /\ min_element_from (less_by f) (length pre) best
         (length (pre ++ best :: mid)) rest = length pre'
    /\ Forall (fun y => f x < f y) pre'
    /\ Forall (fun y => f x <= f y) post'.
Proof.
  induction rest as [| x rest IH]; intros pre best mid Hpre Hmid.
  - exists pre, best, mid. rewrite app_nil_r. repeat split; assumption.
  - cbn [min_element_from]. unfold less_by at 1.
    destruct (Z.ltb_spec (f x) (f best)) as [Hlt | Hge].
    + destruct (IH (pre ++ best :: mid) x []) as (pre' & y & post' & Heq & Hpos & H1 & H2).
      * apply Forall_app. split; [| constructor].
        -- eapply Forall_impl; [exact Hpre |]. cbn. intros; lia.
        -- lia.
        -- eapply Forall_impl; [exact Hmid |]. cbn. intros; lia.
      * constructor.
      * exists pre', y, post'. cbn [app] in Heq, Hpos.
        rewrite <- Heq, <- app_assoc. cbn [app].
        replace (length ((pre ++ best :: mid) ++ [x]))
          with (S (length (pre ++ best :: mid))) in Hpos
          by (rewrite !length_app; cbn; lia).
        repeat split; [exact Hpos | exact H1 | exact H2].
    + destruct (IH pre best (mid ++ [x])) as (pre' & y & post' & Heq & Hpos & H1 & H2).
      * exact Hpre.
      * apply Forall_app. split; [exact Hmid | repeat constructor; exact Hge].
      * exists pre', y, post'.
        rewrite <- app_assoc in Heq. cbn [app] in Heq.
        replace (length (pre ++ best :: mid ++ [x]))
          with (S (length (pre ++ best :: mid))) in Hpos
          by (rewrite !length_app; cbn; rewrite length_app; cbn; lia).
        repeat split; [exact Heq | exact Hpos | exact H1 | exact H2].
Qed.

Lemma min_element_split (range : list A) :
  range <> [] ->
  exists pre x post,
    range = pre ++ x :: post
    /\ min_element (less_by f) range = length pre
    /\ Forall (fun y => f x < f y) pre
    /\ Forall (fun y => f x <= f y) post.
Proof.
  destruct range as [| best rest]; [congruence |]. intros _.
  destruct (min_element_from_split rest [] best []) as
    (pre & x & post & Heq & Hpos & H1 & H2); [constructor | constructor |].
  exists pre, x, post. repeat split; assumption.
Qed.
End MinElementSplit.

(** X10: [set_min_element(slot, leaf)] on a leaf that is not empty and
    whose keys are in strictly ascending order stores in the slot the
    minimum descriptor of the leaf: the label of one of its keys, of least
    second weight and, among the labels of that second weight, of least
    first weight. *)
Lemma set_min_element_leaf_spec (s : inner_node_data) (n : leaf_node key_type) :
  leaf_keys n <> [] ->
  StronglySorted key_lt (leaf_keys n) ->
  exists m,
    set_min_element_leaf s n = Ok (set_minimum m s)
    /\ is_subtree_min m (leaf_keys n).
Proof.
  intros Hne Hsorted.
  destruct (min_element_split (fun k => second_weight (label k)) (leaf_keys n) Hne)
    as (pre & k & post & Heq & Hpos & Hpre & Hpost).
  exists (to_min_key k). split.
  - unfold set_min_element_leaf, less_by_second_weight.
    cbv zeta. unfold array_get.
    replace (min_element _ (leaf_keys n)) with (length pre)
      by (symmetry; exact Hpos).
    assert (Hlook : leaf_keys n !! length pre = Some k).
    { rewrite Heq. rewrite lookup_app_r by lia.
      rewrite Nat.sub_diag. reflexivity. }
    unfold leaf_keys in Hlook. apply lookup_take_Some in Hlook as [Hlook _].
    unfold key_type in *. rewrite Hlook. reflexivity.
  - rewrite Heq in Hsorted |- *.
    apply StronglySorted_app in Hsorted as (_ & _ & Hsorted).
    apply StronglySorted_cons in Hsorted as [Hlater _].
    unfold is_subtree_min, to_min_key. split.
    + apply Exists_app. right. left. reflexivity.
    + apply Forall_app. split; [| constructor].
      * eapply Forall_impl; [exact Hpre |]. cbn. intros; split; lia.
      * split; lia.
      * rewrite Forall_forall in *. intros k' Hk'.
        split; [apply Hpost; exact Hk' |]. intros _.
        apply key_lt_first, Hlater. exact Hk'.
Qed.

Lemma node_keys_inner_app level slots1 slots2 :
  node_keys (Inner level (slots1 ++ slots2))
  = node_keys (Inner level slots1) ++ node_keys (Inner level slots2).
Proof.
  cbn [node_keys]. induction slots1 as [| s slots1 IH]; [reflexivity |].
  cbn [app]. rewrite IH, app_assoc. reflexivity.
Qed.

Lemma node_keys_inner_cons level s slots :
  node_keys (Inner level (s :: slots))
  = node_keys (childid s) ++ node_keys (Inner level slots).
Proof. reflexivity. Qed.

(** The second weights below an inner node are bounded by its slots'
    minimum descriptors. *)
Lemma node_keys_inner_bound (P : Z -> Z -> Prop) level slots (bound : Z) :
  (forall x y z, P x y -> y <= z -> P x z) ->
  Forall (fun s => is_subtree_min (minimum s) (node_keys (childid s))) slots ->
  Forall (fun s => P bound (second_weight (minimum s))) slots ->
  Forall (fun k => P bound (second_weight (label k)))
         (node_keys (Inner level slots)).
Proof.
  intros Hmono Hmin Hbound.
  induction Hmin as [| s slots [_ Hall] _ IH]; [constructor |].
  apply Forall_cons in Hbound as [Hs Hbound].
  rewrite node_keys_inner_cons. apply Forall_app. split; [| apply IH, Hbound].
  eapply Forall_impl; [exact Hall |]. cbn. intros k [Hk _].
  eapply Hmono; [exact Hs | exact Hk].
Qed.

(** X11: [set_min_element(slot, inner)] on an inner node with at least one
    slot, whose keys are in strictly ascending order and whose slots carry
    the minimum descriptors of their subtrees, stores in the slot the
    minimum descriptor of all keys below the node. *)
Lemma set_min_element_inner_spec (s : inner_node_data) (level : nat)
    (slots : list inner_node_data) :
  slots <> [] ->
  StronglySorted key_lt (node_keys (Inner level slots)) ->
  Forall (fun s' => is_subtree_min (minimum s') (node_keys (childid s'))) slots ->
  exists m,
    set_min_element_inner s slots = Ok (set_minimum m s)
    /\ is_subtree_min m (node_keys (Inner level slots)).
Proof.
  intros Hne Hsorted Hmin.
  destruct (min_element_split (fun s' => second_weight (minimum s')) slots Hne)
    as (pre & sm & post & Heq & Hpos & Hpre & Hpost).
  exists (minimum sm). split.
  - unfold set_min_element_inner, less_by_minimum. cbv zeta. unfold array_get.
    replace (min_element _ slots) with (length pre) by (symmetry; exact Hpos).
    assert (Hlook : slots !! length pre = Some sm).
    { rewrite Heq. rewrite lookup_app_r by lia.
      rewrite Nat.sub_diag. reflexivity. }
    rewrite Hlook. reflexivity.
  - rewrite Heq in Hsorted, Hmin |- *.
    rewrite node_keys_inner_app, node_keys_inner_cons in Hsorted |- *.
    apply Forall_app in Hmin as [Hmin_pre Hmin].
    apply Forall_cons in Hmin as [[Hex Hall] Hmin_post].
    apply StronglySorted_app in Hsorted as (_ & _ & Hsorted).
    apply StronglySorted_app in Hsorted as (Hcross & _ & _).
    split.
    + apply Exists_app. right. apply Exists_app. left. exact Hex.
    + apply Forall_app. split; [| apply Forall_app; split; [exact Hall |]].
      * pose proof (node_keys_inner_bound Z.lt level pre
                      (second_weight (minimum sm))
                      ltac:(intros; lia) Hmin_pre Hpre) as Hkeys.
        eapply Forall_impl; [exact Hkeys |]. cbn. intros; split; lia.
      * pose proof (node_keys_inner_bound Z.le level post
                      (second_weight (minimum sm))
                      ltac:(intros; lia) Hmin_post Hpost) as Hkeys.
        apply Exists_exists in Hex as (km & Hkm & Hlabel).
        rewrite Forall_forall in Hkeys. apply Forall_forall. intros k Hk.
        split; [apply Hkeys; exact Hk |]. intros _.
        rewrite <- Hlabel. apply key_lt_first, Hcross; assumption.
Qed.

(** * Further properties of the code *)

(** ** Powers and weight bounds *)

Lemma land_1_mod_2 (x : Z) : Z.land x 1 = x mod 2.
Proof. exact (Z.land_ones x 1 ltac:(lia)). Qed.

Lemma pow_halve (base exp : Z) :
  0 <= exp ->
  base ^ exp = (base * base) ^ (exp / 2) * base ^ (exp mod 2).
Proof.
  intros Hexp.
  pose proof (Z.div_mod exp 2 ltac:(lia)) as Hdm.
  pose proof (Z.mod_pos_bound exp 2 ltac:(lia)) as Hm.
  assert (Hq : 0 <= exp / 2) by (apply Z.div_pos; lia).
  rewrite Hdm at 1.
  rewrite Z.pow_add_r, Z.pow_mul_r by lia.
  replace (base ^ 2) with (base * base) by lia. reflexivity.
Qed.

Lemma pow_le_pow (base a b : Z) :
  0 <= base -> 0 < a <= b -> base ^ a <= base ^ b.
Proof.
  intros Hbase Hab.
  destruct (Z.eq_dec base 0) as [-> | Hne].
  - rewrite !Z.pow_0_l by lia. lia.
  - apply Z.pow_le_mono_r; lia.
Qed.

Lemma ipow_loop_spec (rounds : nat) : forall result base exp,
  0 <= exp < 2 ^ Z.of_nat rounds ->
  exp = 0 \/ (0 <= base /\ base ^ exp < 2 ^ 31) ->
  0 <= result -> result * base ^ exp < 2 ^ 64 ->
  ipow_loop rounds result base exp = result * base ^ exp.
Proof.
  induction rounds as [| rounds IH]; intros result base exp Hexp Hbase Hres Hprod.
  - cbn in Hexp. assert (exp = 0) as -> by lia. cbn. lia.
  - cbn [ipow_loop]. destruct (Z.ltb_spec 0 exp) as [Hpos | Hzero].
    2: { assert (exp = 0) as -> by lia. rewrite Z.pow_0_r. lia. }
    destruct Hbase as [-> | [Hb Hpow]]; [lia |].
    pose proof (Z.div_mod exp 2 ltac:(lia)) as Hdm.
    pose proof (Z.mod_pos_bound exp 2 ltac:(lia)) as Hm.
    assert (Hq : 0 <= exp / 2) by (apply Z.div_pos; lia).
    assert (Hb1 : base <= base ^ exp).
    { rewrite <- (Z.pow_1_r base) at 1. apply pow_le_pow; lia. }
    rewrite land_1_mod_2, Z.shiftr_div_pow2 by lia. change (2 ^ 1) with 2.
    rewrite (pow_halve base exp) in * by lia.
    assert (Hsq : 0 <= (base * base) ^ (exp / 2)) by (apply Z.pow_nonneg; nia).
    assert (Hhalf : exp / 2 < 2 ^ Z.of_nat rounds).
    { rewrite Nat2Z.inj_succ, Z.pow_succ_r in Hexp by lia.
      apply Z.div_lt_upper_bound; lia. }
    set (result' := if negb (exp mod 2 =? 0) then to_size_type (result * base)
                    else result).
    assert (Hres' : result' = result * base ^ (exp mod 2)).
    { unfold result'. destruct (Z.eqb_spec (exp mod 2) 0) as [He | Ho]; cbn [negb].
      - rewrite He, Z.pow_0_r. lia.
      - assert (exp mod 2 = 1) as Hodd by lia. rewrite Hodd, Z.pow_1_r in *.
        apply to_size_type_small. split; [nia |].
        destruct (Z.eq_dec ((base * base) ^ (exp / 2)) 0) as [H0 | Hn0]; [| nia].
        assert (base = 0) as ->.
        { destruct (Z.eq_dec (exp / 2) 0) as [Hq0 | Hqn].
          - rewrite Hq0, Z.pow_0_r in H0. lia.
          - destruct (Z.eq_dec base 0) as [Hbz | Hbn]; [exact Hbz |].
            assert (0 < (base * base) ^ (exp / 2))
              by (apply Z.pow_pos_nonneg; nia). lia. }
        lia. }
    destruct (Z.eq_dec (exp / 2) 0) as [Hq0 | Hqn].
    + (* the last round: the square is computed and not used *)
      rewrite Hq0 in *. rewrite Z.pow_0_r in *.
      destruct rounds as [| rounds']; cbn [ipow_loop];
        [| change (0 <? 0) with false; cbv iota]; rewrite Hres'; lia.
    + assert (Hbb : 0 <= base * base < 2 ^ 31).
      { split; [nia |].
        assert (base * base <= (base * base) ^ (exp / 2)).
        { rewrite <- (Z.pow_1_r (base * base)) at 1.
          apply pow_le_pow; [nia | lia]. }
        assert (1 <= base ^ (exp mod 2) \/ base = 0) as [H1 | ->]; [| nia | lia].
        destruct (Z.eq_dec base 0) as [Hbz | Hbn]; [right; exact Hbz | left].
        assert (0 < base ^ (exp mod 2)) by (apply Z.pow_pos_nonneg; lia). lia. }
      rewrite (to_int_small (base * base)) by lia.
      rewrite (IH result' (base * base) (exp / 2)).
      * rewrite Hres'. lia.
      * lia.
      * right. split; [lia |].
        destruct (Z.eq_dec base 0) as [-> | Hbn];
          [rewrite Z.pow_0_l by lia; lia |].
        assert (0 < base ^ (exp mod 2)) by (apply Z.pow_pos_nonneg; lia). nia.
      * rewrite Hres'. apply Z.mul_nonneg_nonneg; [lia |].
        apply Z.pow_nonneg; lia.
      * rewrite Hres'. lia.
Qed.

(** The loop of [ipow] with the conversions of its arguments. *)
Lemma ipow_is_power (base exp : Z) :
  0 <= base -> 0 <= exp < 2 ^ 31 -> base ^ exp < 2 ^ 31 ->
  ipow base exp = base ^ exp.
Proof.
  intros Hbase Hexp Hpow.
  assert (Hb : base < 2 ^ 31 \/ exp = 0).
  { destruct (Z.eq_dec exp 0) as [-> | Hne]; [right; reflexivity | left].
    assert (base <= base ^ exp).
    { rewrite <- (Z.pow_1_r base) at 1. apply pow_le_pow; lia. }
    lia. }
  unfold ipow. destruct Hb as [Hb | ->].
  - rewrite (to_int_small base), (to_int_small exp) by lia.
    rewrite ipow_loop_spec; [lia | cbn; lia | right; split; lia | lia | lia].
  - rewrite Z.pow_0_r. reflexivity.
Qed.

(** X1: [ipow(base, exp)] is the power [base^exp] for a base and an
    exponent that are not negative, as long as the power fits an [int]. *)
Theorem ipow_power (base exp : Z) :
  0 <= base -> 0 <= exp < 2 ^ 31 -> base ^ exp < 2 ^ 31 ->
  ipow base exp = base ^ exp.
Proof. exact (ipow_is_power base exp). Qed.

Lemma ipow_power_witness : ipow 8 3 = 8 ^ 3.
Proof. apply ipow_power; [lia | lia | reflexivity]. Defined.


(** X2: where the power [b^level] fits an [int] and [k * b^level] fits a
    [size_type], [maxweight(level)] is [k * b^level] and [minweight(level)]
    is a quarter of it, rounded down; so a node may hold at least four
    times its minimum weight. *)
Theorem weight_bounds_closed_form `{btree_traits} (level : Z) :
  0 <= branchingparameter_b -> 0 <= leafparameter_k ->
  0 <= level < 2 ^ 31 ->
  branchingparameter_b ^ level < 2 ^ 31 ->
  leafparameter_k * branchingparameter_b ^ level < 2 ^ 64 ->
  maxweight level = leafparameter_k * branchingparameter_b ^ level
  /\ minweight level = leafparameter_k * branchingparameter_b ^ level / 4
  /\ 4 * minweight level <= maxweight level.
Proof.
  intros Hb Hk Hlevel Hpow Hfits.
  assert (Hnn : 0 <= branchingparameter_b ^ level) by (apply Z.pow_nonneg; lia).
  unfold maxweight, minweight.
  rewrite (ipow_is_power branchingparameter_b level Hb Hlevel Hpow).
  rewrite to_size_type_small by nia.
  rewrite (Z.mul_comm (branchingparameter_b ^ level)).
  split; [reflexivity |]. split; [reflexivity |].
  pose proof (Z.mul_div_le (leafparameter_k * branchingparameter_b ^ level) 4
                ltac:(lia)). lia.
Qed.

Lemma weight_bounds_closed_form_witness :
  @maxweight traits_8_8 2 = 8 * 8 ^ 2
  /\ @minweight traits_8_8 2 = 8 * 8 ^ 2 / 4
  /\ 4 * @minweight traits_8_8 2 <= @maxweight traits_8_8 2.
Proof.
  apply (@weight_bounds_closed_form traits_8_8 2);
    vm_compute; first [reflexivity | discriminate | split; congruence].
Defined.


(** ** The binary search of the sequential tree *)

(** Keys in strictly ascending order are in ascending order. *)
Lemma sorted_is_ascending {key_type : Type} `{StrictTotalOrder key_type}
    (keys : list key_type) :
  StronglySorted key_lt keys -> ascending keys.
Proof.
  induction 1 as [| k keys Hsorted IH Hall]; intros i j ki kj Hij Hi Hj.
  - rewrite lookup_nil in Hi. discriminate.
  - rewrite Forall_forall in Hall.
    destruct i as [| i], j as [| j]; cbn in Hi, Hj; try lia.
    + injection Hi as <-. injection Hj as <-. apply key_less_irrefl.
    + injection Hi as <-. apply key_less_asym.
      apply Hall. eapply list_elem_of_lookup_2. exact Hj.
    + apply (IH i j ki kj); [lia | exact Hi | exact Hj].
Qed.

Section FindLowerPartition.
Context {key_type : Type} `{StrictTotalOrder key_type}.
Variable us : list (Operation key_type).
Variable key : key_type.
Hypothesis us_ascending : ascending (map data us).

Lemma above_key_upwards (i j : nat) ki kj :
  (i <= j)%nat ->
  map data us !! i = Some ki -> map data us !! j = Some kj ->
  key_less key ki = true -> key_less key kj = true.
Proof.
  intros Hij Hi Hj Hlt.
  pose proof (us_ascending i j ki kj Hij Hi Hj) as Hle.
  destruct (key_less key kj) eqn:Hkj; [reflexivity |].
  destruct (key_less kj key) eqn:Hjk.
  - rewrite (key_less_trans kj key ki Hjk Hlt) in Hle. discriminate.
  - rewrite (key_less_total key kj Hkj Hjk) in Hlt.
    rewrite Hlt in Hle. discriminate.
Qed.

Lemma find_lower_loop_S (rounds : nat) (lo hi : Z) :
  find_lower_loop (array_get_Z UpdateIndexOutOfRange us) (S rounds) lo hi key
  = if lo <? hi then
      op ← array_get_Z UpdateIndexOutOfRange us (find_lower_mid lo hi);
      if key_less key (data op)
      then find_lower_loop (array_get_Z UpdateIndexOutOfRange us) rounds
             lo (find_lower_mid lo hi) key
      else find_lower_loop (array_get_Z UpdateIndexOutOfRange us) rounds
             (to_int (find_lower_mid lo hi + 1)) hi key
    else Ok hi.
Proof. reflexivity. Qed.

Lemma find_lower_loop_spec (lo0 hi0 : Z) (rounds : nat) : forall lo hi,
  0 <= lo0 -> hi0 <= Z.of_nat (length us) -> hi0 < 2 ^ 30 ->
  lo0 <= lo <= hi -> hi <= hi0 ->
  hi - lo < 2 ^ Z.of_nat rounds ->
  (forall (i : Z) k, lo0 <= i < lo -> map data us !! Z.to_nat i = Some k ->
     key_less key k = false) ->
  (forall (i : Z) k, hi <= i < hi0 -> map data us !! Z.to_nat i = Some k ->
     key_less key k = true) ->
  exists r,
    find_lower_loop (array_get_Z UpdateIndexOutOfRange us) (S rounds) lo hi key
    = Ok r
    /\ partitioned (map data us) key lo0 r hi0.
Proof.
  induction rounds as [| rounds IH];
    intros lo hi Hlo0 Hhi0 Hsmall Hlo Hhi Hfuel Hbelow Habove.
  - cbn in Hfuel. assert (lo = hi) as -> by lia.
    exists hi. rewrite find_lower_loop_S, Z.ltb_irrefl.
    split; [reflexivity |]. split; [lia |]. split; assumption.
  - rewrite find_lower_loop_S.
    destruct (Z.ltb_spec lo hi) as [Hlt | Hge].
    2: { assert (lo = hi) as -> by lia. exists hi.
         split; [reflexivity |]. split; [lia |]. split; assumption. }
    destruct (find_lower_mid_in_range lo hi ltac:(lia) Hlt ltac:(lia))
      as [Hmid Hin].
    set (mid := find_lower_mid lo hi) in *.
    assert (Hhalf : 2 * mid <= lo + hi <= 2 * mid + 1).
    { pose proof (Z.div_mod (lo + hi) 2 ltac:(lia)).
      pose proof (Z.mod_pos_bound (lo + hi) 2 ltac:(lia)). lia. }
    assert (Hnat : (Z.to_nat mid < length us)%nat) by lia.
    destruct (lookup_lt_is_Some_2 us (Z.to_nat mid) Hnat) as [op Hop].
    assert (Hget : array_get_Z UpdateIndexOutOfRange us mid = Ok op).
    { unfold array_get_Z, array_get.
      destruct (Z.ltb_spec mid 0); [lia |]. rewrite Hop. reflexivity. }
    rewrite Hget. cbn [mbind result_mbind result_bind].
    assert (Hdata : map data us !! Z.to_nat mid = Some (data op))
      by (rewrite list_lookup_fmap, Hop; reflexivity).
    rewrite Nat2Z.inj_succ, Z.pow_succ_r in Hfuel by lia.
    destruct (key_less key (data op)) eqn:Hcmp.
    + apply IH; try assumption; try lia.
      intros i k Hi Hk.
      destruct (Z.lt_ge_cases i hi) as [Hin' | Hout]; [| apply (Habove i k); [lia | exact Hk]].
      apply (above_key_upwards (Z.to_nat mid) (Z.to_nat i) (data op) k);
        [lia | exact Hdata | exact Hk | exact Hcmp].
    + rewrite (to_int_small (mid + 1)) by lia.
      apply IH; try assumption; try lia.
      intros i k Hi Hk.
      destruct (Z.lt_ge_cases i lo) as [Hin' | Hout]; [apply (Hbelow i k); [lia | exact Hk] |].
      destruct (key_less key k) eqn:Hik; [| reflexivity].
      rewrite (above_key_upwards (Z.to_nat i) (Z.to_nat mid) k (data op)
                 ltac:(lia) Hk Hdata Hik) in Hcmp. discriminate.
Qed.

(** X3: on a batch in ascending key order, [find_lower(lo, hi, key)] of the
    sequential tree returns the position in [lo .. hi] at which the range
    splits: the operations before it have keys not above [key], those from
    it on have keys above [key].  (For ranges below [2^30], where [lo + hi]
    fits an [int].) *)
Theorem find_lower_partition (lo hi : Z) :
  0 <= lo <= hi -> hi <= Z.of_nat (length us) -> hi < 2 ^ 30 ->
  exists r,
    find_lower (array_get_Z UpdateIndexOutOfRange us) lo hi key = Ok r
    /\ partitioned (map data us) key lo r hi.
Proof.
  intros Hlo Hhi Hsmall. unfold find_lower.
  rewrite (to_int_small lo), (to_int_small hi) by lia.
  apply (find_lower_loop_spec lo hi 63 lo hi); lia.
Qed.
End FindLowerPartition.

Lemma find_lower_partition_witness :
  exists r,
    find_lower (array_get_Z UpdateIndexOutOfRange ten_inserts) 0 10
      (entry 5 5 95) = Ok r
    /\ partitioned (map data ten_inserts) (entry 5 5 95) 0 r 10.
Proof.
  apply (find_lower_partition ten_inserts (entry 5 5 95)).
  - apply sorted_is_ascending. vm_compute. repeat constructor.
  - lia.
  - vm_compute. discriminate.
  - lia.
Defined.


(** ** The binary searches of the parallel tree *)

Lemma to_int_to_size_type (x : Z) :
  - 2 ^ 31 <= x < 2 ^ 31 -> to_int (to_size_type x) = x.
Proof.
  intros Hx. unfold to_int, to_size_type, wrap_signed, wrap_unsigned.
  change (2 ^ (32 - 1)) with (2 ^ 31).
  pose proof (Z.div_mod x (2 ^ 64) ltac:(lia)) as Hdm.
  replace (x mod 2 ^ 64 + 2 ^ 31)
    with (x + 2 ^ 31 + (- (x / 2 ^ 64) * 2 ^ 32) * 2 ^ 32) by lia.
  rewrite Z_mod_plus_full. rewrite Z.mod_small by lia. lia.
Qed.

Section ParallelSearch.
Context {key_type : Type} `{StrictTotalOrder key_type}.
Variable keys : list key_type.
Variable key_at : Z -> result key_type.
Variable key : key_type.
Hypothesis key_at_keys :
  forall (i : Z) k, 0 <= i -> keys !! Z.to_nat i = Some k -> key_at i = Ok k.
Hypothesis keys_ascending : ascending keys.

Lemma above_upwards (i j : nat) ki kj :
  (i <= j)%nat -> keys !! i = Some ki -> keys !! j = Some kj ->
  key_less key ki = true -> key_less key kj = true.
Proof.
  intros Hij Hi Hj Hlt.
  pose proof (keys_ascending i j ki kj Hij Hi Hj) as Hle.
  destruct (key_less key kj) eqn:Hkj; [reflexivity |].
  destruct (key_less kj key) eqn:Hjk.
  - rewrite (key_less_trans kj key ki Hjk Hlt) in Hle. discriminate.
  - rewrite (key_less_total key kj Hkj Hjk) in Hlt.
    rewrite Hlt in Hle. discriminate.
Qed.

Lemma search_loop_S (rounds : nat) (lo hi : Z) :
  ParallelTree.search_loop key_at (S rounds) lo hi key
  = if lo <? hi then
      k ← key_at (ParallelTree.search_mid lo hi);
      if key_less key k
      then ParallelTree.search_loop key_at rounds lo
             (to_int (to_size_type (ParallelTree.search_mid lo hi - 1))) key
      else ParallelTree.search_loop key_at rounds
             (to_int (to_size_type (ParallelTree.search_mid lo hi + 1))) hi key
    else Ok hi.
Proof. reflexivity. Qed.

Lemma search_mid_in_range (lo hi : Z) :
  0 <= lo -> lo < hi -> hi < 2 ^ 30 ->
  lo <= ParallelTree.search_mid lo hi < hi
  /\ 2 * ParallelTree.search_mid lo hi <= lo + hi
     <= 2 * ParallelTree.search_mid lo hi + 1.
Proof.
  intros Hlo Hlt Hhi. unfold ParallelTree.search_mid.
  rewrite to_int_small by lia. rewrite Z.shiftr_div_pow2 by lia.
  change (2 ^ 1) with 2.
  pose proof (Z.div_mod (lo + hi) 2 ltac:(lia)).
  pose proof (Z.mod_pos_bound (lo + hi) 2 ltac:(lia)).
  rewrite to_size_type_small by lia. lia.
Qed.

(** The state in which the loop stops: [lo] has met [hi] or passed it by
    one. *)
Lemma search_loop_spec (begin end_ : Z) (rounds : nat) : forall lo hi,
  0 <= begin -> end_ <= Z.of_nat (length keys) -> end_ < 2 ^ 30 ->
  begin <= lo -> hi < end_ -> lo <= hi + 1 ->
  hi - lo + 1 < 2 ^ Z.of_nat rounds ->
  (forall (i : Z) k, begin <= i < lo -> keys !! Z.to_nat i = Some k ->
     key_less key k = false) ->
  (forall (i : Z) k, hi < i < end_ -> keys !! Z.to_nat i = Some k ->
     key_less key k = true) ->
  exists hi' lo',
    ParallelTree.search_loop key_at (S rounds) lo hi key = Ok hi'
    /\ begin <= lo' /\ hi' < end_ /\ (lo' = hi' \/ lo' = hi' + 1)
    /\ (forall (i : Z) k, begin <= i < lo' -> keys !! Z.to_nat i = Some k ->
          key_less key k = false)
    /\ (forall (i : Z) k, hi' < i < end_ -> keys !! Z.to_nat i = Some k ->
          key_less key k = true).
Proof.
  induction rounds as [| rounds IH];
    intros lo hi Hb He Hsmall Hlo Hhi Hmeet Hfuel Hbelow Habove;
    rewrite search_loop_S.
  - cbn in Hfuel. destruct (Z.ltb_spec lo hi); [lia |].
    exists hi, lo. repeat split; try assumption; lia.
  - destruct (Z.ltb_spec lo hi) as [Hlt | Hge].
    2: { exists hi, lo. repeat split; try assumption; lia. }
    destruct (search_mid_in_range lo hi ltac:(lia) Hlt ltac:(lia))
      as [Hin Hhalf].
    set (mid := ParallelTree.search_mid lo hi) in *.
    assert (Hnat : (Z.to_nat mid < length keys)%nat) by lia.
    destruct (lookup_lt_is_Some_2 keys (Z.to_nat mid) Hnat) as [k Hk].
    rewrite (key_at_keys mid k ltac:(lia) Hk).
    cbn [mbind result_mbind result_bind].
    rewrite Nat2Z.inj_succ, Z.pow_succ_r in Hfuel by lia.
    rewrite !to_int_to_size_type by lia.
    destruct (key_less key k) eqn:Hcmp.
    + apply IH; try assumption; try lia.
      intros i k' Hi Hk'.
      destruct (Z.lt_ge_cases hi i) as [Hout | Hin'];
        [apply (Habove i k'); [lia | exact Hk'] |].
      apply (above_upwards (Z.to_nat mid) (Z.to_nat i) k k');
        [lia | exact Hk | exact Hk' | exact Hcmp].
    + apply IH; try assumption; try lia.
      intros i k' Hi Hk'.
      destruct (Z.lt_ge_cases i lo) as [Hin' | Hout];
        [apply (Hbelow i k'); [lia | exact Hk'] |].
      destruct (key_less key k') eqn:Hik; [| reflexivity].
      rewrite (above_upwards (Z.to_nat i) (Z.to_nat mid) k' k
                 ltac:(lia) Hk' Hk Hik) in Hcmp. discriminate.
Qed.

Lemma search_spec (begin end_ : Z) :
  0 <= begin <= end_ -> end_ <= Z.of_nat (length keys) -> end_ < 2 ^ 30 ->
  (begin = 0
   \/ exists k, keys !! Z.to_nat (begin - 1) = Some k /\ key_less key k = false) ->
  exists r,
    ParallelTree.search key_at begin (end_ - 1) key = Ok r
    /\ partitioned keys key begin r end_.
Proof.
  intros Hb He Hsmall Hbefore. unfold ParallelTree.search.
  destruct (search_loop_spec begin end_ 63 begin (end_ - 1))
    as (hi' & lo' & Hrun & Hlo' & Hhi' & Hmeet & Hbelow & Habove);
    try lia.
  rewrite Hrun. cbn [mbind result_mbind result_bind].
  unfold ParallelTree.search_end.
  destruct (Z.ltb_spec hi' 0) as [Hneg | Hnn].
  - (* nothing before [lo'], and [lo'] is 0 *)
    assert (hi' = -1 /\ lo' = 0 /\ begin = 0) as (-> & -> & ->) by lia.
    exists 0. split; [reflexivity |].
    split; [lia |]. split; [intros; lia |].
    intros i k Hi Hk. apply (Habove i k); [lia | exact Hk].
  - assert (Hnat : (Z.to_nat hi' < length keys)%nat) by lia.
    destruct (lookup_lt_is_Some_2 keys (Z.to_nat hi') Hnat) as [k Hk].
    rewrite (key_at_keys hi' k Hnn Hk). cbn [mbind result_mbind result_bind].
    unfold key_lessequal.
    destruct Hmeet as [-> | ->].
    + (* [lo] met [hi]: the key at [hi] decides *)
      destruct (key_less key k) eqn:Hcmp; cbn [negb b2z];
        rewrite to_int_small by lia; eexists; (split; [reflexivity |]).
      * rewrite Z.add_0_r. split; [lia |]. split; [exact Hbelow |].
        intros i k' Hi Hk'.
        destruct (Z.eq_dec i hi') as [-> | Hne];
          [rewrite Hk in Hk'; injection Hk' as <-; exact Hcmp |].
        apply (Habove i k'); [lia | exact Hk'].
      * split; [lia |]. split; [| intros i k' Hi Hk'; apply (Habove i k'); [lia | exact Hk']].
        intros i k' Hi Hk'.
        destruct (Z.eq_dec i hi') as [-> | Hne];
          [rewrite Hk in Hk'; injection Hk' as <-; exact Hcmp |].
        apply (Hbelow i k'); [lia | exact Hk'].
    + (* [lo] passed [hi]: the key at [hi] is not above [key] *)
      assert (Hle : key_less key k = false).
      { destruct (Z.eq_dec (hi' + 1) begin) as [Hfirst | Hlater].
        - destruct Hbefore as [-> | (k' & Hk' & Hcmp)]; [lia |].
          replace (begin - 1) with hi' in Hk' by lia.
          rewrite Hk in Hk'. injection Hk' as <-. exact Hcmp.
        - apply (Hbelow hi' k); [lia | exact Hk]. }
      rewrite Hle. cbn [negb b2z]. rewrite to_int_small by lia.
      exists (hi' + 1). split; [reflexivity |].
      split; [lia |]. split; [exact Hbelow |].
      intros i k' Hi Hk'. apply (Habove i k'); [lia | exact Hk'].
Qed.

(** On an empty range the search reads the key before the range: where
    that key is above [key], the result is the position before the
    range. *)
Lemma search_empty_range (begin : Z) k :
  0 < begin < 2 ^ 30 ->
  keys !! Z.to_nat (begin - 1) = Some k -> key_less key k = true ->
  ParallelTree.search key_at begin (begin - 1) key = Ok (begin - 1).
Proof.
  intros Hb Hk Hcmp. unfold ParallelTree.search.
  rewrite (search_loop_S 63).
  destruct (Z.ltb_spec begin (begin - 1)); [lia |].
  cbn [mbind result_mbind result_bind]. unfold ParallelTree.search_end.
  destruct (Z.ltb_spec (begin - 1) 0); [lia |].
  rewrite (key_at_keys (begin - 1) k ltac:(lia) Hk).
  cbn [mbind result_mbind result_bind]. unfold key_lessequal.
  rewrite Hcmp. cbn [negb b2z]. rewrite to_int_small by lia.
  f_equal. lia.
Qed.
End ParallelSearch.


Lemma update_key_at_keys {key_type : Type} (us : list (Operation key_type))
    (i : Z) k :
  0 <= i -> map data us !! Z.to_nat i = Some k ->
  ParallelTree.update_key_at us i = Ok k.
Proof.
  intros Hi Hk. unfold ParallelTree.update_key_at, array_get_Z, array_get.
  destruct (Z.ltb_spec i 0); [lia |].
  rewrite list_lookup_fmap in Hk.
  destruct (us !! Z.to_nat i) as [op |]; [| discriminate].
  injection Hk as <-. reflexivity.
Qed.

(** X4: on a batch in ascending key order, [find_lower(begin, end, key)] of
    the parallel tree, for a range within the batch that ends below [2^30],
    returns the position in [begin .. end] at which the range splits (keys
    not above [key] before it, keys above [key] from it on), provided the
    range starts the batch or the operation before the range has a key that
    is not above [key]. *)
Theorem parallel_find_lower_partition {key_type : Type}
    `{StrictTotalOrder key_type} (us : list (Operation key_type))
    (key : key_type) (begin end_ : Z) :
  ascending (map data us) ->
  0 <= begin <= end_ -> end_ <= Z.of_nat (length us) -> end_ < 2 ^ 30 ->
  (begin = 0
   \/ exists k, map data us !! Z.to_nat (begin - 1) = Some k
                /\ key_less key k = false) ->
  exists r,
    ParallelTree.find_lower us begin end_ key = Ok r
    /\ partitioned (map data us) key begin r end_.
Proof.
  intros Hasc Hb He Hsmall Hbefore. unfold ParallelTree.find_lower.
  rewrite (to_int_small begin), (to_int_to_size_type (end_ - 1)) by lia.
  apply (search_spec (map data us) (ParallelTree.update_key_at us) key).
  - apply update_key_at_keys.
  - exact Hasc.
  - exact Hb.
  - rewrite length_map. exact He.
  - exact Hsmall.
  - exact Hbefore.
Qed.

Lemma parallel_find_lower_partition_witness :
  exists r,
    ParallelTree.find_lower ten_inserts 3 8 (entry 5 5 95) = Ok r
    /\ partitioned (map data ten_inserts) (entry 5 5 95) 3 r 8.
Proof.
  apply (parallel_find_lower_partition ten_inserts (entry 5 5 95) 3 8).
  - apply sorted_is_ascending. vm_compute. repeat constructor.
  - lia.
  - vm_compute. discriminate.
  - lia.
  - right. exists (entry 3 3 97). split; reflexivity.
Defined.

(** X5: on an empty range [begin .. begin) with [0 < begin < 2^30],
    [find_lower] of the parallel tree reads the operation before the range;
    where the key of that operation is above [key], it returns the position
    before the range, which is outside [begin .. end]. *)
Theorem parallel_find_lower_empty_range {key_type : Type} `{Compare key_type}
    (us : list (Operation key_type)) (key : key_type) (begin : Z) k :
  0 < begin < 2 ^ 30 ->
  map data us !! Z.to_nat (begin - 1) = Some k -> key_less key k = true ->
  ParallelTree.find_lower us begin begin key = Ok (begin - 1).
Proof.
  intros Hb Hk Hcmp. unfold ParallelTree.find_lower.
  rewrite (to_int_small begin), (to_int_to_size_type (begin - 1)) by lia.
  apply (search_empty_range (map data us) (ParallelTree.update_key_at us) key
           (update_key_at_keys us) begin k Hb Hk Hcmp).
Qed.

Lemma parallel_find_lower_empty_range_witness :
  ParallelTree.find_lower ten_inserts 5 5 (entry 2 2 98) = Ok (5 - 1).
Proof.
  apply (parallel_find_lower_empty_range ten_inserts (entry 2 2 98) 5
           (entry 5 5 95)).
  - lia.
  - reflexivity.
  - reflexivity.
Defined.

(** X6: on a leaf whose keys are in ascending order,
    [find_index_of_lower_key(leaf, key)] returns the number of keys of the
    leaf that are not above [key]: the keys before the returned index are
    not above [key], the keys from it on are.  For an empty leaf it
    returns 0. *)
Theorem find_index_of_lower_key_partition {key_type : Type}
    `{StrictTotalOrder key_type} (leaf : leaf_node key_type) (key : key_type) :
  ascending (leaf_keys leaf) ->
  (leaf_slotuse leaf <= length (leaf_slotkey leaf))%nat ->
  Z.of_nat (leaf_slotuse leaf) < 2 ^ 16 ->
  exists r,
    ParallelTree.find_index_of_lower_key leaf key = Ok r
    /\ partitioned (leaf_keys leaf) key 0 r (Z.of_nat (leaf_slotuse leaf)).
Proof.
  intros Hasc Hfits Hsmall. unfold ParallelTree.find_index_of_lower_key.
  rewrite to_int_small by lia.
  apply (search_spec (leaf_keys leaf)
           (array_get_Z KeyIndexOutOfRange (leaf_slotkey leaf)) key).
  - intros i k Hi Hk. unfold array_get_Z, array_get.
    destruct (Z.ltb_spec i 0); [lia |].
    unfold leaf_keys in Hk. apply lookup_take_Some in Hk as [Hk _].
    rewrite Hk. reflexivity.
  - exact Hasc.
  - lia.
  - unfold leaf_keys. rewrite length_take. lia.
  - lia.
  - left. reflexivity.
Qed.

Lemma find_index_of_lower_key_partition_witness :
  exists r,
    ParallelTree.find_index_of_lower_key patch_leaf (entry 2 2 8) = Ok r
    /\ partitioned (leaf_keys patch_leaf) (entry 2 2 8) 0 r
         (Z.of_nat (leaf_slotuse patch_leaf)).
Proof.
  apply (find_index_of_lower_key_partition patch_leaf (entry 2 2 8)).
  - apply sorted_is_ascending. vm_compute. repeat constructor.
  - vm_compute. lia.
  - vm_compute. reflexivity.
Defined.


(** ** How a key range is cut into subtrees *)

(** The count of [num_subtrees] and the keys left for the last subtree. *)
Lemma num_subtrees_cover (n s : Z) :
  0 < n < 2 ^ 63 -> 0 < s < 2 ^ 63 ->
  let c := num_subtrees n s in
  let last := n - (c - 1) * s in
  1 <= c
  /\ 0 < last
  /\ (s <= 2 * n ->
      s <= 2 * last < 3 * s /\ Parallel.num_subtrees n s = c)
  /\ (2 * n < s -> c = 1 /\ last = n).
Proof.
  intros Hn Hs. cbv zeta.
  rewrite num_subtrees_unfold, parallel_num_subtrees_unfold by lia. cbv zeta.
  pose proof (Z.div_mod n s ltac:(lia)) as Hdm.
  pose proof (Z.mod_pos_bound n s ltac:(lia)) as Hmod.
  assert (Hq : 0 <= n / s) by (apply Z.div_pos; lia).
  set (q := n / s) in *. set (r := n mod s) in *.
  destruct (Z.ltb_spec 0 n); [| lia].
  destruct (Z.leb_spec (s - r) r) as [Hup | Hdown]; cbn [b2z].
  - destruct (Z.eqb_spec (q + 1) 0); [lia |]. cbn [andb b2z].
    repeat split; try nia.
  - destruct (Z.eqb_spec (q + 0) 0) as [Hz | Hnz]; cbn [andb b2z].
    + assert (q = 0) by lia. repeat split; try nia.
    + repeat split; try nia.
Qed.

(** X7: [num_subtrees(n, s)] subtrees, all of [s] keys but the last one,
    which takes the rest, hold [n > 0] keys so that the last subtree is
    not empty; where [n] is at least half of [s], the last subtree holds at
    least half of [s] and less than one and a half times [s] keys, and the
    parallel tree's [num_subtrees] gives the same count; where [n] is less
    than half of [s], the sequential tree makes one subtree of the [n]
    keys. *)
Theorem num_subtrees_split (n s : Z) :
  0 < n < 2 ^ 63 -> 0 < s < 2 ^ 63 ->
  let c := num_subtrees n s in
  let last := n - (c - 1) * s in
  1 <= c
  /\ 0 < last
  /\ (s <= 2 * n ->
      s <= 2 * last < 3 * s /\ Parallel.num_subtrees n s = c)
  /\ (2 * n < s -> c = 1 /\ last = n).
Proof. exact (num_subtrees_cover n s). Qed.

Lemma num_subtrees_split_witness :
  let c := num_subtrees 13 5 in
  let last := 13 - (c - 1) * 5 in
  1 <= c
  /\ 0 < last
  /\ (5 <= 2 * 13 ->
      5 <= 2 * last < 3 * 5 /\ Parallel.num_subtrees 13 5 = c)
  /\ (2 * 13 < 5 -> c = 1 /\ last = 13).
Proof. apply (num_subtrees_split 13 5); lia. Defined.


(** ** Leaves of the designated size *)
Section DesignatedLeaves.
Context `{traits : btree_traits} `{flags : build_flags} `{lm : libm}.
Hypothesis k_range : 2 <= leafparameter_k < 2 ^ 16.

Lemma leaf_constants :
  leafslotmax = leafparameter_k
  /\ leafslotmin = leafparameter_k / 4
  /\ designated_leafsize = (leafparameter_k + leafparameter_k / 4) / 2.
Proof.
  assert (Hq : 0 <= leafparameter_k / 4 <= leafparameter_k).
  { split; [apply Z.div_pos; lia |]. apply Z.div_le_upper_bound; lia. }
  assert (Hmax : leafslotmax = leafparameter_k)
    by (apply to_width_type_small; lia).
  assert (Hmin : leafslotmin = leafparameter_k / 4)
    by (apply to_width_type_small; lia).
  split; [exact Hmax |]. split; [exact Hmin |].
  unfold designated_leafsize. rewrite Hmax, Hmin.
  apply to_width_type_small.
  split; [apply Z.div_pos; lia |]. apply Z.div_lt_upper_bound; lia.
Qed.

Lemma designated_leafsize_bounds :
  1 <= designated_leafsize
  /\ 2 * leafslotmin <= designated_leafsize + 1
  /\ 3 * designated_leafsize <= 2 * leafslotmax
  /\ leafslotmin <= designated_leafsize <= leafslotmax.
Proof.
  destruct leaf_constants as (-> & -> & ->).
  pose proof (Z.div_mod leafparameter_k 4 ltac:(lia)).
  pose proof (Z.mod_pos_bound leafparameter_k 4 ltac:(lia)).
  pose proof (Z.div_mod (leafparameter_k + leafparameter_k / 4) 2 ltac:(lia)).
  pose proof (Z.mod_pos_bound (leafparameter_k + leafparameter_k / 4) 2 ltac:(lia)).
  lia.
Qed.

(** X8: for a leaf parameter [k] from 2 on (and below [2^16]), the
    designated size of the subtrees of a node on level 1 is the designated
    leaf size, in the sequential tree and in the parallel tree. *)
Theorem designated_subtreesize_of_leaves :
  designated_subtreesize 1 = designated_leafsize
  /\ Parallel.designated_subtreesize 1 = designated_leafsize.
Proof.
  destruct designated_leafsize_bounds as (Hd & _).
  destruct leaf_constants as (_ & _ & Hdl).
  assert (Hq : 0 <= leafparameter_k / 4 <= leafparameter_k).
  { split; [apply Z.div_pos; lia |]. apply Z.div_le_upper_bound; lia. }
  assert (Hmax : maxweight 0 = leafparameter_k).
  { unfold maxweight. change (ipow branchingparameter_b 0) with 1.
    rewrite Z.mul_1_l. apply to_size_type_small. lia. }
  assert (Hmin : minweight 0 = leafparameter_k / 4).
  { unfold minweight. change (ipow branchingparameter_b 0) with 1.
    rewrite Z.mul_1_l, to_size_type_small by lia. reflexivity. }
  assert (Hmid : to_size_type (maxweight 0 + minweight 0) / 2 = designated_leafsize).
  { rewrite Hmax, Hmin, to_size_type_small by lia. symmetry. exact Hdl. }
  split.
  - unfold designated_subtreesize. cbv zeta.
    change (to_level_type (1 - 1)) with 0. rewrite Hmid.
    rewrite Z.mod_same by lia. reflexivity.
  - unfold Parallel.designated_subtreesize.
    change (to_level_type (1 - 1)) with 0. exact Hmid.
Qed.
End DesignatedLeaves.

Lemma designated_subtreesize_of_leaves_witness :
  @designated_subtreesize traits_10_8 1 = @designated_leafsize traits_10_8
  /\ @Parallel.designated_subtreesize traits_10_8 1
     = @designated_leafsize traits_10_8.
Proof.
  apply (@designated_subtreesize_of_leaves traits_10_8).
  vm_compute. split; congruence.
Defined.


Lemma slotuse_sum_cons {A} (l : leaf_node A) (ls : list (leaf_node A)) :
  slotuse_sum (l :: ls) = Z.of_nat (leaf_slotuse l) + slotuse_sum ls.
Proof. reflexivity. Qed.

Lemma slotuse_sum_app {A} (ls1 ls2 : list (leaf_node A)) :
  slotuse_sum (ls1 ++ ls2) = slotuse_sum ls1 + slotuse_sum ls2.
Proof.
  induction ls1 as [| l ls1 IH]; [reflexivity |].
  rewrite <- app_comm_cons, !slotuse_sum_cons, IH. lia.
Qed.

Lemma slotuse_sum_replicate {A} (m : nat) (l : leaf_node A) :
  slotuse_sum (replicate m l) = Z.of_nat m * Z.of_nat (leaf_slotuse l).
Proof.
  induction m as [| m IH]; [reflexivity |].
  cbn [replicate]. rewrite slotuse_sum_cons, IH. lia.
Qed.

Section FreshLeaves.
Context `{traits : btree_traits} `{flags : build_flags} `{lm : libm}.
Hypothesis k_range : 2 <= leafparameter_k < 2 ^ 16.

(** The leaf list that [allocate_new_leaves] returns: leaves of the
    designated size and the last leaf. *)
Lemma allocate_new_leaves_list (n : Z) (st : tree_stats) :
  0 < n < 2 ^ 62 -> designated_leafsize <= 2 * n ->
  let c := Parallel.num_subtrees n designated_leafsize in
  let last := n - (c - 1) * designated_leafsize in
  1 <= c
  /\ designated_leafsize <= 2 * last < 3 * designated_leafsize
  /\ fst (TreeRootCreationTask.allocate_new_leaves n st)
     = replicate (Z.to_nat (c - 1))
         (mk_leaf_node (Z.to_nat designated_leafsize) (leaf_slotkey fresh_leaf))
       ++ [mk_leaf_node (Z.to_nat last) (leaf_slotkey fresh_leaf)].
Proof.
  intros Hn Hhalf. cbv zeta.
  destruct (designated_leafsize_bounds k_range) as (Hd & Hlow & Hhigh & Hin).
  destruct (leaf_constants k_range) as (Hmax & _ & _).
  assert (Hn' : 0 < n < 2 ^ 63) by lia.
  assert (Hd' : 0 < designated_leafsize < 2 ^ 63) by lia.
  destruct (num_subtrees_cover n designated_leafsize Hn' Hd')
    as (Hc & Hlast & Hbal & _).
  destruct (Hbal Hhalf) as [Hrange Hpar]. rewrite Hpar.
  set (c := num_subtrees n designated_leafsize) in *.
  assert (Hcn : c <= n + 1) by nia.
  split; [exact Hc |]. split; [exact Hrange |].
  unfold TreeRootCreationTask.allocate_new_leaves. cbv zeta. rewrite Hpar.
  fold c. cbn [fst].
  rewrite (to_size_type_small (c - 1)) by lia.
  replace (Z.to_nat c) with (S (Z.to_nat (c - 1))) by lia.
  rewrite seq_S, map_app. cbn [map Nat.add]. f_equal.
  - assert (Hall : forall m start, (start + m <= Z.to_nat (c - 1))%nat ->
        map (fun i : nat =>
               mk_leaf_node
                 (Z.to_nat
                    (if Z.of_nat i =? c - 1
                     then to_width_type
                            (to_size_type (n - (c - 1) * designated_leafsize))
                     else designated_leafsize))
                 (leaf_slotkey fresh_leaf)) (seq start m)
        = replicate m (mk_leaf_node (Z.to_nat designated_leafsize)
                                    (leaf_slotkey fresh_leaf))).
    { induction m as [| m IHm]; intros start Hm; [reflexivity |].
      cbn [seq map replicate].
      destruct (Z.eqb_spec (Z.of_nat start) (c - 1)); [lia |].
      f_equal. apply IHm. lia. }
    apply Hall. lia.
  - destruct (Z.eqb_spec (Z.of_nat (Z.to_nat (c - 1))) (c - 1)); [| lia].
    rewrite to_size_type_small by lia.
    rewrite to_width_type_small by lia. reflexivity.
Qed.

(** X9: in the parallel tree, [allocate_new_leaves(n)] for a count [n] of
    at least half the designated leaf size allocates at least one leaf;
    every leaf is set to hold between [leafslotmin] and [leafslotmax] keys,
    and together they hold exactly [n] keys. *)
Theorem allocate_new_leaves_balanced (n : Z) (st : tree_stats) :
  0 < n < 2 ^ 62 -> designated_leafsize <= 2 * n ->
  let ls := fst (TreeRootCreationTask.allocate_new_leaves n st) in
  (1 <= length ls)%nat
  /\ Z.of_nat (length ls) = Parallel.num_subtrees n designated_leafsize
  /\ Forall (fun l => leafslotmin <= Z.of_nat (leaf_slotuse l) <= leafslotmax) ls
  /\ slotuse_sum ls = n.
Proof.
  intros Hn Hhalf. cbv zeta.
  destruct (allocate_new_leaves_list n st Hn Hhalf) as (Hc & Hlast & ->).
  destruct (designated_leafsize_bounds k_range) as (Hd & Hlow & Hhigh & Hin).
  set (c := Parallel.num_subtrees n designated_leafsize) in *.
  set (last := n - (c - 1) * designated_leafsize) in *.
  rewrite length_app, length_replicate. cbn [length].
  split; [lia |]. split; [lia |]. split.
  - apply Forall_app. split.
    + apply Forall_replicate. cbn [leaf_slotuse]. lia.
    + repeat constructor; cbn [leaf_slotuse]; lia.
  - rewrite slotuse_sum_app, slotuse_sum_replicate, slotuse_sum_cons.
    cbn [leaf_slotuse]. change (slotuse_sum []) with 0.
    rewrite !Z2Nat.id by lia. unfold last. lia.
Qed.
End FreshLeaves.

Lemma allocate_new_leaves_balanced_witness :
  let ls := fst (@TreeRootCreationTask.allocate_new_leaves traits_8_8 debug_flags
                   13 (mk_tree_stats 0 0 0)) in
  (1 <= length ls)%nat
  /\ Z.of_nat (length ls)
     = Parallel.num_subtrees 13 (@designated_leafsize traits_8_8)
  /\ Forall (fun l => @leafslotmin traits_8_8 <= Z.of_nat (leaf_slotuse l)
                      <= @leafslotmax traits_8_8) ls
  /\ slotuse_sum ls = 13.
Proof.
  apply (@allocate_new_leaves_balanced traits_8_8 debug_flags).
  - vm_compute. split; congruence.
  - lia.
  - vm_compute. discriminate.
Defined.


(** ** The minimum descriptors on examples *)

Lemma set_min_element_leaf_spec_witness :
  exists m,
    set_min_element_leaf patch_slot patch_leaf = Ok (set_minimum m patch_slot)
    /\ is_subtree_min m (leaf_keys patch_leaf).
Proof.
  apply (set_min_element_leaf_spec patch_slot patch_leaf).
  - discriminate.
  - vm_compute. repeat constructor.
Defined.

Lemma set_min_element_inner_spec_witness :
  exists m,
    set_min_element_inner unassigned_slot frontier_slots
    = Ok (set_minimum m unassigned_slot)
    /\ is_subtree_min m (node_keys (Inner 1 frontier_slots)).
Proof.
  apply (set_min_element_inner_spec unassigned_slot 1 frontier_slots).
  - discriminate.
  - vm_compute. repeat constructor.
  - unfold frontier_slots, is_subtree_min, to_min_key.
    repeat (apply List.Forall_cons; [split |]); try apply List.Forall_nil;
      cbn;
      first [ solve [repeat first [ left; reflexivity | right ]]
            | repeat constructor; cbn; lia ].
Defined.


(** ** The tasks of the Pareto queue *)
Section ParetoTasks.
Variable END_LEVEL : nat.

(** The minimum descriptor of the keys below an inner node is the minimum
    descriptor of one of its slots. *)
Lemma subtree_min_in_slot (m : min_key_type) (level : nat)
    (slots : list inner_node_data) :
  is_subtree_min m (node_keys (Inner level slots)) ->
  Forall (fun s => is_subtree_min (minimum s) (node_keys (childid s))) slots ->
  exists s, s ∈ slots /\ minimum s = m.
Proof.
  intros [Hex Hall] Hslots.
  induction Hslots as [| s slots [Hex_s Hall_s] Hslots IH].
  - inversion Hex.
  - rewrite node_keys_inner_cons in Hex, Hall.
    apply Forall_app in Hall as [Hall1 Hall2].
    apply Exists_app in Hex as [Hhere | Hlater].
    + exists s. split; [left |].
      apply Exists_exists in Hhere as (km & Hkm & Hlabel).
      apply Exists_exists in Hex_s as (ks & Hks & Hlabel_s).
      rewrite Forall_forall in Hall1, Hall_s.
      destruct (Hall1 ks Hks) as [H1 Htie1].
      destruct (Hall_s km Hkm) as [H2 Htie2].
      unfold to_min_key in *. rewrite <- Hlabel_s in *. rewrite <- Hlabel in *.
      apply label_eq; [specialize (Htie1 ltac:(lia)); specialize (Htie2 ltac:(lia)) |];
        lia.
    + destruct (IH Hlater Hall2) as (s' & Hin & Hmin).
      exists s'. split; [right; exact Hin | exact Hmin].
Qed.

Lemma minima_ok_slots (level : nat) (slots : list inner_node_data) :
  minima_ok (Inner level slots) ->
  Forall (fun s => is_subtree_min (minimum s) (node_keys (childid s))
                   /\ minima_ok (childid s)) slots.
Proof.
  cbn [minima_ok]. induction slots as [| s slots IH]; [constructor |].
  intros (Hmin & Hok & Hrest). constructor; [split; assumption | apply IH, Hrest].
Qed.

(** A task that was created for a subtree whose minimum improves on the
    prefix minimum completes with the deletions of the sequential scan. *)
Lemma FindParetMinTask_spec (n : node) : forall prefix m,
  (1 <= END_LEVEL)%nat ->
  minima_ok n ->
  is_subtree_min m (node_keys n) ->
  improves m prefix = true ->
  ParetoQueue.FindParetMinTask END_LEVEL n prefix
  = ParetoQueue.Done (find_pareto_minima_node n prefix).
Proof.
  induction n as [l | level slots IH] using node_induction;
    intros prefix m Hend Hok Hmin Himp.
  - cbn [ParetoQueue.FindParetMinTask node_level].
    destruct (Nat.ltb_spec 0 END_LEVEL); [reflexivity | lia].
  - cbn [ParetoQueue.FindParetMinTask node_level].
    destruct (Nat.ltb_spec level END_LEVEL); [reflexivity |].
    pose proof (minima_ok_slots level slots Hok) as Hslots.
    destruct (subtree_min_in_slot m level slots Hmin) as (sm & Hsm & Hsm_min).
    { eapply Forall_impl; [exact Hslots |]. cbn. intros s [Hs _]. exact Hs. }
    cbn [find_pareto_minima_node].
    set (spawn_tasks := fix spawn_tasks (ss : list inner_node_data)
                            (min : min_key_type) := _).
    set (inner_loop := fix inner_loop (ss : list inner_node_data)
                           (min : min_key_type) := _).
    assert (Hloop : forall min,
              exists c, spawn_tasks slots min = ParetoQueue.Done (c, inner_loop slots min)
                        /\ ((exists s, s ∈ slots /\ improves (minimum s) min = true) ->
                            (1 <= c)%nat)).
    { clear Hsm Hmin Himp Hok. clear sm Hsm_min.
      induction IH as [| s ss Hs _ IHss]; intros min.
      - exists 0%nat. split; [reflexivity |]. intros (s & Hin & _). inversion Hin.
      - apply Forall_cons in Hslots as [[Hs_min Hs_ok] Hslots].
        cbn [spawn_tasks inner_loop].
        destruct (improves (minimum s) min) eqn:Hs_imp.
        + rewrite (Hs min (minimum s) Hend Hs_ok Hs_min Hs_imp).
          destruct (IHss Hslots (minimum s)) as (c & Hrun & _).
          cbn [ParetoQueue.task_bind]. rewrite Hrun. cbn [ParetoQueue.task_bind].
          exists (S c). split; [reflexivity | lia].
        + destruct (IHss Hslots min) as (c & Hrun & Hc).
          exists c. split; [exact Hrun |].
          intros (s' & Hin & Himp'). apply Hc.
          apply elem_of_cons in Hin as [-> | Hin];
            [rewrite Hs_imp in Himp'; discriminate |].
          exists s'. split; assumption. }
    destruct (Hloop prefix) as (c & Hrun & Hc).
    rewrite Hrun. cbn [ParetoQueue.task_bind].
    assert (1 <= c)%nat as Hpos.
    { apply Hc. exists sm. split; [exact Hsm |]. rewrite Hsm_min. exact Himp. }
    destruct (Nat.eqb_spec c 0); [lia | reflexivity].
Qed.

Lemma root_tasks_spec (slots : list inner_node_data) : forall min,
  (1 <= END_LEVEL)%nat ->
  Forall (fun s => is_subtree_min (minimum s) (node_keys (childid s))
                   /\ minima_ok (childid s)) slots ->
  ParetoQueue.root_tasks END_LEVEL slots min
  = ParetoQueue.Done (find_pareto_minima_node (Inner 0 slots) min).
Proof.
  intros min Hend Hslots. revert min.
  induction Hslots as [| s slots [Hmin Hok] _ IH]; intros min; [reflexivity |].
  cbn [ParetoQueue.root_tasks find_pareto_minima_node] in *.
  destruct (improves (minimum s) min) eqn:Himp; [| apply IH].
  rewrite (FindParetMinTask_spec (childid s) min (minimum s) Hend Hok Hmin Himp).
  cbn [ParetoQueue.task_bind]. rewrite IH. reflexivity.
Qed.

(** X12: on a tree that is not empty and whose slots carry the minimum
    descriptors of their subtrees, [findParetoMinima] of the Pareto queue
    completes, whatever the level [PARETO_FIND_RECURSION_END_LEVEL >= 1] at
    which the tasks stop splitting is: no task pops from an empty task
    list, and the deletions that the tasks schedule are, in the order of
    the tree, those of the sequential [find_pareto_minima] from the
    sentinel. *)
Theorem findParetoMinima_sequential `{limits : weight_limits}
    (t : btree) (n : node) :
  (1 <= END_LEVEL)%nat ->
  root t = Some n ->
  minima_ok n ->
  ParetoQueue.findParetoMinima END_LEVEL t
  = ParetoQueue.Done (find_pareto_minima_node n (to_min_key min_label)).
Proof.
  intros Hend Hroot Hok. unfold ParetoQueue.findParetoMinima. rewrite Hroot.
  destruct (node_level n <? END_LEVEL)%nat eqn:Hlevel; [reflexivity |].
  destruct n as [l | level slots].
  - apply Nat.ltb_ge in Hlevel. cbn [node_level] in Hlevel. lia.
  - rewrite (root_tasks_spec slots _ Hend (minima_ok_slots level slots Hok)).
    reflexivity.
Qed.

(** Whatever the slots carry, a task that completes has scheduled the
    deletions of the sequential scan. *)
Lemma FindParetMinTask_done (n : node) : forall prefix ops,
  ParetoQueue.FindParetMinTask END_LEVEL n prefix = ParetoQueue.Done ops ->
  ops = find_pareto_minima_node n prefix.
Proof.
  induction n as [l | level slots IH] using node_induction; intros prefix ops.
  - cbn [ParetoQueue.FindParetMinTask node_level].
    destruct (0 <? END_LEVEL)%nat; [| discriminate].
    intros [= <-]. reflexivity.
  - cbn [ParetoQueue.FindParetMinTask node_level].
    destruct (level <? END_LEVEL)%nat; [intros [= <-]; reflexivity |].
    cbn [find_pareto_minima_node].
    set (spawn_tasks := fix spawn_tasks (ss : list inner_node_data)
                            (min : min_key_type) := _).
    set (inner_loop := fix inner_loop (ss : list inner_node_data)
                           (min : min_key_type) := _).
    assert (Hloop : forall min c ops',
              spawn_tasks slots min = ParetoQueue.Done (c, ops') ->
              ops' = inner_loop slots min).
    { induction IH as [| s ss Hs _ IHss]; intros min c ops'.
      - cbn. intros [= _ <-]. reflexivity.
      - cbn [spawn_tasks inner_loop].
        destruct (improves (minimum s) min); [| apply IHss].
        destruct (ParetoQueue.FindParetMinTask END_LEVEL (childid s) min)
          as [ops1 | | |] eqn:Hchild; cbn [ParetoQueue.task_bind];
          try discriminate.
        destruct (spawn_tasks ss (minimum s)) as [[c2 ops2] | | |] eqn:Hrest;
          cbn [ParetoQueue.task_bind]; try discriminate.
        intros [= _ <-].
        rewrite (Hs min ops1 Hchild), (IHss (minimum s) c2 ops2 Hrest).
        reflexivity. }
    destruct (spawn_tasks slots prefix) as [[c ops'] | | |] eqn:Hrun;
      cbn [ParetoQueue.task_bind]; try discriminate.
    destruct (c =? 0)%nat; [discriminate |].
    intros [= <-]. apply (Hloop prefix c ops' Hrun).
Qed.
End ParetoTasks.


Lemma findParetoMinima_sequential_witness :
  @ParetoQueue.findParetoMinima 1 unsigned_int_weights frontier_tree
  = ParetoQueue.Done
      (find_pareto_minima_node frontier_root
         (to_min_key (@min_label unsigned_int_weights))).
Proof.
  apply (@findParetoMinima_sequential 1 unsigned_int_weights frontier_tree
           frontier_root).
  - lia.
  - reflexivity.
  - cbn. unfold is_subtree_min, to_min_key. cbn.
    repeat split;
      try (repeat constructor; cbn; lia);
      repeat first [ left; reflexivity | right ].
Defined.

(** X13: a task for an inner node on or above the level at which the
    tasks stop splitting, none of whose slots has a minimum that improves
    on the prefix minimum of the task (so also a node without slots),
    creates no task and then pops the first task from the empty task
    list. *)
Theorem FindParetMinTask_empty_task_list (END_LEVEL level : nat)
    (slots : list inner_node_data) (prefix : min_key_type) :
  (END_LEVEL <= level)%nat ->
  Forall (fun s => improves (minimum s) prefix = false) slots ->
  ParetoQueue.FindParetMinTask END_LEVEL (Inner level slots) prefix
  = ParetoQueue.PopFromEmptyTaskList.
Proof.
  intros Hlevel Hnone. cbn [ParetoQueue.FindParetMinTask node_level].
  destruct (Nat.ltb_spec level END_LEVEL); [lia |].
  set (spawn_tasks := fix spawn_tasks (ss : list inner_node_data)
                          (min : min_key_type) := _).
  assert (Hrun : spawn_tasks slots prefix = ParetoQueue.Done (0%nat, [])).
  { induction Hnone as [| s ss Hs _ IH]; [reflexivity |].
    cbn [spawn_tasks]. rewrite Hs. exact IH. }
  rewrite Hrun. reflexivity.
Qed.

Lemma FindParetMinTask_empty_task_list_witness :
  ParetoQueue.FindParetMinTask 1 (Inner 1 [patch_slot]) (mk_Label 0 0)
  = ParetoQueue.PopFromEmptyTaskList.
Proof.
  apply (FindParetMinTask_empty_task_list 1 1 [patch_slot] (mk_Label 0 0)).
  - lia.
  - repeat constructor.
Defined.


(** ** What [verify] checks *)
Section VerifyWeights.
Context `{traits : btree_traits} `{flags : build_flags} `{lm : libm}.
Hypothesis asserts_on : NDEBUG = false.

Lemma result_bind_ok {A B} (r : result A) (f : A -> result B) (b : B) :
  r ≫= f = Ok b -> exists a, r = Ok a /\ f a = Ok b.
Proof.
  destruct r as [a | e]; cbn; [| discriminate].
  intros Hf. exists a. split; [reflexivity | exact Hf].
Qed.

Lemma assert_ok (x : bool) : assert x = Ok tt -> x = true.
Proof.
  unfold assert. rewrite asserts_on. destruct x; [reflexivity | discriminate].
Qed.

Lemma node_weight_inner_cons level s slots :
  node_weight (Inner level (s :: slots))
  = node_weight (childid s) + node_weight (Inner level slots).
Proof.
  unfold node_weight. rewrite node_keys_inner_cons, length_app. lia.
Qed.

Lemma to_size_type_add_l (a b : Z) :
  to_size_type (to_size_type a + b) = to_size_type (a + b).
Proof.
  unfold to_size_type, wrap_unsigned. apply Zplus_mod_idemp_l.
Qed.

Lemma to_size_type_sub_add (a b : Z) :
  to_size_type (to_size_type (a + b) - a) = to_size_type b.
Proof.
  unfold to_size_type, wrap_unsigned.
  rewrite Zminus_mod_idemp_l. f_equal. lia.
Qed.

Lemma count_nodes_inner_cons leaflike level s slots :
  count_nodes leaflike (Inner level (s :: slots))
  = count_nodes leaflike (childid s) + count_nodes leaflike (Inner level slots).
Proof. simpl. unfold isleafnode. simpl. lia. Qed.

Lemma verify_node_weights (n : node) : forall is_root vstats minkey maxkey vstats',
  0 <= itemcount vstats < 2 ^ 64 ->
  stats_in_range vstats ->
  verify_node is_root n vstats = Ok (minkey, maxkey, vstats') ->
  verified is_root n
  /\ itemcount vstats' = to_size_type (itemcount vstats + node_weight n)
  /\ stats_leaves vstats' = to_size_type (stats_leaves vstats + count_nodes true n)
  /\ innernodes vstats' = to_size_type (innernodes vstats + count_nodes false n).
Proof.
  induction n as [l | level slots IH] using node_induction;
    intros is_root vstats minkey maxkey vstats' Hrange [Hleaves Hinner] Hrun.
  - cbn [verify_node] in Hrun.
    apply result_bind_ok in Hrun as ([] & _ & Hrun).
    apply result_bind_ok in Hrun as ([] & Hmin & Hrun).
    apply result_bind_ok in Hrun as ([] & Hmax & Hrun).
    apply result_bind_ok in Hrun as (k0 & Hk0 & Hrun).
    apply result_bind_ok in Hrun as (k1 & Hk1 & Hrun).
    injection Hrun as _ _ <-.
    apply assert_ok in Hmin, Hmax.
    apply orb_prop in Hmin. apply Z.leb_le in Hmax.
    unfold array_get_Z in Hk1.
    destruct (Z.ltb_spec (Z.of_nat (leaf_slotuse l) - 1) 0); [discriminate |].
    unfold array_get, of_option in Hk1.
    destruct (leaf_slotkey l !! Z.to_nat (Z.of_nat (leaf_slotuse l) - 1)) eqn:Hlook;
      [| discriminate].
    apply lookup_lt_Some in Hlook.
    assert (Huse : (1 <= leaf_slotuse l <= length (leaf_slotkey l))%nat) by lia.
    split; [| split; [| split]].
    + cbn [verified]. split; [exact Huse |]. split; [| exact Hmax].
      destruct Hmin as [Hroot | Hmin]; [left; exact Hroot | right].
      apply Z.leb_le. exact Hmin.
    + cbn [itemcount]. f_equal. unfold node_weight. cbn [node_keys].
      unfold leaf_keys. rewrite length_take. lia.
    + cbn. f_equal; lia.
    + cbn. rewrite Z.add_0_r. symmetry. apply to_size_type_small. exact Hinner.
  - cbn [verify_node] in Hrun.
    apply result_bind_ok in Hrun as ([] & _ & Hrun).
    apply result_bind_ok in Hrun as ([minkey' vstats2] & Hslots & Hrun).
    apply result_bind_ok in Hrun as (last & Hlast & Hrun).
    injection Hrun as _ _ <-.
    cbn [verified].
    set (verify_slots := fix verify_slots (ss : list inner_node_data) (slot : Z)
                             (previous minkey : key_type) (vstats : tree_stats) := _)
      in Hslots.
    set (slots_verified := fix slots_verified (ss : list inner_node_data) : Prop := _).
    assert (Hloop : forall slot previous mk vs mk' vs',
              0 <= itemcount vs < 2 ^ 64 ->
              stats_in_range vs ->
              verify_slots slots slot previous mk vs = Ok (mk', vs') ->
              slots_verified slots
              /\ itemcount vs'
                 = to_size_type (itemcount vs + node_weight (Inner level slots))
              /\ stats_leaves vs'
                 = to_size_type (stats_leaves vs
                                 + (count_nodes true (Inner level slots)
                                    - count_nodes true (Inner level [])))
              /\ innernodes vs'
                 = to_size_type (innernodes vs
                                 + (count_nodes false (Inner level slots)
                                    - count_nodes false (Inner level [])))).
    { clear Hslots Hlast. induction IH as [| s ss Hs _ IHss];
        intros slot previous mk vs mk' vs' Hvs [Hvl Hvi] Hrun.
      - cbn in Hrun. injection Hrun as _ <-. split; [exact I |].
        unfold node_weight. rewrite !Z.sub_diag. cbn [node_keys length Z.of_nat].
        rewrite !Z.add_0_r.
        repeat split; symmetry; apply to_size_type_small; assumption.
      - cbn [verify_slots] in Hrun.
        apply result_bind_ok in Hrun as ([] & Hlevel & Hrun).
        apply result_bind_ok in Hrun as ([] & Hmin & Hrun).
        apply result_bind_ok in Hrun as ([] & Hmax & Hrun).
        cbn zeta in Hrun.
        apply result_bind_ok in Hrun as ([[submin submax] vs1] & Hchild & Hrun).
        apply result_bind_ok in Hrun as ([] & Hweight & Hrun).
        apply result_bind_ok in Hrun as ([] & _ & Hrun).
        apply result_bind_ok in Hrun as ([] & _ & Hrun).
        apply assert_ok in Hlevel, Hmin, Hmax, Hweight.
        apply Z.eqb_eq in Hlevel, Hweight. apply Z.leb_le in Hmax.
        apply orb_prop in Hmin.
        destruct (Hs false vs submin submax vs1 Hvs (conj Hvl Hvi) Hchild)
          as (Hver & Hcount & Hcl & Hci).
        assert (Hvs1 : 0 <= itemcount vs1 < 2 ^ 64).
        { rewrite Hcount. apply to_size_type_range. }
        assert (Hvs1' : stats_in_range vs1).
        { split; [rewrite Hcl | rewrite Hci]; apply to_size_type_range. }
        destruct (IHss _ _ _ _ _ _ Hvs1 Hvs1' Hrun) as (Hrest & Hcount' & Hcl' & Hci').
        split; [| split; [| split]].
        + cbn [slots_verified]. split; [lia |]. split.
          { destruct Hmin as [Hroot | Hmin]; [left; exact Hroot | right].
            apply Z.leb_le. exact Hmin. }
          split; [exact Hmax |]. split.
          { rewrite Hweight, Hcount. apply to_size_type_sub_add. }
          split; [exact Hver | exact Hrest].
        + rewrite Hcount', Hcount, node_weight_inner_cons.
          rewrite to_size_type_add_l. f_equal. lia.
        + rewrite Hcl', Hcl, count_nodes_inner_cons.
          rewrite to_size_type_add_l. f_equal. lia.
        + rewrite Hci', Hci, count_nodes_inner_cons.
          rewrite to_size_type_add_l. f_equal. lia. }
    assert (Hinner1 : stats_in_range (add_innernodes 1 vstats)).
    { split; [exact Hleaves | apply to_size_type_range]. }
    destruct (Hloop 0 default_key default_key (add_innernodes 1 vstats) minkey' vstats2
                Hrange Hinner1 Hslots) as (Hver & Hcount & Hcl & Hci).
    assert (Hlevel : (level =? 0)%nat = false).
    { destruct slots as [| s ss]; [discriminate Hlast |].
      destruct Hver as [Hlevel _]. apply Nat.eqb_neq. lia. }
    assert (Hempty : forall leaflike,
              count_nodes leaflike (Inner level []) = b2z (negb leaflike)).
    { intros leaflike. cbn [count_nodes]. unfold isleafnode. cbn [node_level].
      rewrite Hlevel. destruct leaflike; reflexivity. }
    rewrite !Hempty in Hcl, Hci. cbn [negb b2z] in Hcl, Hci.
    split; [exact Hver |]. split; [exact Hcount |]. split.
    + rewrite Hcl. cbn [add_innernodes stats_leaves]. f_equal. lia.
    + rewrite Hci. cbn [add_innernodes innernodes].
      rewrite to_size_type_add_l. f_equal. lia.
Qed.

End VerifyWeights.

(** X14: with the assertions compiled in, a tree with a root that [verify]
    accepts has every child one level below its parent, every leaf filled within its
    array, every weight equal to the number of keys below its slot and
    within the bounds of its level (the lower bound being waived at the
    root), and statistics that count its keys, leaves and inner nodes. *)
Theorem verify_sound `{traits : btree_traits} `{flags : build_flags}
    (t : btree) (n : node) :
  NDEBUG = false ->
  root t = Some n ->
  verify t = Ok tt ->
  verified true n
  /\ itemcount (stats t) = to_size_type (node_weight n)
  /\ stats_leaves (stats t) = to_size_type (count_nodes true n)
  /\ innernodes (stats t) = to_size_type (count_nodes false n).
Proof.
  intros asserts_on Hroot Hrun. unfold verify in Hrun. rewrite Hroot in Hrun.
  apply result_bind_ok in Hrun as ([[minkey maxkey] vstats] & Hnode & Hrun).
  apply result_bind_ok in Hrun as ([] & Hitems & Hrun).
  apply result_bind_ok in Hrun as ([] & Hleaves & Hinner).
  apply (assert_ok asserts_on) in Hitems, Hleaves, Hinner.
  apply Z.eqb_eq in Hitems, Hleaves, Hinner.
  apply (verify_node_weights asserts_on) in Hnode as (Hver & Hcount & Hcl & Hci);
    [| cbn; lia | split; cbn; lia].
  cbn [itemcount stats_leaves innernodes] in Hcount, Hcl, Hci.
  rewrite Z.add_0_l in Hcount, Hcl, Hci.
  split; [exact Hver |]. rewrite <- Hitems, <- Hleaves, <- Hinner.
  split; [exact Hcount |]. split; [exact Hcl | exact Hci].
Qed.

Lemma verify_sound_witness :
  @verify traits_8_8 debug_flags frontier_tree = Ok tt
  /\ @verified traits_8_8 true frontier_root
  /\ itemcount (stats frontier_tree) = to_size_type (node_weight frontier_root)
  /\ stats_leaves (stats frontier_tree) = to_size_type (count_nodes true frontier_root)
  /\ innernodes (stats frontier_tree) = to_size_type (count_nodes false frontier_root).
Proof.
  split; [vm_compute; reflexivity |].
  apply (@verify_sound traits_8_8 debug_flags frontier_tree frontier_root);
    vm_compute; reflexivity.
Defined.


(** ** The order that [verify] checks *)
Section KeyOrder.
Context {key_type : Type} `{StrictTotalOrder key_type}.

Lemma not_after_refl (a : key_type) : not_after a a.
Proof. apply key_less_irrefl. Qed.

Lemma not_after_trans (a b c : key_type) :
  not_after a b -> not_after b c -> not_after a c.
Proof.
  unfold not_after. intros Hab Hbc.
  destruct (key_less c a) eqn:Hca; [| reflexivity].
  destruct (key_less a b) eqn:Hlt.
  - rewrite (key_less_trans c a b Hca Hlt) in Hbc. discriminate.
  - rewrite (key_less_total a b Hlt Hab) in Hca. congruence.
Qed.

Lemma ascending_nil : ascending (@nil key_type).
Proof. intros i j ki kj _ Hi. rewrite lookup_nil in Hi. discriminate. Qed.

Lemma ascending_app (A B : list key_type) :
  ascending A -> ascending B ->
  (forall a b, a ∈ A -> b ∈ B -> not_after a b) ->
  ascending (A ++ B).
Proof.
  intros HA HB Hcross i j ki kj Hij Hi Hj.
  apply lookup_app_Some in Hi as [Hi | [Hlen Hi]];
    apply lookup_app_Some in Hj as [Hj | [Hlen' Hj]].
  - exact (HA i j ki kj Hij Hi Hj).
  - apply Hcross; eapply list_elem_of_lookup_2; eassumption.
  - apply lookup_lt_Some in Hj. lia.
  - apply (HB (i - length A)%nat (j - length A)%nat ki kj); [lia | exact Hi | exact Hj].
Qed.

Lemma ascending_first (keys : list key_type) (k0 k : key_type) :
  ascending keys -> keys !! 0%nat = Some k0 -> k ∈ keys -> not_after k0 k.
Proof.
  intros Hasc Hfirst Hk. apply list_elem_of_lookup_1 in Hk as [j Hj].
  apply (Hasc 0%nat j k0 k); [lia | exact Hfirst | exact Hj].
Qed.

Lemma ascending_last (keys : list key_type) (kl k : key_type) :
  ascending keys -> last keys = Some kl -> k ∈ keys -> not_after k kl.
Proof.
  intros Hasc Hl Hk. apply list_elem_of_lookup_1 in Hk as [j Hj].
  rewrite last_lookup in Hl.
  apply (Hasc j (pred (length keys)) k kl); [| exact Hj | exact Hl].
  apply lookup_lt_Some in Hj. lia.
Qed.
End KeyOrder.

Section VerifyOrder.
Context `{traits : btree_traits} `{flags : build_flags} `{lm : libm}.
Hypothesis asserts_on : NDEBUG = false.

Lemma assert_ascending_sound (keys : list key_type) :
  assert_ascending keys = Ok tt -> ascending keys.
Proof.
  induction keys as [| k1 [| k2 keys] IH]; intros Hrun.
  - apply ascending_nil.
  - intros [| i] [| j] ki kj Hij Hi Hj; try discriminate.
    injection Hi as <-. injection Hj as <-. apply key_less_irrefl.
  - cbn [assert_ascending] in Hrun.
    apply result_bind_ok in Hrun as ([] & Hle & Hrun).
    apply (assert_ok asserts_on) in Hle. apply negb_true_iff in Hle.
    specialize (IH Hrun).
    change (k1 :: k2 :: keys) with ([k1] ++ (k2 :: keys)).
    apply ascending_app; [| exact IH |].
    + intros [| i] [| j] ki kj Hij Hi Hj; try discriminate.
      injection Hi as <-. injection Hj as <-. apply key_less_irrefl.
    + intros a b Ha Hb. apply list_elem_of_singleton in Ha as ->.
      apply (not_after_trans _ k2); [exact Hle |].
      apply (ascending_first (k2 :: keys)); [exact IH | reflexivity | exact Hb].
Qed.
Lemma last_cons_cases {A} (x : A) (l : list A) (y : A) :
  last (x :: l) = Some y -> (l = [] /\ y = x) \/ last l = Some y.
Proof.
  rewrite last_cons. destruct (last l) as [z |] eqn:Hl.
  - intros [= <-]. right. reflexivity.
  - intros [= <-]. left. apply last_None in Hl. split; [exact Hl | reflexivity].
Qed.

Lemma verify_node_order (n : node) : forall is_root vstats minkey maxkey vstats',
  verify_node is_root n vstats = Ok (minkey, maxkey, vstats') ->
  ascending (node_keys n)
  /\ Forall (fun k => not_after minkey k /\ not_after k maxkey) (node_keys n)
  /\ not_after minkey maxkey
  /\ maxkey ∈ node_keys n
  /\ routed n.
Proof.
  induction n as [l | level slots IH] using node_induction;
    intros is_root vstats minkey maxkey vstats' Hrun.
  - cbn [verify_node] in Hrun.
    apply result_bind_ok in Hrun as ([] & Hasc & Hrun).
    apply result_bind_ok in Hrun as ([] & _ & Hrun).
    apply result_bind_ok in Hrun as ([] & _ & Hrun).
    apply result_bind_ok in Hrun as (k0 & Hk0 & Hrun).
    apply result_bind_ok in Hrun as (k1 & Hk1 & Hrun).
    injection Hrun as <- <- _.
    apply assert_ascending_sound in Hasc.
    unfold array_get_Z in Hk1.
    destruct (Z.ltb_spec (Z.of_nat (leaf_slotuse l) - 1) 0); [discriminate |].
    unfold array_get, of_option in Hk0, Hk1.
    destruct (leaf_slotkey l !! 0%nat) as [k0' |] eqn:Hfirst; [| discriminate].
    destruct (leaf_slotkey l !! Z.to_nat (Z.of_nat (leaf_slotuse l) - 1)) as [k1' |]
      eqn:Hlook; [| discriminate].
    injection Hk0 as ->. injection Hk1 as ->.
    pose proof (lookup_lt_Some _ _ _ Hlook) as Hlen.
    cbn [node_keys routed].
    assert (Hfirst' : leaf_keys l !! 0%nat = Some k0).
    { unfold leaf_keys. rewrite lookup_take_lt by lia. exact Hfirst. }
    assert (Hlast' : last (leaf_keys l) = Some k1).
    { rewrite last_lookup. unfold leaf_keys. rewrite length_take.
      rewrite lookup_take_lt by lia.
      replace (pred (leaf_slotuse l `min` length (leaf_slotkey l)))
        with (Z.to_nat (Z.of_nat (leaf_slotuse l) - 1)) by lia.
      exact Hlook. }
    assert (Hin : k1 ∈ leaf_keys l).
    { rewrite last_lookup in Hlast'. eapply list_elem_of_lookup_2. exact Hlast'. }
    split; [exact Hasc |]. split; [| split; [| split; [exact Hin | exact I]]].
    + apply Forall_forall. intros k Hk. split.
      * exact (ascending_first _ _ _ Hasc Hfirst' Hk).
      * exact (ascending_last _ _ _ Hasc Hlast' Hk).
    + exact (ascending_first _ _ _ Hasc Hfirst' Hin).
  - cbn [verify_node] in Hrun.
    apply result_bind_ok in Hrun as ([] & _ & Hrun).
    apply result_bind_ok in Hrun as ([minkey' vstats2] & Hslots & Hrun).
    apply result_bind_ok in Hrun as (lst & Hlast & Hrun).
    injection Hrun as <- <- _.
    cbn [routed].
    set (verify_slots := fix verify_slots (ss : list inner_node_data) (slot : Z)
                             (previous minkey : key_type) (vstats : tree_stats) := _)
      in Hslots.
    set (slots_routed := fix slots_routed (ss : list inner_node_data) : Prop := _).
    assert (Hloop : forall slot previous mk vs mk' vs',
              0 <= slot ->
              verify_slots slots slot previous mk vs = Ok (mk', vs') ->
              ascending (node_keys (Inner level slots))
              /\ slots_routed slots
              /\ (slot <> 0 -> mk' = mk)
              /\ Forall (not_after (if slot =? 0 then mk' else previous))
                        (node_keys (Inner level slots))
              /\ (forall y, last slots = Some y ->
                    not_after (if slot =? 0 then mk' else previous) (slotkey y)
                    /\ Forall (fun k => not_after k (slotkey y))
                              (node_keys (Inner level slots))
                    /\ slotkey y ∈ node_keys (Inner level slots))).
    { clear Hslots Hlast. induction IH as [| s ss Hs _ IHss];
        intros slot previous mk vs mk' vs' Hslot Hrun.
      - cbn in Hrun. injection Hrun as <- _.
        split; [apply ascending_nil |]. split; [exact I |].
        split; [reflexivity |]. split; [apply List.Forall_nil |].
        intros y Hy. discriminate Hy.
      - cbn [verify_slots] in Hrun.
        apply result_bind_ok in Hrun as ([] & _ & Hrun).
        apply result_bind_ok in Hrun as ([] & _ & Hrun).
        apply result_bind_ok in Hrun as ([] & _ & Hrun).
        cbn zeta in Hrun.
        apply result_bind_ok in Hrun as ([[submin submax] vs1] & Hchild & Hrun).
        apply result_bind_ok in Hrun as ([] & _ & Hrun).
        apply result_bind_ok in Hrun as ([] & Hge & Hrun).
        apply result_bind_ok in Hrun as ([] & Heq & Hrun).
        apply (assert_ok asserts_on) in Heq.
        apply andb_prop in Heq as [Heq1 Heq2].
        apply negb_true_iff in Heq1, Heq2.
        pose proof (key_less_total _ _ Heq1 Heq2) as Hrouter.
        destruct (Hs _ _ _ _ _ Hchild) as (Hasc & Hbounds & Hminmax & Hin & Hrouted).
        rewrite <- Hrouter in Hbounds, Hminmax, Hin.
        rewrite Forall_forall in Hbounds.
        assert (Hslot' : 0 <= slot + 1) by lia.
        destruct (IHss _ _ _ _ _ _ Hslot' Hrun)
          as (Hasc' & Hrouted' & Hmk & Hlow & Hlast).
        destruct (Z.eqb_spec (slot + 1) 0) as [Hzero | _]; [lia |].
        specialize (Hmk ltac:(lia)).
        rewrite Forall_forall in Hlow.
        set (lo := if slot =? 0 then mk' else previous).
        assert (Hlo : not_after lo submin).
        { subst lo. destruct (Z.eqb_spec slot 0) as [Hz | Hnz].
          - rewrite Hmk. apply not_after_refl.
          - apply (assert_ok asserts_on) in Hge. apply negb_true_iff in Hge.
            exact Hge. }
        assert (Hlo' : not_after lo (slotkey s)).
        { exact (not_after_trans _ _ _ Hlo Hminmax). }
        rewrite node_keys_inner_cons.
        split; [| split; [| split; [| split]]].
        + apply ascending_app; [exact Hasc | exact Hasc' |].
          intros a b Ha Hb. apply (not_after_trans _ (slotkey s)).
          * apply Hbounds. exact Ha.
          * apply Hlow. exact Hb.
        + cbn [slots_routed]. split; [exact Hin |]. split.
          { apply Forall_forall. intros k Hk. apply Hbounds. exact Hk. }
          split; [exact Hrouted | exact Hrouted'].
        + intros Hnz. rewrite Hmk.
          destruct (Z.eqb_spec slot 0) as [Hz | _]; [contradiction | reflexivity].
        + apply Forall_forall. intros k Hk.
          apply elem_of_app in Hk as [Hk | Hk].
          * apply (not_after_trans _ _ _ Hlo). apply Hbounds. exact Hk.
          * apply (not_after_trans _ _ _ Hlo'). apply Hlow. exact Hk.
        + intros y Hy. apply last_cons_cases in Hy as [[-> ->] | Hy].
          * split; [exact Hlo' |]. split.
            { apply Forall_forall. intros k Hk.
              apply elem_of_app in Hk as [Hk | Hk]; [apply Hbounds; exact Hk |].
              cbn in Hk. apply elem_of_nil in Hk. contradiction. }
            apply elem_of_app. left. exact Hin.
          * destruct (Hlast y Hy) as (Hsy & Hup & Hiny).
            rewrite Forall_forall in Hup.
            split; [exact (not_after_trans _ _ _ Hlo' Hsy) |]. split.
            { apply Forall_forall. intros k Hk.
              apply elem_of_app in Hk as [Hk | Hk]; [| apply Hup; exact Hk].
              apply (not_after_trans _ (slotkey s)); [apply Hbounds; exact Hk |].
              exact Hsy. }
            apply elem_of_app. right. exact Hiny. }
    destruct (Hloop 0 default_key default_key _ _ _ (Z.le_refl 0) Hslots)
      as (Hasc & Hrouted & _ & Hlow & Hlst).
    cbn [Z.eqb] in Hlow, Hlst.
    assert (Hy : last slots = Some lst).
    { unfold array_get_Z in Hlast.
      destruct (Z.ltb_spec (Z.of_nat (length slots) - 1) 0); [discriminate |].
      unfold array_get, of_option in Hlast.
      destruct (slots !! Z.to_nat (Z.of_nat (length slots) - 1)) as [y |] eqn:Hlook;
        [| discriminate].
      injection Hlast as ->. rewrite last_lookup.
      replace (pred (length slots)) with (Z.to_nat (Z.of_nat (length slots) - 1)) by lia.
      exact Hlook. }
    destruct (Hlst lst Hy) as (Hminmax & Hup & Hin).
    split; [exact Hasc |]. split; [| split; [exact Hminmax |]].
    + rewrite Forall_forall in Hlow, Hup. apply Forall_forall. intros k Hk.
      split; [apply Hlow | apply Hup]; exact Hk.
    + split; [exact Hin | exact Hrouted].
Qed.
End VerifyOrder.


(** X15: with the assertions compiled in, the keys of a tree that [verify]
    accepts are in ascending order from left to right, and every router
    key of the tree is the largest key below its slot. *)
Theorem verify_keys_ascending `{traits : btree_traits} `{flags : build_flags}
    (t : btree) :
  NDEBUG = false ->
  verify t = Ok tt ->
  ascending (tree_keys t) /\ (forall n, root t = Some n -> routed n).
Proof.
  intros asserts_on Hrun. unfold verify in Hrun. unfold tree_keys.
  destruct (root t) as [n |]; [| split; [apply ascending_nil | discriminate]].
  apply result_bind_ok in Hrun as ([[minkey maxkey] vstats] & Hnode & _).
  apply (verify_node_order asserts_on) in Hnode as (Hasc & _ & _ & _ & Hrouted).
  split; [exact Hasc |]. intros n' [= <-]. exact Hrouted.
Qed.

Lemma verify_keys_ascending_witness :
  @verify traits_8_8 debug_flags frontier_tree = Ok tt
  /\ ascending (tree_keys frontier_tree)
  /\ (forall n, root frontier_tree = Some n -> routed n).
Proof.
  split; [vm_compute; reflexivity |].
  apply (@verify_keys_ascending traits_8_8 debug_flags frontier_tree);
    vm_compute; reflexivity.
Defined.


(** ** What the update of the tree leaves alone

    Past its first two steps [apply_updates] writes the root, the spare
    leaf, the fresh leaves, the number of levels and the node counters
    only: every property of the state that these writes keep holds
    throughout. *)
Create HintDb keeps.

Section Frame.
Context `{traits : btree_traits} `{flags : build_flags} `{lm : libm}.
Variable I : btree -> Prop.
Hypothesis I_root : forall r t, I t -> I (set_root r t).
Hypothesis I_spare : forall l t, I t -> I (set_spare_leaf l t).
Hypothesis I_leaves : forall ls t, I t -> I (set_leaves ls t).
Hypothesis I_levels : forall n t, I t -> I (set_subtree_updates_per_level n t).
Hypothesis I_add_leaves : forall d t, I t -> I (set_stats (add_leaves d (stats t)) t).
Hypothesis I_add_innernodes :
  forall d t, I t -> I (set_stats (add_innernodes d (stats t)) t).

Lemma keeps_ret {A} (a : A) : keeps I (mret a).
Proof. intros t Ht. exact Ht. Qed.

Lemma keeps_bind {A B} (m : M A) (f : A -> M B) :
  keeps I m -> (forall a, keeps I (f a)) -> keeps I (m ≫= f).
Proof. intros Hm Hf. eapply hoare_bind; [exact Hm | exact Hf]. Qed.

Lemma keeps_gets {A} (f : btree -> A) : keeps I (gets f).
Proof. intros t Ht. exact Ht. Qed.

Lemma keeps_get : keeps I get.
Proof. intros t Ht. exact Ht. Qed.

Lemma keeps_lift {A} (r : result A) : keeps I (lift r).
Proof. intros t Ht. unfold lift. destruct r; [exact Ht | exact Logic.I]. Qed.

Lemma keeps_fail {A} (e : error) : keeps I (@fail A e).
Proof. intros t Ht. exact Logic.I. Qed.

Lemma keeps_modify (f : btree -> btree) :
  (forall t, I t -> I (f t)) -> keeps I (modify f).
Proof. intros Hf t Ht. apply Hf. exact Ht. Qed.

Ltac keeps_write :=
  intros;
  first [ apply I_root | apply I_spare | apply I_leaves | apply I_levels
        | apply I_add_leaves | apply I_add_innernodes ];
  assumption.

Ltac keeps_step :=
  cbv beta zeta;
  lazymatch goal with
  | |- keeps _ (mret _) => apply keeps_ret
  | |- keeps _ (_ ≫= _) => apply keeps_bind; [| intro]
  | |- keeps _ (gets _) => apply keeps_gets
  | |- keeps _ get => apply keeps_get
  | |- keeps _ (lift _) => apply keeps_lift
  | |- keeps _ (fail _) => apply keeps_fail
  | |- keeps _ (modify _) => apply keeps_modify; keeps_write
  | |- keeps _ (if ?b then _ else _) => destruct b
  | |- keeps _ (match ?x with _ => _ end) => destruct x
  | |- _ => solve [auto with keeps]
  end.

Ltac keeps_tac := repeat keeps_step.

Lemma keeps_BTREE_ASSERT (x : bool) : keeps I (BTREE_ASSERT x).
Proof. unfold BTREE_ASSERT. keeps_tac. Qed.
#[local] Hint Resolve keeps_BTREE_ASSERT : keeps.

Lemma keeps_allocate_leaf : keeps I allocate_leaf.
Proof. unfold allocate_leaf. keeps_tac. Qed.
#[local] Hint Resolve keeps_allocate_leaf : keeps.

Lemma keeps_allocate_inner (level : nat) : keeps I (allocate_inner level).
Proof. unfold allocate_inner. keeps_tac. Qed.
#[local] Hint Resolve keeps_allocate_inner : keeps.

Lemma keeps_free_node (n : node) : keeps I (free_node n).
Proof. unfold free_node. keeps_tac. Qed.
#[local] Hint Resolve keeps_free_node : keeps.

Lemma keeps_clear_recursive (n : node) : keeps I (clear_recursive n).
Proof.
  induction n as [l | level slots IH] using node_induction.
  - cbn [clear_recursive]. keeps_tac.
  - cbn [clear_recursive]. apply keeps_bind; [| intro; keeps_tac].
    induction IH as [| s ss Hs _ IHss]; keeps_tac.
Qed.
#[local] Hint Resolve keeps_clear_recursive : keeps.

Lemma keeps_clear : keeps I clear.
Proof. unfold clear. keeps_tac. Qed.
#[local] Hint Resolve keeps_clear : keeps.

Lemma keeps_push_fresh_leaves (count : nat) : keeps I (push_fresh_leaves count).
Proof. induction count as [| count IH]; cbn [push_fresh_leaves]; keeps_tac. Qed.
#[local] Hint Resolve keeps_push_fresh_leaves : keeps.

Lemma keeps_allocate_new_leaves (n : Z) : keeps I (allocate_new_leaves n).
Proof. unfold allocate_new_leaves. keeps_tac. Qed.
#[local] Hint Resolve keeps_allocate_new_leaves : keeps.

Lemma keeps_create_subtree_from_leaves (level : nat) :
  forall slot reuse_outnode rank_begin rank_end,
    keeps I (create_subtree_from_leaves slot reuse_outnode level rank_begin rank_end).
Proof.
  induction level as [| level IH]; intros slot reuse_outnode rank_begin rank_end.
  - cbn [create_subtree_from_leaves]. keeps_tac.
  - cbn [create_subtree_from_leaves]. cbv zeta.
    repeat (apply keeps_bind; [solve [keeps_tac] | intro]).
    apply keeps_bind; [| intro; keeps_tac].
    set (fill := fix fill (count : nat) (i rank : Z) (acc : list inner_node_data)
                   : M (list inner_node_data) := _).
    assert (Hfill : forall count i rank acc, keeps I (fill count i rank acc)).
    { induction count as [| count IHcount]; intros i rank acc; cbn [fill]; keeps_tac. }
    apply Hfill.
Qed.
#[local] Hint Resolve keeps_create_subtree_from_leaves : keeps.

Lemma keeps_hasNextLeaf (leaf_count : Z) : keeps I (hasNextLeaf leaf_count).
Proof. unfold hasNextLeaf. keeps_tac. Qed.
#[local] Hint Resolve keeps_hasNextLeaf : keeps.

Lemma keeps_leaves_at (i : nat) : keeps I (leaves_at i).
Proof. unfold leaves_at. keeps_tac. Qed.
#[local] Hint Resolve keeps_leaves_at : keeps.

Lemma keeps_set_leaves_at (i : nat) (l : leaf_node key_type) :
  keeps I (set_leaves_at i l).
Proof. unfold set_leaves_at. keeps_tac. Qed.
#[local] Hint Resolve keeps_set_leaves_at : keeps.

Lemma keeps_write_key (x : key_type) (c : write_cursor) : keeps I (write_key x c).
Proof. unfold write_key. keeps_tac. Qed.
#[local] Hint Resolve keeps_write_key : keeps.

Lemma keeps_write_slotuse (n : nat) (c : write_cursor) : keeps I (write_slotuse n c).
Proof. unfold write_slotuse. keeps_tac. Qed.
#[local] Hint Resolve keeps_write_slotuse : keeps.

Lemma keeps_next_leaf_if_full (more : bool) (c : write_cursor) :
  keeps I (next_leaf_if_full more c).
Proof. unfold next_leaf_if_full. keeps_tac. Qed.
#[local] Hint Resolve keeps_next_leaf_if_full : keeps.

Lemma keeps_stream_one (leaf : leaf_node key_type) (c : write_cursor) :
  keeps I (stream_one leaf c).
Proof. unfold stream_one. keeps_tac. Qed.
#[local] Hint Resolve keeps_stream_one : keeps.

Lemma keeps_stream_to_delete (rounds : nat) leaf x :
  forall c, keeps I (stream_to_delete rounds leaf x c).
Proof.
  induction rounds as [| rounds IH]; intros c; cbn [stream_to_delete]; keeps_tac.
Qed.
#[local] Hint Resolve keeps_stream_to_delete : keeps.

Lemma keeps_stream_to_insert (rounds : nat) leaf x :
  forall c, keeps I (stream_to_insert rounds leaf x c).
Proof.
  induction rounds as [| rounds IH]; intros c; cbn [stream_to_insert]; keeps_tac.
Qed.
#[local] Hint Resolve keeps_stream_to_insert : keeps.

Lemma keeps_stream_step leaf c op : keeps I (stream_step leaf c op).
Proof. unfold stream_step. keeps_tac. Qed.
#[local] Hint Resolve keeps_stream_step : keeps.

Lemma keeps_stream_loop leaf ops : forall c, keeps I (stream_loop leaf c ops).
Proof. induction ops as [| op ops IH]; intros c; cbn [stream_loop]; keeps_tac. Qed.
#[local] Hint Resolve keeps_stream_loop : keeps.

Lemma keeps_stream_rest (rounds : nat) leaf :
  forall c, keeps I (stream_rest rounds leaf c).
Proof.
  induction rounds as [| rounds IH]; intros c; cbn [stream_rest]; keeps_tac.
Qed.
#[local] Hint Resolve keeps_stream_rest : keeps.

Lemma keeps_write_updated_leaf_to_new_tree n rank upd :
  keeps I (write_updated_leaf_to_new_tree n rank upd).
Proof. unfold write_updated_leaf_to_new_tree. keeps_tac. Qed.
#[local] Hint Resolve keeps_write_updated_leaf_to_new_tree : keeps.

Lemma keeps_update_leaf_in_current_tree slot upd :
  keeps I (update_leaf_in_current_tree slot upd).
Proof. unfold update_leaf_in_current_tree. keeps_tac. Qed.
#[local] Hint Resolve keeps_update_leaf_in_current_tree : keeps.

Lemma keeps_getWeightDelta upd_begin upd_end :
  keeps I (getWeightDelta upd_begin upd_end).
Proof. unfold getWeightDelta. keeps_tac. Qed.
#[local] Hint Resolve keeps_getWeightDelta : keeps.

Lemma keeps_scheduleSubTreeUpdate w mn mx b e :
  keeps I (scheduleSubTreeUpdate w mn mx b e).
Proof. unfold scheduleSubTreeUpdate. keeps_tac. Qed.
#[local] Hint Resolve keeps_scheduleSubTreeUpdate : keeps.

Lemma keeps_find_lower_in_batch lo hi key : keeps I (find_lower_in_batch lo hi key).
Proof. unfold find_lower_in_batch. keeps_tac. Qed.
#[local] Hint Resolve keeps_find_lower_in_batch : keeps.

Lemma keeps_distribute slots mn mx e :
  forall b acc, keeps I (distribute slots mn mx b e acc).
Proof.
  induction slots as [| s slots IH]; intros b acc; cbn [distribute]; keeps_tac.
Qed.
#[local] Hint Resolve keeps_distribute : keeps.

Lemma keeps_schedule_all slots level upd : keeps I (schedule_all slots level upd).
Proof. unfold schedule_all. keeps_tac. Qed.
#[local] Hint Resolve keeps_schedule_all : keeps.

Lemma keeps_clear_range range : keeps I (clear_range range).
Proof. induction range as [| s range IH]; cbn [clear_range]; keeps_tac. Qed.
#[local] Hint Resolve keeps_clear_range : keeps.

Section FrameLoops.
Variable update_rec :
  inner_node_data -> Z -> UpdateDescriptor -> bool -> M inner_node_data.
Hypothesis keeps_update_rec : forall s r d w, keeps I (update_rec s r d w).

Lemma keeps_updateSubTreesInRange range :
  forall rank rewrite_subtree,
    keeps I (updateSubTreesInRange update_rec range rank rewrite_subtree).
Proof.
  induction range as [| [s d] range IH]; intros rank rewrite_subtree;
    cbn [updateSubTreesInRange]; keeps_tac.
Qed.

Lemma keeps_rebalance_loop (rounds : nat) inner_level slots subtree_updates
    designated_treesize :
  forall in_ result,
    keeps I (rebalance_loop update_rec rounds inner_level slots subtree_updates
               designated_treesize in_ result).
Proof.
  pose proof keeps_updateSubTreesInRange as Hrange.
  induction rounds as [| rounds IH]; intros in_ result;
    cbn [rebalance_loop]; keeps_tac.
Qed.
End FrameLoops.

Lemma keeps_update (depth : nat) :
  forall slot rank upd rewrite_subtree,
    keeps I (update depth slot rank upd rewrite_subtree).
Proof.
  induction depth as [| depth IH]; intros slot rank upd rewrite_subtree;
    cbn [update]; [keeps_tac |].
  pose proof (keeps_updateSubTreesInRange _ IH) as Hrange.
  pose proof (keeps_rebalance_loop _ IH) as Hloop.
  keeps_tac.
Qed.
#[local] Hint Resolve keeps_update : keeps.

Lemma keeps_size : keeps I size.
Proof. unfold size. keeps_tac. Qed.
#[local] Hint Resolve keeps_size : keeps.
(** From its third step on, a run of [apply_updates] keeps what the
    writes of the update keep. *)
Lemma apply_updates_keeps ups bt (t t' : btree) wd new_size :
  setOperationsAndComputeWeightDelta_pure (itemcount (stats t)) (weightdelta t) ups bt
    = Ok (wd, new_size) ->
  I (set_stats (set_itemcount new_size (stats t)) (set_batch ups bt wd t)) ->
  apply_updates ups bt t = Ok (tt, t') ->
  I t'.
Proof.
  intros Hpure Hstart Hrun. unfold apply_updates in Hrun.
  rewrite M_bind_run in Hrun.
  unfold setOperationsAndComputeWeightDelta in Hrun at 1.
  rewrite M_bind_run in Hrun. cbn [get] in Hrun.
  rewrite M_bind_run in Hrun. rewrite Hpure in Hrun. cbn [lift] in Hrun.
  rewrite M_bind_run in Hrun. cbn [modify mret M_ret] in Hrun.
  rewrite M_bind_run in Hrun. cbn [modify] in Hrun.
  match type of Hrun with
  | ?m ?t2 = _ => assert (Hkeeps : keeps I m) by keeps_tac;
                  specialize (Hkeeps t2 Hstart); rewrite Hrun in Hkeeps
  end.
  exact Hkeeps.
Qed.
End Frame.


Lemma weightdelta_loop_length {key_type : Type} (rest : list (Operation key_type)) :
  forall i val wd wd',
    weightdelta_loop rest i val wd = Ok wd' -> length wd' = length wd.
Proof.
  induction rest as [| op rest IH]; intros i val wd wd' Hrun.
  - injection Hrun as <-. reflexivity.
  - cbn [weightdelta_loop] in Hrun. cbv zeta in Hrun.
    apply result_bind_ok in Hrun as (wd1 & Hset & Hrun).
    unfold array_set in Hset.
    destruct (S i <? length wd)%nat; [| discriminate].
    injection Hset as <-. rewrite (IH _ _ _ _ Hrun). apply length_insert.
Qed.

(** The new size that [setOperationsAndComputeWeightDelta] computes: the
    old size and the sum of the operation types, as a [size_type]. *)
Lemma new_size_delta_sum {key_type : Type} (size : Z) wd
    (ups : list (Operation key_type)) bt wd' new_size :
  Z.of_nat (length ups) < 2 ^ 63 ->
  (bt <> INSERTS_AND_DELETES ->
   Forall (fun op => OpType_value (type op) = OperationBatchType_value bt) ups) ->
  setOperationsAndComputeWeightDelta_pure size wd ups bt = Ok (wd', new_size) ->
  new_size = to_size_type (size + delta_sum ups).
Proof.
  intros Hlen Hpure Hrun.
  assert (Hwrap : forall v, to_size_type (size + Z.of_nat (length ups) * to_size_type v)
                            = to_size_type (size + Z.of_nat (length ups) * v)).
  { intros v. unfold to_size_type, wrap_unsigned.
    rewrite Zplus_mod, Zmult_mod_idemp_r, <- Zplus_mod. reflexivity. }
  destruct bt.
  - cbn in Hrun. injection Hrun as _ <-.
    rewrite (delta_sum_pure ups 1) by (apply Hpure; discriminate).
    apply Hwrap.
  - cbn in Hrun. injection Hrun as _ <-.
    rewrite (delta_sum_pure ups (-1)) by (apply Hpure; discriminate).
    apply Hwrap.
  - pose proof Hrun as Hrun'.
    unfold setOperationsAndComputeWeightDelta_pure in Hrun'.
    apply result_bind_ok in Hrun' as (wd0 & Hset & Hrun').
    apply result_bind_ok in Hrun' as (wd1 & Hloop & Hrun').
    apply result_bind_ok in Hrun' as (last & Hlast & _).
    unfold array_set in Hset.
    destruct (0 <? length wd)%nat; [| discriminate].
    injection Hset as <-.
    apply weightdelta_loop_length in Hloop. rewrite length_insert in Hloop.
    unfold array_get, of_option in Hlast.
    destruct (wd1 !! length ups) eqn:Hlook; [| discriminate].
    apply lookup_lt_Some in Hlook. rewrite Hloop in Hlook.
    destruct (setOperationsAndComputeWeightDelta_mixed size wd ups Hlook Hlen)
      as (wd2 & Hspec & _).
    rewrite Hspec in Hrun. injection Hrun as _ <-. reflexivity.
Qed.

(** X16: after a run of [apply_updates] that returns, [size()] is the old
    size plus the number of INSERT operations less the number of DELETE
    operations of the batch (as a [size_type]), and the tree still holds
    the batch and its type: nothing past the first two steps writes the
    item count or the batch.  The batch is shorter than [2^63] and, if its
    type promises inserts only or deletes only, holds no other operation. *)
Theorem apply_updates_size `{traits : btree_traits} `{flags : build_flags}
    `{lm : libm}
    (ups : list (Operation key_type)) (bt : OperationBatchType) (t t' : btree) :
  Z.of_nat (length ups) < 2 ^ 63 ->
  (bt <> INSERTS_AND_DELETES ->
   Forall (fun op => OpType_value (type op) = OperationBatchType_value bt) ups) ->
  apply_updates ups bt t = Ok (tt, t') ->
  itemcount (stats t')
  = to_size_type (itemcount (stats t) + (count_inserts ups - count_deletes ups))
  /\ updates t' = ups
  /\ batch_type t' = bt.
Proof.
  intros Hlen Hpure Hrun.
  destruct (setOperationsAndComputeWeightDelta_pure
              (itemcount (stats t)) (weightdelta t) ups bt)
    as [[wd new_size] | e] eqn:Hset.
  - pose proof (new_size_delta_sum _ _ _ _ _ _ Hlen Hpure Hset) as Hsize.
    assert (Hstate : batch_state new_size ups bt wd t').
    { apply (apply_updates_keeps (batch_state new_size ups bt wd))
        with (ups := ups) (bt := bt) (t := t) (wd := wd) (new_size := new_size);
        try (intros ? ? Hkept; exact Hkept); try assumption.
      repeat split. }
    destruct Hstate as (Hcount & Hups & Hbt & _).
    rewrite Hcount, Hsize, delta_sum_counts. repeat split; assumption.
  - unfold apply_updates in Hrun. rewrite M_bind_run in Hrun.
    unfold setOperationsAndComputeWeightDelta in Hrun at 1.
    rewrite M_bind_run in Hrun. cbn [get] in Hrun.
    rewrite M_bind_run in Hrun. rewrite Hset in Hrun. discriminate Hrun.
Qed.

Lemma apply_updates_size_witness :
  exists t',
    @apply_updates traits_8_8 debug_flags glibc_log
      [mkOperation DELETE (entry 9 9 2); mkOperation DELETE (entry 10 10 1)]
      DELETES_ONLY frontier_tree
      = Ok (tt, t')
    /\ itemcount (stats t') = 8
    /\ updates t'
       = [mkOperation DELETE (entry 9 9 2); mkOperation DELETE (entry 10 10 1)]
    /\ batch_type t' = DELETES_ONLY.
Proof.
  destruct (@apply_updates traits_8_8 debug_flags glibc_log
              [mkOperation DELETE (entry 9 9 2); mkOperation DELETE (entry 10 10 1)]
              DELETES_ONLY frontier_tree)
    as [[[] t'] | e] eqn:Hrun; [| vm_compute in Hrun; discriminate Hrun].
  exists t'. split; [reflexivity |].
  apply (@apply_updates_size traits_8_8 debug_flags) in Hrun.
  - exact Hrun.
  - vm_compute. reflexivity.
  - intros _. repeat constructor.
Defined.


(** ** The two variants of [find_lower] *)

Lemma partitioned_unique {key_type : Type} `{Compare key_type}
    (keys : list key_type) (key : key_type) (lo r1 r2 hi : Z) :
  0 <= lo -> hi <= Z.of_nat (length keys) ->
  partitioned keys key lo r1 hi -> partitioned keys key lo r2 hi -> r1 = r2.
Proof.
  intros Hlo Hhi (Hr1 & Hbelow1 & Habove1) (Hr2 & Hbelow2 & Habove2).
  destruct (Z.lt_trichotomy r1 r2) as [Hlt | [Heq | Hgt]]; [| exact Heq |].
  - destruct (lookup_lt_is_Some_2 keys (Z.to_nat r1) ltac:(lia)) as [k Hk].
    pose proof (Hbelow2 r1 k ltac:(lia) Hk) as Hfalse.
    pose proof (Habove1 r1 k ltac:(lia) Hk) as Htrue. congruence.
  - destruct (lookup_lt_is_Some_2 keys (Z.to_nat r2) ltac:(lia)) as [k Hk].
    pose proof (Hbelow1 r2 k ltac:(lia) Hk) as Hfalse.
    pose proof (Habove2 r2 k ltac:(lia) Hk) as Htrue. congruence.
Qed.

(** X17: on a batch in ascending key order the binary search of the
    parallel tree and the binary search of the sequential tree return the
    same position for every range and key, provided the range starts the
    batch or the operation before the range has a key that is not above
    the searched key (the parallel search reads that operation, the
    sequential one does not). *)
Theorem find_lower_variants_agree {key_type : Type} `{StrictTotalOrder key_type}
    (us : list (Operation key_type)) (key : key_type) (begin end_ : Z) :
  ascending (map data us) ->
  0 <= begin <= end_ -> end_ <= Z.of_nat (length us) -> end_ < 2 ^ 30 ->
  (begin = 0
   \/ exists k, map data us !! Z.to_nat (begin - 1) = Some k
                /\ key_less key k = false) ->
  ParallelTree.find_lower us begin end_ key
  = find_lower (array_get_Z UpdateIndexOutOfRange us) begin end_ key.
Proof.
  intros Hasc Hb He Hsmall Hbefore.
  destruct (search_spec (map data us) (ParallelTree.update_key_at us) key
              (update_key_at_keys us) Hasc begin end_ Hb
              ltac:(rewrite length_map; exact He) Hsmall Hbefore)
    as (r1 & Hrun1 & Hpart1).
  destruct (find_lower_loop_spec us key Hasc begin end_ 63 begin end_)
    as (r2 & Hrun2 & Hpart2); try lia.
  unfold ParallelTree.find_lower, find_lower.
  rewrite (to_int_small begin), (to_int_to_size_type (end_ - 1)) by lia.
  rewrite (to_int_small end_) by lia.
  rewrite Hrun1, Hrun2. f_equal.
  apply (partitioned_unique (map data us) key begin r1 r2 end_);
    [lia | rewrite length_map; exact He | exact Hpart1 | exact Hpart2].
Qed.

Lemma find_lower_variants_agree_witness :
  ParallelTree.find_lower ten_inserts 3 8 (entry 5 5 95)
  = find_lower (array_get_Z UpdateIndexOutOfRange ten_inserts) 3 8 (entry 5 5 95).
Proof.
  apply (find_lower_variants_agree ten_inserts (entry 5 5 95) 3 8).
  - apply sorted_is_ascending. vm_compute. repeat constructor.
  - lia.
  - vm_compute. discriminate.
  - lia.
  - right. exists (entry 3 3 97). split; reflexivity.
Defined.


(** ** Handing the batch to the subtrees *)

Lemma M_bind_ok {A B} (m : M A) (f : A -> M B) (t t' : btree) (b : B) :
  (m ≫= f) t = Ok (b, t') ->
  exists a t1, m t = Ok (a, t1) /\ f a t1 = Ok (b, t').
Proof.
  rewrite M_bind_run. destruct (m t) as [[a t1] | e]; [| discriminate].
  intros Hf. exists a, t1. split; [reflexivity | exact Hf].
Qed.

Lemma lift_ok {A} (r : result A) (t t' : btree) (a : A) :
  lift r t = Ok (a, t') -> r = Ok a /\ t' = t.
Proof.
  unfold lift. destruct r as [a' | e]; [| discriminate].
  intros [= <- <-]. split; reflexivity.
Qed.

Lemma getWeightDelta_state (b e : Z) (t t' : btree) (delta : Z) :
  getWeightDelta b e t = Ok (delta, t') -> t' = t.
Proof.
  unfold getWeightDelta. rewrite M_bind_run. cbn [get].
  destruct ((b <? 0) || (e <? 0)); [discriminate |].
  intros Hrun. apply lift_ok in Hrun as [_ ->]. reflexivity.
Qed.

Section Scheduling.
Context `{traits : btree_traits}.

Lemma scheduleSubTreeUpdate_run (s : inner_node_data) (mn mx b e : Z)
    (t t' : btree) (d : UpdateDescriptor) :
  scheduleSubTreeUpdate (weight s) mn mx b e t = Ok (d, t') ->
  t' = t /\ upd_begin d = b /\ upd_end d = e /\ scheduled t mn mx s d.
Proof.
  unfold scheduleSubTreeUpdate. intros Hrun.
  apply M_bind_ok in Hrun as (delta & t1 & Hdelta & Hrun).
  pose proof (getWeightDelta_state _ _ _ _ _ Hdelta) as ->.
  cbv zeta in Hrun. injection Hrun as <- <-.
  split; [reflexivity |]. split; [reflexivity |]. split; [reflexivity |].
  exists delta. cbn [upd_begin upd_end upd_weight rebalancing_needed].
  split; [exact Hdelta |]. split; reflexivity.
Qed.

Lemma find_lower_in_batch_state (lo hi : Z) (key : key_type) (t t' : btree) (r : Z) :
  find_lower_in_batch lo hi key t = Ok (r, t') -> t' = t.
Proof.
  unfold find_lower_in_batch. intros Hrun.
  apply M_bind_ok in Hrun as (us & t1 & [= <- <-] & Hrun).
  apply M_bind_ok in Hrun as (r' & t1 & Hlift & Hrun).
  apply lift_ok in Hlift as [_ ->]. injection Hrun as _ <-. reflexivity.
Qed.

Lemma chained_app (b m e : Z) (ds1 ds2 : list UpdateDescriptor) :
  chained b ds1 m -> chained m ds2 e -> chained b (ds1 ++ ds2) e.
Proof.
  revert b. induction ds1 as [| d ds1 IH]; intros b H1 H2.
  - cbn in H1. subst m. exact H2.
  - destruct H1 as [Hb H1]. split; [exact Hb |]. apply IH; assumption.
Qed.

Lemma distribute_cons (mn mx e : Z) s slots b acc :
  distribute (s :: slots) mn mx b e acc
  = (subupd_end ← find_lower_in_batch b e (slotkey s);
     d ← scheduleSubTreeUpdate (weight s) mn mx b subupd_end;
     distribute slots mn mx subupd_end e (acc ++ [d])).
Proof. reflexivity. Qed.

Lemma distribute_run (mn mx e : Z) (slots : list inner_node_data) :
  forall b acc ds b' (t t' : btree),
    distribute slots mn mx b e acc t = Ok ((ds, b'), t') ->
    t' = t
    /\ exists new, ds = acc ++ new
                   /\ Forall2 (scheduled t mn mx) slots new
                   /\ chained b new b'.
Proof.
  induction slots as [| s slots IH]; intros b acc ds b' t t' Hrun.
  - injection Hrun as <- <- <-. split; [reflexivity |].
    exists []. rewrite app_nil_r. split; [reflexivity |].
    split; [constructor | reflexivity].
  - rewrite distribute_cons in Hrun.
    apply M_bind_ok in Hrun as (subupd_end & t1 & Hfind & Hrun).
    pose proof (find_lower_in_batch_state _ _ _ _ _ _ Hfind) as ->.
    apply M_bind_ok in Hrun as (d & t1 & Hsched & Hrun).
    apply scheduleSubTreeUpdate_run in Hsched as (-> & Hb & He & Hd).
    apply IH in Hrun as (-> & new & -> & Hnew & Hchain).
    split; [reflexivity |]. exists (d :: new).
    split; [symmetry; apply (app_assoc acc [d] new) |].
    split; [apply Forall2_cons; split; [exact Hd | exact Hnew] |].
    split; [exact Hb |]. rewrite He. exact Hchain.
Qed.

Lemma schedule_all_run (slots : list inner_node_data) (level : nat)
    (upd : UpdateDescriptor) (t t' : btree) (ds : list UpdateDescriptor) :
  Z.of_nat (length slots) < 2 ^ 16 ->
  schedule_all slots level upd t = Ok (ds, t') ->
  t' = t
  /\ Forall2 (scheduled t (minweight (to_level_type (Z.of_nat level - 1)))
                        (maxweight (to_level_type (Z.of_nat level - 1))))
             slots ds
  /\ chained (upd_begin upd) ds (upd_end upd)
  /\ ds <> [].
Proof.
  intros Hlen Hrun. unfold schedule_all in Hrun. cbv zeta in Hrun.
  destruct (Z.leb_spec (Z.of_nat (length slots))
              (to_width_type (Z.of_nat (length slots) - 1))) as [Hle | Hgt];
    [discriminate |].
  assert (Hpos : (1 <= length slots)%nat).
  { destruct slots; [| cbn; lia]. cbn in Hgt. vm_compute in Hgt. discriminate. }
  unfold to_width_type in Hrun. rewrite wrap_unsigned_small in Hrun by lia.
  apply M_bind_ok in Hrun as ([ds0 b0] & t1 & Hdist & Hrun).
  apply distribute_run in Hdist as (-> & new & -> & Hnew & Hchain).
  apply M_bind_ok in Hrun as (last_slot & t1 & Hlast & Hrun).
  apply lift_ok in Hlast as [Hlast ->].
  apply M_bind_ok in Hrun as (d & t1 & Hsched & Hrun).
  apply scheduleSubTreeUpdate_run in Hsched as (-> & Hb & He & Hd).
  injection Hrun as <- <-. cbn [app].
  unfold array_get_Z in Hlast.
  destruct (Z.ltb_spec (Z.of_nat (length slots) - 1) 0); [lia |].
  unfold array_get, of_option in Hlast.
  destruct (slots !! Z.to_nat (Z.of_nat (length slots) - 1)) as [y |] eqn:Hlook;
    [| discriminate].
  injection Hlast as ->.
  split; [reflexivity |]. split; [| split].
  - rewrite <- (take_drop (Z.to_nat (Z.of_nat (length slots) - 1)) slots) at 1.
    apply Forall2_app; [exact Hnew |].
    rewrite (drop_S _ _ _ Hlook).
    rewrite drop_ge by lia. constructor; [exact Hd | constructor].
  - apply (chained_app _ b0); [exact Hchain |].
    split; [exact Hb |]. cbn. exact He.
  - intros Hnil. apply app_eq_nil in Hnil as [_ Hnil]. discriminate.
Qed.
(** *** Scheduling succeeds

    On a batch in ascending order, for a range of the batch below [2^30]
    and with the prefix sums of a mixed batch in their storage, every step
    of the scheduling is defined. *)
Lemma find_lower_in_batch_total (lo hi : Z) (key : key_type) (t : btree) :
  ascending (map data (updates t)) ->
  0 <= lo <= hi -> hi <= Z.of_nat (length (updates t)) -> hi < 2 ^ 30 ->
  exists r,
    find_lower_in_batch lo hi key t = Ok (r, t)
    /\ partitioned (map data (updates t)) key lo r hi.
Proof.
  intros Hasc Hlo Hhi Hsmall. unfold find_lower_in_batch.
  rewrite M_bind_run. cbn [gets]. rewrite M_bind_run.
  unfold find_lower. rewrite (to_int_small lo), (to_int_small hi) by lia.
  destruct (find_lower_loop_spec (updates t) key Hasc lo hi 63 lo hi)
    as (r & Hrun & Hpart); try lia.
  rewrite Hrun. cbn [lift]. exists r. split; [| exact Hpart].
  destruct Hpart as [Hr _]. unfold mret, M_ret.
  rewrite to_size_type_small by lia. reflexivity.
Qed.

Lemma getWeightDelta_total (b e : Z) (t : btree) :
  0 <= b <= e -> e <= Z.of_nat (length (updates t)) ->
  delta_stored t ->
  exists delta, getWeightDelta b e t = Ok (delta, t).
Proof.
  intros Hb He Hstored. unfold getWeightDelta. rewrite M_bind_run. cbn [get].
  destruct (Z.ltb_spec b 0); [lia |]. destruct (Z.ltb_spec e 0); [lia |].
  cbn [orb]. unfold getWeightDelta_pure, delta_stored in *.
  destruct (batch_type t); try (eexists; reflexivity).
  specialize (Hstored eq_refl).
  destruct (lookup_lt_is_Some_2 (weightdelta t) (Z.to_nat e) ltac:(lia)) as [x Hx].
  destruct (lookup_lt_is_Some_2 (weightdelta t) (Z.to_nat b) ltac:(lia)) as [y Hy].
  unfold array_get. rewrite Hx, Hy. eexists. reflexivity.
Qed.

Lemma scheduleSubTreeUpdate_total (w mn mx b e : Z) (t : btree) :
  0 <= b <= e -> e <= Z.of_nat (length (updates t)) ->
  delta_stored t ->
  exists d, scheduleSubTreeUpdate w mn mx b e t = Ok (d, t).
Proof.
  intros Hb He Hstored.
  destruct (getWeightDelta_total b e t Hb He Hstored) as [delta Hdelta].
  unfold scheduleSubTreeUpdate. rewrite M_bind_run, Hdelta.
  eexists. reflexivity.
Qed.

Lemma distribute_total (mn mx e : Z) (slots : list inner_node_data) (t : btree) :
  ascending (map data (updates t)) ->
  e <= Z.of_nat (length (updates t)) -> e < 2 ^ 30 ->
  delta_stored t ->
  forall b acc,
    0 <= b <= e ->
    exists ds b',
      distribute slots mn mx b e acc t = Ok ((ds, b'), t) /\ b <= b' <= e.
Proof.
  intros Hasc He Hsmall Hstored.
  induction slots as [| s slots IH]; intros b acc Hb.
  - exists acc, b. split; [reflexivity | lia].
  - rewrite distribute_cons.
    destruct (find_lower_in_batch_total b e (slotkey s) t Hasc Hb He Hsmall)
      as (r & Hfind & Hr & _).
    rewrite M_bind_run, Hfind.
    destruct (scheduleSubTreeUpdate_total (weight s) mn mx b r t
                ltac:(lia) ltac:(lia) Hstored) as [d Hd].
    rewrite M_bind_run, Hd.
    destruct (IH r (acc ++ [d]) ltac:(lia)) as (ds & b' & Hrun & Hb').
    exists ds, b'. split; [exact Hrun | lia].
Qed.

Lemma schedule_all_total (slots : list inner_node_data) (level : nat)
    (upd : UpdateDescriptor) (t : btree) :
  1 <= Z.of_nat (length slots) < 2 ^ 16 ->
  ascending (map data (updates t)) ->
  0 <= upd_begin upd <= upd_end upd ->
  upd_end upd <= Z.of_nat (length (updates t)) -> upd_end upd < 2 ^ 30 ->
  delta_stored t ->
  exists ds, schedule_all slots level upd t = Ok (ds, t).
Proof.
  intros Hlen Hasc Hb He Hsmall Hstored. unfold schedule_all. cbv zeta.
  rewrite (to_width_type_small (Z.of_nat (length slots) - 1)) by lia.
  destruct (Z.leb_spec (Z.of_nat (length slots)) (Z.of_nat (length slots) - 1));
    [lia |].
  destruct (distribute_total (minweight (to_level_type (Z.of_nat level - 1)))
              (maxweight (to_level_type (Z.of_nat level - 1))) (upd_end upd)
              (take (Z.to_nat (Z.of_nat (length slots) - 1)) slots) t
              Hasc He Hsmall Hstored (upd_begin upd) [] Hb)
    as (ds & b' & Hdist & Hb').
  rewrite M_bind_run, Hdist.
  destruct (lookup_lt_is_Some_2 slots (Z.to_nat (Z.of_nat (length slots) - 1))
              ltac:(lia)) as [last_slot Hlast].
  rewrite M_bind_run. unfold array_get_Z.
  destruct (Z.ltb_spec (Z.of_nat (length slots) - 1) 0); [lia |].
  unfold array_get. rewrite Hlast. cbn [of_option lift].
  destruct (scheduleSubTreeUpdate_total (weight last_slot)
              (minweight (to_level_type (Z.of_nat level - 1)))
              (maxweight (to_level_type (Z.of_nat level - 1)))
              b' (upd_end upd) t ltac:(lia) ltac:(lia) Hstored) as [d Hd].
  rewrite M_bind_run, Hd. eexists. reflexivity.
Qed.
End Scheduling.

(** X18: on a batch in ascending key order, [update] hands the range of
    the batch of an inner node to its subtrees piece by piece: for a node
    with at least one and fewer than [2^16] slots and a range of the batch
    that ends below [2^30] (with the prefix sums of a mixed batch in their
    storage), the scheduling completes and writes one descriptor per slot;
    the first begins where the range of the node begins, each begins where
    the one before it ends and the last ends where the range of the node
    ends, so every operation of the range goes to one subtree.  Scheduling
    leaves the tree as it is. *)
Theorem schedule_all_partitions_range `{traits : btree_traits}
    (slots : list inner_node_data) (level : nat) (upd : UpdateDescriptor)
    (t : btree) :
  1 <= Z.of_nat (length slots) < 2 ^ 16 ->
  ascending (map data (updates t)) ->
  0 <= upd_begin upd <= upd_end upd ->
  upd_end upd <= Z.of_nat (length (updates t)) -> upd_end upd < 2 ^ 30 ->
  delta_stored t ->
  exists ds,
    schedule_all slots level upd t = Ok (ds, t)
    /\ length ds = length slots
    /\ chained (upd_begin upd) ds (upd_end upd).
Proof.
  intros Hlen Hasc Hb He Hsmall Hstored.
  destruct (schedule_all_total slots level upd t Hlen Hasc Hb He Hsmall Hstored)
    as [ds Hrun].
  destruct (schedule_all_run slots level upd t t ds ltac:(lia) Hrun)
    as (_ & Hall & Hchain & _).
  exists ds. split; [exact Hrun |]. split; [| exact Hchain].
  symmetry. exact (Forall2_length _ _ _ Hall).
Qed.

Lemma schedule_all_partitions_range_witness :
  exists ds,
    @schedule_all traits_8_8 frontier_slots 1
      (mk_UpdateDescriptor false 20 0 10) frontier_tree = Ok (ds, frontier_tree)
    /\ length ds = length frontier_slots
    /\ chained 0 ds 10.
Proof.
  apply (@schedule_all_partitions_range traits_8_8 frontier_slots 1
           (mk_UpdateDescriptor false 20 0 10) frontier_tree).
  - vm_compute. split; [discriminate | reflexivity].
  - apply sorted_is_ascending. vm_compute. repeat constructor.
  - cbn. lia.
  - vm_compute. discriminate.
  - cbn. lia.
  - intros Hmixed. vm_compute in Hmixed. discriminate Hmixed.
Defined.


(** *** The scheduled weights add up *)

Lemma to_size_type_repr (x : Z) : exists k, to_size_type x = x + k * 2 ^ 64.
Proof.
  exists (- (x / 2 ^ 64)). unfold to_size_type, wrap_unsigned.
  pose proof (Z.div_mod x (2 ^ 64) ltac:(lia)). lia.
Qed.

Lemma to_signed_long_repr (x : Z) : exists k, to_signed_long x = x + k * 2 ^ 64.
Proof.
  exists (- ((x + 2 ^ 63) / 2 ^ 64)). unfold to_signed_long, wrap_signed.
  change (64 - 1) with 63.
  pose proof (Z.div_mod (x + 2 ^ 63) (2 ^ 64) ltac:(lia)). lia.
Qed.

Lemma to_size_type_congruent (a b k : Z) :
  a = b + k * 2 ^ 64 -> to_size_type a = to_size_type b.
Proof.
  intros ->. unfold to_size_type, wrap_unsigned. apply Z_mod_plus_full.
Qed.

Lemma getWeightDelta_chain (t : btree) (b m e delta1 delta2 : Z) :
  getWeightDelta b m t = Ok (delta1, t) ->
  getWeightDelta m e t = Ok (delta2, t) ->
  exists delta,
    getWeightDelta b e t = Ok (delta, t)
    /\ to_size_type delta = to_size_type (delta1 + delta2).
Proof.
  unfold getWeightDelta. rewrite !M_bind_run. cbn [get].
  destruct (Z.ltb_spec b 0) as [| Hb0]; [discriminate |].
  destruct (Z.ltb_spec m 0) as [| Hm0]; [discriminate |].
  destruct (Z.ltb_spec e 0) as [| He0]; [cbn; discriminate |].
  cbn [orb]. intros Hd1 Hd2.
  apply lift_ok in Hd1 as [Hd1 _]. apply lift_ok in Hd2 as [Hd2 _].
  unfold getWeightDelta_pure in *. destruct (batch_type t).
  - injection Hd1 as <-. injection Hd2 as <-. eexists. split; [reflexivity |].
    cbn [OperationBatchType_value].
    rewrite !Z2Nat.id by lia. rewrite (to_size_type_small 1) by lia.
    rewrite !Z.mul_1_r.
    destruct (to_size_type_repr (e - b)) as [k1 ->].
    destruct (to_size_type_repr (m - b)) as [k2 ->].
    destruct (to_size_type_repr (e - m)) as [k3 ->].
    destruct (to_size_type_repr (e - b + k1 * 2 ^ 64)) as [k4 ->].
    destruct (to_size_type_repr (m - b + k2 * 2 ^ 64)) as [k5 ->].
    destruct (to_size_type_repr (e - m + k3 * 2 ^ 64)) as [k6 ->].
    destruct (to_signed_long_repr (e - b + k1 * 2 ^ 64 + k4 * 2 ^ 64)) as [k7 ->].
    destruct (to_signed_long_repr (m - b + k2 * 2 ^ 64 + k5 * 2 ^ 64)) as [k8 ->].
    destruct (to_signed_long_repr (e - m + k3 * 2 ^ 64 + k6 * 2 ^ 64)) as [k9 ->].
    apply (to_size_type_congruent _ _ (k1 + k4 + k7 - k2 - k5 - k8 - k3 - k6 - k9)).
    lia.
  - injection Hd1 as <-. injection Hd2 as <-. eexists. split; [reflexivity |].
    cbn [OperationBatchType_value].
    rewrite !Z2Nat.id by lia.
    destruct (to_size_type_repr (-1)) as [j Hj]. rewrite Hj.
    destruct (to_size_type_repr (e - b)) as [k1 ->].
    destruct (to_size_type_repr (m - b)) as [k2 ->].
    destruct (to_size_type_repr (e - m)) as [k3 ->].
    destruct (to_size_type_repr ((e - b + k1 * 2 ^ 64) * (-1 + j * 2 ^ 64)))
      as [k4 ->].
    destruct (to_size_type_repr ((m - b + k2 * 2 ^ 64) * (-1 + j * 2 ^ 64)))
      as [k5 ->].
    destruct (to_size_type_repr ((e - m + k3 * 2 ^ 64) * (-1 + j * 2 ^ 64)))
      as [k6 ->].
    destruct (to_signed_long_repr
                ((e - b + k1 * 2 ^ 64) * (-1 + j * 2 ^ 64) + k4 * 2 ^ 64)) as [k7 ->].
    destruct (to_signed_long_repr
                ((m - b + k2 * 2 ^ 64) * (-1 + j * 2 ^ 64) + k5 * 2 ^ 64)) as [k8 ->].
    destruct (to_signed_long_repr
                ((e - m + k3 * 2 ^ 64) * (-1 + j * 2 ^ 64) + k6 * 2 ^ 64)) as [k9 ->].
    apply (to_size_type_congruent _ _
             ((e - b) * j - k1 + k1 * j * 2 ^ 64 + k4 + k7
              - ((m - b) * j - k2 + k2 * j * 2 ^ 64 + k5 + k8)
              - ((e - m) * j - k3 + k3 * j * 2 ^ 64 + k6 + k9))).
    ring.
  - apply result_bind_ok in Hd1 as (wm & Hm & Hd1).
    apply result_bind_ok in Hd1 as (wb & Hb & Hd1).
    apply result_bind_ok in Hd2 as (we & He & Hd2).
    apply result_bind_ok in Hd2 as (wm' & Hm' & Hd2).
    rewrite Hm in Hm'. injection Hm' as <-.
    injection Hd1 as <-. injection Hd2 as <-.
    rewrite He, Hb. cbn [mbind result_mbind result_bind].
    eexists. split; [reflexivity |].
    destruct (to_signed_long_repr (we - wb)) as [k1 ->].
    destruct (to_signed_long_repr (wm - wb)) as [k2 ->].
    destruct (to_signed_long_repr (we - wm)) as [k3 ->].
    apply (to_size_type_congruent _ _ (k1 - k2 - k3)). lia.
Qed.


Lemma to_size_type_eq_repr (a b : Z) :
  to_size_type a = to_size_type b -> exists k, a = b + k * 2 ^ 64.
Proof.
  destruct (to_size_type_repr a) as [k1 ->].
  destruct (to_size_type_repr b) as [k2 ->].
  intros Heq. exists (k2 - k1). lia.
Qed.

Lemma scheduled_sum (t : btree) (mn mx : Z) (slots : list inner_node_data)
    (ds : list UpdateDescriptor) :
  Forall2 (scheduled t mn mx) slots ds ->
  forall b e,
    chained b ds e -> ds <> [] ->
    exists delta,
      getWeightDelta b e t = Ok (delta, t)
      /\ to_size_type (weight_sum (map upd_weight ds))
         = to_size_type (weight_sum (map weight slots) + delta).
Proof.
  induction 1 as [| s d slots ds (delta1 & Hdelta1 & Hweight & _) Hrest IH];
    intros b e Hchain Hne; [congruence |].
  destruct Hchain as [Hb Hchain]. rewrite Hb in Hdelta1.
  cbn [map weight_sum fold_right]. fold (weight_sum (map upd_weight ds)).
  fold (weight_sum (map weight slots)). rewrite Hweight.
  destruct (to_size_type_repr (weight s + delta1)) as [k1 ->].
  destruct ds as [| d2 ds].
  - apply Forall2_nil_inv_r in Hrest as ->. cbn in Hchain. subst e.
    exists delta1. split; [exact Hdelta1 |].
    apply (to_size_type_congruent _ _ k1). cbn. lia.
  - destruct (IH (upd_end d) e Hchain ltac:(discriminate))
      as (delta2 & Hdelta2 & Hsum).
    destruct (getWeightDelta_chain t b (upd_end d) e delta1 delta2 Hdelta1 Hdelta2)
      as (delta & Hdelta & Hcong).
    exists delta. split; [exact Hdelta |].
    apply to_size_type_eq_repr in Hsum as [k2 Hsum].
    apply to_size_type_eq_repr in Hcong as [k3 Hcong].
    rewrite Hsum, Hcong.
    apply (to_size_type_congruent _ _ (k1 + k2 - k3)). lia.
Qed.

(** X19: under the conditions of X18 (a batch in ascending key order, a
    node with at least one and fewer than [2^16] slots, a range of the
    batch that ends below [2^30], the prefix sums of a mixed batch in their
    storage) the scheduling completes, and the weights that it schedules
    for the subtrees add up, as [size_type] values, to the weights of the
    slots plus the weight delta of the range of the batch that the node
    receives. *)
Theorem schedule_all_conserves_weight `{traits : btree_traits}
    (slots : list inner_node_data) (level : nat) (upd : UpdateDescriptor)
    (t : btree) :
  1 <= Z.of_nat (length slots) < 2 ^ 16 ->
  ascending (map data (updates t)) ->
  0 <= upd_begin upd <= upd_end upd ->
  upd_end upd <= Z.of_nat (length (updates t)) -> upd_end upd < 2 ^ 30 ->
  delta_stored t ->
  exists ds delta,
    schedule_all slots level upd t = Ok (ds, t)
    /\ getWeightDelta (upd_begin upd) (upd_end upd) t = Ok (delta, t)
    /\ to_size_type (weight_sum (map upd_weight ds))
       = to_size_type (weight_sum (map weight slots) + delta).
Proof.
  intros Hlen Hasc Hb He Hsmall Hstored.
  destruct (schedule_all_total slots level upd t Hlen Hasc Hb He Hsmall Hstored)
    as [ds Hrun].
  destruct (schedule_all_run slots level upd t t ds ltac:(lia) Hrun)
    as (_ & Hall & Hchain & Hne).
  destruct (scheduled_sum t _ _ slots ds Hall _ _ Hchain Hne)
    as (delta & Hdelta & Hsum).
  exists ds, delta. split; [exact Hrun |]. split; [exact Hdelta | exact Hsum].
Qed.

Lemma schedule_all_conserves_weight_witness :
  exists ds delta,
    @schedule_all traits_8_8 frontier_slots 1
      (mk_UpdateDescriptor false 20 0 10) frontier_tree = Ok (ds, frontier_tree)
    /\ getWeightDelta 0 10 frontier_tree = Ok (delta, frontier_tree)
    /\ to_size_type (weight_sum (map upd_weight ds))
       = to_size_type (weight_sum (map weight frontier_slots) + delta).
Proof.
  apply (@schedule_all_conserves_weight traits_8_8 frontier_slots 1
           (mk_UpdateDescriptor false 20 0 10) frontier_tree).
  - vm_compute. split; [discriminate | reflexivity].
  - apply sorted_is_ascending. vm_compute. repeat constructor.
  - cbn. lia.
  - vm_compute. discriminate.
  - cbn. lia.
  - intros Hmixed. vm_compute in Hmixed. discriminate Hmixed.
Defined.


(** ** The runs of subtrees that are rebalanced together *)

Lemma scan_run_spec (designated_treesize : Z) (rest : list UpdateDescriptor) :
  forall (in_ : nat) (w : Z) (open : bool) in' w' open',
    scan_run rest in_ w open designated_treesize = (in', w', open') ->
    (in_ <= in' <= in_ + length rest)%nat
    /\ open' = open || (in_ <? in')%nat
    /\ to_size_type w'
       = to_size_type (w + weight_sum (map upd_weight (take (in' - in_) rest)))
    /\ (in' = in_ -> w' = w)
    /\ ((in_ < in')%nat -> 0 <= w' < 2 ^ 64)
    /\ (open = false -> (in_ < in')%nat ->
        exists d0, rest !! 0%nat = Some d0 /\ rebalancing_needed d0 = true)
    /\ (forall d1, rest !! (in' - in_)%nat = Some d1 ->
          rebalancing_needed d1 = false
          /\ (open' = false \/ w' = 0 \/ designated_treesize <= w')).
Proof.
  induction rest as [| d rest IH]; intros in_ w open in' w' open' Hrun.
  - injection Hrun as <- <- <-.
    rewrite Nat.sub_diag, Nat.ltb_irrefl, orb_false_r, Z.add_0_r.
    split; [cbn [length]; lia |]. split; [reflexivity |]. split; [reflexivity |].
    split; [reflexivity |]. split; [lia |]. split; [lia |].
    intros d1 Hd1. discriminate.
  - cbn [scan_run] in Hrun.
    destruct (rebalancing_needed d
              || open && negb (w =? 0) && (w <? designated_treesize)) eqn:Hcond.
    + apply IH in Hrun as (Hin & Hopen & Hsum & Hsame & Hrange & _ & Hstop).
      assert (Hlt : (in_ < in')%nat) by lia.
      replace (in' - in_)%nat with (S (in' - S in_)) by lia.
      split; [cbn [length]; lia |]. split.
      { rewrite Hopen. apply Nat.ltb_lt in Hlt. rewrite Hlt, orb_true_r.
        reflexivity. }
      split.
      { rewrite Hsum. cbn [take map weight_sum fold_right].
        fold (weight_sum (map upd_weight (take (in' - S in_) rest))).
        rewrite to_size_type_add_l. f_equal. lia. }
      split; [lia |]. split.
      { intros _. destruct (Nat.lt_ge_cases (S in_) in') as [Hmore | Hdone];
          [apply Hrange; exact Hmore |].
        rewrite Hsame by lia. apply to_size_type_range. }
      split.
      { intros -> _. exists d. split; [reflexivity |].
        cbn [andb] in Hcond. rewrite orb_false_r in Hcond. exact Hcond. }
      intros d1 Hd1. cbn [lookup] in Hd1. apply Hstop. exact Hd1.
    + injection Hrun as <- <- <-.
      rewrite Nat.sub_diag, Nat.ltb_irrefl, orb_false_r.
      cbn [take map weight_sum fold_right]. rewrite Z.add_0_r.
      split; [cbn [length]; lia |]. split; [reflexivity |]. split; [reflexivity |].
      split; [reflexivity |]. split; [lia |]. split; [lia |].
      intros d1 [= <-]. apply orb_false_elim in Hcond as [Hd Hcond].
      split; [exact Hd |].
      destruct open; [| left; reflexivity]. right.
      cbn [andb] in Hcond. apply andb_false_iff in Hcond as [Hzero | Hbig].
      * left. apply negb_false_iff in Hzero. apply Z.eqb_eq. exact Hzero.
      * right. apply Z.ltb_ge. exact Hbig.
Qed.


(** X20: the scan of [update] for a run of subtrees to rebalance, started
    at slot [in_] with the descriptors from there on: the run is the slots
    [in_ .. in'), the region is open exactly when the run is not empty, the
    first subtree of a run needs rebalancing, the weight of the run is the
    sum of the scheduled weights of its subtrees (as a [size_type]), and
    the subtree behind the run, if there is one, does not need rebalancing
    while the run is empty, has weight 0 or has reached the designated
    size of a subtree. *)
Theorem scan_run_maximal (rest : list UpdateDescriptor) (in_ : nat)
    (designated_treesize : Z) (in' : nat) (w : Z) (open : bool) :
  scan_run rest in_ 0 false designated_treesize = (in', w, open) ->
  (in_ <= in' <= in_ + length rest)%nat
  /\ open = (in_ <? in')%nat
  /\ w = to_size_type (weight_sum (map upd_weight (take (in' - in_) rest)))
  /\ (open = true ->
      exists d0, rest !! 0%nat = Some d0 /\ rebalancing_needed d0 = true)
  /\ (forall d1, rest !! (in' - in_)%nat = Some d1 ->
        rebalancing_needed d1 = false
        /\ (open = false \/ w = 0 \/ designated_treesize <= w)).
Proof.
  intros Hrun.
  apply scan_run_spec in Hrun
    as (Hin & Hopen & Hsum & Hsame & Hrange & Hfirst & Hstop).
  cbn [orb] in Hopen. rewrite Z.add_0_l in Hsum.
  split; [exact Hin |]. split; [exact Hopen |]. split; [| split].
  - destruct (Nat.eq_dec in' in_) as [-> | Hne].
    + rewrite (Hsame eq_refl), Nat.sub_diag. reflexivity.
    + rewrite <- Hsum. symmetry. apply to_size_type_small. apply Hrange. lia.
  - intros Htrue. apply (Hfirst eq_refl). apply Nat.ltb_lt. congruence.
  - exact Hstop.
Qed.

Lemma scan_run_maximal_witness :
  (0 <= 2 <= 0 + 3)%nat
  /\ true = (0 <? 2)%nat
  /\ 6 = to_size_type
           (weight_sum
              (map upd_weight
                 (take (2 - 0)
                    [mk_UpdateDescriptor true 1 0 2; mk_UpdateDescriptor false 5 2 2;
                     mk_UpdateDescriptor false 5 2 2])))
  /\ (true = true ->
      exists d0,
        [mk_UpdateDescriptor true 1 0 2; mk_UpdateDescriptor false 5 2 2;
         mk_UpdateDescriptor false 5 2 2] !! 0%nat = Some d0
        /\ rebalancing_needed d0 = true)
  /\ (forall d1,
        [mk_UpdateDescriptor true 1 0 2; mk_UpdateDescriptor false 5 2 2;
         mk_UpdateDescriptor false 5 2 2] !! (2 - 0)%nat = Some d1 ->
        rebalancing_needed d1 = false /\ (true = false \/ 6 = 0 \/ 5 <= 6)).
Proof.
  apply (scan_run_maximal
           [mk_UpdateDescriptor true 1 0 2; mk_UpdateDescriptor false 5 2 2;
            mk_UpdateDescriptor false 5 2 2] 0 5 2 6 true).
  reflexivity.
Defined.


(** ** The write position in the fresh leaves *)

(** X21: the position at which [write_updated_leaf_to_new_tree] starts to
    write the keys of rank [rank] on: with at least one fresh leaf it names
    one of the fresh leaves, and leaf number times designated leaf size
    plus offset is the rank.  The leaf is [rank / designated_leafsize]
    where that leaf exists; else it is the last fresh leaf, and the offset
    is at least the designated leaf size (the keys are squeezed in behind
    the designated fill).  The offset past the last leaf fits a
    [width_type]. *)
Theorem first_leaf_position_addresses_rank `{traits : btree_traits}
    (rank leaves_size leaf_number offset_in_leaf : Z) :
  2 <= leafparameter_k < 2 ^ 16 ->
  0 <= rank ->
  1 <= leaves_size < 2 ^ 64 ->
  rank - (leaves_size - 1) * designated_leafsize < 2 ^ 16 ->
  first_leaf_position rank leaves_size = (leaf_number, offset_in_leaf) ->
  0 <= leaf_number < leaves_size
  /\ leaf_number * designated_leafsize + offset_in_leaf = rank
  /\ (leaf_number = rank / designated_leafsize
      /\ 0 <= offset_in_leaf < designated_leafsize
      \/ leaf_number = leaves_size - 1
         /\ designated_leafsize <= offset_in_leaf).
Proof.
  intros Hk Hrank Hsize Hfits Hpos.
  destruct (designated_leafsize_bounds Hk) as (Hd1 & _ & _ & _ & Hd2).
  destruct (leaf_constants Hk) as (Hmax & _ & _).
  set (d := designated_leafsize) in *.
  assert (Hd : 1 <= d < 2 ^ 16) by lia.
  pose proof (Z.div_mod rank d ltac:(lia)) as Hdm.
  pose proof (Z.mod_pos_bound rank d ltac:(lia)) as Hmod.
  assert (Hq : 0 <= rank / d) by (apply Z.div_pos; lia).
  unfold first_leaf_position in Hpos. fold d in Hpos. cbv zeta in Hpos.
  destruct (Z.leb_spec leaves_size (rank / d)) as [Hpast | Hin].
  - rewrite (to_size_type_small (leaves_size - 1)) in Hpos by lia.
    assert (Hlow : leaves_size * d <= rank) by nia.
    rewrite (to_size_type_small (rank - (leaves_size - 1) * d)) in Hpos by nia.
    unfold to_width_type in Hpos. rewrite wrap_unsigned_small in Hpos by nia.
    injection Hpos as <- <-.
    split; [lia |]. split; [lia |]. right. split; [reflexivity | nia].
  - unfold to_width_type in Hpos. rewrite wrap_unsigned_small in Hpos by lia.
    injection Hpos as <- <-.
    split; [lia |]. split; [lia |]. left. split; [reflexivity | lia].
Qed.

Lemma first_leaf_position_addresses_rank_witness :
  0 <= 2 < 3
  /\ 2 * @designated_leafsize traits_8_8 + 7 = 17
  /\ (2 = 17 / @designated_leafsize traits_8_8
      /\ 0 <= 7 < @designated_leafsize traits_8_8
      \/ 2 = 3 - 1 /\ @designated_leafsize traits_8_8 <= 7).
Proof.
  apply (@first_leaf_position_addresses_rank traits_8_8 17 3 2 7).
  - vm_compute. split; [discriminate | reflexivity].
  - lia.
  - lia.
  - vm_compute. reflexivity.
  - vm_compute. reflexivity.
Defined.


(** ** The loops of the update end within their rounds *)

Lemma to_int_range (x : Z) : - 2 ^ 31 <= to_int x < 2 ^ 31.
Proof.
  unfold to_int, wrap_signed. change (32 - 1) with 31.
  pose proof (Z.mod_pos_bound (x + 2 ^ 31) (2 ^ 32) ltac:(lia)). lia.
Qed.

Lemma to_int_low (x : Z) : - 2 ^ 32 <= x < - 2 ^ 31 -> to_int x = x + 2 ^ 32.
Proof.
  intros Hx. unfold to_int, wrap_signed. change (32 - 1) with 31.
  replace (x + 2 ^ 31) with (x + 2 ^ 31 + 2 ^ 32 + (-1) * 2 ^ 32) by lia.
  rewrite Z_mod_plus_full, Z.mod_small by lia. lia.
Qed.

Lemma to_int_high (x : Z) : 2 ^ 31 <= x < 2 ^ 32 -> to_int x = x - 2 ^ 32.
Proof.
  intros Hx. unfold to_int, wrap_signed. change (32 - 1) with 31.
  replace (x + 2 ^ 31) with (x + 2 ^ 31 - 2 ^ 32 + 1 * 2 ^ 32) by lia.
  rewrite Z_mod_plus_full, Z.mod_small by lia. lia.
Qed.

Lemma in_rounds_bind {A B} (r : result A) (f : A -> result B) :
  in_rounds r -> (forall a, r = Ok a -> in_rounds (f a)) -> in_rounds (r ≫= f).
Proof.
  intros Hr Hf. destruct r as [a | e]; [apply Hf; reflexivity |].
  intros [= ->]. apply Hr. reflexivity.
Qed.

Lemma in_rounds_array_get {A} (e : error) (arr : list A) (i : nat) :
  e <> OutOfFuel -> in_rounds (array_get e arr i).
Proof. intros He Hrun. apply array_get_error in Hrun. congruence. Qed.

Lemma in_rounds_array_get_Z {A} (e : error) (arr : list A) (i : Z) :
  e <> OutOfFuel -> in_rounds (array_get_Z e arr i).
Proof. intros He Hrun. apply array_get_Z_error in Hrun. congruence. Qed.

Lemma in_rounds_array_set {A} (e : error) (arr : list A) (i : nat) (x : A) :
  e <> OutOfFuel -> in_rounds (array_set e arr i x).
Proof. intros He Hrun. apply array_set_error in Hrun. congruence. Qed.

Section FindLowerRounds.
Context {key_type : Type} `{Compare key_type}.
Variable us : list (Operation key_type).
Variable key : key_type.

Lemma find_lower_loop_eq (rounds : nat) (lo hi : Z) :
  find_lower_loop (array_get_Z UpdateIndexOutOfRange us) (S rounds) lo hi key
  = if lo <? hi then
      op ← array_get_Z UpdateIndexOutOfRange us (find_lower_mid lo hi);
      if key_less key (data op)
      then find_lower_loop (array_get_Z UpdateIndexOutOfRange us) rounds
             lo (find_lower_mid lo hi) key
      else find_lower_loop (array_get_Z UpdateIndexOutOfRange us) rounds
             (to_int (find_lower_mid lo hi + 1)) hi key
    else Ok hi.
Proof. reflexivity. Qed.

Lemma read_below_batch (mid : Z) :
  mid < 0 -> array_get_Z UpdateIndexOutOfRange us mid = Err UpdateIndexOutOfRange.
Proof. intros Hmid. unfold array_get_Z. destruct (Z.ltb_spec mid 0); [reflexivity | lia]. Qed.

Lemma shiftr_1_bounds (s : Z) : 2 * Z.shiftr s 1 <= s <= 2 * Z.shiftr s 1 + 1.
Proof.
  rewrite Z.shiftr_div_pow2 by lia. change (2 ^ 1) with 2.
  pose proof (Z.div_mod s 2 ltac:(lia)).
  pose proof (Z.mod_pos_bound s 2 ltac:(lia)). lia.
Qed.

(** From a lower end that is not negative the range is halved in every
    round. *)
Lemma find_lower_loop_halving (rounds : nat) : forall (fuel : nat) (lo hi : Z),
  0 <= lo -> hi < 2 ^ 31 -> hi - lo < 2 ^ Z.of_nat rounds ->
  (rounds < fuel)%nat ->
  in_rounds (find_lower_loop (array_get_Z UpdateIndexOutOfRange us) fuel lo hi key).
Proof.
  induction rounds as [| rounds IH]; intros fuel lo hi Hlo Hhi Hwidth Hfuel;
    (destruct fuel as [| fuel]; [lia |]); rewrite find_lower_loop_eq;
    destruct (Z.ltb_spec lo hi) as [Hlt | Hge]; try discriminate.
  - cbn in Hwidth. lia.
  - unfold find_lower_mid.
    pose proof (shiftr_1_bounds (to_int (lo + hi))) as Hmid.
    destruct (Z.lt_ge_cases (lo + hi) (2 ^ 31)) as [Hsum | Hover].
    + rewrite (to_int_small (lo + hi)) in * by lia.
      set (mid := Z.shiftr (lo + hi) 1) in *.
      rewrite Nat2Z.inj_succ, Z.pow_succ_r in Hwidth by lia.
      apply in_rounds_bind; [apply in_rounds_array_get_Z; discriminate |].
      intros op _. destruct (key_less key (data op)).
      * apply IH; lia.
      * rewrite to_int_small by lia. apply IH; lia.
    + rewrite (to_int_high (lo + hi)) in * by lia.
      rewrite read_below_batch by lia. discriminate.
Qed.

(** With a negative lower end the midpoint is read only while the upper
    end is not negative, and the upper end is halved then. *)
Lemma find_lower_loop_negative (rounds : nat) : forall (fuel : nat) (lo hi : Z),
  - 2 ^ 31 <= lo < 0 -> 0 <= hi < 2 ^ Z.of_nat rounds -> hi < 2 ^ 31 ->
  (S rounds < fuel)%nat ->
  in_rounds (find_lower_loop (array_get_Z UpdateIndexOutOfRange us) fuel lo hi key).
Proof.
  induction rounds as [| rounds IH]; intros fuel lo hi Hlo Hhi Hint Hfuel;
    (destruct fuel as [| fuel]; [lia |]); rewrite find_lower_loop_eq;
    (destruct (Z.ltb_spec lo hi) as [Hlt | Hge]; [| discriminate]);
    unfold find_lower_mid;
    pose proof (shiftr_1_bounds (to_int (lo + hi))) as Hmid;
    rewrite (to_int_small (lo + hi)) in * by lia.
  - cbn in Hhi. rewrite read_below_batch by lia. discriminate.
  - set (mid := Z.shiftr (lo + hi) 1) in *.
    rewrite Nat2Z.inj_succ, Z.pow_succ_r in Hhi by lia.
    destruct (Z.lt_ge_cases mid 0) as [Hneg | Hpos];
      [rewrite read_below_batch by lia; discriminate |].
    apply in_rounds_bind; [apply in_rounds_array_get_Z; discriminate |].
    intros op _. destruct (key_less key (data op)).
    + apply IH; lia.
    + rewrite to_int_small by lia.
      apply (find_lower_loop_halving (S rounds)); try lia.
      rewrite Nat2Z.inj_succ, Z.pow_succ_r by lia. lia.
Qed.

(** The binary search of the sequential tree ends within its 64 rounds,
    whatever the range is. *)
Lemma find_lower_in_rounds (lo hi : Z) :
  in_rounds (find_lower (array_get_Z UpdateIndexOutOfRange us) lo hi key).
Proof.
  unfold find_lower.
  pose proof (to_int_range lo) as Hlo. pose proof (to_int_range hi) as Hhi.
  generalize dependent (to_int hi). generalize dependent (to_int lo).
  clear lo hi. intros lo Hlo hi Hhi.
  destruct (Z.lt_ge_cases lo 0) as [Hneg | Hpos].
  2: { apply (find_lower_loop_halving 32); lia. }
  destruct (Z.lt_ge_cases hi 0) as [Hhneg | Hhpos].
  2: { apply (find_lower_loop_negative 31); lia. }
  rewrite (find_lower_loop_eq 63).
  destruct (Z.ltb_spec lo hi) as [Hlt | Hge]; [| discriminate].
  unfold find_lower_mid.
  pose proof (shiftr_1_bounds (to_int (lo + hi))) as Hmid.
  destruct (Z.lt_ge_cases (lo + hi) (- 2 ^ 31)) as [Hover | Hsum].
  - rewrite (to_int_low (lo + hi)) in * by lia.
    set (mid := Z.shiftr (lo + hi + 2 ^ 32) 1) in *.
    apply in_rounds_bind; [apply in_rounds_array_get_Z; discriminate |].
    intros op _. destruct (key_less key (data op)).
    + apply (find_lower_loop_negative 31); lia.
    + rewrite to_int_small by lia. rewrite (find_lower_loop_eq 62).
      destruct (Z.ltb_spec (mid + 1) hi); [lia | discriminate].
  - rewrite (to_int_small (lo + hi)) in * by lia.
    rewrite read_below_batch by lia. discriminate.
Qed.
End FindLowerRounds.


Create HintDb rounds.

Ltac rounds_step :=
  cbv beta zeta;
  lazymatch goal with
  | |- in_rounds (_ ≫= _) => apply in_rounds_bind; [| intros ? _]
  | |- in_rounds (array_get _ _ _) => apply in_rounds_array_get; discriminate
  | |- in_rounds (array_get_Z _ _ _) => apply in_rounds_array_get_Z; discriminate
  | |- in_rounds (array_set _ _ _ _) => apply in_rounds_array_set; discriminate
  | |- in_rounds (Ok _) => discriminate
  | |- in_rounds (Err _) => discriminate
  | |- in_rounds (if ?b then _ else _) => destruct b
  | |- in_rounds (match ?x with _ => _ end) => destruct x
  | |- _ => solve [auto with rounds]
  end.

Ltac rounds_tac := repeat rounds_step.

Section LeafRounds.
Context {key_type : Type} `{Compare key_type}.
Implicit Types (leaf : leaf_node key_type) (c : @merge_cursor key_type).

Lemma in_rounds_copy_one leaf c : in_rounds (copy_one leaf c).
Proof. unfold copy_one. rounds_tac. Qed.

Lemma copy_one_advances leaf c c' :
  copy_one leaf c = Ok c' ->
  in_ c' = S (in_ c) /\ (in_ c < length (leaf_slotkey leaf))%nat.
Proof.
  unfold copy_one. intros Hrun.
  apply result_bind_ok in Hrun as (y & Hy & Hrun).
  apply result_bind_ok in Hrun as (arr & _ & Hrun).
  injection Hrun as <-. split; [reflexivity |].
  unfold array_get, of_option in Hy.
  destruct (leaf_slotkey leaf !! in_ c) eqn:Hlook; [| discriminate].
  apply lookup_lt_Some in Hlook. exact Hlook.
Qed.

Lemma in_rounds_put_one (x : key_type) c : in_rounds (put_one x c).
Proof. unfold put_one. rounds_tac. Qed.

(** A copy loop reads the cell at [in_] in every round and moves [in_]
    on by one: it ends within one round more than the leaf has cells. *)
Lemma in_rounds_skip_to_delete debug leaf (x : key_type) (rounds : nat) :
  forall c,
    (length (leaf_slotkey leaf) <= rounds + in_ c)%nat ->
    in_rounds (skip_to_delete debug (S rounds) leaf x c).
Proof.
  induction rounds as [| rounds IH]; intros c Hfuel;
    cbn [skip_to_delete];
    (apply in_rounds_bind; [apply in_rounds_array_get; discriminate |]);
    intros y Hy; destruct (key_less y x); try discriminate;
    destruct (debug && negb (in_ c <? leaf_slotuse leaf)%nat); try discriminate;
    (apply in_rounds_bind; [apply in_rounds_copy_one |]);
    intros c' Hc'; apply copy_one_advances in Hc' as [Hin Hlt].
  - lia.
  - apply IH. lia.
Qed.

Lemma in_rounds_skip_to_insert leaf (x : key_type) (rounds : nat) :
  forall c,
    (length (leaf_slotkey leaf) <= rounds + in_ c)%nat ->
    in_rounds (skip_to_insert (S rounds) leaf x c).
Proof.
  induction rounds as [| rounds IH]; intros c Hfuel;
    cbn [skip_to_insert];
    (destruct (in_ c <? leaf_slotuse leaf)%nat; [| discriminate]);
    (apply in_rounds_bind; [apply in_rounds_array_get; discriminate |]);
    intros y Hy; destruct (key_less y x); try discriminate;
    (apply in_rounds_bind; [apply in_rounds_copy_one |]);
    intros c' Hc'; apply copy_one_advances in Hc' as [Hin Hlt].
  - lia.
  - apply IH. lia.
Qed.

Lemma in_rounds_merge_step debug leaf c (op : Operation key_type) :
  in_rounds (merge_step debug leaf c op).
Proof.
  unfold merge_step, leaf_rounds. destruct (type op).
  - apply in_rounds_bind; [apply in_rounds_skip_to_insert; lia |].
    intros c' _. apply in_rounds_put_one.
  - apply in_rounds_bind; [apply in_rounds_skip_to_delete; lia |].
    intros c' _. discriminate.
Qed.

Lemma in_rounds_for_each_op {S : Type}
    (step : S -> Operation key_type -> result S) (ops : list (Operation key_type)) :
  (forall st op, in_rounds (step st op)) ->
  forall st, in_rounds (for_each_op step st ops).
Proof.
  intros Hstep. induction ops as [| op ops IH]; intros st; cbn [for_each_op].
  - discriminate.
  - apply in_rounds_bind; [apply Hstep |]. intros st' _. apply IH.
Qed.

Lemma in_rounds_merge_into_spare debug (spare : leaf_node key_type) leaf
    (ops : list (Operation key_type)) :
  in_rounds (merge_into_spare debug spare leaf ops).
Proof.
  unfold merge_into_spare.
  apply in_rounds_bind;
    [apply in_rounds_for_each_op; intros; apply in_rounds_merge_step |].
  intros c _. unfold finish_merge, memcpy. rounds_tac.
Qed.

Lemma in_rounds_weightdelta_loop (rest : list (Operation key_type)) :
  forall i val wd, in_rounds (weightdelta_loop rest i val wd).
Proof.
  induction rest as [| op rest IH]; intros i val wd; cbn [weightdelta_loop];
    rounds_tac.
Qed.

Lemma in_rounds_setOperationsAndComputeWeightDelta_pure (size : Z) wd
    (ups : list (Operation key_type)) bt :
  in_rounds (setOperationsAndComputeWeightDelta_pure size wd ups bt).
Proof.
  pose proof in_rounds_weightdelta_loop.
  unfold setOperationsAndComputeWeightDelta_pure. rounds_tac.
Qed.

Lemma in_rounds_getWeightDelta_pure wd bt (b e : nat) :
  in_rounds (@getWeightDelta_pure wd bt b e).
Proof. unfold getWeightDelta_pure. rounds_tac. Qed.

Lemma in_rounds_batch_range {A} (us : list A) (b e : Z) :
  in_rounds (batch_range us b e).
Proof. unfold batch_range. rounds_tac. Qed.
End LeafRounds.

Lemma in_rounds_as_leaf (n : node) : in_rounds (as_leaf n).
Proof. unfold as_leaf. rounds_tac. Qed.

Lemma in_rounds_as_inner (n : node) : in_rounds (as_inner n).
Proof. unfold as_inner. rounds_tac. Qed.

Lemma in_rounds_set_min_element_leaf s (n : leaf_node key_type) :
  in_rounds (set_min_element_leaf s n).
Proof. unfold set_min_element_leaf. rounds_tac. Qed.

Lemma in_rounds_set_min_element_inner s slots :
  in_rounds (set_min_element_inner s slots).
Proof. unfold set_min_element_inner. rounds_tac. Qed.


#[local] Hint Resolve in_rounds_as_leaf in_rounds_as_inner
  in_rounds_set_min_element_leaf in_rounds_set_min_element_inner
  in_rounds_batch_range in_rounds_getWeightDelta_pure
  in_rounds_setOperationsAndComputeWeightDelta_pure
  in_rounds_merge_into_spare find_lower_in_rounds : rounds.

Section Rounds.
Context `{traits : btree_traits} `{flags : build_flags} `{lm : libm}.

Lemma bounded_ret {A} (a : A) (Q : A -> Prop) : Q a -> bounded (mret a) Q.
Proof. intros Ha t. exact Ha. Qed.

Lemma bounded_bind {A B} (m : M A) (f : A -> M B) (Q : A -> Prop) (R : B -> Prop) :
  bounded m Q -> (forall a, Q a -> bounded (f a) R) -> bounded (m ≫= f) R.
Proof.
  intros Hm Hf t. rewrite M_bind_run. specialize (Hm t).
  destruct (m t) as [[a t'] | e]; [apply (Hf a Hm) | exact Hm].
Qed.

Lemma bounded_then {A B} (m : M A) (f : A -> M B) (R : B -> Prop) :
  bounded m (fun _ => True) -> (forall a, bounded (f a) R) -> bounded (m ≫= f) R.
Proof. intros Hm Hf. apply (bounded_bind m f (fun _ => True)); auto. Qed.

Lemma bounded_weaken {A} (m : M A) (Q Q' : A -> Prop) :
  bounded m Q -> (forall a, Q a -> Q' a) -> bounded m Q'.
Proof.
  intros Hm HQ t. specialize (Hm t).
  destruct (m t) as [[a t'] | e]; [apply HQ |]; exact Hm.
Qed.

Lemma bounded_loose {A} (m : M A) (Q : A -> Prop) :
  bounded m Q -> bounded m (fun _ => True).
Proof. intros Hm. apply (bounded_weaken m Q); auto. Qed.

Lemma bounded_gets {A} (f : btree -> A) : bounded (gets f) (fun _ => True).
Proof. intros t. exact I. Qed.

Lemma bounded_get : bounded get (fun _ => True).
Proof. intros t. exact I. Qed.

Lemma bounded_modify (f : btree -> btree) : bounded (modify f) (fun _ => True).
Proof. intros t. exact I. Qed.

Lemma bounded_lift {A} (r : result A) :
  in_rounds r -> bounded (lift r) (fun _ => True).
Proof.
  intros Hr t. unfold lift. destruct r as [a | e]; [exact I |].
  intros ->. apply Hr. reflexivity.
Qed.

Lemma bounded_fail {A} (e : error) (Q : A -> Prop) :
  e <> OutOfFuel -> bounded (@fail A e) Q.
Proof. intros He t. exact He. Qed.

Ltac bounded_step :=
  cbv beta zeta;
  lazymatch goal with
  | |- bounded (mret _) _ => apply bounded_ret; exact I
  | |- bounded (_ ≫= _) _ => apply bounded_then; [| intro]
  | |- bounded (gets _) _ => apply bounded_gets
  | |- bounded get _ => apply bounded_get
  | |- bounded (modify _) _ => apply bounded_modify
  | |- bounded (lift _) _ => apply bounded_lift; rounds_tac
  | |- bounded (fail _) _ => apply bounded_fail; discriminate
  | |- bounded (if ?b then _ else _) _ => destruct b
  | |- bounded (match ?x with _ => _ end) _ => destruct x
  | |- _ => solve [auto with rounds]
  end.

Ltac bounded_tac := repeat bounded_step.

Lemma bounded_BTREE_ASSERT (x : bool) : bounded (BTREE_ASSERT x) (fun _ => True).
Proof. unfold BTREE_ASSERT. bounded_tac. Qed.
#[local] Hint Resolve bounded_BTREE_ASSERT : rounds.

Lemma bounded_allocate_leaf : bounded allocate_leaf (fun _ => True).
Proof. unfold allocate_leaf. bounded_tac. Qed.
#[local] Hint Resolve bounded_allocate_leaf : rounds.

Lemma bounded_allocate_inner (level : nat) :
  bounded (allocate_inner level) (fun _ => True).
Proof. unfold allocate_inner. bounded_tac. Qed.
#[local] Hint Resolve bounded_allocate_inner : rounds.

Lemma bounded_free_node (n : node) : bounded (free_node n) (fun _ => True).
Proof. unfold free_node. bounded_tac. Qed.
#[local] Hint Resolve bounded_free_node : rounds.

Lemma bounded_clear_recursive (n : node) :
  bounded (clear_recursive n) (fun _ => True).
Proof.
  induction n as [l | level slots IH] using node_induction.
  - cbn [clear_recursive]. bounded_tac.
  - cbn [clear_recursive]. apply bounded_then; [| intro; bounded_tac].
    induction IH as [| s ss Hs _ IHss]; bounded_tac.
Qed.
#[local] Hint Resolve bounded_clear_recursive : rounds.

Lemma bounded_clear : bounded clear (fun _ => True).
Proof. unfold clear. bounded_tac. Qed.
#[local] Hint Resolve bounded_clear : rounds.

Lemma bounded_push_fresh_leaves (count : nat) :
  bounded (push_fresh_leaves count) (fun _ => True).
Proof. induction count as [| count IH]; cbn [push_fresh_leaves]; bounded_tac. Qed.
#[local] Hint Resolve bounded_push_fresh_leaves : rounds.

Lemma bounded_allocate_new_leaves (n : Z) :
  bounded (allocate_new_leaves n) (fun _ => True).
Proof. unfold allocate_new_leaves. bounded_tac. Qed.
#[local] Hint Resolve bounded_allocate_new_leaves : rounds.

Lemma bounded_create_subtree_from_leaves (level : nat) :
  forall slot reuse_outnode rank_begin rank_end,
    bounded (create_subtree_from_leaves slot reuse_outnode level rank_begin rank_end)
            (fun _ => True).
Proof.
  induction level as [| level IH]; intros slot reuse_outnode rank_begin rank_end.
  - cbn [create_subtree_from_leaves]. bounded_tac.
  - cbn [create_subtree_from_leaves]. cbv zeta.
    repeat (apply bounded_then; [solve [bounded_tac] | intro]).
    apply bounded_then; [| intro; bounded_tac].
    set (fill := fix fill (count : nat) (i rank : Z) (acc : list inner_node_data)
                   : M (list inner_node_data) := _).
    assert (Hfill : forall count i rank acc,
               bounded (fill count i rank acc) (fun _ => True)).
    { induction count as [| count IHcount]; intros i rank acc; cbn [fill];
        bounded_tac. }
    apply Hfill.
Qed.
#[local] Hint Resolve bounded_create_subtree_from_leaves : rounds.

Lemma bounded_hasNextLeaf (leaf_count : Z) :
  bounded (hasNextLeaf leaf_count) (fun _ => True).
Proof. unfold hasNextLeaf. bounded_tac. Qed.
#[local] Hint Resolve bounded_hasNextLeaf : rounds.

Lemma bounded_leaves_at (i : nat) : bounded (leaves_at i) (fun _ => True).
Proof. unfold leaves_at. bounded_tac. Qed.
#[local] Hint Resolve bounded_leaves_at : rounds.

Lemma bounded_set_leaves_at (i : nat) (l : leaf_node key_type) :
  bounded (set_leaves_at i l) (fun _ => True).
Proof. unfold set_leaves_at. bounded_tac. Qed.
#[local] Hint Resolve bounded_set_leaves_at : rounds.

Lemma bounded_write_slotuse (n : nat) (c : write_cursor) :
  bounded (write_slotuse n c) (fun _ => True).
Proof. unfold write_slotuse. bounded_tac. Qed.
#[local] Hint Resolve bounded_write_slotuse : rounds.

Lemma bounded_write_key (x : key_type) (c : write_cursor) :
  bounded (write_key x c) (fun c' => w_in c' = w_in c).
Proof.
  unfold write_key.
  repeat (apply bounded_then; [solve [bounded_tac] | intro]).
  apply bounded_ret. reflexivity.
Qed.

Lemma bounded_next_leaf_if_full (more : bool) (c : write_cursor) :
  bounded (next_leaf_if_full more c) (fun c' => w_in c' = w_in c).
Proof.
  unfold next_leaf_if_full. apply bounded_then; [bounded_tac | intro has_next].
  destruct ((Z.of_nat (w_out c) =? designated_leafsize) && has_next && more).
  - repeat (apply bounded_then; [solve [bounded_tac] | intro]).
    apply bounded_ret. reflexivity.
  - apply bounded_ret. reflexivity.
Qed.
Lemma bounded_stream_one (leaf : leaf_node key_type) (c : write_cursor) :
  bounded (stream_one leaf c)
          (fun c' => w_in c' = S (w_in c)
                     /\ (w_in c < length (leaf_slotkey leaf))%nat).
Proof.
  unfold stream_one. intros t. rewrite M_bind_run. unfold lift at 1.
  destruct (array_get KeyIndexOutOfRange (leaf_slotkey leaf) (w_in c))
    as [y | e] eqn:Hy; [| apply array_get_error in Hy; congruence].
  assert (Hlt : (w_in c < length (leaf_slotkey leaf))%nat).
  { unfold array_get, of_option in Hy.
    destruct (leaf_slotkey leaf !! w_in c) eqn:Hlook; [| discriminate].
    apply lookup_lt_Some in Hlook. exact Hlook. }
  revert t. change (bounded (c1 ← write_key y c;
                             next_leaf_if_full true
                               (mk_write_cursor (S (w_in c1)) (w_out c1)
                                                (w_leaf_number c1)))
                            (fun c' => w_in c' = S (w_in c)
                                       /\ (w_in c < length (leaf_slotkey leaf))%nat)).
  apply (bounded_bind _ _ _ _ (bounded_write_key y c)). intros c1 Hc1.
  apply (bounded_weaken _ _ _ (bounded_next_leaf_if_full true _)).
  intros c' Hc'. cbn [w_in] in Hc'. split; [congruence | exact Hlt].
Qed.

(** The streaming loops read the cell at [in] in every round and move
    [in] on by one, as the copy loops of the patched leaf do. *)
Lemma bounded_stream_to_delete leaf (x : key_type) (rounds : nat) :
  forall c,
    (length (leaf_slotkey leaf) <= rounds + w_in c)%nat ->
    bounded (stream_to_delete (S rounds) leaf x c) (fun _ => True).
Proof.
  induction rounds as [| rounds IH]; intros c Hfuel;
    cbn [stream_to_delete];
    (apply bounded_then; [bounded_tac | intro y]);
    (destruct (key_less y x); [| bounded_tac]);
    (apply bounded_then; [bounded_tac | intros _]);
    apply (bounded_bind _ _ _ _ (bounded_stream_one leaf c));
    intros c' [Hin Hlt].
  - lia.
  - apply IH. lia.
Qed.

Lemma bounded_stream_to_insert leaf (x : key_type) (rounds : nat) :
  forall c,
    (length (leaf_slotkey leaf) <= rounds + w_in c)%nat ->
    bounded (stream_to_insert (S rounds) leaf x c) (fun _ => True).
Proof.
  induction rounds as [| rounds IH]; intros c Hfuel;
    cbn [stream_to_insert];
    (destruct (w_in c <? leaf_slotuse leaf)%nat; [| bounded_tac]);
    (apply bounded_then; [bounded_tac | intro y]);
    (destruct (key_less y x); [| bounded_tac]);
    apply (bounded_bind _ _ _ _ (bounded_stream_one leaf c));
    intros c' [Hin Hlt].
  - lia.
  - apply IH. lia.
Qed.

Lemma bounded_stream_step leaf c op :
  bounded (stream_step leaf c op) (fun _ => True).
Proof.
  unfold stream_step, leaf_rounds. destruct (type op).
  - apply bounded_then; [apply bounded_stream_to_insert; lia | intro c'].
    apply bounded_then; [apply (bounded_loose _ _ (bounded_write_key _ _)) |].
    intro c''. apply (bounded_loose _ _ (bounded_next_leaf_if_full _ _)).
  - apply bounded_then; [apply bounded_stream_to_delete; lia | intro c'].
    bounded_tac.
Qed.
#[local] Hint Resolve bounded_stream_step : rounds.

Lemma bounded_stream_loop leaf ops :
  forall c, bounded (stream_loop leaf c ops) (fun _ => True).
Proof. induction ops as [| op ops IH]; intros c; cbn [stream_loop]; bounded_tac. Qed.
#[local] Hint Resolve bounded_stream_loop : rounds.

Lemma bounded_stream_rest leaf (rounds : nat) :
  forall c,
    (length (leaf_slotkey leaf) <= rounds + w_in c)%nat ->
    bounded (stream_rest (S rounds) leaf c) (fun _ => True).
Proof.
  induction rounds as [| rounds IH]; intros c Hfuel;
    cbn [stream_rest];
    (destruct (w_in c <? leaf_slotuse leaf)%nat; [| bounded_tac]);
    intros t; rewrite M_bind_run; unfold lift at 1;
    (destruct (array_get KeyIndexOutOfRange (leaf_slotkey leaf) (w_in c))
       as [y | e] eqn:Hy; [| apply array_get_error in Hy; congruence]);
    unfold array_get, of_option in Hy;
    (destruct (leaf_slotkey leaf !! w_in c) eqn:Hlook; [| discriminate]);
    apply lookup_lt_Some in Hlook.
  - lia.
  - revert t.
    change (bounded
              (c1 ← write_key y c;
               c3 ← next_leaf_if_full
                      (S (w_in c1) <? leaf_slotuse leaf)%nat
                      (mk_write_cursor (S (w_in c1)) (w_out c1) (w_leaf_number c1));
               stream_rest (S rounds) leaf c3)
              (fun _ => True)).
    apply (bounded_bind _ _ _ _ (bounded_write_key y c)). intros c1 Hc1.
    apply (bounded_bind _ _ _ _ (bounded_next_leaf_if_full _ _)).
    intros c3 Hc3. cbn [w_in] in Hc3. apply IH. lia.
Qed.

Lemma bounded_write_updated_leaf_to_new_tree n rank upd :
  bounded (write_updated_leaf_to_new_tree n rank upd) (fun _ => True).
Proof.
  unfold write_updated_leaf_to_new_tree, leaf_rounds.
  apply bounded_then; [bounded_tac | intro ls].
  destruct (first_leaf_position rank (Z.of_nat (length ls))) as [leaf_number offset].
  repeat (apply bounded_then; [solve [bounded_tac] | intro]).
  apply bounded_then; [apply bounded_stream_rest; lia | intro]. bounded_tac.
Qed.
#[local] Hint Resolve bounded_write_updated_leaf_to_new_tree : rounds.

Lemma bounded_update_leaf_in_current_tree slot upd :
  bounded (update_leaf_in_current_tree slot upd) (fun _ => True).
Proof. unfold update_leaf_in_current_tree. bounded_tac. Qed.
#[local] Hint Resolve bounded_update_leaf_in_current_tree : rounds.

Lemma bounded_getWeightDelta upd_begin upd_end :
  bounded (getWeightDelta upd_begin upd_end) (fun _ => True).
Proof. unfold getWeightDelta. bounded_tac. Qed.
#[local] Hint Resolve bounded_getWeightDelta : rounds.

Lemma bounded_scheduleSubTreeUpdate w mn mx b e :
  bounded (scheduleSubTreeUpdate w mn mx b e) (fun _ => True).
Proof. unfold scheduleSubTreeUpdate. bounded_tac. Qed.
#[local] Hint Resolve bounded_scheduleSubTreeUpdate : rounds.

Lemma bounded_find_lower_in_batch lo hi key :
  bounded (find_lower_in_batch lo hi key) (fun _ => True).
Proof. unfold find_lower_in_batch. bounded_tac. Qed.
#[local] Hint Resolve bounded_find_lower_in_batch : rounds.

Lemma bounded_distribute slots mn mx e :
  forall b acc, bounded (distribute slots mn mx b e acc) (fun _ => True).
Proof.
  induction slots as [| s slots IH]; intros b acc;
    [cbn [distribute] | rewrite distribute_cons]; bounded_tac.
Qed.
#[local] Hint Resolve bounded_distribute : rounds.

Lemma bounded_schedule_all slots level upd :
  bounded (schedule_all slots level upd) (fun _ => True).
Proof. unfold schedule_all. bounded_tac. Qed.
#[local] Hint Resolve bounded_schedule_all : rounds.

Lemma bounded_clear_range range : bounded (clear_range range) (fun _ => True).
Proof. induction range as [| s range IH]; cbn [clear_range]; bounded_tac. Qed.
#[local] Hint Resolve bounded_clear_range : rounds.

Lemma bounded_size : bounded size (fun _ => True).
Proof. unfold size. bounded_tac. Qed.
#[local] Hint Resolve bounded_size : rounds.

Lemma bounded_setOperationsAndComputeWeightDelta ups bt :
  bounded (setOperationsAndComputeWeightDelta ups bt) (fun _ => True).
Proof. unfold setOperationsAndComputeWeightDelta. bounded_tac. Qed.
#[local] Hint Resolve bounded_setOperationsAndComputeWeightDelta : rounds.
Lemma bounded_lift_bind {A B} (r : result A) (f : A -> M B) (Q : B -> Prop) :
  in_rounds r -> (forall a, r = Ok a -> bounded (f a) Q) ->
  bounded (lift r ≫= f) Q.
Proof.
  intros Hr Hf t. rewrite M_bind_run. unfold lift.
  destruct r as [a | e]; [apply (Hf a eq_refl) |].
  intros ->. apply Hr. reflexivity.
Qed.

Lemma node_depth_children (level : nat) (slots : list inner_node_data) (depth : nat) :
  (node_depth (Inner level slots) <= S depth)%nat ->
  Forall (fun s => (node_depth (childid s) <= depth)%nat) slots.
Proof.
  cbn [node_depth]. intros Hdepth. apply le_S_n in Hdepth.
  induction slots as [| s slots IH]; constructor.
  - lia.
  - apply IH. lia.
Qed.

Lemma node_depth_positive (n : node) : (1 <= node_depth n)%nat.
Proof. destruct n; cbn [node_depth]; lia. Qed.

Section RoundsLoops.
Variable update_rec :
  inner_node_data -> Z -> UpdateDescriptor -> bool -> M inner_node_data.
Variable depth : nat.
Hypothesis bounded_update_rec :
  forall s r d w,
    (node_depth (childid s) <= depth)%nat ->
    bounded (update_rec s r d w) (fun _ => True).

Lemma bounded_updateSubTreesInRange (slots : list inner_node_data) :
  Forall (fun s => (node_depth (childid s) <= depth)%nat) slots ->
  forall ds rank rewrite_subtree,
    bounded (updateSubTreesInRange update_rec (zip slots ds) rank rewrite_subtree)
            (fun _ => True).
Proof.
  induction 1 as [| s slots Hs _ IH]; intros ds rank rewrite_subtree.
  - cbn. bounded_tac.
  - destruct ds as [| d ds]; [cbn; bounded_tac |].
    cbn [zip zip_with updateSubTreesInRange]. bounded_tac.
Qed.

(** Every round of the rebalancing loop moves [in_] on: over the run that
    the scan found, or by the one slot that is copied. *)
Lemma bounded_rebalance_loop inner_level (slots : list inner_node_data)
    subtree_updates designated_treesize :
  Forall (fun s => (node_depth (childid s) <= depth)%nat) slots ->
  forall (rounds in_ : nat) result,
    (length slots <= rounds + in_)%nat ->
    bounded (rebalance_loop update_rec (S rounds) inner_level slots subtree_updates
               designated_treesize in_ result)
            (fun _ => True).
Proof.
  intros Hslots. pose proof bounded_updateSubTreesInRange as Hrange.
  induction rounds as [| rounds IH]; intros in_ result Hfuel.
  { cbn [rebalance_loop].
    destruct (Nat.ltb_spec in_ (length slots)) as [Hlt | Hge]; [lia | bounded_tac]. }
  set (fuel := S rounds) in *. cbn [rebalance_loop].
  destruct (Nat.ltb_spec in_ (length slots)) as [Hlt | Hge]; [| bounded_tac].
  destruct (scan_run (drop in_ subtree_updates) in_ 0 false designated_treesize)
    as [[in' w] open] eqn:Hscan.
  apply scan_run_spec in Hscan as (Hin & Hopen & _). cbn [orb] in Hopen.
  destruct open.
  - symmetry in Hopen. apply Nat.ltb_lt in Hopen.
    assert (Hnext : forall result',
               bounded (rebalance_loop update_rec fuel inner_level slots
                          subtree_updates designated_treesize in' result')
                       (fun _ => True)).
    { intros result'. apply IH. lia. }
    assert (Hsub : Forall (fun s => (node_depth (childid s) <= depth)%nat)
                          (take (in' - in_) (drop in_ slots))).
    { apply Forall_take, Forall_drop. exact Hslots. }
    bounded_tac.
  - apply bounded_lift_bind; [rounds_tac |]. intros s Hs.
    assert (Hdepth : (node_depth (childid s) <= depth)%nat).
    { unfold array_get, of_option in Hs.
      destruct (slots !! in_) as [s' |] eqn:Hlook; [| discriminate].
      injection Hs as <-. rewrite Forall_lookup in Hslots.
      exact (Hslots _ _ Hlook). }
    assert (Hnext : forall result',
               bounded (rebalance_loop update_rec fuel inner_level slots
                          subtree_updates designated_treesize (S in_) result')
                       (fun _ => True)).
    { intros result'. apply IH. lia. }
    assert (Hupdate : forall r d rw,
               bounded (update_rec (set_weight (upd_weight d) s) r d rw)
                       (fun _ => True)).
    { intros r d rw. apply bounded_update_rec. exact Hdepth. }
    bounded_tac.
Qed.

Lemma bounded_rebalance_loop_start inner_level (slots : list inner_node_data)
    subtree_updates designated_treesize result :
  Forall (fun s => (node_depth (childid s) <= depth)%nat) slots ->
  bounded (rebalance_loop update_rec (S (length slots)) inner_level slots
             subtree_updates designated_treesize 0 result)
          (fun _ => True).
Proof. intros Hslots. apply bounded_rebalance_loop; [exact Hslots | lia]. Qed.
End RoundsLoops.

(** The recursion of [update] goes down one level of the tree with every
    call. *)
Lemma bounded_update (depth : nat) :
  forall slot rank upd rewrite_subtree,
    (node_depth (childid slot) <= depth)%nat ->
    bounded (update depth slot rank upd rewrite_subtree) (fun _ => True).
Proof.
  induction depth as [| depth IH]; intros slot rank upd rewrite_subtree Hdepth.
  - pose proof (node_depth_positive (childid slot)). lia.
  - cbn [update]. apply bounded_then; [| intro; bounded_tac].
    destruct (isleafnode (childid slot)); [bounded_tac |].
    apply bounded_lift_bind; [rounds_tac |]. intros slots Hslots.
    assert (Hchildren : Forall (fun s => (node_depth (childid s) <= depth)%nat) slots).
    { destruct (childid slot) as [l | level slots']; [discriminate |].
      injection Hslots as <-. exact (node_depth_children level slots' depth Hdepth). }
    pose proof (bounded_updateSubTreesInRange (update depth) depth IH slots Hchildren)
      as Hrange.
    pose proof (fun level sus d r =>
                  bounded_rebalance_loop_start (update depth) depth IH level slots
                    sus d r Hchildren) as Hloop.
    bounded_tac.
Qed.
Lemma bounded_update_root (n : node) rank upd rewrite_subtree :
  bounded (update (S (node_depth n)) (set_childid n unassigned_slot) rank upd
             rewrite_subtree)
          (fun _ => True).
Proof. apply bounded_update. cbn. lia. Qed.
#[local] Hint Resolve bounded_update_root : rounds.

Lemma in_rounds_num_optimal_levels (n : Z) : in_rounds (num_optimal_levels n).
Proof.
  unfold num_optimal_levels, level_type_of_ceil. rounds_tac.
Qed.
#[local] Hint Resolve in_rounds_num_optimal_levels : rounds.

Lemma bounded_apply_updates ups bt :
  bounded (apply_updates ups bt) (fun _ => True).
Proof. unfold apply_updates. bounded_tac. Qed.
End Rounds.

(** X22: a run of [apply_updates] never stops for lack of rounds: it
    returns, or it stops at an error of the code (an index outside an
    array, a failed assertion, a number that does not convert), where the
    C++ is undefined or aborts and nothing is said about it.  Up to there
    the binary search of a batch range takes at most 64 rounds, a copy loop
    over a leaf at most one round more than the leaf has cells, the
    rebalancing loop of a node at most one round more than the node has
    slots, and the recursion of [update] at most one call more than the
    tree is deep. *)
Theorem apply_updates_within_rounds `{traits : btree_traits} `{flags : build_flags}
    `{lm : libm}
    (ups : list (Operation key_type)) (bt : OperationBatchType) (t : btree) :
  apply_updates ups bt t <> Err OutOfFuel.
Proof.
  pose proof (bounded_apply_updates ups bt t) as Hrun. intros Hfuel.
  rewrite Hfuel in Hrun. apply Hrun. reflexivity.
Qed.
